(** * Segment pipeline of the document translation workbench

    A shallow embedding of
      - [src/utils/fileReassembler.ts]  (translation lookup, the two
        passes of the DOCX/PPTX reassembler with the dominant-run merge,
        and the layout of the PDF reassembler),
      - [src/utils/fileParser.ts]       ([escapeHtml] and the paragraphs
        of a PDF page),
      - [src/services/geminiService.ts] (the translation client and its
        retry loop),
      - [src/services/mockBackend.ts]   ([tokenizeHtml], starting and
        deleting files, scope of a run, batch loop, progress reporting,
        download filter),
    followed by the properties of the specification that concern them and
    by further properties of the code.

    Conventions of the embedding.
      - A JavaScript string is the list of its UTF-16 code units
        ([jsstring]); its [length] is the length of the list.
      - A JavaScript number that the code uses as a count, an index, a
        status code or a page number is an integer ([Z]); any other
        number is the rational it stands for ([Q]).  The progress
        percentage, the backoff delay and [parseInt] round their results
        to binary64 as the code's arithmetic does ([Double]).  The
        positions on a PDF page are exact rationals.
      - The segments that the code mutates in place live in the job's
        [segments] list; the code's arrays of references into it
        ([segmentsToProcess], [currentBatch]) are lists of positions, so
        that a write through one of them is seen through the job.
      - The remote model, [Math.random] and the font of the PDF are
        parameters: any behaviour of theirs is covered.
      - [broadcast] appends to a trace.  Awaiting the translation client
        appends an [Invoked] entry, which also records what the job's
        segments looked like at that moment.  Timers ([setTimeout]) only
        show as the list of backoff delays of a client call; listeners
        and the console are left out.  The file queue and the flag
        [isProcessingFile] are part of [Service].  [Backend.processFile]
        is a run taken as a whole: calls that arrive while it waits are
        not interleaved with it.  [Backend.beginFile] is the part of a
        run before its first [await], which is what has happened when
        the call of [startProcessing] that set it off returns. *)

From Stdlib Require Import ZArith QArith Qround Qpower Qabs Lia Lqa.
From Stdlib Require Import List Bool String Ascii Sorted.
From Stdlib Require DecimalNat DecimalString.
From stdpp Require Import base option list gmap.
From Equations Require Import Equations.

Local Open Scope Z_scope.

(** ** JavaScript strings *)

Module JS.

Definition jsstring := list N.

(** Code units of an ASCII literal. *)
Definition lit (s : String.string) : jsstring :=
  List.map N_of_ascii (list_ascii_of_string s).

(** ECMAScript [WhiteSpace] and [LineTerminator] code units: the class
    [\s] of a regular expression and what [String.prototype.trim] strips. *)
Definition isWhiteSpace (c : N) : bool :=
  ((9 <=? c) && (c <=? 13) || (c =? 32) || (c =? 160) || (c =? 5760)
   || (8192 <=? c) && (c <=? 8202) || (c =? 8232) || (c =? 8233)
   || (c =? 8239) || (c =? 8287) || (c =? 12288) || (c =? 65279))%N.

Fixpoint trimStart (s : jsstring) : jsstring :=
  match s with
  | c :: r => if isWhiteSpace c then trimStart r else s
  | [] => []
  end.

Definition trimEnd (s : jsstring) : jsstring := rev (trimStart (rev s)).

Definition trim (s : jsstring) : jsstring := trimEnd (trimStart s).

(** Truthiness of a string: non-empty. *)
Definition truthy (s : jsstring) : bool :=
  match s with [] => false | _ => true end.

(** [a || b] on strings. *)
Definition orElse (a b : jsstring) : jsstring := if truthy a then a else b.

Definition strlen (s : jsstring) : Z := Z.of_nat (length s).

(** Truthiness of an optional number: defined and not zero. *)
Definition numTruthy (v : option Z) : bool :=
  match v with Some n => negb (n =? 0) | None => false end.

(** [a || b] on optional numbers. *)
Definition orNum (a b : option Z) : option Z := if numTruthy a then a else b.

Fixpoint startsWith (p s : jsstring) : bool :=
  match p, s with
  | [], _ => true
  | a :: p', b :: s' => (a =? b)%N && startsWith p' s'
  | _ :: _, [] => false
  end.

(** [s.includes(p)] *)
Fixpoint includes (s p : jsstring) : bool :=
  startsWith p s || match s with [] => false | _ :: r => includes r p end.

(** [parts.join(sep)] *)
Fixpoint join (sep : jsstring) (parts : list jsstring) : jsstring :=
  match parts with
  | [] => []
  | [p] => p
  | p :: rest => p ++ sep ++ join sep rest
  end.

(** *** The regular expression [/\s*\|\|\|\s*/]

    [exec s] runs the expression anchored at the head of [s] and returns
    what is left of [s] after the match.  [\s*] is greedy, and giving back
    white space never helps since the next unit must be the bar [|]: so the
    match skips the whole run of white space, requires three bars and skips
    the run of white space behind them. *)
Definition bar : N := 124%N.

Definition exec (s : jsstring) : option jsstring :=
  match trimStart s with
  | c1 :: c2 :: c3 :: r =>
      if ((c1 =? bar) && (c2 =? bar) && (c3 =? bar))%N
      then Some (trimStart r) else None
  | _ => None
  end.

(** [s.split(/\s*\|\|\|\s*/)], following SplitMatcher of the language
    definition: [q] walks over the string, [cur] holds (reversed) the units
    between the end [p] of the last match and [q]; a match at [q] closes the
    current part and moves both [p] and [q] behind the match.  The
    expression never matches the empty string, so the empty-match case of
    the algorithm does not arise, and the empty string splits into one
    empty part. *)
Definition inspect {A} (x : A) : {y : A | x = y} := exist _ x eq_refl.

Equations? splitFrom (s : jsstring) (cur : jsstring) : list jsstring
  by wf (length s) lt :=
splitFrom [] cur := [rev cur];
splitFrom (c :: rest) cur with inspect (exec (c :: rest)) := {
  | exist _ (Some r) Hm => rev cur :: splitFrom r []
  | exist _ None _ => splitFrom rest (c :: cur)
}.
Proof.
  assert (Hlen : ∀ u : jsstring, (length (trimStart u) <= length u)%nat).
  { induction u as [|x u IH]; simpl; [lia|].
    destruct (isWhiteSpace x); simpl; lia. }
  unfold exec in Hm. pose proof (Hlen (c :: rest)) as Hs.
  destruct (trimStart (c :: rest)) as [|c1 [|c2 [|c3 u]]]; try discriminate.
  destruct ((c1 =? bar) && (c2 =? bar) && (c3 =? bar))%N; [|discriminate].
  injection Hm as <-. pose proof (Hlen u). simpl in Hs. lia.
Qed.

Definition split (s : jsstring) : list jsstring := splitFrom s [].

(** *** Vocabulary for statements about [trim] and [split] *)

Definition blank (s : jsstring) : Prop := Forall (λ c, isWhiteSpace c = true) s.
Definition nonblank (s : jsstring) : Prop := Exists (λ c, isWhiteSpace c = false) s.

Definition bars : jsstring := [bar; bar; bar].

(** A piece of text that the split leaves in one part: it has no three
    bars in a row and starts and ends with a unit that is not white
    space. *)
Record solid (m : jsstring) : Prop := mkSolid {
  solid_bars : includes m bars = false;
  solid_head : ∃ c r, m = c :: r ∧ isWhiteSpace c = false;
  solid_last : ∃ r c, m = r ++ [c] ∧ isWhiteSpace c = false
}.

(** An original text that survives the round trip through the joined
    block: not blank, and without three bars in a row. *)
Definition good (o : jsstring) : Prop :=
  nonblank o ∧ includes o bars = false.

(** What may follow a solid piece: nothing, or white space. *)
Definition gapAhead (rest : jsstring) : Prop :=
  rest = [] ∨ ∃ c r, rest = c :: r ∧ isWhiteSpace c = true.

(** [Delimited ms s]: [s] consists of the solid pieces [ms], separated by
    three bars with white space around them (at least one unit before
    the bars), and followed by white space only. *)
Inductive Delimited : list jsstring → jsstring → Prop :=
  | Delimited_one m post :
      solid m → blank post → Delimited [m] (m ++ post)
  | Delimited_more m a b ms s :
      solid m → blank a → a ≠ [] → blank b → Delimited ms s →
      Delimited (m :: ms) (m ++ a ++ bars ++ b ++ s).

End JS.

Import JS.

(** ** JavaScript numbers *)

(** The arithmetic of IEEE 754 binary64 on the rationals: an operation
    yields the double nearest to the exact result, a tie going to the one
    with the even significand.  Subnormal results are covered (the grid
    never gets finer than 2^-1074); overflow to [Infinity] is not, the
    callers stay below 2^1024 or test for it. *)
Module Double.

(** The integer nearest to [x], a tie going to the even one. *)
Definition roundEven (x : Q) : Z :=
  let f := Qfloor x in
  match (x - inject_Z f ?= 1 # 2)%Q with
  | Lt => f
  | Gt => f + 1
  | Eq => if Z.even f then f else f + 1
  end.

(** For [0 < x], the [e] with [2^e <= x < 2^(e+1)]. *)
Definition exponent (x : Q) : Z :=
  let s := Z.log2 (Zpos (Qden x)) + 1 in
  Z.log2 (Qnum x * 2 ^ s / Zpos (Qden x)) - s.

(** The distance between neighbouring doubles around [0 < x]: 53
    significant bits, and no step below 2^-1074. *)
Definition ulp (x : Q) : Q := (2 ^ Z.max (exponent x - 52) (-1074))%Q.

Definition nearest (x : Q) : Q :=
  (inject_Z (roundEven (x / ulp x)) * ulp x)%Q.

Definition round (x : Q) : Q :=
  match (x ?= 0)%Q with
  | Eq => 0%Q
  | Gt => nearest x
  | Lt => (- nearest (- x))%Q
  end.

Definition add (x y : Q) : Q := round (x + y).
Definition mul (x y : Q) : Q := round (x * y).
Definition div (x y : Q) : Q := round (x / y).

(** [x] is a double. *)
Definition representable (x : Q) : Prop := (round x == x)%Q.

End Double.

(** ** [src/types.ts] *)

Inductive MessageType :=
  | BATCH_INIT | FILE_READY | FILE_PROGRESS | SEGMENT_TRANSLATION
  | SEGMENT_WARNING | FILE_COMPLETE | BATCH_COMPLETE.

Inductive SegmentStatus := SegPending | SegTranslating | SegCompleted | SegWarning.

Inductive JobStatus := JobIdle | JobQueued | JobProcessing | JobCompleted | JobError.

Module Segment.
Record t := mk {
  id : jsstring;
  index : Z;
  original : jsstring;
  translated : jsstring;
  status : SegmentStatus;
  warningMessage : option jsstring;
  pageNumber : option Z
}.

Definition set_translated (v : jsstring) (s : t) : t :=
  mk (id s) (index s) (original s) v (status s) (warningMessage s) (pageNumber s).
Definition set_status (v : SegmentStatus) (s : t) : t :=
  mk (id s) (index s) (original s) (translated s) v (warningMessage s) (pageNumber s).
Definition set_warningMessage (v : jsstring) (s : t) : t :=
  mk (id s) (index s) (original s) (translated s) (status s) (Some v) (pageNumber s).
End Segment.

Module PageRange.
Record t := mk { start : Z; end_ : Z }.
End PageRange.

Module FileJob.
Record t := mk {
  id : jsstring;
  name : jsstring;
  type : jsstring;
  size : Z;
  status : JobStatus;
  progress : Z;
  segments : list Segment.t;
  htmlContent : jsstring;
  sourceLang : jsstring;
  targetLang : jsstring;
  pageCount : option Z;
  selectedRange : option PageRange.t
}.

Definition set_status (v : JobStatus) (j : t) : t :=
  mk (id j) (name j) (type j) (size j) v (progress j) (segments j)
     (htmlContent j) (sourceLang j) (targetLang j) (pageCount j) (selectedRange j).
Definition set_progress (v : Z) (j : t) : t :=
  mk (id j) (name j) (type j) (size j) (status j) v (segments j)
     (htmlContent j) (sourceLang j) (targetLang j) (pageCount j) (selectedRange j).
Definition set_segments (v : list Segment.t) (j : t) : t :=
  mk (id j) (name j) (type j) (size j) (status j) (progress j) v
     (htmlContent j) (sourceLang j) (targetLang j) (pageCount j) (selectedRange j).
End FileJob.

(** The shapes of [payload] that the backend sends. *)
Inductive Payload :=
  | PayloadJob (job : FileJob.t)
  | PayloadProgress (progress : Z) (status : option JobStatus)
                    (selectedRange : option PageRange.t)
  | PayloadTranslation (translated original : jsstring)
                       (status : option SegmentStatus)
  | PayloadWarning (message : option jsstring).

Module WebSocketMessage.
Record t := mk {
  type : MessageType;
  batchId : option jsstring;
  fileId : option jsstring;
  segmentId : option jsstring;
  index : option Z;
  payload : option Payload
}.
End WebSocketMessage.

(** ** [src/utils/fileReassembler.ts] *)

Module Reassembler.

(** The lookup built by [reassembleFile]: trimmed original text to
    translated text, later segments overwriting earlier ones. *)
Definition translationMap (segments : list Segment.t) : gmap jsstring jsstring :=
  fold_left
    (λ m seg,
       if truthy (Segment.translated seg) && truthy (Segment.original seg)
       then <[trim (Segment.original seg) := Segment.translated seg]> m
       else m)
    segments ∅.

(** [/[^\s_]/.test(text)] *)
Definition hasMeaningfulContent (text : jsstring) : bool :=
  existsb (λ c, negb (isWhiteSpace c || (c =? 95)%N)) text.

(** A text-run element ([w:t] or [a:t]) with the two attributes the
    reassembler writes. *)
Record TextNode := mkNode {
  textContent : jsstring;
  xml_space : option jsstring;
  data_translated : option jsstring
}.

Definition run (text : jsstring) : TextNode := mkNode text None None.

(** [!n.getAttribute('data-translated')] *)
Definition unhandled (n : TextNode) : bool :=
  match data_translated n with
  | Some v => negb (truthy v)
  | None => true
  end.

(** Positions (from [i] on) of the elements of [l] that satisfy [f]:
    [Array.prototype.filter] on an array of element references. *)
Fixpoint positionsWhere {A} (f : A → bool) (i : nat) (l : list A) : list nat :=
  match l with
  | [] => []
  | x :: r => if f x then i :: positionsWhere f (S i) r
              else positionsWhere f (S i) r
  end.

Definition textAt (p : list TextNode) (i : nat) : jsstring :=
  from_option textContent [] (p !! i).

(** The [forEach] that keeps the first longest candidate; [maxLen] starts
    at -1 and [dominantNode] at [candidateNodes[0]]. *)
Definition dominantNode (p : list TextNode) (candidateNodes : list nat) : nat :=
  snd (fold_left
         (λ '(maxLen, dominant) node,
            let len := strlen (textAt p node) in
            if maxLen <? len then (len, node) else (maxLen, dominant))
         candidateNodes
         (-1, hd 0%nat candidateNodes)).

(** The candidates among the unhandled runs [runNodes] of paragraph [p]. *)
Definition candidateNodes (p : list TextNode) (runNodes : list nat) : list nat :=
  let contentNodes :=
    List.filter (λ n, hasMeaningfulContent (textAt p n)) runNodes in
  if (0 <? length contentNodes)%nat then contentNodes else runNodes.

Definition markTranslated (preserve : bool) (text : jsstring) (n : TextNode) : TextNode :=
  mkNode text
         (if preserve then Some (lit "preserve") else xml_space n)
         (Some (lit "true")).

Definition clearNode (n : TextNode) : TextNode :=
  mkNode [] (xml_space n) (Some (lit "true")).

(** Pass 2 on one paragraph, given as the list of its text-run elements
    in document order.  [preserve] tells the DOCX variant (which also sets
    [xml:space]) from the PPTX one. *)
Definition aggregateParagraph (preserve : bool)
    (translationMap : gmap jsstring jsstring) (p : list TextNode)
    : list TextNode :=
  let runNodes := positionsWhere unhandled 0 p in
  if (length runNodes <=? 1)%nat then p
  else
    let fullText := concat (List.map (textAt p) runNodes) in
    let trimmedFull := trim fullText in
    match translationMap !! trimmedFull with
    | None => p
    | Some translated =>
        let dominant := dominantNode p (candidateNodes p runNodes) in
        let p := alter (markTranslated preserve translated) dominant p in
        fold_left
          (λ p node,
             if (node =? dominant)%nat then p else alter clearNode node p)
          runNodes p
    end.

(** Pass 1 on one text-run element. *)
Definition substituteNode (preserve : bool)
    (translationMap : gmap jsstring jsstring) (n : TextNode) : TextNode :=
  let key := trim (textContent n) in
  match translationMap !! key with
  | Some t => if truthy key then markTranslated preserve t n else n
  | None => n
  end.

Definition removeMarker (n : TextNode) : TextNode :=
  mkNode (textContent n) (xml_space n) None.

(** Both passes and the cleanup on one XML part, given as the list of its
    paragraphs. *)
Definition reassembleXml (preserve : bool)
    (translationMap : gmap jsstring jsstring) (doc : list (list TextNode))
    : list (list TextNode) :=
  let pass1 := List.map (List.map (substituteNode preserve translationMap)) doc in
  let pass2 := List.map (aggregateParagraph preserve translationMap) pass1 in
  List.map (List.map removeMarker) pass2.

Definition reassembleDocxXml := reassembleXml true.
Definition reassemblePptxXml := reassembleXml false.

End Reassembler.

(** ** [src/services/geminiService.ts] *)

Module Gemini.

(** What the [catch] block reads of a thrown value that yields a message
    text: the three places a status code may sit in, the [message] (empty
    when it is missing or falsy), and the text [JSON.stringify(error)]
    yields. *)
Record ApiError := mkError {
  status : option Z;
  response_status : option Z;
  body_error_code : option Z;
  message : jsstring;
  json : jsstring
}.

(** Outcome of one [ai.models.generateContent] request: a response with
    its optional [text]; a thrown value that yields a message text; or a
    thrown value that yields none, that is, one for which
    [error?.message || JSON.stringify(error)] is not a string
    ([throw undefined], a thrown function, an error whose [message] is a
    number) or [JSON.stringify] throws (a circular object without
    message).  Values that answer the [catch] block with code of their
    own (a [message] with an [includes] method or a getter, a [toJSON])
    are not covered. *)
Inductive ApiOutcome :=
  | Responded (text : option jsstring)
  | Failed (error : ApiError)
  | Failed_without_text.

(** What the promise rejects with: the value a request threw, the
    [TypeError] raised in the [catch] block (by [errorMessage.includes],
    or by [JSON.stringify]), or the error behind the loop. *)
Inductive Thrown :=
  | Thrown_error (error : ApiError)
  | Type_error
  | Max_retries_exceeded.

Inductive Completion :=
  | Resolved (value : jsstring)
  | Rejected (reason : Thrown).

(** One call of the client: how its promise settles, how many requests it
    sent and the backoff delays (in ms) it slept, in order. *)
Record Run := mkRun {
  completion : Completion;
  attempts : nat;
  delays : list Q
}.

Definition errorCode (error : ApiError) : option Z :=
  orNum (orNum (status error) (response_status error)) (body_error_code error).

Definition errorMessage (error : ApiError) : jsstring :=
  orElse (message error) (json error).

Definition codeIs (code : option Z) (n : Z) : bool :=
  match code with Some c => c =? n | None => false end.

Definition isRateLimit (error : ApiError) : bool :=
  codeIs (errorCode error) 429
  || includes (errorMessage error) (lit "429")
  || includes (errorMessage error) (lit "quota")
  || includes (errorMessage error) (lit "RESOURCE_EXHAUSTED").

Definition isServerOverload (error : ApiError) : bool :=
  codeIs (errorCode error) 503 || includes (errorMessage error) (lit "503").

(** The condition under which the [catch] block retries. *)
Definition retryable (error : ApiError) : bool :=
  isRateLimit error || isServerOverload error.

Definition MAX_RETRIES : nat := 5.

Section client.
(** [generateContent attempt text targetLang]: what the remote model does
    with the request sent at the given (zero-based) attempt; the request
    is the fixed prompt around [text] and [targetLang]. *)
Variable generateContent : nat → jsstring → jsstring → ApiOutcome.
(** [random attempt]: the value [Math.random()] returns in the [catch]
    block of that attempt. *)
Variable random : nat → Q.

(** [(10000 * Math.pow(2, attempt)) + (Math.random() * 2000)] (line 59):
    two products and a sum of doubles; the power of two is exact. *)
Definition backoffTime (attempt : nat) : Q :=
  Double.add (Double.mul 10000 (inject_Z (2 ^ Z.of_nat attempt)))
             (Double.mul (random attempt) 2000).

(** The [while (attempt < MAX_RETRIES)] loop; [fuel] is
    [MAX_RETRIES - attempt], the number of iterations the loop condition
    still allows. *)
Fixpoint retryLoop (text targetLang : jsstring) (fuel attempt : nat)
    (slept : list Q) : Run :=
  match fuel with
  | O => mkRun (Rejected Max_retries_exceeded) attempt slept
  | S fuel' =>
      match generateContent attempt text targetLang with
      | Responded response_text =>
          mkRun (Resolved (orElse (from_option trim [] response_text) text))
                (S attempt) slept
      | Failed error =>
          if (isRateLimit error || isServerOverload error)
             && (attempt <? MAX_RETRIES - 1)%nat
          then retryLoop text targetLang fuel' (S attempt)
                         (slept ++ [backoffTime attempt])
          else mkRun (Rejected (Thrown_error error)) (S attempt) slept
      | Failed_without_text =>
          (* [errorCode === 429] and [errorCode === 503] cannot both hold,
             so [errorMessage.includes] is called, and throws, unless
             [JSON.stringify] has thrown already *)
          mkRun (Rejected Type_error) (S attempt) slept
      end
  end.

Definition translateTextSegment (text targetLang : jsstring) : Run :=
  if negb (truthy text) || (length (trim text) =? 0)%nat
  then mkRun (Resolved text) 0 []
  else retryLoop text targetLang MAX_RETRIES 0 [].

(** Attempt [k] of a call fails with an error that the client retries. *)
Definition failsRetryably (text targetLang : jsstring) (k : nat) : Prop :=
  ∃ e, generateContent k text targetLang = Failed e ∧ retryable e = true.
End client.

End Gemini.

(** ** [src/services/mockBackend.ts] *)

Module Backend.
Import Gemini.

(** What a run of the backend does, in order: messages handed to
    [broadcast], and calls of the translation client.  An [Invoked] entry
    records the batch (positions in the job's [segments]), the arguments,
    the job's segments as they are when the client is called, and how the
    call went. *)
Inductive Step :=
  | Emitted (msg : WebSocketMessage.t)
  | Invoked (batch : list nat) (text targetLang : jsstring)
            (store : list Segment.t) (result : Gemini.Run).

Definition MAX_BATCH_CHARS : Z := 2000.
Definition DELIMITER : jsstring := lit " ||| ".

(** [Math.round]: the integer nearest to a double, halves up. *)
Definition Math_round (x : Q) : Z := Qfloor (x + (1 # 2))%Q.

(** [(completedWorkSegments / totalWorkSegments) * 100] (line 331): a
    division and a multiplication of doubles. *)
Definition percent (completedWorkSegments : Z) (totalWorkSegments : nat) : Q :=
  Double.mul (Double.div (inject_Z completedWorkSegments)
                         (inject_Z (Z.of_nat totalWorkSegments))) 100.

Section backend.
(** The uploaded file objects and the result of a download are opaque;
    [reassembleFile] returns [None] when it throws. *)
Variables File Blob : Type.
Variable reassembleFile : File → list Segment.t → option Blob.
(** The remote model and [Math.random], per call of the translation
    client (numbered from 0 within one [processFile]) and attempt. *)
Variable generateContent : nat → nat → jsstring → jsstring → ApiOutcome.
Variable random : nat → nat → Q.

Record t := mk {
  batchId : jsstring;
  jobs : gmap jsstring FileJob.t;
  fileStorage : gmap jsstring File;
  trace : list Step
}.

Definition broadcast (msg : WebSocketMessage.t) (trace : list Step) : list Step :=
  trace ++ [Emitted msg].

(** *** [generateDownload] *)

Definition inSelectedRange (range : PageRange.t) (s : Segment.t) : bool :=
  match Segment.pageNumber s with
  | None => true
  | Some n => (PageRange.start range <=? n) && (n <=? PageRange.end_ range)
  end.

Definition segmentsToDownload (job : FileJob.t) : list Segment.t :=
  match FileJob.selectedRange job with
  | Some range => List.filter (inSelectedRange range) (FileJob.segments job)
  | None => FileJob.segments job
  end.

Definition generateDownload (fileId : jsstring) (b : t) : option Blob :=
  match jobs b !! fileId, fileStorage b !! fileId with
  | Some job, Some originalFile =>
      reassembleFile originalFile (segmentsToDownload job)
  | _, _ => None
  end.

(** *** [checkBatchCompletion] *)

Definition settled (j : FileJob.t) : bool :=
  match FileJob.status j with
  | JobCompleted | JobError | JobIdle => true
  | _ => false
  end.

Definition checkBatchCompletion (b : t) : t :=
  let allComplete := forallb (λ kv, settled kv.2) (map_to_list (jobs b)) in
  if allComplete && (0 <? size (jobs b))%nat
  then mk (batchId b) (jobs b) (fileStorage b)
          (broadcast (WebSocketMessage.mk BATCH_COMPLETE (Some (batchId b))
                                          None None None None)
                     (trace b))
  else b.

(** *** [processFile] *)

Definition inBufferedWindow (bufferStart bufferEnd : Z) (s : Segment.t) : bool :=
  match Segment.pageNumber s with
  | None => false
  | Some n => (bufferStart <=? n) && (n <=? bufferEnd)
  end.

(** The scope, as positions in [job.segments]. *)
Definition segmentsToProcess (job : FileJob.t) : list nat :=
  match FileJob.selectedRange job with
  | Some range =>
      if numTruthy (FileJob.pageCount job) then
        let pageCount := default 0 (FileJob.pageCount job) in
        let bufferStart := Z.max 1 (PageRange.start range - 1) in
        let bufferEnd := Z.min pageCount (PageRange.end_ range + 1) in
        Reassembler.positionsWhere (inBufferedWindow bufferStart bufferEnd)
                                   0 (FileJob.segments job)
      else seq 0 (length (FileJob.segments job))
  | None => seq 0 (length (FileJob.segments job))
  end.

(** State of the batch loop. *)
Record Loop := mkLoop {
  segments : list Segment.t;
  sent : list Step;
  currentBatch : list nat;
  currentBatchCharCount : Z;
  completedWorkSegments : Z;
  calls : nat
}.

Definition originalAt (segs : list Segment.t) (i : nat) : jsstring :=
  from_option Segment.original [] (segs !! i).

(** [currentBatch.forEach((batchSeg, index) => ...)] where the callback
    updates the segment and then broadcasts a message about it. *)
Fixpoint forEachSegment (update : nat → Segment.t → Segment.t)
    (message : Segment.t → WebSocketMessage.t)
    (index : nat) (batch : list nat)
    (segs : list Segment.t) (trace : list Step)
    : list Segment.t * list Step :=
  match batch with
  | [] => (segs, trace)
  | pos :: rest =>
      match segs !! pos with
      | Some batchSeg =>
          let batchSeg := update index batchSeg in
          forEachSegment update message (S index) rest
                         (<[pos := batchSeg]> segs)
                         (broadcast (message batchSeg) trace)
      | None => forEachSegment update message (S index) rest segs trace
      end
  end.

Definition translatingMessage (fileId : jsstring) (s : Segment.t) :=
  WebSocketMessage.mk SEGMENT_TRANSLATION None (Some fileId)
    (Some (Segment.id s)) (Some (Segment.index s))
    (Some (PayloadTranslation [] (Segment.original s) (Some SegTranslating))).

Definition translatedMessage (fileId : jsstring) (s : Segment.t) :=
  WebSocketMessage.mk SEGMENT_TRANSLATION None (Some fileId)
    (Some (Segment.id s)) (Some (Segment.index s))
    (Some (PayloadTranslation (Segment.translated s) (Segment.original s) None)).

Definition warningMessage (fileId : jsstring) (s : Segment.t) :=
  WebSocketMessage.mk SEGMENT_WARNING None (Some fileId)
    (Some (Segment.id s)) (Some (Segment.index s))
    (Some (PayloadWarning (Segment.warningMessage s))).

Definition progressMessage (fileId : jsstring) (progress : Z)
    (status : option JobStatus) :=
  WebSocketMessage.mk FILE_PROGRESS None (Some fileId) None None
    (Some (PayloadProgress progress status None)).

(** Body of the success callback (lines 297-300). *)
Definition onTranslated (translatedParts : list jsstring) (index : nat)
    (batchSeg : Segment.t) : Segment.t :=
  let trans :=
    match translatedParts !! index with
    | Some part => if truthy part then trim part else []
    | None => []
    end in
  Segment.set_status SegCompleted
    (Segment.set_translated (orElse trans (Segment.original batchSeg)) batchSeg).

(** Body of the failure callback (lines 317-318). *)
Definition onFailed (batchSeg : Segment.t) : Segment.t :=
  Segment.set_warningMessage (lit "Translation failed")
    (Segment.set_status SegWarning batchSeg).

(** The body of [if (isBatchFull || isLastSegment)]: [segment] is the
    position of the loop's current segment, [batch] the [currentBatch]
    it was just pushed on. *)
Definition flush (fileId targetLang : jsstring) (totalWorkSegments : nat)
    (segment : nat) (batch : list nat) (st : Loop) : Loop :=
  let segs := alter (Segment.set_status SegTranslating) segment (segments st) in
  let '(segs, trace) :=
    forEachSegment (λ _ s, s) (translatingMessage fileId) 0 batch segs (sent st) in
  let textToTranslate := join DELIMITER (List.map (originalAt segs) batch) in
  let result :=
    translateTextSegment (generateContent (calls st)) (random (calls st))
                         textToTranslate targetLang in
  let trace := trace ++ [Invoked batch textToTranslate targetLang segs result] in
  let '(segs, trace) :=
    match completion result with
    | Resolved translatedBlock =>
        let translatedParts := split translatedBlock in
        forEachSegment (onTranslated translatedParts) (translatedMessage fileId)
                       0 batch segs trace
    | Rejected _ =>
        forEachSegment (λ _, onFailed) (warningMessage fileId)
                       0 batch segs trace
    end in
  let completedWorkSegments :=
    completedWorkSegments st + Z.of_nat (length batch) in
  let progress :=
    Math_round (percent completedWorkSegments totalWorkSegments) in
  mkLoop segs (broadcast (progressMessage fileId progress None) trace)
         [] 0 completedWorkSegments (S (calls st)).

(** One iteration of [for (let i = 0; i < totalWorkSegments; i++)], with
    [segment = segmentsToProcess[i]]. *)
Definition iteration (fileId targetLang : jsstring) (totalWorkSegments : nat)
    (i : nat) (segment : nat) (st : Loop) : Loop :=
  let batch := currentBatch st ++ [segment] in
  let charCount :=
    currentBatchCharCount st + strlen (originalAt (segments st) segment) in
  let isBatchFull := MAX_BATCH_CHARS <=? charCount in
  let isLastSegment := (i =? totalWorkSegments - 1)%nat in
  if isBatchFull || isLastSegment
  then flush fileId targetLang totalWorkSegments segment batch st
  else mkLoop (segments st) (sent st) batch charCount
              (completedWorkSegments st) (calls st).

(** The loop from index [i] on, over the rest of [segmentsToProcess]. *)
Fixpoint loop (fileId targetLang : jsstring) (totalWorkSegments : nat)
    (i : nat) (rest : list nat) (st : Loop) : Loop :=
  match rest with
  | [] => st
  | segment :: rest =>
      loop fileId targetLang totalWorkSegments (S i) rest
           (iteration fileId targetLang totalWorkSegments i segment st)
  end.

Definition complete (fileId : jsstring) (job : FileJob.t) (trace : list Step)
    (b : t) : t :=
  let job := FileJob.set_progress 100 (FileJob.set_status JobCompleted job) in
  let trace :=
    broadcast (WebSocketMessage.mk FILE_COMPLETE None (Some fileId) None None
                                   (Some (PayloadJob job))) trace in
  checkBatchCompletion
    (mk (batchId b) (<[fileId := job]> (jobs b)) (fileStorage b) trace).

Definition processFile (fileId : jsstring) (b : t) : t :=
  match jobs b !! fileId with
  | None => b
  | Some job =>
      let job := FileJob.set_status JobProcessing job in
      let trace :=
        broadcast (progressMessage fileId 0 (Some JobProcessing)) (trace b) in
      let segmentsToProcess := segmentsToProcess job in
      let totalWorkSegments := length segmentsToProcess in
      if (totalWorkSegments =? 0)%nat then complete fileId job trace b
      else
        let st :=
          loop fileId (FileJob.targetLang job) totalWorkSegments 0
               segmentsToProcess
               (mkLoop (FileJob.segments job) trace [] 0 0 0) in
        complete fileId (FileJob.set_segments (segments st) job) (sent st) b
  end.

(** The loop up to the first [await] (the timer of line 291): the
    iterations that only fill the batch, then the announcement of the
    first batch. *)
Fixpoint announceFirst (fileId : jsstring) (totalWorkSegments : nat)
    (i : nat) (rest : list nat) (batch : list nat) (charCount : Z)
    (segs : list Segment.t) (trace : list Step)
    : list Segment.t * list Step :=
  match rest with
  | [] => (segs, trace)
  | segment :: rest =>
      let batch := batch ++ [segment] in
      let charCount := charCount + strlen (originalAt segs segment) in
      let isBatchFull := MAX_BATCH_CHARS <=? charCount in
      let isLastSegment := (i =? totalWorkSegments - 1)%nat in
      if isBatchFull || isLastSegment
      then
        let segs := alter (Segment.set_status SegTranslating) segment segs in
        forEachSegment (λ _ s, s) (translatingMessage fileId) 0 batch segs trace
      else announceFirst fileId totalWorkSegments (S i) rest batch charCount
                         segs trace
  end.

(** What a call of [processFile] has done when it hands its promise
    back: everything, when the job is missing or no segment is in scope;
    otherwise the statements before the first [await]. *)
Definition beginFile (fileId : jsstring) (b : t) : t :=
  match jobs b !! fileId with
  | None => b
  | Some job =>
      let job := FileJob.set_status JobProcessing job in
      let trace :=
        broadcast (progressMessage fileId 0 (Some JobProcessing)) (trace b) in
      let segmentsToProcess := segmentsToProcess job in
      let totalWorkSegments := length segmentsToProcess in
      if (totalWorkSegments =? 0)%nat then complete fileId job trace b
      else
        let '(segs, trace) :=
          announceFirst fileId totalWorkSegments 0 segmentsToProcess [] 0
                        (FileJob.segments job) trace in
        mk (batchId b) (<[fileId := FileJob.set_segments segs job]> (jobs b))
           (fileStorage b) trace
  end.

(** The steps that a run of [processFile] adds to the trace. *)
Definition runSteps (fileId : jsstring) (b : t) : list Step :=
  drop (length (trace b)) (trace (processFile fileId b)).
End backend.

(** *** Reading a trace *)

(** The state in which the flush of a batch leaves the segment at
    position [index] of the batch, given how the client call went. *)
Definition settle (result : Gemini.Run) (index : nat) (s : Segment.t) : Segment.t :=
  match completion result with
  | Resolved translatedBlock => onTranslated (split translatedBlock) index s
  | Rejected _ => onFailed s
  end.

(** The batches handed to the translation client, in order. *)
Fixpoint batches (steps : list Step) : list (list nat) :=
  match steps with
  | [] => []
  | Invoked batch _ _ _ _ :: rest => batch :: batches rest
  | Emitted _ :: rest => batches rest
  end.

(** The progress values sent, each paired with the number of segments in
    the batches handed to the client before it ([attempted] counts those
    before [steps]). *)
Fixpoint progressLog (attempted : Z) (steps : list Step) : list (Z * Z) :=
  match steps with
  | [] => []
  | Invoked batch _ _ _ _ :: rest =>
      progressLog (attempted + Z.of_nat (length batch)) rest
  | Emitted msg :: rest =>
      match WebSocketMessage.payload msg with
      | Some (PayloadProgress progress _ _) =>
          (attempted, progress) :: progressLog attempted rest
      | _ => progressLog attempted rest
      end
  end.

(** Number of segments attempted after each of the given batches. *)
Fixpoint runningTotals (attempted : Z) (bs : list (list nat)) : list Z :=
  match bs with
  | [] => []
  | batch :: rest =>
      (attempted + Z.of_nat (length batch))
        :: runningTotals (attempted + Z.of_nat (length batch)) rest
  end.

(** Steps that neither invoke the client nor report progress. *)
Definition quiet (steps : list Step) : Prop :=
  batches steps = [] ∧ ∀ a, progressLog a steps = [].

(** A progress value is the rounded percentage of attempted segments. *)
Definition progressCorrect (total : nat) (ap : Z * Z) : Prop :=
  ap.2 = Math_round (percent ap.1 total).

(** What a client call recorded in a trace has to do with the segments
    [final] of the job at the end of the run: it was made for the job's
    target language on the joined originals of its batch, by the client
    of [src/services/geminiService.ts], and every segment of the batch
    ended as [settle] says. *)
Definition accounted
    (generateContent : nat → nat → jsstring → jsstring → ApiOutcome)
    (random : nat → nat → Q)
    (lang : jsstring) (final : list Segment.t) (step : Step) : Prop :=
  match step with
  | Emitted _ => True
  | Invoked batch text lang' store result =>
      lang' = lang
      ∧ text = join DELIMITER (List.map (originalAt store) batch)
      ∧ (∃ call, result = translateTextSegment (generateContent call)
                                               (random call) text lang)
      ∧ ∀ k p, batch !! k = Some p →
               ∃ s, store !! p = Some s
                    ∧ final !! p = Some (settle result k s)
  end.

End Backend.


(** ** Concrete inputs used in the examples below *)

Module Fixtures.
Import Reassembler Gemini Backend.

(** The paragraph of the specification's example, none of its runs
    substituted so far. *)
Definition helloWorld : list TextNode :=
  [run (lit "Hello "); run (lit "world"); run (lit "!!!")].

Definition helloSegment : Segment.t :=
  Segment.mk (lit "seg-f-0") 0 (lit "Hello world!!!") (lit "Bonjour le monde!!!")
             SegCompleted None None.

Definition overloaded : ApiError :=
  mkError (Some 503) None None (lit "The model is overloaded") [].

Definition alwaysOverloaded : nat → jsstring → jsstring → ApiOutcome :=
  λ _ _ _, Failed overloaded.

(** The largest double below 1. *)
Definition lastJitter : nat → Q := λ _, (1 - (1 # 2 ^ 53))%Q.

Definition halfJitter : nat → Q := λ _, (1 # 2)%Q.

Definition segmentOn (i : Z) (text : String.string) (page : option Z) : Segment.t :=
  Segment.mk (lit "seg") i (lit text) [] SegPending None page.

Definition jobOf (segments : list Segment.t) (pageCount : option Z)
    (selectedRange : option PageRange.t) : FileJob.t :=
  FileJob.mk (lit "f") (lit "doc.pdf") (lit "application/pdf") 10 JobQueued 0
             segments [] (lit "en") (lit "fr") pageCount selectedRange.

(** A 20-page job with one segment on each of pages 3, 4, 16 and 17 and
    one segment without page, and the range 5-15 selected. *)
Definition pagedJob : FileJob.t :=
  jobOf [segmentOn 0 "three" (Some 3); segmentOn 1 "four" (Some 4);
         segmentOn 2 "sixteen" (Some 16); segmentOn 3 "seventeen" (Some 17);
         segmentOn 4 "nowhere" None]
        (Some 20) (Some (PageRange.mk 5 15)).

Definition backendWith (job : FileJob.t) : Backend.t unit :=
  Backend.mk unit (lit "batch-0") {[ lit "f" := job ]} {[ lit "f" := tt ]} [].

Definition halfJitters : nat → nat → Q := λ _ _, (1 # 2)%Q.

(** A remote model that hands the text back as it is. *)
Definition echoRemote : nat → nat → jsstring → jsstring → ApiOutcome :=
  λ _ _ text _, Responded (Some text).

(** A remote model that answers "uno" whatever it is sent. *)
Definition tersely : nat → nat → jsstring → jsstring → ApiOutcome :=
  λ _ _ _ _, Responded (Some (lit "uno")).

Definition badRequest : ApiError :=
  mkError (Some 400) None None (lit "Bad request") [].

(** A remote model that rejects the first client call and echoes later
    ones. *)
Definition failFirstCall : nat → nat → jsstring → jsstring → ApiOutcome :=
  λ call _ text _,
    if (call =? 0)%nat then Failed badRequest else Responded (Some text).

Definition longText : jsstring := repeat 97%N 2000.

(** A job of two batches: a segment of 2000 units, then a short one. *)
Definition longJob : FileJob.t :=
  jobOf [Segment.mk (lit "seg-f-0") 0 longText [] SegPending None None;
         segmentOn 1 "tail" None] None None.

Definition longStore : list Segment.t :=
  [Segment.mk (lit "seg-f-0") 0 longText [] SegTranslating None None;
   segmentOn 1 "tail" None].


(** A job whose two short segments travel in one batch. *)
Definition pairJob : FileJob.t :=
  jobOf [segmentOn 0 "Hello " None; segmentOn 1 "world" None] None None.

Definition pairStore : list Segment.t :=
  [segmentOn 0 "Hello " None;
   Segment.set_status SegTranslating (segmentOn 1 "world" None)].

(** A job with one segment that ends with a space. *)
Definition paddedJob : FileJob.t := jobOf [segmentOn 0 "Hello " None] None None.

(** A job whose only segment contains the three bars of the delimiter. *)
Definition barredJob : FileJob.t := jobOf [segmentOn 0 "a|||b" None] None None.

(** A paged job whose selected range lies beyond its only segment. *)
Definition outOfRangeJob : FileJob.t :=
  jobOf [segmentOn 0 "one" (Some 1)] (Some 20) (Some (PageRange.mk 5 15)).

End Fixtures.

(** ** More vocabulary for runs of [processFile] *)

Module Batches.
Import Gemini Backend.

(** The fields of a segment that the pipeline never writes. *)
Definition fixedPart (s : Segment.t) : jsstring * Z * jsstring * option Z :=
  (Segment.id s, Segment.index s, Segment.original s, Segment.pageNumber s).

(** The fields of a job that [processFile] never writes. *)
Definition jobFrame (j : FileJob.t) :=
  (FileJob.id j, FileJob.name j, FileJob.type j, FileJob.size j,
   FileJob.htmlContent j, FileJob.sourceLang j, FileJob.targetLang j,
   FileJob.pageCount j, FileJob.selectedRange j).

(** Number of code units of the originals of a batch, as the loop counts
    them in [currentBatchCharCount]. *)
Definition batchChars (store : list Segment.t) (batch : list nat) : Z :=
  fold_right (λ p n, strlen (originalAt store p) + n) 0 batch.

(** The message that tells how the flush of a batch ended for a segment:
    the translation message after a resolved call, the warning message
    after a rejected one. *)
Definition outcomeMessage (fileId : jsstring) (result : Gemini.Run)
    (s : Segment.t) : WebSocketMessage.t :=
  match completion result with
  | Resolved _ => translatedMessage fileId s
  | Rejected _ => warningMessage fileId s
  end.

(** [step] announces the segment at position [p] of [store] as
    translating. *)
Definition announces (fileId : jsstring) (store : list Segment.t)
    (p : nat) (step : Step) : Prop :=
  ∃ s, store !! p = Some s ∧ step = Emitted (translatingMessage fileId s).

(** [step] reports the outcome of a flush for the segment at position [p],
    with the content that the segment has in [final]. *)
Definition reports (fileId : jsstring) (result : Gemini.Run)
    (final : list Segment.t) (p : nat) (step : Step) : Prop :=
  ∃ s, final !! p = Some s ∧ step = Emitted (outcomeMessage fileId result s).

(** How the steps of one flush sit in the steps [new] of a loop, and what
    its batch looks like: [final] are the segments when the loop is over,
    [scope] the positions the loop still had to go through. *)
Definition flushed (fileId : jsstring) (final : list Segment.t)
    (scope : list nat) (new : list Step) (step : Step) : Prop :=
  match step with
  | Emitted _ => True
  | Invoked batch text lang store result =>
      (∃ before announced reported progress after,
         new = before ++ announced ++ [step] ++ reported
                 ++ [Emitted (progressMessage fileId progress None)] ++ after
         ∧ Forall2 (announces fileId store) batch announced
         ∧ Forall2 (reports fileId result final) batch reported)
      ∧ batch ≠ []
      ∧ batchChars store (removelast batch) < MAX_BATCH_CHARS
      ∧ (MAX_BATCH_CHARS ≤ batchChars store batch ∨ last batch = last scope)
  end.

(** The steps of the batch loop: client calls, messages about one
    segment, and progress messages that change no status. *)
Definition batchStep (fileId : jsstring) (step : Step) : Prop :=
  match step with
  | Invoked _ _ _ _ _ => True
  | Emitted m =>
      (∃ s, m = translatingMessage fileId s ∨ m = translatedMessage fileId s
            ∨ m = warningMessage fileId s)
      ∨ ∃ progress, m = progressMessage fileId progress None
  end.

End Batches.


(** ** More vocabulary for calls of the translation client *)

Module Retry.
Import Gemini.

(** Time (ms) that a call of the client spends in [delay]. *)
Definition totalSleep (r : Run) : Q := fold_right Qplus 0%Q (delays r).

End Retry.


(** ** More vocabulary for the reassembler *)

Module Passes.
Import Reassembler.

(** A segment that [reassembleFile] enters in the translation map under
    the key [k]. *)
Definition keyed (k : jsstring) (seg : Segment.t) : bool :=
  truthy (Segment.translated seg) && truthy (Segment.original seg)
  && bool_decide (trim (Segment.original seg) = k).

(** The run at position [j] of paragraph [i]. *)
Definition runAt (doc : list (list TextNode)) (i j : nat) : option TextNode :=
  doc !! i ≫= λ p, p !! j.

End Passes.

Module Part.
Import Reassembler.

(** A part as the DOM has it: [runs] are all its text-run elements in
    document order, and a paragraph element is the list of the positions
    of the runs below it, which is what [p.getElementsByTagName] returns.
    A paragraph inside a paragraph (a text box anchored in it) shares its
    runs with the outer one, which comes first in document order. *)

(** The runs below a paragraph. *)
Definition runsOf (runs : list TextNode) (paragraph : list nat) : list TextNode :=
  omap (λ i, runs !! i) paragraph.

(** The runs of a paragraph are elements of the part: what pass 2 does to
    them is seen by every paragraph that holds them. *)
Definition writeBack (paragraph : list nat) (new : list TextNode)
    (runs : list TextNode) : list TextNode :=
  fold_left (λ runs '(i, n), <[i := n]> runs) (zip paragraph new) runs.

(** Pass 2 on one paragraph of the part. *)
Definition aggregateIn (preserve : bool) (translationMap : gmap jsstring jsstring)
    (runs : list TextNode) (paragraph : list nat) : list TextNode :=
  writeBack paragraph
            (aggregateParagraph preserve translationMap (runsOf runs paragraph))
            runs.

(** Pass 1 over all runs, pass 2 over the paragraphs in document order,
    and the cleanup. *)
Definition reassemblePart (preserve : bool)
    (translationMap : gmap jsstring jsstring)
    (runs : list TextNode) (paragraphs : list (list nat)) : list TextNode :=
  let pass1 := List.map (substituteNode preserve translationMap) runs in
  let pass2 := fold_left (aggregateIn preserve translationMap) paragraphs pass1 in
  List.map removeMarker pass2.

(** The positions of a paragraph are distinct runs of the part. *)
Definition wellFormed (runs : list TextNode) (paragraph : list nat) : Prop :=
  NoDup paragraph ∧ Forall (λ k, (k < length runs)%nat) paragraph.

(** The paragraphs of a part without nesting whose paragraphs hold all
    its runs: consecutive blocks of positions.  On such a part
    [reassemblePart] is [Reassembler.reassembleXml]. *)
Fixpoint blocks (from : nat) (doc : list (list TextNode)) : list (list nat) :=
  match doc with
  | [] => []
  | p :: rest => seq from (length p) :: blocks (from + length p) rest
  end.

End Part.


(** ** The parser: [escapeHtml] and the PDF branch of [parseFileToHtml] *)

Module Parser.

(** [text.replace(/c/g, replacement)] for a pattern that is one literal
    unit [c] and a replacement without [$]. *)
Definition replaceUnit (c : N) (replacement : jsstring) (text : jsstring)
    : jsstring :=
  flat_map (λ x, if (x =? c)%N then replacement else [x]) text.

Definition escapeHtml (text : jsstring) : jsstring :=
  replaceUnit 39 (lit "&#039;")
    (replaceUnit 34 (lit "&quot;")
       (replaceUnit 62 (lit "&gt;")
          (replaceUnit 60 (lit "&lt;")
             (replaceUnit 38 (lit "&amp;") text)))).

(** What [escapeHtml] makes of one unit; used to state its properties. *)
Definition entity (c : N) : jsstring :=
  if (c =? 38)%N then lit "&amp;"
  else if (c =? 60)%N then lit "&lt;"
  else if (c =? 62)%N then lit "&gt;"
  else if (c =? 34)%N then lit "&quot;"
  else if (c =? 39)%N then lit "&#039;"
  else [c].

(** An item of [textContent.items] of pdf.js. *)
Record TextItem := mkItem {
  str : jsstring;
  hasEOL : bool
}.

(** The [forEach] that builds [pageText]. *)
Definition pageText (items : list TextItem) : jsstring :=
  fold_left (λ pageText item,
               pageText ++ str item ++ (if hasEOL item then [10%N] else [32%N]))
            items [].

(** [pageText.replace(/  +/g, ' ')]: every maximal run of two or more
    spaces becomes one space; a space that is followed by a space is the
    one that goes. *)
Fixpoint normalizeSpaces (s : jsstring) : jsstring :=
  match s with
  | [] => []
  | c :: r =>
      if (c =? 32)%N && match r with c' :: _ => (c' =? 32)%N | [] => false end
      then normalizeSpaces r
      else c :: normalizeSpaces r
  end.

(** [s.split('\n')], [cur] holding (reversed) the units of the current
    part. *)
Fixpoint splitLines (s : jsstring) (cur : jsstring) : list jsstring :=
  match s with
  | [] => [rev cur]
  | c :: r =>
      if (c =? 10)%N then rev cur :: splitLines r []
      else splitLines r (c :: cur)
  end.

(** The paragraphs of a PDF page: [split] and [filter]. *)
Definition paragraphs (items : list TextItem) : list jsstring :=
  List.filter (λ line, (0 <? length (trim line))%nat)
              (splitLines (normalizeSpaces (pageText items)) []).

(** Two spaces in a row. *)
Definition twoSpaces : jsstring := [32%N; 32%N].

(** The units of a text that are not white space, in order. *)
Definition visible (s : jsstring) : jsstring :=
  List.filter (λ c, negb (isWhiteSpace c)) s.

End Parser.


(** ** [reassemblePdf] of [src/utils/fileReassembler.ts]

    The PDF that [reassemblePdf] builds is read through the calls it makes
    on pdf-lib: [addPage] and [drawText].  A layout records the number of
    pages added so far, the cursor [y] and the texts drawn, each with the
    page and the height it was drawn at.  Heights and widths are exact
    rationals.  The embedded font enters through the width it gives a
    token; the model covers the runs in which the font can encode what
    is drawn (pdf-lib throws otherwise). *)

Module Pdf.

(** [isCJK]: the unit lies in one of the four blocks 4E00-9FFF,
    3000-303F, FF00-FFEF, AC00-D7AF. *)
Definition isCJK (code : N) : bool :=
  ((19968 <=? code) && (code <=? 40959)
   || (12288 <=? code) && (code <=? 12351)
   || (65280 <=? code) && (code <=? 65519)
   || (44032 <=? code) && (code <=? 55215))%N.

(** A unit at which a Latin word ends: [isCJK(nextChar) || nextChar === ' ']. *)
Definition breaksWord (c : N) : bool := isCJK c || (c =? 32)%N.

(** The inner [while]: the units that follow [para[i]] up to the next CJK
    unit or space, and what is left of the paragraph behind them. *)
Fixpoint restOfWord (s : jsstring) : jsstring * jsstring :=
  match s with
  | [] => ([], [])
  | nextChar :: r =>
      if breaksWord nextChar then ([], s)
      else let '(word, rest) := restOfWord r in (nextChar :: word, rest)
  end.

(** The token that starts with [char], and the rest of the paragraph. *)
Definition nextToken (char : N) (after : jsstring) : jsstring * jsstring :=
  if negb (isCJK char) && negb (char =? 32)%N
  then let '(word, rest) := restOfWord after in (char :: word, rest)
  else ([char], after).

(** [for (let i = 0; i < para.length; i++)]: the loop takes a token off
    the paragraph, runs [body] on it and goes on behind the token. *)
Equations? forEachToken {A : Type} (body : jsstring → A → A)
    (para : jsstring) (st : A) : A by wf (length para) lt :=
forEachToken body [] st := st;
forEachToken body (char :: after) st :=
  forEachToken body (nextToken char after).2 (body (nextToken char after).1 st).
Proof.
  assert (Hlen : ∀ s, (length (restOfWord s).2 <= length s)%nat).
  { induction s as [|c s IH]; simpl; [lia|].
    destruct (breaksWord c); simpl; [lia|].
    destruct (restOfWord s); simpl in *. lia. }
  unfold nextToken. destruct (negb (isCJK char) && negb (char =? 32)%N); simpl; [|lia].
  specialize (Hlen after). destruct (restOfWord after); simpl in *. lia.
Qed.

(** The tokens of a paragraph, in order. *)
Definition tokens (para : jsstring) : list jsstring :=
  forEachToken (λ token acc, acc ++ [token]) para [].

Inductive Content :=
  | Header (pageNum : Z)
  | Line (text : jsstring).

(** One call of [page.drawText]. *)
Record Drawn := mkDrawn {
  onPage : nat;
  atY : Q;
  what : Content
}.

Record Layout := mkLayout {
  pages : nat;
  y : Q;
  drawn : list Drawn
}.

Definition fontSize : Q := 11.
Definition lineHeight : Q := fontSize + 6.
Definition margin : Q := 50.

(** [a < b] and [a > b] on numbers. *)
Definition ltb (a b : Q) : bool := negb (Qle_bool b a).
Definition gtb (a b : Q) : bool := negb (Qle_bool a b).

(** [pagesMap]: the page numbers in the order in which they were first
    seen, each with its segments in the order of the input. *)
Fixpoint pushSegment (pNum : Z) (seg : Segment.t)
    (pagesMap : list (Z * list Segment.t)) : list (Z * list Segment.t) :=
  match pagesMap with
  | [] => [(pNum, [seg])]
  | (k, segs) :: rest =>
      if k =? pNum then (k, segs ++ [seg]) :: rest
      else (k, segs) :: pushSegment pNum seg rest
  end.

Definition pageOf (seg : Segment.t) : Z := default 1 (Segment.pageNumber seg).

Definition groupByPage (segments : list Segment.t) : list (Z * list Segment.t) :=
  fold_left (λ pagesMap seg, pushSegment (pageOf seg) seg pagesMap) segments [].

(** [keys.sort((a, b) => a - b)] *)
Fixpoint insertNum (n : Z) (sorted : list Z) : list Z :=
  match sorted with
  | [] => [n]
  | m :: rest => if n <=? m then n :: sorted else m :: insertNum n rest
  end.

Definition sortNums (nums : list Z) : list Z := fold_right insertNum [] nums.

(** [pagesMap.get(pageNum)!] *)
Definition segmentsOfPage (pagesMap : list (Z * list Segment.t)) (pageNum : Z)
    : list Segment.t :=
  default [] (snd <$> List.find (λ entry, fst entry =? pageNum) pagesMap).

Section layout.
(** Size of the pages, as [page.getSize()] gives it for the first one. *)
Variables width height : Q.
(** [font.widthOfTextAtSize(token, fontSize)] *)
Variable widthOfTextAtSize : jsstring → Q.

Definition addNewPage (l : Layout) : Layout :=
  mkLayout (S (pages l)) (height - margin) (drawn l).

Definition drawText (content : Content) (l : Layout) : Layout :=
  mkLayout (pages l) (y l) (drawn l ++ [mkDrawn (pages l) (y l) content]).

(** [y -= d] *)
Definition lower (d : Q) (l : Layout) : Layout :=
  mkLayout (pages l) (y l - d) (drawn l).

(** [if (y < margin) addNewPage()] *)
Definition breakIfLow (l : Layout) : Layout :=
  if ltb (y l) margin then addNewPage l else l.

Definition maxWidth : Q := width - margin * 2.

(** State of the wrapping loop. *)
Record Wrap := mkWrap {
  currentLine : jsstring;
  currentLineWidth : Q;
  layout : Layout
}.

(** Body of the wrapping loop, behind the computation of the token. *)
Definition place (token : jsstring) (w : Wrap) : Wrap :=
  let tokenWidth := widthOfTextAtSize token in
  if gtb (currentLineWidth w + tokenWidth) maxWidth
  then
    let l := breakIfLow (lower lineHeight (drawText (Line (currentLine w)) (layout w))) in
    if (length (trim token) =? 0)%nat then mkWrap [] 0 l
    else mkWrap token tokenWidth l
  else mkWrap (currentLine w ++ token) (currentLineWidth w + tokenWidth) (layout w).

(** Body of [for (const para of paragraphs)]. *)
Definition drawParagraph (l : Layout) (para : jsstring) : Layout :=
  if negb (truthy (trim para))
  then breakIfLow (lower (lineHeight / 2) l)
  else
    let w := forEachToken place para (mkWrap [] 0 l) in
    let l :=
      if truthy (currentLine w)
      then lower lineHeight (drawText (Line (currentLine w)) (layout w))
      else layout w in
    breakIfLow (lower (lineHeight * (1 # 2)) l).

(** Body of [for (const seg of pageSegments)]. *)
Definition drawSegment (l : Layout) (seg : Segment.t) : Layout :=
  let text := orElse (Segment.translated seg) (Segment.original seg) in
  if negb (truthy text) then l
  else
    let paragraphs := Parser.splitLines text [] in
    let l := fold_left drawParagraph paragraphs l in
    breakIfLow (lower 2 l).

(** Body of [for (const pageNum of sortedPageNums)]. *)
Definition drawPage (pagesMap : list (Z * list Segment.t)) (l : Layout)
    (pageNum : Z) : Layout :=
  let pageSegments := segmentsOfPage pagesMap pageNum in
  let l := if ltb (y l) (height - margin) then lower 10 l else l in
  let l := if ltb (y l) (margin + 40) then addNewPage l else l in
  let l := drawText (Header pageNum) l in
  let l := lower 20 l in
  let l := fold_left drawSegment pageSegments l in
  breakIfLow (lower 20 l).

(** The layout that [reassemblePdf] builds for the segments. *)
Definition reassemblePdf (segments : list Segment.t) : Layout :=
  let pagesMap := groupByPage segments in
  let sortedPageNums := sortNums (List.map fst pagesMap) in
  fold_left (drawPage pagesMap) sortedPageNums
            (mkLayout 1 (height - margin) []).

End layout.

(** *** Reading a layout *)



(** The width of a line as the wrapping loop accounts for it: the sum of
    the widths of its tokens. *)
Definition widthOfTokens (widthOfTextAtSize : jsstring → Q)
    (line : list jsstring) : Q :=
  fold_left (λ width token, width + widthOfTextAtSize token)%Q line 0%Q.

(** A line is fine when its accounted width fits, or when it has at most
    one token. *)
Definition fits (width : Q) (widthOfTextAtSize : jsstring → Q)
    (line : list jsstring) : Prop :=
  (widthOfTokens widthOfTextAtSize line <= maxWidth width)%Q
  ∨ (length line ≤ 1)%nat.

(** What the wrapping loop keeps true, from the layout [l] it starts
    with: [line] are the tokens of the current line, [lines] the token
    lists of the lines drawn so far, [seen] the tokens gone through. *)
Record wrapped (width : Q) (widthOfTextAtSize : jsstring → Q)
    (l : Layout) (seen : list jsstring) (w : Wrap)
    (line : list jsstring) (lines : list (list jsstring)) : Prop := mkWrapped {
  wrapped_line : currentLine w = concat line;
  wrapped_width :
    (currentLineWidth w == widthOfTokens widthOfTextAtSize line)%Q;
  wrapped_fits : fits width widthOfTextAtSize line;
  wrapped_drawn :
    ∃ new, drawn (layout w) = drawn l ++ new
           ∧ List.map what new = List.map (λ ts, Line (concat ts)) lines;
  wrapped_lines : Forall (fits width widthOfTextAtSize) lines;
  wrapped_visible :
    Parser.visible (concat (concat lines) ++ concat line)
    = Parser.visible (concat seen);
  wrapped_order : sublist (concat lines ++ line) seen
}.

(** A text drawn between the bottom and the top margin of a page that
    exists. *)
Definition placed (height : Q) (d : Drawn) : Prop :=
  (margin <= atY d)%Q ∧ (atY d <= height - margin)%Q ∧ (1 ≤ onPage d)%nat.

(** [d2] is drawn on a later page than [d1], or on the same page at least
    one line height lower. *)
Definition below (d1 d2 : Drawn) : Prop :=
  (onPage d1 < onPage d2)%nat
  ∨ (onPage d1 = onPage d2 ∧ (atY d2 <= atY d1 - lineHeight)%Q).

(** What the drawing keeps true of a layout; [floor] bounds the cursor
    from below. *)
Record tidy (height floor : Q) (l : Layout) : Prop := mkTidy {
  tidy_floor : (floor <= y l)%Q;
  tidy_top : (y l <= height - margin)%Q;
  tidy_pages : (1 ≤ pages l)%nat;
  tidy_placed : Forall (placed height) (drawn l);
  tidy_known : Forall (λ d, (onPage d ≤ pages l)%nat) (drawn l);
  tidy_last :
    ∀ d, last (drawn l) = Some d →
         (onPage d < pages l)%nat
         ∨ (onPage d = pages l ∧ (y l <= atY d - lineHeight)%Q);
  tidy_chain :
    ∀ i d1 d2, drawn l !! i = Some d1 → drawn l !! S i = Some d2 → below d1 d2
}.

(** The sections of a layout: every header with the lines drawn between
    it and the next header. *)
Definition addToSections (sections : list (Z * list jsstring)) (d : Drawn)
    : list (Z * list jsstring) :=
  match what d with
  | Header n => sections ++ [(n, [])]
  | Line text =>
      match last sections with
      | Some (n, lines) => removelast sections ++ [(n, lines ++ [text])]
      | None => sections
      end
  end.

Definition sectionsOf (ds : list Drawn) : list (Z * list jsstring) :=
  fold_left addToSections ds [].

(** The text that is drawn for a segment. *)
Definition textOf (seg : Segment.t) : jsstring :=
  orElse (Segment.translated seg) (Segment.original seg).

End Pdf.


(** ** The queue of [MockTranslationBackend]

    [startProcessing], [deleteFile] and [clearAll] work on the jobs, the
    stored files and the queue of file ids.  [startProcessing] is modelled
    up to its last statement, the call of [processQueue]. *)

Module Service.
Import Backend.

Section service.
Variable File : Type.

Record t := mk {
  backend : Backend.t File;
  fileQueue : list jsstring;
  isProcessingFile : bool
}.

(** [job.selectedRange = range] *)
Definition set_selectedRange (range : PageRange.t) (j : FileJob.t) : FileJob.t :=
  FileJob.mk (FileJob.id j) (FileJob.name j) (FileJob.type j) (FileJob.size j)
             (FileJob.status j) (FileJob.progress j) (FileJob.segments j)
             (FileJob.htmlContent j) (FileJob.sourceLang j)
             (FileJob.targetLang j) (FileJob.pageCount j) (Some range).

(** The statements of [startProcessing] before its last one (lines
    134-149); [None] when the guard returns. *)
Definition enqueue (fileId : jsstring) (range : option PageRange.t)
    (s : t) : option t :=
  match jobs File (backend s) !! fileId with
  | None => None
  | Some job =>
      match FileJob.status job with
      | JobIdle =>
          let job := FileJob.set_status JobQueued job in
          let job :=
            match range with
            | Some range => set_selectedRange range job
            | None => job
            end in
          let trace :=
            broadcast
              (WebSocketMessage.mk FILE_PROGRESS None (Some fileId) None None
                 (Some (PayloadProgress 0 (Some JobQueued) range)))
              (trace File (backend s)) in
          Some (mk (Backend.mk File (batchId File (backend s))
                      (<[fileId := job]> (jobs File (backend s)))
                      (fileStorage File (backend s)) trace)
                   (fileQueue s ++ [fileId])
                   (isProcessingFile s))
      | _ => None
      end
  end.

(** [processQueue] from the point where the flag is raised, up to its
    [await]: the head of the queue is taken off; [processFile] is called
    on it and the call awaited, or, when the id is falsy, the flag is
    lowered again and the next id is taken, if there is one. *)
Fixpoint takeNext (queue : list jsstring) (b : Backend.t File) : t :=
  match queue with
  | [] => mk b [] false
  | fileId :: rest =>
      if truthy fileId then mk (Backend.beginFile File fileId b) rest true
      else takeNext rest b
  end.

(** A call of [processQueue] up to its [await]; what follows the [await]
    (the rest of that run, and the next file of the queue) happens after
    the caller has returned. *)
Definition processQueue (s : t) : t :=
  if isProcessingFile s || (length (fileQueue s) =? 0)%nat then s
  else takeNext (fileQueue s) (backend s).

(** A call of [startProcessing], up to its return. *)
Definition startProcessing (fileId : jsstring) (range : option PageRange.t)
    (s : t) : t :=
  match enqueue fileId range s with
  | Some queued => processQueue queued
  | None => s
  end.

Definition deleteFile (fileId : jsstring) (s : t) : t :=
  mk (Backend.mk File (batchId File (backend s))
        (delete fileId (jobs File (backend s)))
        (delete fileId (fileStorage File (backend s)))
        (trace File (backend s)))
     (List.filter (λ id, negb (bool_decide (id = fileId))) (fileQueue s))
     (isProcessingFile s).

Definition clearAll (s : t) : t :=
  mk (Backend.mk File (batchId File (backend s)) ∅ ∅ (trace File (backend s))) []
     (isProcessingFile s).

End service.
End Service.


(** ** [tokenizeHtml] of [src/services/mockBackend.ts]

    The document that [DOMParser] returns is read as a tree: text nodes,
    elements with their lower-cased tag name, their [data-page] attribute
    if they have one and their child nodes, and other nodes (comments and
    the like).  The HTML that the function returns is not modelled. *)

Module Tokenizer.

#[local] Unset Elimination Schemes.
Inductive Node :=
  | Text (textContent : jsstring)
  | Element (tagName : jsstring) (dataPage : option jsstring)
            (childNodes : list Node)
  | Other.
#[local] Set Elimination Schemes.

(** The value of [pageNumber]: [undefined], [NaN], an infinity or an
    integer. *)
Inductive PageNumber :=
  | Undefined
  | NotANumber
  | Infinite (negative : bool)
  | Page (n : Z).

(** A segment as [tokenizeHtml] pushes it. *)
Record Pushed := mkPushed {
  id : jsstring;
  index : Z;
  original : jsstring;
  translated : jsstring;
  status : SegmentStatus;
  pageNumber : PageNumber
}.

(** The segment as the rest of the program sees it; a page number that is
    [NaN] or infinite has no counterpart there. *)
Definition toSegment (s : Pushed) : option Segment.t :=
  match pageNumber s with
  | Undefined =>
      Some (Segment.mk (id s) (index s) (original s) (translated s) (status s)
                       None None)
  | Page n =>
      Some (Segment.mk (id s) (index s) (original s) (translated s) (status s)
                       None (Some n))
  | NotANumber | Infinite _ => None
  end.

(** Value of a decimal digit. *)
Definition digitValue (c : N) : option Z :=
  if ((48 <=? c) && (c <=? 57))%N then Some (Z.of_N c - 48) else None.

(** The longest prefix of decimal digits, read as a number; [acc] is the
    value read so far, [None] before the first digit. *)
Fixpoint parseDigits (s : jsstring) (acc : option Z) : option Z :=
  match s with
  | [] => acc
  | c :: r =>
      match digitValue c with
      | Some d => parseDigits r (Some (10 * default 0 acc + d))
      | None => acc
      end
  end.

(** [parseInt(val, 10)]: leading white space is skipped, a sign is read,
    then the longest prefix of digits; the result is the double nearest
    to the number read, an infinity when that is beyond the doubles.  (An
    implementation may read a numeral of more than 20 significant digits
    with zeros after the 20th; here it is read as it stands.) *)
Definition parseInt (val : jsstring) : PageNumber :=
  let s := trimStart val in
  let '(sign, s) :=
    match s with
    | 45%N :: r => (-1, r)
    | 43%N :: r => (1, r)
    | _ => (1, s)
    end in
  match parseDigits s None with
  | Some n =>
      let x := Qfloor (Double.round (inject_Z n)) in
      if 2 ^ 1024 <=? x then Infinite (sign <? 0) else Page (sign * x)
  | None => NotANumber
  end.

(** The page number that the walk up the parents finds: [found] is the
    [data-page] attribute of the nearest ancestor element that has one. *)
Definition pageFrom (found : option jsstring) : PageNumber :=
  match found with
  | Some val => if truthy val then parseInt val else Undefined
  | None => Undefined
  end.

(** [String(index)] *)
Definition decimal (index : nat) : jsstring :=
  lit (DecimalString.NilZero.string_of_uint (Nat.to_uint index)).

(** [`seg-${fileId}-${index}`] *)
Definition segmentId (fileId : jsstring) (index : nat) : jsstring :=
  lit "seg-" ++ fileId ++ lit "-" ++ decimal index.

Definition isSkipped (tagName : jsstring) : bool :=
  bool_decide (tagName = lit "script") || bool_decide (tagName = lit "style").

(** [traverse]: [found] is what the walk up the parents of [node] finds,
    the state is [segments] and [index]. *)
Fixpoint traverse (fileId : jsstring) (found : option jsstring) (node : Node)
    (st : list Pushed * nat) : list Pushed * nat :=
  match node with
  | Text text =>
      if truthy text && (0 <? length (trim text))%nat
      then (st.1 ++ [mkPushed (segmentId fileId st.2) (Z.of_nat st.2) text []
                              SegPending (pageFrom found)],
            S st.2)
      else st
  | Element tagName dataPage childNodes =>
      if negb (isSkipped tagName)
      then
        let found := match dataPage with Some val => Some val | None => found end in
        fold_left (λ st child, traverse fileId found child st) childNodes st
      else st
  | Other => st
  end.

(** The segments for the tree under [body]; [above] is the [data-page]
    attribute of the [html] element over it, if it has one. *)
Definition tokenizeHtml (fileId : jsstring) (above : option jsstring)
    (body : Node) : list Pushed :=
  (traverse fileId above body ([], 0%nat)).1.

(** No element in the tree carries a [data-page] attribute. *)
Fixpoint unpaged (node : Node) : bool :=
  match node with
  | Element _ dataPage childNodes =>
      match dataPage with Some _ => false | None => true end
      && forallb unpaged childNodes
  | _ => true
  end.

(** The texts of the tree that are to be translated: those of its text
    nodes that are not blank, outside [script] and [style] elements, in
    document order. *)
Fixpoint textsUnder (node : Node) : list jsstring :=
  match node with
  | Text text => if truthy text && (0 <? length (trim text))%nat then [text] else []
  | Element tagName _ childNodes =>
      if isSkipped tagName then [] else flat_map textsUnder childNodes
  | Other => []
  end.

(** What holds of the segment pushed at position [i]. *)
Definition numbered (fileId : jsstring) (i : nat) (s : Pushed) : Prop :=
  index s = Z.of_nat i
  ∧ id s = segmentId fileId i
  ∧ translated s = []
  ∧ status s = SegPending
  ∧ trim (original s) ≠ [].

End Tokenizer.


(** ** [handleStartOne] of the workbench

    The branch for a job with a page count when both range fields are
    filled in; [start] and [end_] are the parsed fields. *)

Module Workbench.
Import Backend.

Definition rangeIsValid (start end_ pageCount : Z) : bool :=
  (0 <? start) && (start <=? end_) && (end_ <=? pageCount).

Definition handleStartOne {File : Type} (id : jsstring) (start end_ : Z)
    (pageCount : Z) (s : Service.t File) : Service.t File :=
  if rangeIsValid start end_ pageCount
  then Service.startProcessing File id (Some (PageRange.mk start end_)) s
  else s.

End Workbench.


(** ** More concrete inputs *)

Module Samples.
Import Reassembler Gemini Backend Fixtures.

(** A 3-page job with one segment on each page and one segment without
    page, and the range 2-2 selected. *)
Definition rangedJob : FileJob.t :=
  jobOf [segmentOn 0 "one" (Some 1); segmentOn 1 "two" (Some 2);
         segmentOn 2 "three" (Some 3); segmentOn 3 "nowhere" None]
        (Some 3) (Some (PageRange.mk 2 2)).

(** A reassembler that hands back the segments it is given. *)
Definition keepSegments : unit → list Segment.t → option (list Segment.t) :=
  λ _ segments, Some segments.

(** A translated segment with the given original and translation. *)
Definition translatedSegment (original translated : String.string) : Segment.t :=
  Segment.mk (lit "seg") 0 (lit original) (lit translated) SegCompleted None None.



(** A part of two paragraphs: a sentence split over two runs, and a run
    that is a segment of its own, with white space around it. *)
Definition greetingPart : list (list TextNode) :=
  [[run (lit "Hello "); run (lit "world")]; [run (lit " Thanks ")]].

(** A part with a text box: a run that is a segment of its own, then a
    paragraph of two runs, the second of which sits in a text box, that
    is, below a paragraph of its own as well. *)
Definition boxedRuns : list TextNode :=
  [run (lit " Thanks "); run (lit "Hello "); run (lit "world")].

Definition boxedParagraphs : list (list nat) := [[0]; [1; 2]; [2]]%nat.

Definition greetingMap : gmap jsstring jsstring :=
  translationMap [translatedSegment "Hello world" "Bonjour le monde";
                  translatedSegment "Thanks" "Merci"].

(** A font in which every unit is six units wide. *)
Definition monoWidth : jsstring → Q := λ token, inject_Z (6 * strlen token).

(** Segments of two pages, the second one given first. *)
Definition pagedSegments : list Segment.t :=
  [Segment.mk (lit "seg-f-0") 0 (lit "Second page") (lit "Deuxieme page")
              SegCompleted None (Some 2);
   Segment.mk (lit "seg-f-1") 1 (lit "First page") [] SegPending None (Some 1);
   Segment.mk (lit "seg-f-2") 2 (lit "No page") (lit "Sans page")
              SegCompleted None None].

(** A backend with one idle job and an empty queue. *)
Definition idleService : Service.t unit :=
  Service.mk unit (backendWith (FileJob.set_status JobIdle pairJob)) [] false.

(** The same while another file is being processed. *)
Definition busyService : Service.t unit :=
  Service.mk unit (backendWith (FileJob.set_status JobIdle pairJob))
             [lit "g"] true.

(** A backend with one idle job of three pages, one segment on each page
    and one segment without page, no range selected yet. *)
Definition idlePagedService : Service.t unit :=
  Service.mk unit
    (backendWith
       (FileJob.set_status JobIdle
          (jobOf [segmentOn 0 "one" (Some 1); segmentOn 1 "two" (Some 2);
                  segmentOn 2 "three" (Some 3); segmentOn 3 "nowhere" None]
                 (Some 3) None)))
    [] false.

(** A page of a parsed PDF: a paragraph and some white space. *)
Definition pageChildren : list Tokenizer.Node :=
  [Tokenizer.Element (lit "p") None [Tokenizer.Text (lit "Hello")];
   Tokenizer.Text (lit "  ")].

End Samples.


(** * Properties *)

(** ** Binary64 arithmetic *)

Section double_facts.
Import Double Backend.

Lemma Qcompare_cases x y :
  match (x ?= y)%Q with Eq => (x == y)%Q | Lt => (x < y)%Q | Gt => (y < x)%Q end.
Proof.
  destruct (x ?= y)%Q eqn:H;
    [apply Qeq_alt | apply Qlt_alt | apply Qgt_alt]; exact H.
Qed.


Lemma pow2_pos q : (0 < 2 ^ q)%Q.
Proof. apply Qpower_0_lt. reflexivity. Qed.

Lemma pow2_Z k : 0 <= k → (2 ^ k == inject_Z (2 ^ k))%Q.
Proof. intros Hk. symmetry. apply (Zpower_Qpower 2 k Hk). Qed.

Lemma pow2_add a b : (2 ^ (a + b) == 2 ^ a * 2 ^ b)%Q.
Proof. apply Qpower_plus. discriminate. Qed.

Lemma pow2_le a b : a <= b → (2 ^ a <= 2 ^ b)%Q.
Proof. intros H. apply Qpower_le_compat_l; [exact H | discriminate]. Qed.

Lemma pow2_lt_inv a b : (2 ^ a < 2 ^ b)%Q → a < b.
Proof. intros H. apply (Qpower_lt_compat_l_inv 2); [exact H | reflexivity]. Qed.

Lemma exponent_spec x :
  (0 < x)%Q → (2 ^ exponent x <= x)%Q /\ (x < 2 ^ (exponent x + 1))%Q.
Proof.
  intros Hx. unfold exponent.
  destruct x as [n d]. cbn [Qnum Qden].
  assert (Hn : 0 < n) by (unfold Qlt in Hx; cbn in Hx; lia).
  set (s := Z.log2 (Z.pos d) + 1).
  assert (Hs : 0 <= s) by (pose proof (Z.log2_nonneg (Z.pos d)); lia).
  assert (Hd : Z.pos d < 2 ^ s).
  { unfold s. apply Z.log2_spec. lia. }
  set (y := n * 2 ^ s / Z.pos d).
  assert (Hy1 : 1 <= y).
  { unfold y. apply Z.div_le_lower_bound; [lia|]. nia. }
  pose proof (Z.log2_spec y ltac:(lia)) as [Hlo Hhi].
  set (L := Z.log2 y) in *.
  assert (HL : 0 <= L) by apply Z.log2_nonneg.
  assert (Hyd : y * Z.pos d <= n * 2 ^ s < (y + 1) * Z.pos d).
  { unfold y. pose proof (Z.div_mod (n * 2 ^ s) (Z.pos d) ltac:(lia)).
    pose proof (Z.mod_pos_bound (n * 2 ^ s) (Z.pos d) ltac:(lia)). nia. }
  assert (Hps : (0 < inject_Z (2 ^ s))%Q).
  { rewrite <- pow2_Z by lia. apply pow2_pos. }
  split.
  - replace (L - s) with (L + - s) by lia.
    rewrite pow2_add, Qpower_opp, (pow2_Z L), (pow2_Z s) by lia.
    apply Qle_shift_div_r; [exact Hps|].
    unfold Qle, Qmult, inject_Z. cbn. nia.
  - replace (L - s + 1) with ((L + 1) + - s) by lia.
    rewrite pow2_add, Qpower_opp, (pow2_Z (L + 1)), (pow2_Z s) by lia.
    apply Qlt_shift_div_l; [exact Hps|].
    unfold Qlt, Qmult, inject_Z. cbn. nia.
Qed.

Lemma exponent_unique x e :
  (2 ^ e <= x)%Q → (x < 2 ^ (e + 1))%Q → exponent x = e.
Proof.
  intros Hlo Hhi.
  assert (Hx : (0 < x)%Q) by (eapply Qlt_le_trans; [apply (pow2_pos e) | exact Hlo]).
  destruct (exponent_spec x Hx) as [Hlo' Hhi'].
  assert (exponent x < e + 1).
  { apply pow2_lt_inv. eapply Qle_lt_trans; eassumption. }
  assert (e < exponent x + 1).
  { apply pow2_lt_inv. eapply Qle_lt_trans; eassumption. }
  lia.
Qed.

Lemma exponent_mono x y : (0 < x)%Q → (x <= y)%Q → exponent x <= exponent y.
Proof.
  intros Hx Hxy.
  assert (Hy : (0 < y)%Q) by (eapply Qlt_le_trans; eassumption).
  destruct (exponent_spec x Hx) as [Hlo _].
  destruct (exponent_spec y Hy) as [_ Hhi].
  assert (exponent x < exponent y + 1); [|lia].
  apply pow2_lt_inv. eapply Qle_lt_trans; [|exact Hhi].
  eapply Qle_trans; eassumption.
Qed.

Lemma exponent_comp x y : (0 < x)%Q → (x == y)%Q → exponent x = exponent y.
Proof.
  intros Hx Hxy.
  assert (Hy : (0 < y)%Q) by (rewrite <- Hxy; exact Hx).
  pose proof (exponent_mono x y Hx ltac:(rewrite Hxy; apply Qle_refl)).
  pose proof (exponent_mono y x Hy ltac:(rewrite Hxy; apply Qle_refl)).
  lia.
Qed.

Lemma ulp_pos x : (0 < ulp x)%Q.
Proof. apply pow2_pos. Qed.

Lemma ulp_comp x y : (0 < x)%Q → (x == y)%Q → ulp x = ulp y.
Proof. intros Hx Hxy. unfold ulp. rewrite (exponent_comp x y Hx Hxy). reflexivity. Qed.

Lemma roundEven_comp x y : (x == y)%Q → roundEven x = roundEven y.
Proof.
  intros H. unfold roundEven.
  rewrite (Qfloor_comp x y H).
  assert (Hc : ((x - inject_Z (Qfloor y) ?= 1 # 2) = (y - inject_Z (Qfloor y) ?= 1 # 2))%Q).
  { apply Qcompare_comp; [rewrite H|]; reflexivity. }
  rewrite Hc. reflexivity.
Qed.

Lemma roundEven_bounds x :
  Qfloor x <= roundEven x <= Qfloor x + 1.
Proof.
  unfold roundEven.
  destruct (x - inject_Z (Qfloor x) ?= 1 # 2)%Q; [destruct (Z.even _)| |]; lia.
Qed.

Lemma roundEven_Z n : roundEven (inject_Z n) = n.
Proof.
  unfold roundEven. rewrite Qfloor_Z.
  assert (H : (inject_Z n - inject_Z n ?= 1 # 2)%Q = Lt).
  { apply Qlt_alt. setoid_replace (inject_Z n - inject_Z n)%Q with 0%Q using relation Qeq by ring. reflexivity. }
  rewrite H. reflexivity.
Qed.

Lemma roundEven_mono x y : (x <= y)%Q → roundEven x <= roundEven y.
Proof.
  intros Hxy.
  pose proof (Qfloor_resp_le x y Hxy) as Hf.
  pose proof (roundEven_bounds x). pose proof (roundEven_bounds y).
  destruct (Z.eq_dec (Qfloor x) (Qfloor y)) as [Heq|Hne]; [|lia].
  unfold roundEven. rewrite <- Heq.
  assert (Hfrac : (x - inject_Z (Qfloor x) <= y - inject_Z (Qfloor x))%Q) by lra.
  pose proof (Qcompare_cases (x - inject_Z (Qfloor x)) (1 # 2)) as Hx.
  pose proof (Qcompare_cases (y - inject_Z (Qfloor x)) (1 # 2)) as Hy.
  destruct (x - inject_Z (Qfloor x) ?= 1 # 2)%Q;
    destruct (y - inject_Z (Qfloor x) ?= 1 # 2)%Q;
    try (destruct (Z.even (Qfloor x))); try lia; exfalso; lra.
Qed.


Lemma nearest_comp x y : (0 < x)%Q → (x == y)%Q → (nearest x == nearest y)%Q.
Proof.
  intros Hx Hxy. unfold nearest. rewrite (ulp_comp x y Hx Hxy).
  rewrite (roundEven_comp (x / ulp y) (y / ulp y)); [reflexivity|].
  rewrite Hxy. reflexivity.
Qed.

Lemma round_comp x y : (x == y)%Q → (round x == round y)%Q.
Proof.
  intros Hxy. unfold round.
  rewrite (Qcompare_comp x y Hxy 0%Q 0%Q ltac:(reflexivity)).
  destruct (y ?= 0)%Q eqn:Hy; [reflexivity| |].
  - apply Qlt_alt in Hy. apply Qopp_comp. apply nearest_comp; lra.
  - apply Qgt_alt in Hy. apply nearest_comp; lra.
Qed.

#[global] Instance round_proper : Proper (Qeq ==> Qeq) round.
Proof. intros x y H. apply round_comp, H. Qed.

Lemma round_positive x : (0 < x)%Q → round x = nearest x.
Proof. intros H. unfold round. apply Qgt_alt in H. rewrite H. reflexivity. Qed.

Lemma nearest_nonneg x : (0 < x)%Q → (0 <= nearest x)%Q.
Proof.
  intros Hx. unfold nearest. pose proof (ulp_pos x).
  apply Qmult_le_0_compat; [|lra].
  change 0%Q with (inject_Z 0). rewrite <- Zle_Qle.
  pose proof (roundEven_bounds (x / ulp x)).
  assert (0 <= Qfloor (x / ulp x)); [|lia].
  apply Qfloor_resp_le with (x := 0%Q).
  apply Qle_shift_div_l; [assumption | lra].
Qed.

Lemma round_nonneg x : (0 <= x)%Q → (0 <= round x)%Q.
Proof.
  intros H. destruct (Qlt_le_dec 0 x) as [Hp|Hz].
  - rewrite round_positive by exact Hp. apply nearest_nonneg, Hp.
  - assert (Hx : (x == 0)%Q) by lra. rewrite Hx. compute. discriminate.
Qed.

(** A multiple of the grid step stays fixed. *)
Lemma nearest_grid x m :
  (0 < x)%Q → (x == inject_Z m * ulp x)%Q → (nearest x == x)%Q.
Proof.
  intros Hx Hm. unfold nearest. pose proof (ulp_pos x).
  rewrite (roundEven_comp (x / ulp x) (inject_Z m)).
  - rewrite roundEven_Z. symmetry. exact Hm.
  - rewrite Hm at 1. field. lra.
Qed.

Lemma nearest_le_grid x m q :
  (0 < x)%Q → (x <= inject_Z m * 2 ^ q)%Q ->
  Z.max (exponent x - 52) (-1074) <= q ->
  (nearest x <= inject_Z m * 2 ^ q)%Q.
Proof.
  intros Hx Hle Hq. unfold nearest, ulp.
  set (u := Z.max (exponent x - 52) (-1074)) in *.
  pose proof (pow2_pos u) as Hu.
  assert (Hsplit : (2 ^ q == inject_Z (2 ^ (q - u)) * 2 ^ u)%Q).
  { rewrite <- pow2_Z by lia. rewrite <- pow2_add. f_equiv. lia. }
  rewrite Hsplit, Qmult_assoc, <- inject_Z_mult in *.
  apply Qmult_le_compat_r; [|lra].
  rewrite <- Zle_Qle.
  rewrite <- (roundEven_Z (m * 2 ^ (q - u))).
  apply roundEven_mono. apply Qle_shift_div_r; [exact Hu | exact Hle].
Qed.

Lemma nearest_ge_grid x m q :
  (0 < x)%Q → (inject_Z m * 2 ^ q <= x)%Q ->
  Z.max (exponent x - 52) (-1074) <= q ->
  (inject_Z m * 2 ^ q <= nearest x)%Q.
Proof.
  intros Hx Hle Hq. unfold nearest, ulp.
  set (u := Z.max (exponent x - 52) (-1074)) in *.
  pose proof (pow2_pos u) as Hu.
  assert (Hsplit : (2 ^ q == inject_Z (2 ^ (q - u)) * 2 ^ u)%Q).
  { rewrite <- pow2_Z by lia. rewrite <- pow2_add. f_equiv. lia. }
  rewrite Hsplit, Qmult_assoc, <- inject_Z_mult in *.
  apply Qmult_le_compat_r; [|lra].
  rewrite <- Zle_Qle.
  rewrite <- (roundEven_Z (m * 2 ^ (q - u))).
  apply roundEven_mono. apply Qle_shift_div_l; [exact Hu | exact Hle].
Qed.

Lemma nearest_mono x y : (0 < x)%Q → (x <= y)%Q → (nearest x <= nearest y)%Q.
Proof.
  intros Hx Hxy.
  assert (Hy : (0 < y)%Q) by lra.
  pose proof (exponent_mono x y Hx Hxy) as He.
  set (ux := Z.max (exponent x - 52) (-1074)).
  set (uy := Z.max (exponent y - 52) (-1074)).
  destruct (Z.eq_dec ux uy) as [Heq|Hne].
  - unfold nearest, ulp. fold ux uy. rewrite Heq.
    pose proof (pow2_pos uy).
    apply Qmult_le_compat_r; [|lra].
    rewrite <- Zle_Qle. apply roundEven_mono.
    apply Qmult_le_compat_r; [exact Hxy|].
    apply Qlt_le_weak, Qinv_lt_0_compat. assumption.
  - assert (Huy : uy = exponent y - 52 /\ ux < uy /\ exponent x < exponent y)
      by (unfold ux, uy in *; lia).
    destruct Huy as (Huy & Hlt & Hex).
    destruct (exponent_spec x Hx) as [_ Hxhi].
    destruct (exponent_spec y Hy) as [Hylo _].
    apply Qle_trans with (inject_Z 1 * 2 ^ exponent y)%Q.
    + apply nearest_le_grid; [exact Hx| |fold ux; lia].
      change (inject_Z 1) with 1%Q. rewrite Qmult_1_l.
      apply Qlt_le_weak. eapply Qlt_le_trans; [exact Hxhi|].
      apply pow2_le. lia.
    + apply nearest_ge_grid; [exact Hy| |fold uy; lia].
      change (inject_Z 1) with 1%Q. rewrite Qmult_1_l. exact Hylo.
Qed.

Lemma round_mono x y : (0 <= x)%Q → (x <= y)%Q → (round x <= round y)%Q.
Proof.
  intros Hx Hxy. destruct (Qlt_le_dec 0 x) as [Hp|Hz].
  - rewrite !round_positive by lra. apply nearest_mono; assumption.
  - assert (Hx0 : (x == 0)%Q) by lra. rewrite Hx0.
    change (round 0) with 0%Q. apply round_nonneg. lra.
Qed.

(** Integers up to 2^53 are doubles. *)
Lemma round_Z n : 0 <= n <= 2 ^ 53 → (round (inject_Z n) == inject_Z n)%Q.
Proof.
  intros Hn. destruct (Z.eq_dec n 0) as [->|Hn0]; [reflexivity|].
  assert (Hpos : (0 < inject_Z n)%Q).
  { change 0%Q with (inject_Z 0). rewrite <- Zlt_Qlt. lia. }
  rewrite round_positive by exact Hpos.
  pose proof (Z.log2_spec n ltac:(lia)) as [Hlo Hhi].
  pose proof (Z.log2_nonneg n) as HL.
  assert (He : exponent (inject_Z n) = Z.log2 n).
  { apply exponent_unique.
    - rewrite pow2_Z by lia. rewrite <- Zle_Qle. exact Hlo.
    - rewrite pow2_Z by lia. rewrite <- Zlt_Qlt. replace (Z.log2 n + 1) with (Z.succ (Z.log2 n)) by lia. exact Hhi. }
  assert (HL53 : Z.log2 n <= 53).
  { destruct (Z.le_gt_cases (Z.log2 n) 53) as [|Hgt]; [assumption|].
    assert (2 ^ 54 <= 2 ^ Z.log2 n) by (apply Z.pow_le_mono_r; lia). lia. }
  assert (Hu : ulp (inject_Z n) = (2 ^ (Z.log2 n - 52))%Q).
  { unfold ulp. rewrite He. f_equal. lia. }
  destruct (Z.eq_dec (Z.log2 n) 53) as [H53|H53].
  - assert (n = 2 ^ 53) as -> by (rewrite H53 in Hlo; lia).
    apply (nearest_grid _ (2 ^ 52)). { exact Hpos. }
    rewrite Hu. vm_compute. reflexivity.
  - apply (nearest_grid _ (n * 2 ^ (52 - Z.log2 n))). { exact Hpos. }
    rewrite Hu, inject_Z_mult, <- (pow2_Z (52 - Z.log2 n)) by lia.
    rewrite <- Qmult_assoc, <- pow2_add.
    replace (52 - Z.log2 n + (Z.log2 n - 52)) with 0 by lia.
    change (2 ^ 0)%Q with 1%Q. ring.
Qed.

Lemma round_le_Z x n :
  (0 <= x)%Q → (x <= inject_Z n)%Q → 0 <= n <= 2 ^ 53 →
  (round x <= inject_Z n)%Q.
Proof.
  intros H0 Hx Hn. apply Qle_trans with (round (inject_Z n)).
  - apply round_mono; assumption.
  - rewrite round_Z by exact Hn. apply Qle_refl.
Qed.

Lemma round_ge_Z x n :
  0 <= n <= 2 ^ 53 → (inject_Z n <= x)%Q → (inject_Z n <= round x)%Q.
Proof.
  intros Hn Hx. apply Qle_trans with (round (inject_Z n)).
  - rewrite round_Z by exact Hn. apply Qle_refl.
  - apply round_mono; [|exact Hx].
    change 0%Q with (inject_Z 0). rewrite <- Zle_Qle. lia.
Qed.


(** A double below 1 is at most 1 - 2^-53. *)
Lemma below_one r :
  (0 <= r)%Q → (r < 1)%Q → (round r == r)%Q ->
  (r <= 1 - (1 # 2 ^ 53))%Q.
Proof.
  intros H0 H1 Hr. destruct (Qlt_le_dec r (1 # 2)) as [Hlt|Hge].
  { eapply Qle_trans; [apply Qlt_le_weak, Hlt|]. compute. discriminate. }
  assert (Hp : (0 < r)%Q) by lra.
  assert (He : exponent r = -1).
  { apply exponent_unique; [exact Hge | exact H1]. }
  rewrite round_positive in Hr by exact Hp. unfold nearest, ulp in Hr.
  rewrite He in Hr. change (Z.max (-1 - 52) (-1074)) with (-53) in Hr.
  set (m := roundEven (r / 2 ^ (-53))) in *.
  assert (Hm : m < 2 ^ 53).
  { assert (Hm' : (inject_Z m * 2 ^ (-53) < 1)%Q) by (rewrite Hr; exact H1).
    let v := eval vm_compute in (2 ^ (-53))%Q in
      change (2 ^ (-53))%Q with v in Hm'.
    unfold Qlt in Hm'. cbn in Hm'. lia. }
  rewrite <- Hr.
  apply Qle_trans with (inject_Z (2 ^ 53 - 1) * 2 ^ (-53))%Q.
  - apply Qmult_le_compat_r; [|discriminate]. rewrite <- Zle_Qle. lia.
  - compute. discriminate.
Qed.

Lemma Math_round_comp x y : (x == y)%Q → Math_round x = Math_round y.
Proof. intros H. unfold Math_round. apply Qfloor_comp. rewrite H. reflexivity. Qed.




Lemma percent_zero (total : nat) : Math_round (percent 0 total) = 0.
Proof.
  unfold percent, mul, div.
  assert (H1 : (inject_Z 0 / inject_Z (Z.of_nat total) == 0)%Q).
  { unfold Qdiv. change (inject_Z 0) with 0%Q. apply Qmult_0_l. }
  assert (H2 : (round (inject_Z 0 / inject_Z (Z.of_nat total)) * 100 == 0)%Q).
  { rewrite H1. reflexivity. }
  rewrite (Math_round_comp _ 0%Q); [reflexivity|].
  rewrite H2. reflexivity.
Qed.



End double_facts.

Import Reassembler Gemini.

(** ** Dominant run *)

(** The selection loop keeps the first longest candidate: no candidate is
    longer than the dominant one, and every candidate before it is
    strictly shorter. *)
Lemma dominantNode_first_longest (p : list TextNode) (candidates : list nat) :
  candidates ≠ [] →
  let dominant := dominantNode p candidates in
  ∃ i, candidates !! i = Some dominant
       ∧ (∀ j c, candidates !! j = Some c →
                 strlen (textAt p c) ≤ strlen (textAt p dominant))
       ∧ (∀ j c, (j < i)%nat → candidates !! j = Some c →
                 strlen (textAt p c) < strlen (textAt p dominant)).
Proof.
  intros Hne dominant.
  set (step := λ '(maxLen, dom) node,
         let len := strlen (textAt p node) in
         if maxLen <? len then (len, node) else (maxLen, dom)).
  assert (Hinv : ∀ rest seen maxLen dom i,
    seen !! i = Some dom → maxLen = strlen (textAt p dom) →
    (∀ j c, seen !! j = Some c →
       strlen (textAt p c) ≤ maxLen ∧ ((j < i)%nat → strlen (textAt p c) < maxLen)) →
    ∃ i', (seen ++ rest) !! i' = Some (snd (fold_left step rest (maxLen, dom)))
          ∧ (∀ j c, (seen ++ rest) !! j = Some c →
                    strlen (textAt p c)
                    ≤ strlen (textAt p (snd (fold_left step rest (maxLen, dom)))))
          ∧ (∀ j c, (j < i')%nat → (seen ++ rest) !! j = Some c →
                    strlen (textAt p c)
                    < strlen (textAt p (snd (fold_left step rest (maxLen, dom)))))).
  { induction rest as [|node rest IH]; intros seen maxLen dom i Hi Hmax Hseen.
    - simpl. rewrite app_nil_r. exists i. subst maxLen.
      split; [exact Hi|]. split.
      + intros j c Hc. apply (Hseen j c Hc).
      + intros j c Hj Hc. apply (Hseen j c Hc), Hj.
    - cbn [fold_left].
      change (step (maxLen, dom) node)
        with (if maxLen <? strlen (textAt p node)
              then (strlen (textAt p node), node) else (maxLen, dom)).
      replace (seen ++ node :: rest) with ((seen ++ [node]) ++ rest)
        by (rewrite <- app_assoc; reflexivity).
      destruct (Z.ltb_spec maxLen (strlen (textAt p node))) as [Hlt|Hge].
      + apply (IH (seen ++ [node]) _ node (length seen)).
        * rewrite lookup_app_r by lia. rewrite Nat.sub_diag. reflexivity.
        * reflexivity.
        * intros j c Hc. apply lookup_app_Some in Hc as [Hc|[Hlen Hc]].
          -- pose proof (lookup_lt_Some _ _ _ Hc). destruct (Hseen j c Hc). lia.
          -- destruct (j - length seen)%nat as [|n] eqn:Hn; [|discriminate].
             injection Hc as <-. split; [lia|]. intros Hj. lia.
      + apply (IH (seen ++ [node]) maxLen dom i).
        * apply lookup_app_l_Some. exact Hi.
        * exact Hmax.
        * intros j c Hc. apply lookup_app_Some in Hc as [Hc|[Hlen Hc]].
          -- apply (Hseen j c Hc).
          -- destruct (j - length seen)%nat as [|n] eqn:Hn; [|discriminate].
             injection Hc as <-. split; [lia|]. intros Hj.
             pose proof (lookup_lt_Some _ _ _ Hi). lia. }
  destruct candidates as [|first rest]; [congruence|].
  unfold dominant, dominantNode. fold step. cbn [hd fold_left].
  change (step (-1, first) first)
    with (if -1 <? strlen (textAt p first)
          then (strlen (textAt p first), first) else (-1, first)).
  assert (Hfirst : (-1 <? strlen (textAt p first)) = true)
    by (apply Z.ltb_lt; unfold strlen; lia).
  rewrite Hfirst.
  apply (Hinv rest [first] _ first 0%nat); [reflexivity|reflexivity|].
  intros [|j] c Hc; [|discriminate]. injection Hc as <-. split; [lia|lia].
Qed.

(** C1, as stated, fails: for the runs "Hello ", "world", "!!!" the run
    that the selection picks does not hold the text "world". *)
Lemma dominant_run_is_not_world :
  let p := Fixtures.helloWorld in
  textAt p (dominantNode p (candidateNodes p (positionsWhere unhandled 0 p)))
  ≠ lit "world".
Proof. vm_compute. discriminate. Qed.

(** C1, amended: all three runs "Hello ", "world", "!!!" pass
    [hasMeaningfulContent] ("!!!" has units that are neither white space
    nor underscore), so all three are candidates, and the longest of them,
    the six-unit run "Hello " at position 0, is the dominant one: when the
    trimmed concatenation is a key of the translation map, the first run
    receives the translation and "world" and "!!!" are emptied. *)
Theorem dominant_run_hello_world (preserve : bool)
    (tm : gmap jsstring jsstring) (translated : jsstring) :
  tm !! lit "Hello world!!!" = Some translated →
  let p := Fixtures.helloWorld in
  hasMeaningfulContent (lit "!!!") = true
  ∧ candidateNodes p (positionsWhere unhandled 0 p) = [0; 1; 2]%nat
  ∧ dominantNode p [0; 1; 2]%nat = 0%nat
  ∧ strlen (lit "Hello ") = 6 ∧ strlen (lit "world") = 5 ∧ strlen (lit "!!!") = 3
  ∧ aggregateParagraph preserve tm p
    = [ markTranslated preserve translated (run (lit "Hello "));
        clearNode (run (lit "world"));
        clearNode (run (lit "!!!")) ].
Proof.
  intros Hkey p. repeat split; try (vm_compute; reflexivity).
  unfold aggregateParagraph.
  change (positionsWhere unhandled 0 p) with [0; 1; 2]%nat.
  change (length [0; 1; 2]%nat <=? 1)%nat with false. cbv iota.
  change (trim (concat (List.map (textAt p) [0; 1; 2]%nat)))
    with (lit "Hello world!!!").
  rewrite Hkey.
  change (candidateNodes p [0; 1; 2]%nat) with [0; 1; 2]%nat.
  change (dominantNode p [0; 1; 2]%nat) with 0%nat.
  reflexivity.
Qed.

Lemma dominant_run_hello_world_witness :
  aggregateParagraph true (translationMap [Fixtures.helloSegment])
                     Fixtures.helloWorld
  = [ markTranslated true (lit "Bonjour le monde!!!") (run (lit "Hello "));
      clearNode (run (lit "world"));
      clearNode (run (lit "!!!")) ].
Proof.
  apply (dominant_run_hello_world true
           (translationMap [Fixtures.helloSegment]) (lit "Bonjour le monde!!!")).
  vm_compute. reflexivity.
Defined.

(** ** Translation client: retry loop *)

Section client_facts.
Variable generateContent : nat → jsstring → jsstring → ApiOutcome.
Variable random : nat → Q.
Variables text targetLang : jsstring.

Lemma retryLoop_spec (fuel : nat) :
  ∀ attempt slept,
    (fuel + attempt = MAX_RETRIES)%nat → (0 < fuel)%nat →
    length slept = attempt →
    let r := retryLoop generateContent random text targetLang fuel attempt slept in
    (attempt < attempts r ≤ MAX_RETRIES)%nat
    ∧ length (delays r) = (attempts r - 1)%nat
    ∧ (∀ k, (k < attempt)%nat → delays r !! k = slept !! k)
    ∧ (∀ k, (attempt ≤ k < attempts r - 1)%nat →
         failsRetryably generateContent text targetLang k ∧ delays r !! k = Some (backoffTime random k))
    ∧ match generateContent (attempts r - 1) text targetLang with
      | Responded t =>
          completion r = Resolved (orElse (from_option trim [] t) text)
      | Failed e =>
          completion r = Rejected (Thrown_error e)
          ∧ (retryable e = false ∨ attempts r = MAX_RETRIES)
      | Failed_without_text => completion r = Rejected Type_error
      end.
Proof.
  induction fuel as [|fuel IH]; intros attempt slept Hsum Hpos Hlen; [lia|].
  cbn [retryLoop].
  destruct (generateContent attempt text targetLang) as [t|e|] eqn:Hgen.
  - cbn [attempts delays completion].
    replace (S attempt - 1)%nat with attempt by lia. rewrite Hgen.
    repeat split; try lia; auto; intros k Hk; lia.
  - fold (retryable e).
    destruct (retryable e && (attempt <? MAX_RETRIES - 1)%nat) eqn:Hretry.
    + apply andb_true_iff in Hretry as [Hre Hlt].
      apply Nat.ltb_lt in Hlt. unfold MAX_RETRIES in *.
      specialize (IH (S attempt) (slept ++ [backoffTime random attempt])).
      destruct IH as (Hatt & Hdel & Hpre & Hmid & Hlast);
        [lia | lia | rewrite length_app; simpl; lia |].
      split; [lia|]. split; [exact Hdel|]. split; [|split; [|exact Hlast]].
      * intros k Hk. rewrite Hpre by lia. apply lookup_app_l. lia.
      * intros k Hk. destruct (decide (k = attempt)) as [->|Hne].
        -- split; [exists e; split; assumption|].
           rewrite Hpre by lia.
           rewrite lookup_app_r by lia.
           replace (attempt - length slept)%nat with 0%nat by lia. reflexivity.
        -- apply Hmid. lia.
    + cbn [attempts delays completion].
      replace (S attempt - 1)%nat with attempt by lia. rewrite Hgen.
      apply andb_false_iff in Hretry.
      split; [lia|]. split; [lia|]. split; [auto|].
      split; [intros k Hk; lia|]. split; [reflexivity|].
      destruct Hretry as [Hre|Hlt]; [left; exact Hre|right].
        apply Nat.ltb_ge in Hlt. unfold MAX_RETRIES in *. lia.
  - cbn [attempts delays completion].
    replace (S attempt - 1)%nat with attempt by lia. rewrite Hgen.
    repeat split; try lia; auto; intros k Hk; lia.
Qed.

Lemma translateTextSegment_spec :
  trim text ≠ [] →
  let r := translateTextSegment generateContent random text targetLang in
  (1 ≤ attempts r ≤ MAX_RETRIES)%nat
  ∧ length (delays r) = (attempts r - 1)%nat
  ∧ (∀ k, (k < attempts r - 1)%nat →
       failsRetryably generateContent text targetLang k ∧ delays r !! k = Some (backoffTime random k))
  ∧ match generateContent (attempts r - 1) text targetLang with
    | Responded t =>
        completion r = Resolved (orElse (from_option trim [] t) text)
    | Failed e =>
        completion r = Rejected (Thrown_error e)
        ∧ (retryable e = false ∨ attempts r = MAX_RETRIES)
    | Failed_without_text => completion r = Rejected Type_error
    end.
Proof.
  intros Hblank. unfold translateTextSegment.
  assert (Hguard : negb (truthy text) || (length (trim text) =? 0)%nat = false).
  { apply orb_false_iff. split.
    - destruct text; [exfalso; apply Hblank; reflexivity | reflexivity].
    - apply Nat.eqb_neq. destruct (trim text); [congruence | simpl; lia]. }
  rewrite Hguard.
  destruct (retryLoop_spec MAX_RETRIES 0 []) as (Hatt & Hdel & _ & Hmid & Hlast);
    [reflexivity | unfold MAX_RETRIES; lia | reflexivity |].
  repeat split; try lia; try apply Hmid; try lia. exact Hlast.
Qed.

(** A remote model that echoes the text in its first response makes the
    client return the trimmed text (line 46). *)
Lemma translateTextSegment_echo :
  trim text ≠ [] →
  generateContent 0%nat text targetLang = Responded (Some text) →
  translateTextSegment generateContent random text targetLang
  = mkRun (Resolved (trim text)) 1 [].
Proof.
  intros Hblank Hecho. unfold translateTextSegment.
  destruct text as [|c t] eqn:Ht; [exfalso; apply Hblank; reflexivity|].
  cbn [truthy negb orb].
  destruct (trim (c :: t)) as [|c' t'] eqn:Htrim; [congruence|].
  cbn [length Nat.eqb MAX_RETRIES retryLoop]. rewrite Hecho.
  cbn [from_option]. rewrite Htrim. reflexivity.
Qed.

(** The base of the delay is an integer that a double holds. *)
Lemma backoff_base (k : nat) :
  (k ≤ 4)%nat →
  (Double.mul 10000 (inject_Z (2 ^ Z.of_nat k)) == inject_Z (10000 * 2 ^ Z.of_nat k))%Q.
Proof.
  intros Hk. unfold Double.mul.
  assert (Hrange : 0 ≤ 10000 * 2 ^ Z.of_nat k ≤ 2 ^ 53).
  { assert (0 < 2 ^ Z.of_nat k ≤ 2 ^ 4); [|lia].
    split; [apply Z.pow_pos_nonneg; lia | apply Z.pow_le_mono_r; lia]. }
  apply Qeq_trans with (Double.round (inject_Z (10000 * 2 ^ Z.of_nat k))).
  - apply round_comp. rewrite inject_Z_mult. reflexivity.
  - apply round_Z, Hrange.
Qed.

(** The jitter of a random double in [0, 1) is below 2000. *)
Lemma jitter_bounds (x : Q) :
  (0 <= x)%Q → (x < 1)%Q → Double.representable x →
  (0 <= Double.mul x 2000)%Q ∧ (Double.mul x 2000 < 2000)%Q.
Proof.
  intros H0 H1 Hrep. unfold Double.mul. split.
  - apply round_nonneg. apply Qmult_le_0_compat; [exact H0 | discriminate].
  - pose proof (below_one x H0 H1 Hrep) as Hle.
    apply Qle_lt_trans with (Double.round ((1 - (1 # 2 ^ 53)) * 2000)).
    + apply round_mono.
      * apply Qmult_le_0_compat; [exact H0 | discriminate].
      * apply Qmult_le_compat_r; [exact Hle | discriminate].
    + vm_compute. reflexivity.
Qed.

(** The delay lies between its base and 2000 ms more, both included. *)
Lemma backoff_bounds (k : nat) :
  (k ≤ 4)%nat → (0 <= random k)%Q → (random k < 1)%Q →
  (backoffTime random k
   == Double.add (inject_Z (10000 * 2 ^ Z.of_nat k)) (Double.mul (random k) 2000))%Q
  ∧ (inject_Z (10000 * 2 ^ Z.of_nat k) <= backoffTime random k)%Q
  ∧ (backoffTime random k <= inject_Z (10000 * 2 ^ Z.of_nat k + 2000))%Q.
Proof.
  intros Hk H0 H1. unfold backoffTime, Double.add.
  pose proof (backoff_base k Hk) as Hbase.
  assert (Hrange : 0 < 10000 * 2 ^ Z.of_nat k ≤ 160000).
  { assert (0 < 2 ^ Z.of_nat k ≤ 2 ^ 4); [|lia].
    split; [apply Z.pow_pos_nonneg; lia | apply Z.pow_le_mono_r; lia]. }
  set (base := 10000 * 2 ^ Z.of_nat k) in *.
  assert (Hb0 : (0 <= inject_Z base)%Q).
  { change 0%Q with (inject_Z 0). rewrite <- Zle_Qle. lia. }
  assert (Hj0 : (0 <= Double.mul (random k) 2000)%Q).
  { apply round_nonneg. apply Qmult_le_0_compat; [exact H0 | discriminate]. }
  assert (Hj1 : (Double.mul (random k) 2000 <= 2000)%Q).
  { apply (round_le_Z _ 2000); [|
      change (inject_Z 2000) with (1 * 2000)%Q;
      apply Qmult_le_compat_r; [apply Qlt_le_weak, H1 | discriminate] | lia].
    apply Qmult_le_0_compat; [exact H0 | discriminate]. }
  assert (Heq : (Double.round (Double.mul 10000 (inject_Z (2 ^ Z.of_nat k))
                               + Double.mul (random k) 2000)
                 == Double.round (inject_Z base + Double.mul (random k) 2000))%Q).
  { apply round_comp. rewrite Hbase. reflexivity. }
  split; [exact Heq|]. rewrite Heq. split.
  - apply round_ge_Z; [lia | lra].
  - apply round_le_Z; [lra | | lia].
    rewrite inject_Z_plus. change (inject_Z 2000) with 2000%Q. lra.
Qed.
End client_facts.

Lemma status_429_retryable e : status e = Some 429 → retryable e = true.
Proof.
  intros H. unfold retryable, isRateLimit, errorCode, orNum.
  rewrite H. reflexivity.
Qed.

Lemma status_503_retryable e : status e = Some 503 → retryable e = true.
Proof.
  intros H. unfold retryable, isServerOverload, errorCode, orNum.
  rewrite H. simpl. apply orb_true_r.
Qed.

Lemma quota_retryable e :
  includes (errorMessage e) (lit "quota") = true → retryable e = true.
Proof.
  intros H. unfold retryable, isRateLimit. rewrite H.
  rewrite !orb_true_r. reflexivity.
Qed.

(** The retry condition, read off the thrown value. *)
Lemma retryable_iff e :
  retryable e = true ↔
  let code := if numTruthy (status e) then status e
              else if numTruthy (response_status e) then response_status e
              else body_error_code e in
  let text := match message e with [] => json e | _ => message e end in
  code = Some 429 ∨ code = Some 503
  ∨ includes text (lit "429") = true
  ∨ includes text (lit "quota") = true
  ∨ includes text (lit "RESOURCE_EXHAUSTED") = true
  ∨ includes text (lit "503") = true.
Proof.
  cbv zeta. unfold retryable, isRateLimit, isServerOverload, errorCode,
    errorMessage, orNum, orElse, truthy.
  set (code := if numTruthy (if numTruthy (status e) then status e
                             else response_status e)
               then if numTruthy (status e) then status e else response_status e
               else body_error_code e).
  assert (Hcode : code = if numTruthy (status e) then status e
                         else if numTruthy (response_status e)
                              then response_status e else body_error_code e).
  { unfold code. destruct (numTruthy (status e)) eqn:H1; [rewrite H1|]; reflexivity. }
  rewrite <- Hcode. clearbody code.
  assert (H429 : codeIs code 429 = true ↔ code = Some 429).
  { unfold codeIs. destruct code as [c|]; [|split; discriminate].
    rewrite Z.eqb_eq. split; congruence. }
  assert (H503 : codeIs code 503 = true ↔ code = Some 503).
  { unfold codeIs. destruct code as [c|]; [|split; discriminate].
    rewrite Z.eqb_eq. split; congruence. }
  rewrite !orb_true_iff, H429, H503. destruct (message e); tauto.
Qed.

(** C2: for a call of [translateTextSegment] on non-blank text, with
    [Math.random] a double in [0, 1):
    (a) while the attempts so far all failed with a throttling (429,
        quota) or overload (503) error and fewer than five attempts were
        made, the client sleeps and sends the next attempt; the delay is
        the sum, in double arithmetic, of 10 s * 2^attempt and the jitter
        [Math.random() * 2000], which is below 2 s; it lies between
        10 s * 2^attempt and 2 s more, both included;
    (b) it never sends more than five requests;
    (c) when all five attempts fail that way, the promise rejects with the
        last error;
    (d) an error of any other kind rejects at once, with that error, and
        no further request is sent; a thrown value without message text
        rejects at once too, with the [TypeError] of the [catch] block;
    an error is retried exactly when its status code (taken from
    [status], [response.status] or [body.error.code], the first that is
    set and not 0) is 429 or 503, or its message (the JSON text of the
    error when the message is empty) contains "429", "quota",
    "RESOURCE_EXHAUSTED" or "503". *)
Theorem translateTextSegment_retry_policy
    (generateContent : nat → jsstring → jsstring → ApiOutcome)
    (random : nat → Q) (text targetLang : jsstring) :
  (∀ n, (0 <= random n)%Q ∧ (random n < 1)%Q ∧ Double.representable (random n)) →
  trim text ≠ [] →
  let r := translateTextSegment generateContent random text targetLang in
  let fails := failsRetryably generateContent text targetLang in
  (∀ k, (k < 4)%nat → (∀ j, (j ≤ k)%nat → fails j) →
     (k + 2 ≤ attempts r)%nat
     ∧ ∃ delay jitter,
         delays r !! k = Some delay
         ∧ jitter = Double.mul (random k) 2000
         ∧ (delay == Double.add (inject_Z (10000 * 2 ^ Z.of_nat k)) jitter)%Q
         ∧ (0 <= jitter)%Q ∧ (jitter < 2000)%Q
         ∧ (inject_Z (10000 * 2 ^ Z.of_nat k) <= delay)%Q
         ∧ (delay <= inject_Z (10000 * 2 ^ Z.of_nat k + 2000))%Q)
  ∧ (1 ≤ attempts r ≤ 5)%nat
  ∧ length (delays r) = (attempts r - 1)%nat
  ∧ ((∀ j, (j < 5)%nat → fails j) →
       attempts r = 5%nat
       ∧ ∃ e, generateContent 4%nat text targetLang = Failed e
              ∧ completion r = Rejected (Thrown_error e))
  ∧ (∀ k e, (k < 5)%nat → (∀ j, (j < k)%nat → fails j) →
       generateContent k text targetLang = Failed e → retryable e = false →
       attempts r = S k ∧ length (delays r) = k
       ∧ completion r = Rejected (Thrown_error e))
  ∧ (∀ k, (k < 5)%nat → (∀ j, (j < k)%nat → fails j) →
       generateContent k text targetLang = Failed_without_text →
       attempts r = S k ∧ length (delays r) = k
       ∧ completion r = Rejected Type_error)
  ∧ (∀ e, status e = Some 429 ∨ status e = Some 503
          ∨ includes (errorMessage e) (lit "quota") = true →
          retryable e = true)
  ∧ (∀ e, retryable e = true ↔
          let code := if numTruthy (status e) then status e
                      else if numTruthy (response_status e) then response_status e
                      else body_error_code e in
          let text := match message e with [] => json e | _ => message e end in
          code = Some 429 ∨ code = Some 503
          ∨ includes text (lit "429") = true
          ∨ includes text (lit "quota") = true
          ∨ includes text (lit "RESOURCE_EXHAUSTED") = true
          ∨ includes text (lit "503") = true).
Proof.
  intros Hrandom Hblank r fails.
  destruct (translateTextSegment_spec generateContent random text targetLang Hblank)
    as (Hatt & Hdel & Hmid & Hlast).
  fold r in Hatt, Hdel, Hmid, Hlast. unfold MAX_RETRIES in *.
  assert (Hend : ∀ k, (∀ j, (j ≤ k)%nat → fails j) → (k < 4)%nat →
                      (k < attempts r - 1)%nat).
  { intros k Hall Hk. destruct (decide (k < attempts r - 1)%nat) as [|Hge]; [done|].
    destruct (Hall (attempts r - 1)%nat) as (e & Hgen & Hre); [lia|].
    rewrite Hgen in Hlast. destruct Hlast as (_ & [Hno|Hfive]); [congruence | lia]. }
  assert (Hstop : ∀ k, (k < 5)%nat → (∀ j, (j < k)%nat → fails j) →
                       (∀ e, generateContent k text targetLang = Failed e →
                             retryable e = false) →
                       attempts r = S k).
  { intros k Hk Hall Hno.
    destruct (decide (attempts r - 1 < k)%nat) as [Hlt|Hge].
    - destruct (Hall (attempts r - 1)%nat Hlt) as (e' & Hgen' & Hre').
      rewrite Hgen' in Hlast. destruct Hlast as (_ & [Hno'|Hfive]); [congruence | lia].
    - destruct (decide (k < attempts r - 1)%nat) as [Hlt|Hge'].
      + destruct (Hmid k Hlt) as ((e' & Hgen' & Hre') & _).
        rewrite (Hno e' Hgen') in Hre'. discriminate.
      + lia. }
  split; [|split; [|split; [|split; [|split; [|split; [|split]]]]]].
  - intros k Hk Hall. pose proof (Hend k Hall Hk) as Hlt.
    split; [lia|].
    destruct (Hmid k Hlt) as (_ & Hdelay).
    destruct (Hrandom k) as (H0 & H1 & Hrep).
    destruct (backoff_bounds random k ltac:(lia) H0 H1) as (Heq & Hlo & Hhi).
    destruct (jitter_bounds (random k) H0 H1 Hrep) as [Hj0 Hj1].
    exists (backoffTime random k), (Double.mul (random k) 2000).
    auto 10.
  - exact Hatt.
  - exact Hdel.
  - intros Hall.
    assert (attempts r = 5%nat) as H5.
    { destruct (decide (attempts r = 5%nat)) as [|Hne]; [done|].
      destruct (Hall (attempts r - 1)%nat) as (e & Hgen & Hre); [lia|].
      rewrite Hgen in Hlast. destruct Hlast as (_ & [Hno|Hfive]); [congruence | lia]. }
    split; [exact H5|].
    destruct (Hall 4%nat) as (e & Hgen & Hre); [lia|].
    exists e. split; [exact Hgen|].
    rewrite H5 in Hlast. simpl in Hlast. rewrite Hgen in Hlast. apply Hlast.
  - intros k e Hk Hall Hgen Hno.
    assert (attempts r = S k) as Hn.
    { apply Hstop; [exact Hk | exact Hall |]. intros e' He'. congruence. }
    split; [exact Hn|]. split; [lia|].
    rewrite Hn in Hlast. replace (S k - 1)%nat with k in Hlast by lia.
    rewrite Hgen in Hlast. apply Hlast.
  - intros k Hk Hall Hgen.
    assert (attempts r = S k) as Hn.
    { apply Hstop; [exact Hk | exact Hall |]. intros e' He'. congruence. }
    split; [exact Hn|]. split; [lia|].
    rewrite Hn in Hlast. replace (S k - 1)%nat with k in Hlast by lia.
    rewrite Hgen in Hlast. exact Hlast.
  - intros e [H|[H|H]];
      [apply status_429_retryable | apply status_503_retryable | apply quota_retryable];
      exact H.
  - exact retryable_iff.
Qed.

Lemma translateTextSegment_retry_policy_witness :
  attempts (translateTextSegment Fixtures.alwaysOverloaded Fixtures.halfJitter
                                 (lit "Hello") (lit "fr")) = 5%nat
  ∧ ∃ e, Fixtures.alwaysOverloaded 4%nat (lit "Hello") (lit "fr") = Failed e
         ∧ completion (translateTextSegment Fixtures.alwaysOverloaded
                         Fixtures.halfJitter (lit "Hello") (lit "fr"))
           = Rejected (Thrown_error e).
Proof.
  apply (translateTextSegment_retry_policy Fixtures.alwaysOverloaded
           Fixtures.halfJitter (lit "Hello") (lit "fr")).
  - intros n. unfold Fixtures.halfJitter, Double.representable.
    split; [discriminate | split; reflexivity].
  - vm_compute. discriminate.
  - intros j _. exists Fixtures.overloaded. split; reflexivity.
Defined.

(** ** Scope of a run and of a download *)

Import Backend.

Lemma elem_of_positionsWhere {A} (f : A → bool) (l : list A) :
  ∀ k i, i ∈ positionsWhere f k l
         ↔ ∃ x, (k ≤ i)%nat ∧ l !! (i - k)%nat = Some x ∧ f x = true.
Proof.
  induction l as [|y l IH]; intros k i; simpl.
  - split; [intros H; inversion H | intros (x & _ & H & _); discriminate].
  - assert (Hrest : i ∈ positionsWhere f (S k) l
                    ↔ ∃ x, (k < i)%nat ∧ (y :: l) !! (i - k)%nat = Some x ∧ f x = true).
    { rewrite IH. split; intros (x & Hk & Hx & Hf); exists x.
      - split; [lia|]. split; [|exact Hf].
        replace (i - k)%nat with (S (i - S k)) by lia. exact Hx.
      - split; [lia|]. split; [|exact Hf].
        replace (i - k)%nat with (S (i - S k)) in Hx by lia. exact Hx. }
    destruct (f y) eqn:Hy.
    + rewrite elem_of_cons, Hrest. split.
      * intros [->|(x & Hk & Hx & Hf)].
        -- exists y. rewrite Nat.sub_diag. auto.
        -- exists x. split; [lia|]. auto.
      * intros (x & Hk & Hx & Hf).
        destruct (decide (i = k)) as [->|Hne]; [left; reflexivity|right].
        exists x. split; [lia|]. auto.
    + rewrite Hrest. split; intros (x & Hk & Hx & Hf); exists x.
      * split; [lia|]. auto.
      * split; [|auto].
        destruct (decide (i = k)) as [->|Hne]; [|lia].
        rewrite Nat.sub_diag in Hx. simpl in Hx. congruence.
Qed.

Lemma positionsWhere_sorted {A} (f : A → bool) (l : list A) :
  ∀ k, StronglySorted lt (positionsWhere f k l).
Proof.
  induction l as [|y l IH]; intros k; simpl; [constructor|].
  destruct (f y); [|apply IH].
  constructor; [apply IH|].
  apply Forall_forall. intros i Hi.
  apply elem_of_positionsWhere in Hi as (x & Hk & _). lia.
Qed.

Lemma seq_sorted (n : nat) : ∀ k, StronglySorted lt (seq k n).
Proof.
  induction n as [|n IH]; intros k; simpl; constructor; [apply IH|].
  apply Forall_forall. intros i Hi. apply elem_of_seq in Hi. lia.
Qed.

Lemma sorted_lt_NoDup (l : list nat) : StronglySorted lt l → NoDup l.
Proof.
  induction 1 as [|x l Hs IH Hall]; constructor; [|exact IH].
  intros Hin. rewrite Forall_forall in Hall. specialize (Hall x Hin). lia.
Qed.

Section scope_facts.
Variable File : Type.

Lemma segmentsToProcess_sorted (job : FileJob.t) :
  StronglySorted lt (segmentsToProcess job).
Proof.
  unfold segmentsToProcess.
  destruct (FileJob.selectedRange job);
    [destruct (numTruthy (FileJob.pageCount job))|];
    auto using positionsWhere_sorted, seq_sorted.
Qed.

Lemma segmentsToProcess_valid (job : FileJob.t) (i : nat) :
  i ∈ segmentsToProcess job → (i < length (FileJob.segments job))%nat.
Proof.
  unfold segmentsToProcess.
  destruct (FileJob.selectedRange job);
    [destruct (numTruthy (FileJob.pageCount job))|].
  - intros (x & _ & Hx & _)%elem_of_positionsWhere.
    apply lookup_lt_Some in Hx. lia.
  - intros Hi%elem_of_seq. lia.
  - intros Hi%elem_of_seq. lia.
Qed.

(** C3: with a selected range and a known (non-zero) page count, the
    positions that [processFile] puts in scope are exactly those of the
    segments whose page number lies in
    [max(1, start-1), min(pageCount, end+1)]; a segment without page
    number is never in scope; positions come in ascending order, each
    once.  For pageCount 20 and the range 5-15 these are the segments on
    pages 4 to 16. *)
Theorem processing_scope_is_buffered_window
    (job : FileJob.t) (range : PageRange.t) (pageCount : Z) :
  FileJob.selectedRange job = Some range →
  FileJob.pageCount job = Some pageCount →
  pageCount ≠ 0 →
  let scope := segmentsToProcess job in
  (∀ i, i ∈ scope
        ↔ ∃ s n, FileJob.segments job !! i = Some s
                 ∧ Segment.pageNumber s = Some n
                 ∧ Z.max 1 (PageRange.start range - 1) ≤ n
                 ∧ n ≤ Z.min pageCount (PageRange.end_ range + 1))
  ∧ (∀ i s, FileJob.segments job !! i = Some s →
            Segment.pageNumber s = None → i ∉ scope)
  ∧ StronglySorted lt scope
  ∧ (pageCount = 20 → range = PageRange.mk 5 15 →
     ∀ i, i ∈ scope
          ↔ ∃ s n, FileJob.segments job !! i = Some s
                   ∧ Segment.pageNumber s = Some n ∧ 4 ≤ n ∧ n ≤ 16).
Proof.
  intros Hrange Hcount Hnz scope.
  assert (Hscope : ∀ i, i ∈ scope
        ↔ ∃ s n, FileJob.segments job !! i = Some s
                 ∧ Segment.pageNumber s = Some n
                 ∧ Z.max 1 (PageRange.start range - 1) ≤ n
                 ∧ n ≤ Z.min pageCount (PageRange.end_ range + 1)).
  { intros i. unfold scope, segmentsToProcess.
    rewrite Hrange, Hcount. simpl.
    destruct (Z.eqb_spec pageCount 0) as [|_]; [contradiction|]. simpl.
    rewrite elem_of_positionsWhere. rewrite Nat.sub_0_r.
    unfold inBufferedWindow. split.
    - intros (s & _ & Hs & Hin).
      destruct (Segment.pageNumber s) as [n|] eqn:Hn; [|discriminate].
      exists s, n. apply andb_true_iff in Hin as [H1 H2].
      apply Z.leb_le in H1, H2. auto.
    - intros (s & n & Hs & Hn & H1 & H2). exists s.
      split; [lia|]. split; [exact Hs|]. rewrite Hn.
      apply andb_true_iff. split; apply Z.leb_le; assumption. }
  split; [exact Hscope|]. split; [|split].
  - intros i s Hs Hnone Hin. apply Hscope in Hin as (s' & n & Hs' & Hn & _).
    congruence.
  - apply segmentsToProcess_sorted.
  - intros -> -> i. rewrite Hscope. simpl.
    change (Z.max 1 (5 - 1)) with 4. change (Z.min 20 (15 + 1)) with 16.
    reflexivity.
Qed.

Lemma processing_scope_is_buffered_window_witness :
  (1%nat ∈ segmentsToProcess Fixtures.pagedJob)
  ∧ (2%nat ∈ segmentsToProcess Fixtures.pagedJob)
  ∧ (0%nat ∉ segmentsToProcess Fixtures.pagedJob)
  ∧ (3%nat ∉ segmentsToProcess Fixtures.pagedJob)
  ∧ (4%nat ∉ segmentsToProcess Fixtures.pagedJob).
Proof.
  destruct (processing_scope_is_buffered_window
              Fixtures.pagedJob (PageRange.mk 5 15) 20)
    as (_ & Hunpaged & _ & Hpages); [reflexivity | reflexivity | lia |].
  specialize (Hpages eq_refl eq_refl).
  split; [|split; [|split; [|split]]].
  - apply Hpages. eexists _, 4. repeat split; try reflexivity; lia.
  - apply Hpages. eexists _, 16. repeat split; try reflexivity; lia.
  - intros (s & n & Hs & Hn & Hlo & Hhi)%Hpages.
    vm_compute in Hs. injection Hs as <-.
    vm_compute in Hn. injection Hn as <-. lia.
  - intros (s & n & Hs & Hn & Hlo & Hhi)%Hpages.
    vm_compute in Hs. injection Hs as <-.
    vm_compute in Hn. injection Hn as <-. lia.
  - apply (Hunpaged 4%nat (Fixtures.segmentOn 4 "nowhere" None));
      reflexivity.
Defined.

(** C10: with a selected range, [generateDownload] hands to
    [reassembleFile] the segments, in their order, whose page number lies
    in [start, end] together with all segments without page number;
    segments on the buffer pages start-1 and end+1 are left out.  A
    segment without page number is thus kept at download time although
    the range-mode processing scope never contains it. *)
Theorem download_keeps_strict_range_and_unpaged
    (Blob : Type) (reassembleFile : File → list Segment.t → option Blob)
    (b : Backend.t File) (fileId : jsstring)
    (job : FileJob.t) (originalFile : File) (range : PageRange.t) :
  Backend.jobs File b !! fileId = Some job →
  Backend.fileStorage File b !! fileId = Some originalFile →
  FileJob.selectedRange job = Some range →
  let kept := segmentsToDownload job in
  generateDownload File Blob reassembleFile fileId b
    = reassembleFile originalFile kept
  ∧ kept `sublist_of` FileJob.segments job
  ∧ (∀ s, s ∈ kept
          ↔ s ∈ FileJob.segments job
            ∧ (Segment.pageNumber s = None
               ∨ ∃ n, Segment.pageNumber s = Some n
                      ∧ PageRange.start range ≤ n ≤ PageRange.end_ range))
  ∧ (∀ s, s ∈ kept →
          Segment.pageNumber s ≠ Some (PageRange.start range - 1)
          ∧ Segment.pageNumber s ≠ Some (PageRange.end_ range + 1))
  ∧ (∀ i s, FileJob.segments job !! i = Some s →
            Segment.pageNumber s = None →
            s ∈ kept
            ∧ (numTruthy (FileJob.pageCount job) = true →
               i ∉ segmentsToProcess job)).
Proof.
  intros Hjob Hfile Hrange kept.
  assert (Hkept : ∀ s, s ∈ kept
          ↔ s ∈ FileJob.segments job
            ∧ (Segment.pageNumber s = None
               ∨ ∃ n, Segment.pageNumber s = Some n
                      ∧ PageRange.start range ≤ n ≤ PageRange.end_ range)).
  { intros s. unfold kept, segmentsToDownload. rewrite Hrange.
    rewrite !list_elem_of_In, List.filter_In. unfold inSelectedRange.
    destruct (Segment.pageNumber s) as [n|]; split.
    - intros [Hin Hb]. split; [exact Hin|]. right. exists n.
      apply andb_true_iff in Hb as [H1 H2]. apply Z.leb_le in H1, H2. auto.
    - intros [Hin [Hnone|(n' & Hn & H1 & H2)]]; [discriminate|].
      injection Hn as <-. split; [exact Hin|].
      apply andb_true_iff. split; apply Z.leb_le; assumption.
    - intros [Hin _]. auto.
    - intros [Hin _]. auto. }
  split; [|split; [|split; [exact Hkept|split]]].
  - unfold generateDownload. rewrite Hjob, Hfile. reflexivity.
  - unfold kept, segmentsToDownload. rewrite Hrange.
    generalize (FileJob.segments job). intros l.
    induction l as [|x l IH]; simpl; [constructor|].
    destruct (inSelectedRange range x); [apply sublist_skip | apply sublist_cons];
      exact IH.
  - intros s [_ [Hnone|(n & Hn & H1 & H2)]]%Hkept.
    + rewrite Hnone. split; discriminate.
    + rewrite Hn. split; intros [= ->]; lia.
  - intros i s Hs Hnone. split.
    + apply Hkept. split; [|left; exact Hnone].
      apply list_elem_of_lookup. exists i. exact Hs.
    + intros Htruthy Hin. unfold segmentsToProcess in Hin.
      rewrite Hrange, Htruthy in Hin.
      apply elem_of_positionsWhere in Hin as (s' & _ & Hs' & Hwin).
      rewrite Nat.sub_0_r in Hs'. rewrite Hs in Hs'. injection Hs' as <-.
      unfold inBufferedWindow in Hwin. rewrite Hnone in Hwin. discriminate.
Qed.

End scope_facts.

Lemma download_keeps_strict_range_and_unpaged_witness :
  segmentsToDownload Fixtures.pagedJob
    `sublist_of` FileJob.segments Fixtures.pagedJob.
Proof.
  apply (download_keeps_strict_range_and_unpaged unit unit (λ _ _, None)
           (Fixtures.backendWith Fixtures.pagedJob) (lit "f")
           Fixtures.pagedJob tt (PageRange.mk 5 15));
    vm_compute; reflexivity.
Defined.

(** ** The batch loop *)

Section loop_facts.
Variable File : Type.
Variable generateContent : nat → nat → jsstring → jsstring → ApiOutcome.
Variable random : nat → nat → Q.

Lemma quiet_nil : quiet [].
Proof. split; reflexivity. Qed.

Lemma batches_app (x y : list Step) : batches (x ++ y) = batches x ++ batches y.
Proof.
  induction x as [|[m|batch t l st r] x IH]; simpl; [reflexivity|exact IH|].
  rewrite IH. reflexivity.
Qed.

Lemma progressLog_app (x y : list Step) :
  ∀ a, progressLog a (x ++ y)
       = progressLog a x
         ++ progressLog (a + Z.of_nat (length (concat (batches x)))) y.
Proof.
  induction x as [|[m|batch t l st r] x IH]; intros a; simpl.
  - rewrite Z.add_0_r. reflexivity.
  - destruct (WebSocketMessage.payload m) as [[| | |]|]; simpl; rewrite IH;
      reflexivity.
  - rewrite IH, length_app. f_equal. f_equal. lia.
Qed.

Lemma quiet_app (x y : list Step) : quiet x → quiet y → quiet (x ++ y).
Proof.
  intros [Hx1 Hx2] [Hy1 Hy2]. split.
  - rewrite batches_app, Hx1, Hy1. reflexivity.
  - intros a. rewrite progressLog_app, Hx2, Hy2. reflexivity.
Qed.

Lemma forEachSegment_spec (update : nat → Segment.t → Segment.t)
    (message : Segment.t → WebSocketMessage.t) :
  (∀ s, match WebSocketMessage.payload (message s) with
        | Some (PayloadProgress _ _ _) => False
        | _ => True
        end) →
  ∀ batch index segs trace,
    NoDup batch →
    (∀ p, p ∈ batch → (p < length segs)%nat) →
    ∃ segs' emitted,
      forEachSegment update message index batch segs trace
        = (segs', trace ++ emitted)
      ∧ quiet emitted
      ∧ length segs' = length segs
      ∧ (∀ p, p ∉ batch → segs' !! p = segs !! p)
      ∧ (∀ k p, batch !! k = Some p →
                segs' !! p = update (index + k)%nat <$> segs !! p).
Proof.
  intros Hmsg batch.
  induction batch as [|pos batch IH]; intros index segs trace Hnd Hvalid; simpl.
  - exists segs, []. rewrite app_nil_r.
    split; [reflexivity|]. split; [apply quiet_nil|]. split; [reflexivity|].
    split; [reflexivity|]. intros k p Hk. discriminate.
  - apply NoDup_cons in Hnd as [Hnotin Hnd].
    destruct (lookup_lt_is_Some_2 segs pos) as [s Hs];
      [apply Hvalid; left|].
    rewrite Hs.
    destruct (IH (S index) (<[pos := update index s]> segs)
                 (broadcast (message (update index s)) trace) Hnd)
      as (segs' & emitted & Heq & Hquiet & Hlen & Hframe & Hupd).
    { intros p Hp. rewrite length_insert. apply Hvalid. right. exact Hp. }
    exists segs', (Emitted (message (update index s)) :: emitted).
    split; [|split; [|split; [|split]]].
    + rewrite Heq. unfold broadcast. rewrite <- app_assoc. reflexivity.
    + split.
      * simpl. apply Hquiet.
      * intros a. simpl. specialize (Hmsg (update index s)).
        destruct (WebSocketMessage.payload (message (update index s)))
          as [[| | |]|]; try apply Hquiet. contradiction.
    + rewrite Hlen. apply length_insert.
    + intros p Hp. apply not_elem_of_cons in Hp as [Hne Hp].
      rewrite Hframe by exact Hp. apply list_lookup_insert_ne. congruence.
    + intros [|k] p Hk; simpl in Hk.
      * injection Hk as <-. rewrite Hframe by exact Hnotin.
        rewrite list_lookup_insert_eq by (apply lookup_lt_Some in Hs; exact Hs).
        rewrite Hs, Nat.add_0_r. reflexivity.
      * rewrite (Hupd k p Hk).
        assert (p ≠ pos) as Hne.
        { intros ->. apply Hnotin. apply list_elem_of_lookup. eauto. }
        rewrite list_lookup_insert_ne by congruence.
        replace (S index + k)%nat with (index + S k)%nat by lia. reflexivity.
Qed.

Lemma translatingMessage_quiet fileId s :
  match WebSocketMessage.payload (translatingMessage fileId s) with
  | Some (PayloadProgress _ _ _) => False
  | _ => True
  end.
Proof. exact I. Qed.

Lemma translatedMessage_quiet fileId s :
  match WebSocketMessage.payload (translatedMessage fileId s) with
  | Some (PayloadProgress _ _ _) => False
  | _ => True
  end.
Proof. exact I. Qed.

Lemma warningMessage_quiet fileId s :
  match WebSocketMessage.payload (warningMessage fileId s) with
  | Some (PayloadProgress _ _ _) => False
  | _ => True
  end.
Proof. exact I. Qed.

Lemma settle_original result k s :
  Segment.original (settle result k s) = Segment.original s.
Proof. unfold settle. destruct (completion result); reflexivity. Qed.

Lemma alter_status_original (v : SegmentStatus) (segs : list Segment.t) i p :
  Segment.original <$> alter (Segment.set_status v) i segs !! p
  = Segment.original <$> segs !! p.
Proof.
  destruct (decide (i = p)) as [->|Hne].
  - rewrite list_lookup_alter_eq. destruct (segs !! p); reflexivity.
  - rewrite list_lookup_alter_ne by exact Hne. reflexivity.
Qed.

Local Abbreviation flush := (Backend.flush generateContent random).
Local Abbreviation iteration := (Backend.iteration generateContent random).
Local Abbreviation loop := (Backend.loop generateContent random).
Local Abbreviation accounted := (Backend.accounted generateContent random).

Lemma flush_spec fileId lang total segment batch st :
  NoDup batch →
  (∀ p, p ∈ batch → (p < length (segments st))%nat) →
  let store := alter (Segment.set_status SegTranslating) segment (segments st) in
  let text := join DELIMITER (List.map (originalAt store) batch) in
  let result :=
    translateTextSegment (generateContent (calls st)) (random (calls st))
                         text lang in
  let attempted := completedWorkSegments st + Z.of_nat (length batch) in
  let st' := flush fileId lang total segment batch st in
  ∃ pre post,
    sent st'
    = sent st ++ pre ++ [Invoked batch text lang store result] ++ post
        ++ [Emitted (progressMessage fileId
              (Math_round (percent attempted total))
              None)]
    ∧ quiet pre ∧ quiet post
    ∧ currentBatch st' = []
    ∧ completedWorkSegments st' = attempted
    ∧ length (segments st') = length (segments st)
    ∧ (∀ p, p ∉ batch → segments st' !! p = store !! p)
    ∧ (∀ k p, batch !! k = Some p →
              segments st' !! p = settle result k <$> store !! p).
Proof.
  intros Hnd Hvalid store text result attempted st'.
  assert (Hlen0 : length store = length (segments st))
    by apply length_alter.
  destruct (forEachSegment_spec (λ _ s, s) (translatingMessage fileId)
              (translatingMessage_quiet fileId) batch 0%nat store (sent st) Hnd)
    as (segs1 & pre & Heq1 & Hq1 & Hlen1 & Hframe1 & Hupd1).
  { intros p Hp. rewrite Hlen0. apply Hvalid, Hp. }
  assert (segs1 = store) as ->.
  { apply list_eq. intros p.
    destruct (decide (p ∈ batch)) as [Hin|Hout]; [|apply Hframe1, Hout].
    apply list_elem_of_lookup_1 in Hin as [k Hk].
    rewrite (Hupd1 k p Hk). destruct (store !! p); reflexivity. }
  assert (Hstep : ∃ segs2 post,
    (match completion result with
     | Resolved translatedBlock =>
         forEachSegment (onTranslated (split translatedBlock))
           (translatedMessage fileId) 0 batch store
           ((sent st ++ pre) ++ [Invoked batch text lang store result])
     | Rejected _ =>
         forEachSegment (λ _, onFailed) (warningMessage fileId) 0 batch store
           ((sent st ++ pre) ++ [Invoked batch text lang store result])
     end) = (segs2, ((sent st ++ pre) ++ [Invoked batch text lang store result]) ++ post)
    ∧ quiet post ∧ length segs2 = length store
    ∧ (∀ p, p ∉ batch → segs2 !! p = store !! p)
    ∧ (∀ k p, batch !! k = Some p → segs2 !! p = settle result k <$> store !! p)).
  { unfold settle. destruct (completion result) as [block|reason].
    - destruct (forEachSegment_spec (onTranslated (split block))
                  (translatedMessage fileId) (translatedMessage_quiet fileId)
                  batch 0%nat store
                  ((sent st ++ pre) ++ [Invoked batch text lang store result]) Hnd)
        as (segs2 & post & Heq2 & Hq2 & Hlen2 & Hframe2 & Hupd2).
      { intros p Hp. rewrite Hlen0. apply Hvalid, Hp. }
      exists segs2, post. auto.
    - destruct (forEachSegment_spec (λ _, onFailed)
                  (warningMessage fileId) (warningMessage_quiet fileId)
                  batch 0%nat store
                  ((sent st ++ pre) ++ [Invoked batch text lang store result]) Hnd)
        as (segs2 & post & Heq2 & Hq2 & Hlen2 & Hframe2 & Hupd2).
      { intros p Hp. rewrite Hlen0. apply Hvalid, Hp. }
      exists segs2, post. auto. }
  destruct Hstep as (segs2 & post & Heq2 & Hq2 & Hlen2 & Hframe2 & Hupd2).
  exists pre, post.
  unfold st', Backend.flush. fold store. rewrite Heq1. fold text. fold result.
  rewrite Heq2. cbn [sent currentBatch completedWorkSegments segments].
  split; [|split; [exact Hq1|split; [exact Hq2|split; [reflexivity|
    split; [reflexivity|split; [lia|split; [exact Hframe2|exact Hupd2]]]]]]].
  unfold broadcast. rewrite <- !app_assoc. reflexivity.
Qed.

Lemma quiet_accounted lang final steps :
  quiet steps → Forall (accounted lang final) steps.
Proof.
  intros [Hb _]. induction steps as [|[m|batch t l st r] steps IH];
    simpl in *; [constructor| |discriminate].
  constructor; [exact I|apply IH, Hb].
Qed.

Lemma progressLog_quiet_app (x y : list Step) a :
  quiet x → progressLog a (x ++ y) = progressLog a y.
Proof.
  intros [Hb Hp]. rewrite progressLog_app, Hp, Hb. simpl.
  rewrite Z.add_0_r. reflexivity.
Qed.

Lemma loop_spec fileId lang total :
  ∀ rest i st,
    NoDup (currentBatch st ++ rest) →
    (∀ p, p ∈ currentBatch st ++ rest → (p < length (segments st))%nat) →
    (i + length rest = total)%nat →
    let st' := loop fileId lang total i rest st in
    length (segments st') = length (segments st)
    ∧ (∀ p, p ∉ currentBatch st ++ rest →
            segments st' !! p = segments st !! p)
    ∧ (∀ p, Segment.original <$> segments st' !! p
            = Segment.original <$> segments st !! p)
    ∧ (rest ≠ [] → currentBatch st' = [])
    ∧ ∃ new,
        sent st' = sent st ++ new
        ∧ concat (batches new) ++ currentBatch st' = currentBatch st ++ rest
        ∧ completedWorkSegments st'
          = completedWorkSegments st + Z.of_nat (length (concat (batches new)))
        ∧ List.map fst (progressLog (completedWorkSegments st) new)
          = runningTotals (completedWorkSegments st) (batches new)
        ∧ Forall (progressCorrect total)
                 (progressLog (completedWorkSegments st) new)
        ∧ Forall (accounted lang (segments st')) new.
Proof.
  induction rest as [|segment rest IH]; intros i st Hnd Hvalid Htotal.
  - simpl. split; [reflexivity|]. split; [reflexivity|]. split; [reflexivity|].
    split; [congruence|]. exists []. rewrite !app_nil_r. simpl.
    rewrite Z.add_0_r. repeat split; constructor.
  - cbn [Backend.loop]. cbv zeta.
    set (batch := currentBatch st ++ [segment]).
    assert (Hnd' : NoDup (batch ++ rest))
      by (unfold batch; rewrite <- app_assoc; exact Hnd).
    assert (Hvalid' : ∀ p, p ∈ batch ++ rest → (p < length (segments st))%nat)
      by (unfold batch; intros p Hp; rewrite <- app_assoc in Hp; auto).
    apply NoDup_app in Hnd' as (Hndb & Hdisj & Hndr).
    assert (Heq : batch ++ rest = currentBatch st ++ segment :: rest)
      by (unfold batch; rewrite <- app_assoc; reflexivity).
    unfold Backend.iteration. fold batch.
    destruct ((MAX_BATCH_CHARS
               <=? currentBatchCharCount st
                   + strlen (originalAt (segments st) segment))
              || (i =? total - 1)%nat) eqn:Hcond.
    + (* the batch is flushed *)
      destruct (flush_spec fileId lang total segment batch st Hndb)
        as (pre & post & Hsent & Hq1 & Hq2 & Hcur & Hdone & Hlen & Hframe & Hupd).
      { intros p Hp. apply Hvalid'. apply elem_of_app. left. exact Hp. }
      set (st1 := flush fileId lang total segment batch st) in *.
      set (store := alter (Segment.set_status SegTranslating) segment (segments st)) in *.
      destruct (IH (S i) st1) as (Hlen' & Hframe' & Horig' & Hcur' & new1 & Hsent'
                                  & Hcat & Hdone' & Htot & Hprog & Hacc).
      { rewrite Hcur. exact Hndr. }
      { rewrite Hcur, Hlen. intros p Hp. apply Hvalid'. apply elem_of_app.
        right. exact Hp. }
      { simpl in Htotal. lia. }
      set (st' := loop fileId lang total (S i) rest st1) in *.
      assert (Hsegin : segment ∈ batch)
        by (unfold batch; apply elem_of_app; right; left).
      assert (Hstore : ∀ p, p ∉ batch → store !! p = segments st !! p).
      { intros p Hp. unfold store. apply list_lookup_alter_ne.
        intros ->. apply Hp, Hsegin. }
      split; [lia|]. split; [|split; [|split]].
      * intros p Hp.
        assert ((p ∉ batch) ∧ (p ∉ rest)) as [Hpb Hpr].
        { apply not_elem_of_app. rewrite Heq. exact Hp. }
        rewrite Hframe' by (rewrite Hcur; exact Hpr).
        rewrite Hframe by exact Hpb. apply Hstore, Hpb.
      * intros p. rewrite Horig'.
        destruct (decide (p ∈ batch)) as [Hin|Hout].
        -- apply list_elem_of_lookup_1 in Hin as [k Hk].
           rewrite (Hupd k p Hk). unfold store.
           rewrite <- (alter_status_original SegTranslating (segments st) segment p).
           destruct (alter (Segment.set_status SegTranslating) segment
                           (segments st) !! p); simpl; [|reflexivity].
           rewrite settle_original. reflexivity.
        -- rewrite Hframe by exact Hout. unfold store.
           apply alter_status_original.
      * intros _. destruct rest as [|x rest']; [exact Hcur|].
        apply Hcur'. discriminate.
      * exists (pre ++ [Invoked batch
                  (join DELIMITER (List.map (originalAt store) batch)) lang store
                  (translateTextSegment (generateContent (calls st))
                     (random (calls st))
                     (join DELIMITER (List.map (originalAt store) batch)) lang)]
                ++ post
                ++ [Emitted (progressMessage fileId
                      (Math_round (percent (completedWorkSegments st + Z.of_nat (length batch)) total)) None)]
                ++ new1).
        destruct Hq1 as [Hb1 Hp1]. destruct Hq2 as [Hb2 Hp2].
        assert (Hbatches : ∀ tail, batches (pre ++ [Invoked batch
                  (join DELIMITER (List.map (originalAt store) batch)) lang store
                  (translateTextSegment (generateContent (calls st))
                     (random (calls st))
                     (join DELIMITER (List.map (originalAt store) batch)) lang)]
                ++ post ++ tail) = batch :: batches tail).
        { intros tail. rewrite batches_app, Hb1. simpl.
          rewrite batches_app, Hb2. reflexivity. }
        split; [|split; [|split; [|split; [|split]]]].
        -- rewrite Hsent', Hsent. rewrite <- !app_assoc. reflexivity.
        -- rewrite Hbatches. simpl. rewrite <- app_assoc, Hcat, Hcur.
           unfold batch. rewrite <- app_assoc. reflexivity.
        -- rewrite Hbatches. simpl. rewrite Hdone', Hdone, !length_app. lia.
        -- rewrite Hbatches. simpl.
           rewrite progressLog_quiet_app by (split; assumption). simpl.
           rewrite progressLog_quiet_app by (split; assumption). simpl.
           rewrite <- Hdone, Htot. reflexivity.
        -- rewrite progressLog_quiet_app by (split; assumption). simpl.
           rewrite progressLog_quiet_app by (split; assumption). simpl.
           constructor; [reflexivity|]. rewrite <- Hdone. exact Hprog.
        -- apply Forall_app. split; [apply quiet_accounted; split; assumption|].
           apply Forall_cons. split.
           ++ simpl. split; [reflexivity|]. split; [reflexivity|].
              split; [eexists; reflexivity|].
              intros k p Hk.
              assert (p ∈ batch) as Hpb by (apply list_elem_of_lookup; eauto).
              destruct (lookup_lt_is_Some_2 store p) as [s Hs].
              { unfold store. rewrite length_alter. apply Hvalid'.
                apply elem_of_app. left. exact Hpb. }
              exists s. split; [exact Hs|].
              rewrite Hframe'.
              ** rewrite (Hupd k p Hk), Hs. reflexivity.
              ** rewrite Hcur. simpl. intros Hpr. exact (Hdisj p Hpb Hpr).
           ++ apply Forall_app. split; [apply quiet_accounted; split; assumption|].
              apply Forall_cons. split; [exact I|exact Hacc].
    + (* the segment only joins the current batch *)
      apply orb_false_iff in Hcond as [_ Hlast]. apply Nat.eqb_neq in Hlast.
      set (st1 := mkLoop (segments st) (sent st) batch
                    (currentBatchCharCount st
                     + strlen (originalAt (segments st) segment))
                    (completedWorkSegments st) (calls st)).
      destruct (IH (S i) st1) as (Hlen' & Hframe' & Horig' & Hcur' & new1 & Hsent'
                                  & Hcat & Hdone' & Htot & Hprog & Hacc).
      { simpl. apply NoDup_app. auto. }
      { simpl. intros p Hp. apply Hvalid'. exact Hp. }
      { simpl in Htotal. lia. }
      simpl in *.
      split; [exact Hlen'|]. split; [|split; [exact Horig'|split]].
      * intros p Hp. apply Hframe'. rewrite Heq. exact Hp.
      * intros _. apply Hcur'. destruct rest; [simpl in Htotal; lia|discriminate].
      * exists new1. rewrite <- Heq. auto 10.
Qed.

Local Abbreviation processFile := (Backend.processFile File generateContent random).

Lemma checkBatchCompletion_spec (b : Backend.t File) :
  ∃ tail,
    checkBatchCompletion File b
    = Backend.mk File (batchId File b) (jobs File b) (fileStorage File b)
                 (trace File b ++ tail)
    ∧ quiet tail.
Proof.
  unfold checkBatchCompletion.
  destruct (forallb _ _ && _).
  - eexists. split; [reflexivity|]. split; reflexivity.
  - exists []. rewrite app_nil_r. destruct b. split; [reflexivity|apply quiet_nil].
Qed.

(** What a run of [processFile] on a stored job leaves behind. *)
Lemma processFile_outcome (b : Backend.t File) (fileId : jsstring)
    (job : FileJob.t) :
  jobs File b !! fileId = Some job →
  let scope := segmentsToProcess job in
  let b' := processFile fileId b in
  ∃ job' steps,
    jobs File b' !! fileId = Some job'
    ∧ trace File b' = trace File b ++ steps
    ∧ FileJob.status job' = JobCompleted
    ∧ FileJob.progress job' = 100
    ∧ length (FileJob.segments job') = length (FileJob.segments job)
    ∧ (∀ p, p ∉ scope →
            FileJob.segments job' !! p = FileJob.segments job !! p)
    ∧ (∀ p, Segment.original <$> FileJob.segments job' !! p
            = Segment.original <$> FileJob.segments job !! p)
    ∧ concat (batches steps) = scope
    ∧ List.map fst (progressLog 0 steps) = 0 :: runningTotals 0 (batches steps)
    ∧ Forall (progressCorrect (length scope)) (progressLog 0 steps)
    ∧ Forall (accounted (FileJob.targetLang job) (FileJob.segments job')) steps
    ∧ Emitted (WebSocketMessage.mk FILE_COMPLETE None (Some fileId) None None
                                   (Some (PayloadJob job'))) ∈ steps.
Proof.
  intros Hjob scope b'.
  assert (Hshape : ∃ segs new,
    let job' := FileJob.set_progress 100 (FileJob.set_status JobCompleted
                  (FileJob.set_segments segs
                     (FileJob.set_status JobProcessing job))) in
    b' = checkBatchCompletion File
           (Backend.mk File (batchId File b) (<[fileId := job']> (jobs File b))
              (fileStorage File b)
              (trace File b
               ++ [Emitted (progressMessage fileId 0 (Some JobProcessing))]
               ++ new
               ++ [Emitted (WebSocketMessage.mk FILE_COMPLETE None (Some fileId)
                              None None (Some (PayloadJob job')))]))
    ∧ length segs = length (FileJob.segments job)
    ∧ (∀ p, p ∉ scope → segs !! p = FileJob.segments job !! p)
    ∧ (∀ p, Segment.original <$> segs !! p
            = Segment.original <$> FileJob.segments job !! p)
    ∧ concat (batches new) = scope
    ∧ List.map fst (progressLog 0 new) = runningTotals 0 (batches new)
    ∧ Forall (progressCorrect (length scope)) (progressLog 0 new)
    ∧ Forall (accounted (FileJob.targetLang job) segs) new).
  { unfold b', Backend.processFile. rewrite Hjob. cbv zeta.
    change (segmentsToProcess (FileJob.set_status JobProcessing job)) with scope.
    destruct (Nat.eqb_spec (length scope) 0) as [Hzero|Hpos].
    - exists (FileJob.segments job), [].
      apply length_zero_iff_nil in Hzero.
      split; [|rewrite Hzero; simpl; repeat split; constructor].
      unfold complete, broadcast. rewrite <- !app_assoc. reflexivity.
    - set (st0 := mkLoop (FileJob.segments (FileJob.set_status JobProcessing job))
                    (broadcast (progressMessage fileId 0 (Some JobProcessing))
                               (trace File b)) [] 0 0 0).
      pose proof (sorted_lt_NoDup _ (segmentsToProcess_sorted job)) as Hnd.
      destruct (loop_spec fileId
                  (FileJob.targetLang (FileJob.set_status JobProcessing job))
                  (length scope) scope 0%nat st0)
        as (Hlen & Hframe & Horig & Hcur & new & Hsent & Hcat & Hdone & Htot
            & Hprog & Hacc).
      { exact Hnd. }
      { simpl. intros p Hp. apply segmentsToProcess_valid. exact Hp. }
      { reflexivity. }
      set (st' := loop fileId
                    (FileJob.targetLang (FileJob.set_status JobProcessing job))
                    (length scope) 0 scope st0) in *.
      exists (segments st'), new. simpl in *.
      rewrite Hcur in Hcat by (intros ->; apply Hpos; reflexivity).
      rewrite app_nil_r in Hcat.
      split; [|auto 10].
      unfold complete, broadcast. rewrite Hsent. unfold broadcast.
      rewrite <- !app_assoc. reflexivity. }
  destruct Hshape as (segs & new & Hb' & Hlen & Hframe & Horig & Hcat & Htot
                      & Hprog & Hacc).
  cbv zeta in Hb'.
  set (job' := FileJob.set_progress 100 (FileJob.set_status JobCompleted
                 (FileJob.set_segments segs
                    (FileJob.set_status JobProcessing job)))) in *.
  destruct (checkBatchCompletion_spec
              (Backend.mk File (batchId File b) (<[fileId := job']> (jobs File b))
                 (fileStorage File b)
                 (trace File b
                  ++ [Emitted (progressMessage fileId 0 (Some JobProcessing))]
                  ++ new
                  ++ [Emitted (WebSocketMessage.mk FILE_COMPLETE None
                                 (Some fileId) None None (Some (PayloadJob job')))])))
    as (tail & Hcheck & Hqt).
  rewrite Hcheck in Hb'. simpl in Hb'.
  exists job',
    ([Emitted (progressMessage fileId 0 (Some JobProcessing))] ++ new
     ++ [Emitted (WebSocketMessage.mk FILE_COMPLETE None (Some fileId) None None
                    (Some (PayloadJob job')))] ++ tail).
  destruct Hqt as [Hbt Hpt].
  rewrite Hb'. simpl.
  split; [apply lookup_insert_eq|].
  split; [rewrite <- app_assoc; simpl; rewrite <- app_assoc; reflexivity|].
  split; [reflexivity|]. split; [reflexivity|]. split; [exact Hlen|].
  split; [exact Hframe|]. split; [exact Horig|].
  split; [|split; [|split; [|split]]].
  - rewrite batches_app. simpl. rewrite Hbt, app_nil_r. exact Hcat.
  - f_equal. rewrite progressLog_app, batches_app. simpl.
    rewrite Hpt, Hbt, !app_nil_r. exact Htot.
  - constructor; [unfold progressCorrect; simpl; symmetry; apply percent_zero|].
    rewrite progressLog_app. simpl. rewrite Hpt, app_nil_r. exact Hprog.
  - constructor; [exact I|]. apply Forall_app. split; [exact Hacc|].
    constructor; [exact I|]. apply quiet_accounted. split; assumption.
  - right. apply elem_of_app. right. left.
Qed.
End loop_facts.

(** ** White space, [trim] and [split] *)

Lemma blank_rev s : blank s → blank (rev s).
Proof. apply List.Forall_rev. Qed.

Lemma nonblank_rev s : nonblank s → nonblank (rev s).
Proof. apply List.Exists_rev. Qed.

Lemma trimStart_blank_app l s : blank l → trimStart (l ++ s) = trimStart s.
Proof.
  induction 1 as [|c l Hc _ IH]; simpl; [reflexivity|]. rewrite Hc. exact IH.
Qed.

Lemma trimStart_blank l : blank l → trimStart l = [].
Proof.
  intros H. rewrite <- (app_nil_r l). rewrite trimStart_blank_app by exact H.
  reflexivity.
Qed.

Lemma trimStart_nonblank_app x y :
  nonblank x → trimStart (x ++ y) = trimStart x ++ y.
Proof.
  induction x as [|c x IH]; intros H; [inversion H|]. simpl.
  destruct (isWhiteSpace c) eqn:Hc; [|reflexivity].
  apply IH. inversion H as [? ? Hc'|]; [congruence|assumption].
Qed.

Lemma trimStart_head s c r : trimStart s = c :: r → isWhiteSpace c = false.
Proof.
  induction s as [|x s IH]; simpl; [discriminate|].
  destruct (isWhiteSpace x) eqn:Hx; [exact IH|]. intros [= <- _]. exact Hx.
Qed.

Lemma trimStart_decomp s : ∃ l, blank l ∧ s = l ++ trimStart s.
Proof.
  induction s as [|x s (l & Hl & IH)]; simpl.
  - exists []. split; [constructor|reflexivity].
  - destruct (isWhiteSpace x) eqn:Hx.
    + exists (x :: l). split; [constructor; assumption|]. simpl. congruence.
    + exists []. split; [constructor|reflexivity].
Qed.

Lemma nonblank_trimStart s : nonblank s → nonblank (trimStart s).
Proof.
  intros H. destruct (trimStart_decomp s) as (l & Hl & Heq).
  rewrite Heq in H. apply Exists_app in H as [H|H]; [|exact H].
  exfalso. unfold blank in Hl. rewrite Forall_forall in Hl.
  apply Exists_exists in H as (c & Hin & Hc). rewrite (Hl c Hin) in Hc.
  discriminate.
Qed.

Lemma trimEnd_blank_app s r : blank r → trimEnd (s ++ r) = trimEnd s.
Proof.
  intros H. unfold trimEnd. rewrite rev_app_distr.
  rewrite trimStart_blank_app by (apply blank_rev; exact H). reflexivity.
Qed.

Lemma trimEnd_nonblank_app x y :
  nonblank y → trimEnd (x ++ y) = x ++ trimEnd y.
Proof.
  intros H. unfold trimEnd. rewrite rev_app_distr.
  rewrite trimStart_nonblank_app by (apply nonblank_rev; exact H).
  rewrite rev_app_distr, rev_involutive. reflexivity.
Qed.

Lemma trimEnd_last s r c : trimEnd s = r ++ [c] → isWhiteSpace c = false.
Proof.
  unfold trimEnd. intros H. apply (f_equal (@rev N)) in H.
  rewrite rev_involutive, rev_app_distr in H. simpl in H.
  exact (trimStart_head _ _ _ H).
Qed.

Lemma trimEnd_decomp s : ∃ r, blank r ∧ s = trimEnd s ++ r.
Proof.
  destruct (trimStart_decomp (rev s)) as (l & Hl & Heq).
  exists (rev l). split; [apply blank_rev; exact Hl|].
  unfold trimEnd. rewrite <- rev_app_distr, <- Heq, rev_involutive. reflexivity.
Qed.

Lemma nonblank_trimEnd s : nonblank s → nonblank (trimEnd s).
Proof.
  intros H. unfold trimEnd. apply nonblank_rev, nonblank_trimStart, nonblank_rev.
  exact H.
Qed.

Lemma nonblank_trim s : nonblank s ↔ trim s ≠ [].
Proof.
  split.
  - intros H Hnil. apply nonblank_trimStart, nonblank_trimEnd in H.
    unfold trim in Hnil. rewrite Hnil in H. inversion H.
  - intros H. destruct (trimStart_decomp s) as (l & Hl & Heq).
    destruct (trimEnd_decomp (trimStart s)) as (r & Hr & Heq').
    fold (trim s) in Heq'. rewrite Heq, Heq'.
    apply Exists_app. right. apply Exists_app. left.
    destruct (exists_last H) as (t & c & Ht).
    rewrite Ht. apply Exists_app. right. constructor.
    exact (trimEnd_last (trimStart s) t c Ht).
Qed.
Lemma splitFrom_cons c rest cur :
  splitFrom (c :: rest) cur
  = match exec (c :: rest) with
    | Some r => rev cur :: splitFrom r []
    | None => splitFrom rest (c :: cur)
    end.
Proof.
  simp splitFrom. generalize (inspect (exec (c :: rest))).
  intros [[r|] H]; simpl; rewrite H; reflexivity.
Qed.

Lemma blank_or_nonblank s : blank s ∨ nonblank s.
Proof.
  induction s as [|c s [IH|IH]].
  - left. constructor.
  - destruct (isWhiteSpace c) eqn:Hc.
    + left. constructor; assumption.
    + right. constructor. exact Hc.
  - right. apply Exists_cons_tl. exact IH.
Qed.

Lemma startsWith_app p x y : startsWith p x = true → startsWith p (x ++ y) = true.
Proof.
  revert x. induction p as [|a p IH]; intros [|b x]; simpl; try congruence.
  intros [H1 H2]%andb_true_iff. rewrite H1. simpl. apply IH, H2.
Qed.

Lemma includes_suffix x y p : includes (x ++ y) p = false → includes y p = false.
Proof.
  induction x as [|c x IH]; [trivial|]. simpl.
  intros [_ H]%orb_false_iff. apply IH, H.
Qed.

Lemma includes_prefix x y p : includes (x ++ y) p = false → includes x p = false.
Proof.
  induction x as [|c x IH]; intros H.
  - simpl in *. destruct p; [|reflexivity].
    destruct y; simpl in H; discriminate.
  - simpl in *. apply orb_false_iff in H as [H1 H2].
    apply orb_false_iff. split; [|apply IH, H2].
    destruct (startsWith p (c :: x)) eqn:Hs; [|reflexivity].
    apply (startsWith_app _ _ y) in Hs. simpl in Hs. congruence.
Qed.

Lemma includes_head s p : includes s p = false → startsWith p s = false.
Proof. destruct s; simpl; intros H; apply orb_false_iff in H; apply H. Qed.

Lemma bar_not_white c : isWhiteSpace c = true → (c =? bar)%N = false.
Proof.
  intros H. destruct (N.eqb_spec c bar) as [->|]; [|reflexivity].
  vm_compute in H. discriminate.
Qed.

Lemma exec_blank_app l s : blank l → exec (l ++ s) = exec s.
Proof. intros H. unfold exec. rewrite trimStart_blank_app by exact H. reflexivity. Qed.

Lemma blank_gapAhead r : blank r → gapAhead r.
Proof.
  intros H. destruct H as [|c r Hc _]; [left; reflexivity|].
  right. exists c, r. auto.
Qed.

Lemma exec_inert u rest :
  nonblank u → includes u bars = false →
  (∃ r c, u = r ++ [c] ∧ isWhiteSpace c = false) →
  gapAhead rest →
  exec (u ++ rest) = None.
Proof.
  intros Hnb Hbars _ Hgap. unfold exec.
  rewrite trimStart_nonblank_app by exact Hnb.
  destruct (trimStart_decomp u) as (l & _ & Heq).
  assert (Hv : includes (trimStart u) bars = false).
  { rewrite Heq in Hbars. exact (includes_suffix _ _ _ Hbars). }
  pose proof (nonblank_trimStart u Hnb) as Hnv.
  destruct (trimStart u) as [|c1 [|c2 [|c3 v]]]; [inversion Hnv| | |].
  - destruct Hgap as [->|(w & r' & -> & Hw)]; [reflexivity|].
    destruct r' as [|c3 r']; [reflexivity|]. cbn -[N.eqb bar].
    rewrite (bar_not_white w Hw), andb_false_r. reflexivity.
  - destruct Hgap as [->|(w & r' & -> & Hw)]; [reflexivity|].
    cbn -[N.eqb bar]. rewrite (bar_not_white w Hw), andb_false_r. reflexivity.
  - apply includes_head in Hv. unfold bars in Hv. cbn -[N.eqb bar] in Hv.
    rewrite andb_true_r in Hv. cbn -[N.eqb bar].
    rewrite (N.eqb_sym c1), (N.eqb_sym c2), (N.eqb_sym c3).
    rewrite andb_assoc in Hv. rewrite Hv. reflexivity.
Qed.

Lemma exec_gap a b rest :
  blank a → blank b →
  exec (a ++ bars ++ b ++ rest) = Some (trimStart rest).
Proof.
  intros Ha Hb. rewrite exec_blank_app by exact Ha. unfold exec.
  simpl. rewrite trimStart_blank_app by exact Hb. reflexivity.
Qed.

Lemma last_of_tail (x : N) (m r : jsstring) (c : N) :
  m ≠ [] → x :: m = r ++ [c] → ∃ r', m = r' ++ [c].
Proof.
  intros Hm Heq. destruct r as [|y r]; simpl in Heq.
  - injection Heq as _ ->. congruence.
  - injection Heq as _ ->. eauto.
Qed.

Lemma nonblank_last (r : jsstring) c : isWhiteSpace c = false → nonblank (r ++ [c]).
Proof. intros H. apply Exists_app. right. constructor. exact H. Qed.

Lemma splitFrom_inert m :
  ∀ rest cur,
    includes m bars = false →
    (∃ r c, m = r ++ [c] ∧ isWhiteSpace c = false) →
    gapAhead rest →
    splitFrom (m ++ rest) cur = splitFrom rest (rev m ++ cur).
Proof.
  induction m as [|x m IH]; intros rest cur Hbars Hlast Hgap.
  - destruct Hlast as (r & c & Heq & _). destruct r; discriminate.
  - change ((x :: m) ++ rest) with (x :: (m ++ rest)).
    rewrite splitFrom_cons.
    change (x :: (m ++ rest)) with ((x :: m) ++ rest).
    rewrite exec_inert; [|
      destruct Hlast as (r & c & -> & Hc); apply nonblank_last, Hc
      | exact Hbars | exact Hlast | exact Hgap].
    destruct m as [|y m'].
    + reflexivity.
    + rewrite IH; [| |  |exact Hgap].
      * simpl. rewrite <- !app_assoc. reflexivity.
      * exact (includes_suffix [x] _ _ Hbars).
      * destruct Hlast as (r & c & Heq & Hc).
        destruct (last_of_tail x (y :: m') r c ltac:(discriminate) Heq) as [r' Hr'].
        eauto.
Qed.

Lemma splitFrom_blank r : ∀ cur, blank r → splitFrom r cur = [rev cur ++ r].
Proof.
  induction r as [|c r IH]; intros cur Hr.
  - simp splitFrom. rewrite app_nil_r. reflexivity.
  - rewrite splitFrom_cons. unfold exec. rewrite trimStart_blank by exact Hr.
    inversion Hr; subst. rewrite IH by assumption. simpl.
    rewrite <- app_assoc. reflexivity.
Qed.

Lemma splitFrom_gap a b rest cur :
  blank a → blank b →
  splitFrom (a ++ bars ++ b ++ rest) cur = rev cur :: splitFrom (trimStart rest) [].
Proof.
  intros Ha Hb.
  pose proof (exec_gap a b rest Ha Hb) as He.
  destruct (a ++ bars ++ b ++ rest) as [|c s] eqn:Hs.
  - destruct a; discriminate.
  - rewrite splitFrom_cons, He. reflexivity.
Qed.

Lemma splitFrom_lead pre s :
  ∀ cur, blank pre → exec s = None →
         splitFrom (pre ++ s) cur = splitFrom s (rev pre ++ cur).
Proof.
  induction pre as [|c pre IH]; intros cur Hpre Hs; [reflexivity|].
  change ((c :: pre) ++ s) with (c :: (pre ++ s)).
  rewrite splitFrom_cons.
  change (c :: (pre ++ s)) with ((c :: pre) ++ s).
  rewrite exec_blank_app, Hs by exact Hpre.
  inversion Hpre; subst. rewrite IH by assumption.
  simpl. rewrite <- app_assoc. reflexivity.
Qed.

Lemma trimStart_solid m : solid m → trimStart m = m.
Proof.
  intros [_ (c & r & -> & Hc) _]. simpl. rewrite Hc. reflexivity.
Qed.

Lemma trimEnd_solid m : solid m → trimEnd m = m.
Proof.
  intros [_ _ (r & c & -> & Hc)]. unfold trimEnd.
  rewrite rev_app_distr. simpl. rewrite Hc. simpl.
  rewrite rev_involutive. reflexivity.
Qed.

Lemma solid_nonblank m : solid m → nonblank m.
Proof. intros [_ _ (r & c & -> & Hc)]. apply nonblank_last, Hc. Qed.

Lemma trim_padded l m r : blank l → solid m → blank r → trim (l ++ m ++ r) = m.
Proof.
  intros Hl Hm Hr. unfold trim.
  rewrite trimStart_blank_app by exact Hl.
  rewrite trimStart_nonblank_app by (apply solid_nonblank, Hm).
  rewrite trimStart_solid, trimEnd_blank_app by assumption.
  apply trimEnd_solid, Hm.
Qed.

Lemma trim_solid o : good o → solid (trim o).
Proof.
  intros [Hnb Hbars].
  destruct (trimStart_decomp o) as (l & Hl & Heq).
  destruct (trimEnd_decomp (trimStart o)) as (r & Hr & Heq').
  fold (trim o) in Heq'.
  pose proof (proj1 (nonblank_trim o) Hnb) as Hne.
  split.
  - rewrite Heq, Heq' in Hbars.
    exact (includes_prefix _ _ _ (includes_suffix _ _ _ Hbars)).
  - destruct (trimStart o) as [|c t] eqn:Hts.
    + exfalso. apply Hne. unfold trim. rewrite Hts. reflexivity.
    + pose proof (trimStart_head _ _ _ Hts) as Hc.
      unfold trim. rewrite Hts.
      destruct (blank_or_nonblank t) as [Ht|Ht].
      * exists c, []. split; [|exact Hc].
        change (c :: t) with ([c] ++ t). rewrite trimEnd_blank_app by exact Ht.
        unfold trimEnd. simpl. rewrite Hc. reflexivity.
      * exists c, (trimEnd t). split; [|exact Hc].
        change (c :: t) with ([c] ++ t).
        rewrite trimEnd_nonblank_app by exact Ht. reflexivity.
  - destruct (exists_last Hne) as (t & c & Ht).
    exists t, c. split; [exact Ht|].
    exact (trimEnd_last (trimStart o) t c Ht).
Qed.

Lemma Delimited_head ms s : Delimited ms s → trimStart s = s ∧ exec s = None.
Proof.
  intros H. destruct H as [m post Hm Hpost|m a b ms s Hm Ha Hne Hb _].
  - split.
    + rewrite trimStart_nonblank_app by (apply solid_nonblank, Hm).
      rewrite trimStart_solid by exact Hm. reflexivity.
    + apply exec_inert; [apply solid_nonblank, Hm|apply Hm|apply Hm|].
      apply blank_gapAhead, Hpost.
  - split.
    + rewrite trimStart_nonblank_app by (apply solid_nonblank, Hm).
      rewrite trimStart_solid by exact Hm. reflexivity.
    + apply exec_inert; [apply solid_nonblank, Hm|apply Hm|apply Hm|].
      right. destruct Ha as [|c a Hc _]; [congruence|]. exists c. eauto.
Qed.

Lemma split_Delimited ms s :
  Delimited ms s →
  ∀ cur, blank cur → List.map trim (splitFrom s cur) = ms.
Proof.
  induction 1 as [m post Hm Hpost|m a b ms s Hm Ha Hne Hb Hs IH];
    intros cur Hcur.
  - rewrite splitFrom_inert;
      [|apply Hm|apply Hm|apply blank_gapAhead, Hpost].
    rewrite splitFrom_blank by exact Hpost. simpl.
    rewrite rev_app_distr, rev_involutive, <- app_assoc.
    rewrite trim_padded; auto using blank_rev.
  - rewrite splitFrom_inert; [|apply Hm|apply Hm|].
    + rewrite splitFrom_gap by assumption.
      destruct (Delimited_head ms s Hs) as [-> _]. simpl.
      rewrite (IH [] ltac:(constructor)).
      rewrite rev_app_distr, rev_involutive.
      rewrite <- (app_nil_r (rev cur ++ m)), <- app_assoc.
      rewrite trim_padded; auto using blank_rev. constructor.
    + right. destruct Ha as [|c a Hc _]; [congruence|]. exists c. eauto.
Qed.

Lemma join_cons2 sep o o2 r :
  join sep (o :: o2 :: r) = o ++ sep ++ join sep (o2 :: r).
Proof. reflexivity. Qed.

Lemma nonblank_join sep o r : nonblank o → nonblank (join sep (o :: r)).
Proof.
  intros H. destruct r; [exact H|]. rewrite join_cons2.
  apply Exists_app. left. exact H.
Qed.

Lemma Delimited_join os :
  os ≠ [] → Forall good os →
  ∀ post, blank post →
          Delimited (List.map trim os) (trim (join DELIMITER os) ++ post).
Proof.
  induction os as [|o os IH]; intros Hne Hgood post Hpost; [congruence|].
  apply Forall_cons in Hgood as [Ho Hgood].
  destruct os as [|o2 r].
  - simpl. apply Delimited_one; [apply trim_solid, Ho|exact Hpost].
  - rewrite join_cons2. set (J := join DELIMITER (o2 :: r)) in *.
    assert (HJ : nonblank J).
    { apply nonblank_join. apply Forall_cons in Hgood as [[H _] _]. exact H. }
    destruct (trimEnd_decomp (trimStart o)) as (ro & Hro & Heqo).
    fold (trim o) in Heqo.
    destruct (trimStart_decomp J) as (lj & Hlj & HeqJ).
    assert (Htrim : trim (o ++ DELIMITER ++ J)
                    = trim o ++ (ro ++ [32%N]) ++ bars ++ ([32%N] ++ lj) ++ trim J).
    { unfold trim at 1.
      rewrite trimStart_nonblank_app by apply Ho.
      rewrite app_assoc, trimEnd_nonblank_app by exact HJ.
      rewrite HeqJ at 1.
      rewrite trimEnd_nonblank_app by (apply nonblank_trimStart, HJ).
      fold (trim J). rewrite Heqo at 1.
      change DELIMITER with ([32%N] ++ bars ++ [32%N]).
      rewrite <- !app_assoc. reflexivity. }
    rewrite Htrim. cbn [List.map]. rewrite <- !app_assoc.
    rewrite (app_assoc ro), (app_assoc [32%N] lj).
    apply Delimited_more.
    + apply trim_solid, Ho.
    + apply Forall_app. split; [exact Hro|]. constructor; [reflexivity|constructor].
    + destruct ro; discriminate.
    + constructor; [reflexivity|exact Hlj].
    + apply (IH ltac:(discriminate) Hgood post Hpost).
Qed.

(** When the block handed back equals the joined originals up to the
    white space around it, splitting it and trimming the parts gives the
    trimmed originals, one part per original. *)
Lemma split_echo os block :
  os ≠ [] → Forall good os →
  trim block = trim (join DELIMITER os) →
  List.map trim (split block) = List.map trim os.
Proof.
  intros Hne Hgood Htrim.
  destruct (trimStart_decomp block) as (lb & Hlb & Heq).
  destruct (trimEnd_decomp (trimStart block)) as (rb & Hrb & Heq').
  fold (trim block) in Heq'. rewrite Htrim in Heq'.
  pose proof (Delimited_join os Hne Hgood rb Hrb) as Hd.
  rewrite <- Heq' in Hd.
  unfold split. rewrite Heq.
  rewrite splitFrom_lead; [|exact Hlb|apply (Delimited_head _ _ Hd)].
  apply split_Delimited; [exact Hd|].
  rewrite app_nil_r. apply blank_rev, Hlb.
Qed.

(** ** Runs of [processFile] *)

Section run_facts.
Variable File : Type.
Variable generateContent : nat → nat → jsstring → jsstring → ApiOutcome.
Variable random : nat → nat → Q.

Local Abbreviation processFile := (Backend.processFile File generateContent random).
Local Abbreviation runSteps := (Backend.runSteps File generateContent random).
Local Abbreviation accounted := (Backend.accounted generateContent random).

(** [processFile] leaves the job completed, with its originals intact,
    and the steps it added to the trace account for every segment in
    scope. *)
Lemma processFile_run (b : Backend.t File) (fileId : jsstring) (job : FileJob.t) :
  jobs File b !! fileId = Some job →
  let scope := segmentsToProcess job in
  let steps := runSteps fileId b in
  ∃ job',
    jobs File (processFile fileId b) !! fileId = Some job'
    ∧ trace File (processFile fileId b) = trace File b ++ steps
    ∧ FileJob.status job' = JobCompleted
    ∧ FileJob.progress job' = 100
    ∧ concat (batches steps) = scope
    ∧ List.map fst (progressLog 0 steps) = 0 :: runningTotals 0 (batches steps)
    ∧ Forall (progressCorrect (length scope)) (progressLog 0 steps)
    ∧ Forall (accounted (FileJob.targetLang job) (FileJob.segments job')) steps
    ∧ Emitted (WebSocketMessage.mk FILE_COMPLETE None (Some fileId) None None
                                   (Some (PayloadJob job'))) ∈ steps.
Proof.
  intros Hjob scope steps.
  destruct (processFile_outcome File generateContent random b fileId job Hjob)
    as (job' & steps' & Hjob' & Htrace & Hst & Hpr & _ & _ & _ & Hcat & Htot
        & Hprog & Hacc & Hdone).
  assert (steps = steps') as ->.
  { unfold steps, Backend.runSteps. rewrite Htrace.
    apply drop_app_length. }
  exists job'. auto 10.
Qed.

Lemma lookup_map {A B} (f : A → B) (l : list A) (k : nat) :
  List.map f l !! k = f <$> l !! k.
Proof.
  revert k. induction l as [|x l IH]; intros [|k]; simpl; auto.
Qed.

Lemma originalAt_lookup (store : list Segment.t) p s :
  store !! p = Some s → originalAt store p = Segment.original s.
Proof. intros H. unfold originalAt. rewrite H. reflexivity. Qed.

(** What the steps say about one recorded client call. *)
Lemma invoked_accounted (b : Backend.t File) fileId job
    batch text lang store result :
  jobs File b !! fileId = Some job →
  Invoked batch text lang store result ∈ runSteps fileId b →
  ∃ job',
    jobs File (processFile fileId b) !! fileId = Some job'
    ∧ FileJob.status job' = JobCompleted
    ∧ text = join DELIMITER (List.map (originalAt store) batch)
    ∧ ∀ k p, batch !! k = Some p →
             ∃ s, store !! p = Some s
                  ∧ FileJob.segments job' !! p = Some (settle result k s).
Proof.
  intros Hjob Hin.
  destruct (processFile_run b fileId job Hjob)
    as (job' & Hjob' & _ & Hst & _ & _ & _ & _ & Hacc & _).
  rewrite Forall_forall in Hacc. specialize (Hacc _ Hin).
  destruct Hacc as (_ & Htext & _ & Hsettle).
  exists job'. auto.
Qed.

(** C4: when the client call for a batch is rejected (retries exhausted
    or an error that is not retried), every segment of that batch ends
    with status warning and the message "Translation failed"; the run
    goes on all the same: whatever the outcomes of the calls, the batches
    handed to the client cover the whole scope, in order, and the job
    ends completed. *)
Theorem failed_batch_gets_warnings (b : Backend.t File) (fileId : jsstring)
    (job : FileJob.t) (batch : list nat) (text lang : jsstring)
    (store : list Segment.t) (result : Run) (reason : Thrown) :
  jobs File b !! fileId = Some job →
  Invoked batch text lang store result ∈ runSteps fileId b →
  completion result = Rejected reason →
  (∃ job',
     jobs File (processFile fileId b) !! fileId = Some job'
     ∧ FileJob.status job' = JobCompleted
     ∧ ∀ p, p ∈ batch →
            ∃ s, FileJob.segments job' !! p = Some s
                 ∧ Segment.status s = SegWarning
                 ∧ Segment.warningMessage s = Some (lit "Translation failed"))
  ∧ concat (batches (runSteps fileId b)) = segmentsToProcess job.
Proof.
  intros Hjob Hin Hrej. split.
  - destruct (invoked_accounted b fileId job batch text lang store result Hjob Hin)
      as (job' & Hjob' & Hst & _ & Hsettle).
    exists job'. split; [exact Hjob'|]. split; [exact Hst|].
    intros p Hp. apply list_elem_of_lookup_1 in Hp as [k Hk].
    destruct (Hsettle k p Hk) as (s & _ & Hfinal).
    exists (settle result k s). split; [exact Hfinal|].
    unfold settle. rewrite Hrej. split; reflexivity.
  - destruct (processFile_run b fileId job Hjob) as (job' & _ & _ & _ & _ & Hcat & _).
    exact Hcat.
Qed.

Lemma onTranslated_spec parts k s :
  let s' := onTranslated parts k s in
  Segment.status s' = SegCompleted
  ∧ Segment.original s' = Segment.original s
  ∧ (parts !! k = None → Segment.translated s' = Segment.original s)
  ∧ (∀ part, parts !! k = Some part → trim part = [] →
             Segment.translated s' = Segment.original s)
  ∧ (∀ part, parts !! k = Some part → trim part ≠ [] →
             Segment.translated s' = trim part).
Proof.
  unfold onTranslated. cbn [Segment.status Segment.original Segment.translated
    Segment.set_status Segment.set_translated].
  split; [reflexivity|]. split; [reflexivity|]. split; [|split].
  - intros ->. reflexivity.
  - intros part -> Hpart. destruct (truthy part); [rewrite Hpart|]; reflexivity.
  - intros part -> Hpart. destruct part as [|c part]; [contradiction|].
    cbn [truthy]. unfold orElse. destruct (trim (c :: part)); [contradiction|].
    reflexivity.
Qed.

(** C5: when the block that the client returns splits into fewer parts
    than the batch has segments, every segment of the batch still ends
    with status completed (none is dropped, none is marked warning); a
    segment without a part, or whose part is empty after trimming, keeps
    its own original text as translation, and any other segment gets its
    trimmed part. *)
Theorem short_response_falls_back (b : Backend.t File) (fileId : jsstring)
    (job : FileJob.t) (batch : list nat) (text lang : jsstring)
    (store : list Segment.t) (result : Run) (block : jsstring) :
  jobs File b !! fileId = Some job →
  Invoked batch text lang store result ∈ runSteps fileId b →
  completion result = Resolved block →
  (length (split block) < length batch)%nat →
  ∃ job',
    jobs File (processFile fileId b) !! fileId = Some job'
    ∧ (∃ p, batch !! length (split block) = Some p)
    ∧ ∀ k p, batch !! k = Some p →
        ∃ s, FileJob.segments job' !! p = Some s
             ∧ Segment.status s = SegCompleted
             ∧ Segment.original s = originalAt store p
             ∧ ((length (split block) ≤ k)%nat →
                Segment.translated s = Segment.original s)
             ∧ (∀ part, split block !! k = Some part → trim part = [] →
                        Segment.translated s = Segment.original s)
             ∧ (∀ part, split block !! k = Some part → trim part ≠ [] →
                        Segment.translated s = trim part).
Proof.
  intros Hjob Hin Hres Hfew.
  destruct (invoked_accounted b fileId job batch text lang store result Hjob Hin)
    as (job' & Hjob' & _ & _ & Hsettle).
  exists job'. split; [exact Hjob'|]. split.
  { apply lookup_lt_is_Some_2 in Hfew as [p Hp]. eauto. }
  intros k p Hk. destruct (Hsettle k p Hk) as (s & Hs & Hfinal).
  exists (settle result k s). split; [exact Hfinal|].
  unfold settle. rewrite Hres.
  destruct (onTranslated_spec (split block) k s) as (H1 & H2 & H3 & H4 & H5).
  rewrite (originalAt_lookup store p s Hs).
  split; [exact H1|]. split; [exact H2|]. split; [|split].
  - intros Hge. rewrite H2. apply H3. apply lookup_ge_None_2. exact Hge.
  - intros part Hpart Hempty. rewrite H2. exact (H4 part Hpart Hempty).
  - exact H5.
Qed.

Lemma good_iff o :
  good o ↔ trim o ≠ [] ∧ includes o (lit "|||") = false.
Proof. unfold good. rewrite nonblank_trim. reflexivity. Qed.

(** C7, amended: when the block that the client returns for a batch is
    the joined original text of the batch, up to white space around it
    (the client itself trims an echoed response), and no original of the
    batch is blank or contains three bars in a row, then every segment
    of the batch ends with its trimmed original as translation:
    [translated == original.trim()]. *)
Theorem echoed_batch_is_trimmed (b : Backend.t File) (fileId : jsstring)
    (job : FileJob.t) (batch : list nat) (text lang : jsstring)
    (store : list Segment.t) (result : Run) (block : jsstring) :
  jobs File b !! fileId = Some job →
  Invoked batch text lang store result ∈ runSteps fileId b →
  completion result = Resolved block →
  trim block = trim text →
  (∀ p, p ∈ batch →
        trim (originalAt store p) ≠ []
        ∧ includes (originalAt store p) (lit "|||") = false) →
  ∃ job',
    jobs File (processFile fileId b) !! fileId = Some job'
    ∧ ∀ p, p ∈ batch →
           ∃ s, FileJob.segments job' !! p = Some s
                ∧ Segment.original s = originalAt store p
                ∧ Segment.translated s = trim (Segment.original s).
Proof.
  intros Hjob Hin Hres Hecho Hgood.
  destruct (invoked_accounted b fileId job batch text lang store result Hjob Hin)
    as (job' & Hjob' & _ & Htext & Hsettle).
  exists job'. split; [exact Hjob'|].
  intros p Hp.
  assert (Hne : List.map (originalAt store) batch ≠ []).
  { destruct batch; [inversion Hp|discriminate]. }
  assert (Hall : Forall good (List.map (originalAt store) batch)).
  { apply List.Forall_map. apply Forall_forall. intros q Hq.
    apply good_iff, Hgood, Hq. }
  rewrite Htext in Hecho.
  pose proof (split_echo _ block Hne Hall Hecho) as Hparts.
  apply list_elem_of_lookup_1 in Hp as [k Hk].
  destruct (Hsettle k p Hk) as (s & Hs & Hfinal).
  exists (settle result k s). split; [exact Hfinal|].
  assert (Hpart : List.map trim (split block) !! k
                  = Some (trim (originalAt store p))).
  { rewrite Hparts, !lookup_map, Hk. reflexivity. }
  rewrite lookup_map in Hpart.
  destruct (split block !! k) as [part|] eqn:Hk'; [|discriminate].
  injection Hpart as Hpart.
  unfold settle. rewrite Hres.
  destruct (onTranslated_spec (split block) k s) as (_ & H2 & _ & _ & H5).
  assert (Hnb : trim (originalAt store p) ≠ []).
  { apply (Hgood p). apply list_elem_of_lookup. eauto. }
  rewrite (originalAt_lookup store p s Hs) in *.
  split; [exact H2|]. rewrite H2, (H5 part Hk'); [exact Hpart|].
  rewrite Hpart. exact Hnb.
Qed.




Lemma sorted_map_mono (f : Z → Z) (l : list Z) :
  (∀ x y, x ≤ y → f x ≤ f y) →
  StronglySorted Z.le l → StronglySorted Z.le (List.map f l).
Proof.
  intros Hf. induction 1 as [|x l Hs IH Hall]; simpl; constructor; [exact IH|].
  apply List.Forall_map. eapply Forall_impl; [exact Hall|]. simpl. auto.
Qed.





(** C9: when no segment is in scope, [processFile] sends the processing
    announcement and the completion message (and at most the batch
    completion message after them), never calls the translation client,
    and leaves the job with status completed, progress 100 and its
    segments untouched. *)
Theorem empty_scope_completes_without_calls (b : Backend.t File)
    (fileId : jsstring) (job : FileJob.t) :
  jobs File b !! fileId = Some job →
  segmentsToProcess job = [] →
  let job' := FileJob.set_progress 100 (FileJob.set_status JobCompleted job) in
  let announced := Emitted (progressMessage fileId 0 (Some JobProcessing)) in
  let completed :=
    Emitted (WebSocketMessage.mk FILE_COMPLETE None (Some fileId) None None
                                 (Some (PayloadJob job'))) in
  let batchComplete :=
    Emitted (WebSocketMessage.mk BATCH_COMPLETE (Some (batchId File b))
                                 None None None None) in
  jobs File (processFile fileId b) !! fileId = Some job'
  ∧ FileJob.status job' = JobCompleted
  ∧ FileJob.progress job' = 100
  ∧ FileJob.segments job' = FileJob.segments job
  ∧ (runSteps fileId b = [announced; completed]
     ∨ runSteps fileId b = [announced; completed; batchComplete])
  ∧ batches (runSteps fileId b) = [].
Proof.
  intros Hjob Hscope job' announced completed batchComplete.
  assert (Hrun : processFile fileId b
                 = checkBatchCompletion File
                     (Backend.mk File (batchId File b)
                        (<[fileId := job']> (jobs File b)) (fileStorage File b)
                        (trace File b ++ [announced; completed]))).
  { unfold Backend.processFile. rewrite Hjob. cbv zeta.
    change (segmentsToProcess (FileJob.set_status JobProcessing job))
      with (segmentsToProcess job).
    rewrite Hscope. cbn [length Nat.eqb].
    unfold complete, broadcast. rewrite <- app_assoc. reflexivity. }
  assert (Hsteps : runSteps fileId b = [announced; completed]
                   ∨ runSteps fileId b = [announced; completed; batchComplete]).
  { unfold Backend.runSteps. rewrite Hrun. unfold checkBatchCompletion.
    destruct (forallb _ _ && _); cbn [Backend.trace Backend.jobs Backend.batchId].
    - right. unfold broadcast. rewrite <- app_assoc. apply drop_app_length.
    - left. apply drop_app_length. }
  split; [|split; [reflexivity|split; [reflexivity|split; [reflexivity|split]]]].
  - rewrite Hrun. unfold checkBatchCompletion.
    destruct (forallb _ _ && _); cbn [Backend.jobs]; apply lookup_insert_eq.
  - exact Hsteps.
  - destruct Hsteps as [-> | ->]; reflexivity.
Qed.
End run_facts.

(** ** The properties on concrete runs *)

Import Fixtures.

Lemma failed_batch_gets_warnings_witness :
  (∃ job',
     jobs unit (processFile unit failFirstCall halfJitters (lit "f")
                            (backendWith longJob)) !! lit "f" = Some job'
     ∧ FileJob.status job' = JobCompleted
     ∧ ∀ p, p ∈ [0%nat] →
            ∃ s, FileJob.segments job' !! p = Some s
                 ∧ Segment.status s = SegWarning
                 ∧ Segment.warningMessage s = Some (lit "Translation failed"))
  ∧ concat (batches (runSteps unit failFirstCall halfJitters (lit "f")
                              (backendWith longJob)))
    = segmentsToProcess longJob.
Proof.
  apply (failed_batch_gets_warnings unit failFirstCall halfJitters
           (backendWith longJob) (lit "f") longJob [0%nat] longText (lit "fr")
           longStore (mkRun (Rejected (Thrown_error badRequest)) 1 [])
           (Thrown_error badRequest)).
  - vm_compute. reflexivity.
  - apply (list_elem_of_lookup_2 _ 2%nat). vm_compute. reflexivity.
  - reflexivity.
Defined.

Lemma short_response_falls_back_witness :
  ∃ job',
    jobs unit (processFile unit tersely halfJitters (lit "f")
                           (backendWith pairJob)) !! lit "f" = Some job'
    ∧ (∃ p, [0; 1]%nat !! length (split (lit "uno")) = Some p)
    ∧ ∀ k p, [0; 1]%nat !! k = Some p →
        ∃ s, FileJob.segments job' !! p = Some s
             ∧ Segment.status s = SegCompleted
             ∧ Segment.original s = originalAt pairStore p
             ∧ ((length (split (lit "uno")) ≤ k)%nat →
                Segment.translated s = Segment.original s)
             ∧ (∀ part, split (lit "uno") !! k = Some part → trim part = [] →
                        Segment.translated s = Segment.original s)
             ∧ (∀ part, split (lit "uno") !! k = Some part → trim part ≠ [] →
                        Segment.translated s = trim part).
Proof.
  apply (short_response_falls_back unit tersely halfJitters
           (backendWith pairJob) (lit "f") pairJob [0; 1]%nat
           (lit "Hello  ||| world") (lit "fr") pairStore
           (mkRun (Resolved (lit "uno")) 1 []) (lit "uno")).
  - vm_compute. reflexivity.
  - apply (list_elem_of_lookup_2 _ 3%nat). vm_compute. reflexivity.
  - reflexivity.
  - vm_compute. lia.
Defined.

Lemma echoed_batch_is_trimmed_witness :
  ∃ job',
    jobs unit (processFile unit echoRemote halfJitters (lit "f")
                           (backendWith pairJob)) !! lit "f" = Some job'
    ∧ ∀ p, p ∈ [0; 1]%nat →
           ∃ s, FileJob.segments job' !! p = Some s
                ∧ Segment.original s = originalAt pairStore p
                ∧ Segment.translated s = trim (Segment.original s).
Proof.
  apply (echoed_batch_is_trimmed unit echoRemote halfJitters
           (backendWith pairJob) (lit "f") pairJob [0; 1]%nat
           (lit "Hello  ||| world") (lit "fr") pairStore
           (mkRun (Resolved (lit "Hello  ||| world")) 1 [])
           (lit "Hello  ||| world")).
  - vm_compute. reflexivity.
  - apply (list_elem_of_lookup_2 _ 3%nat). vm_compute. reflexivity.
  - reflexivity.
  - reflexivity.
  - intros p Hp.
    assert (p = 0%nat ∨ p = 1%nat) as [-> | ->].
    { apply elem_of_cons in Hp as [->|Hp]; [left; reflexivity|].
      apply elem_of_cons in Hp as [->|Hp]; [right; reflexivity|inversion Hp]. }
    + split; [vm_compute; discriminate | vm_compute; reflexivity].
    + split; [vm_compute; discriminate | vm_compute; reflexivity].
Defined.


Lemma empty_scope_completes_without_calls_witness :
  jobs unit (processFile unit echoRemote halfJitters (lit "f")
                         (backendWith outOfRangeJob)) !! lit "f"
  = Some (FileJob.set_progress 100 (FileJob.set_status JobCompleted outOfRangeJob))
  ∧ batches (runSteps unit echoRemote halfJitters (lit "f")
                      (backendWith outOfRangeJob)) = [].
Proof.
  destruct (empty_scope_completes_without_calls unit echoRemote halfJitters
              (backendWith outOfRangeJob) (lit "f") outOfRangeJob)
    as (Hjob & _ & _ & _ & _ & Hcalls).
  - vm_compute. reflexivity.
  - vm_compute. reflexivity.
  - split; [exact Hjob | exact Hcalls].
Defined.

(** C8 fails on the code.  For a job whose two segments "Hello " and
    "world" travel in one batch, the flush announces both segments as
    translating, but when the translation client is invoked (once, for the
    whole batch) only the segment pushed last has status translating in the
    job; the first one is still pending. *)
Theorem flush_marks_only_last_segment :
  let steps := runSteps unit echoRemote halfJitters (lit "f")
                        (backendWith pairJob) in
  steps !! 1%nat
  = Some (Emitted (translatingMessage (lit "f") (segmentOn 0 "Hello " None)))
  ∧ steps !! 2%nat
    = Some (Emitted (translatingMessage (lit "f") (segmentOn 1 "world" None)))
  ∧ steps !! 3%nat
    = Some (Invoked [0; 1]%nat (lit "Hello  ||| world") (lit "fr") pairStore
                    (mkRun (Resolved (lit "Hello  ||| world")) 1 []))
  ∧ batches steps = [[0; 1]%nat]
  ∧ List.map Segment.status pairStore = [SegPending; SegTranslating].
Proof. vm_compute. repeat split; reflexivity. Qed.

(** C7, as stated, fails: the remote model echoes the text "Hello " of a
    one-segment batch exactly, the client returns it trimmed, and the
    segment ends with the translation "Hello", which is not its original
    "Hello ". *)
Lemma echoed_padded_segment_differs :
  let b := backendWith paddedJob in
  let b' := processFile unit echoRemote halfJitters (lit "f") b in
  echoRemote 0%nat 0%nat (lit "Hello ") (lit "fr") = Responded (Some (lit "Hello "))
  ∧ runSteps unit echoRemote halfJitters (lit "f") b !! 2%nat
    = Some (Invoked [0%nat] (lit "Hello ") (lit "fr")
              [Segment.set_status SegTranslating (segmentOn 0 "Hello " None)]
              (mkRun (Resolved (lit "Hello")) 1 []))
  ∧ ∃ job' s,
      jobs unit b' !! lit "f" = Some job'
      ∧ FileJob.segments job' !! 0%nat = Some s
      ∧ Segment.original s = lit "Hello "
      ∧ Segment.translated s = lit "Hello"
      ∧ Segment.translated s ≠ Segment.original s.
Proof.
  split; [reflexivity|]. split; [vm_compute; reflexivity|].
  eexists. eexists. split; [vm_compute; reflexivity|].
  split; [vm_compute; reflexivity|]. split; [reflexivity|].
  split; [reflexivity|]. vm_compute. discriminate.
Qed.

(** Why the amended C7 asks for originals without three bars in a row: an
    echoed original "a|||b" is split at its own bars, and the segment ends
    with the translation "a". *)
Example echoed_barred_segment_is_cut :
  ∃ job' s,
    jobs unit (processFile unit echoRemote halfJitters (lit "f")
                           (backendWith barredJob)) !! lit "f" = Some job'
    ∧ FileJob.segments job' !! 0%nat = Some s
    ∧ Segment.original s = lit "a|||b"
    ∧ Segment.translated s = lit "a".
Proof.
  eexists. eexists. split; [vm_compute; reflexivity|].
  split; [vm_compute; reflexivity|]. split; reflexivity.
Qed.


(** * Further properties *)

(** ** What a run leaves alone *)

Import Batches.

Section run_frame.
Variable File : Type.
Variable generateContent : nat → nat → jsstring → jsstring → ApiOutcome.
Variable random : nat → nat → Q.

Local Abbreviation flush := (Backend.flush generateContent random).
Local Abbreviation iteration := (Backend.iteration generateContent random).
Local Abbreviation loop := (Backend.loop generateContent random).
Local Abbreviation processFile := (Backend.processFile File generateContent random).
Local Abbreviation runSteps := (Backend.runSteps File generateContent random).
Local Abbreviation accounted := (Backend.accounted generateContent random).

Lemma forEachSegment_fixed (update : nat → Segment.t → Segment.t)
    (message : Segment.t → WebSocketMessage.t) :
  (∀ k s, fixedPart (update k s) = fixedPart s) →
  ∀ batch index segs trace p,
    fixedPart <$> (forEachSegment update message index batch segs trace).1 !! p
    = fixedPart <$> segs !! p.
Proof.
  intros Hupd batch.
  induction batch as [|pos batch IH]; intros index segs trace p; simpl;
    [reflexivity|].
  destruct (segs !! pos) as [s|] eqn:Hs; [|apply IH].
  rewrite IH. destruct (decide (pos = p)) as [->|Hne].
  - rewrite list_lookup_insert_eq by (apply lookup_lt_Some in Hs; exact Hs).
    rewrite Hs. simpl. rewrite Hupd. reflexivity.
  - rewrite list_lookup_insert_ne by exact Hne. reflexivity.
Qed.

Lemma alter_status_fixed (v : SegmentStatus) (segs : list Segment.t) i p :
  fixedPart <$> alter (Segment.set_status v) i segs !! p = fixedPart <$> segs !! p.
Proof.
  destruct (decide (i = p)) as [->|Hne].
  - rewrite list_lookup_alter_eq. destruct (segs !! p); reflexivity.
  - rewrite list_lookup_alter_ne by exact Hne. reflexivity.
Qed.

Lemma flush_fixed fileId lang total segment batch st p :
  fixedPart <$> segments (flush fileId lang total segment batch st) !! p
  = fixedPart <$> segments st !! p.
Proof.
  unfold Backend.flush.
  destruct (forEachSegment (λ _ s, s) (translatingMessage fileId) 0 batch
              (alter (Segment.set_status SegTranslating) segment (segments st))
              (sent st)) as [segs1 trace1] eqn:H1.
  assert (Hfix1 : fixedPart <$> segs1 !! p = fixedPart <$> segments st !! p).
  { replace segs1 with
      (forEachSegment (λ _ s, s) (translatingMessage fileId) 0 batch
         (alter (Segment.set_status SegTranslating) segment (segments st))
         (sent st)).1 by (rewrite H1; reflexivity).
    rewrite forEachSegment_fixed by reflexivity. apply alter_status_fixed. }
  set (result := translateTextSegment _ _ _ _).
  destruct (completion result) as [block|reason].
  - destruct (forEachSegment (onTranslated (split block)) _ 0 batch segs1 _)
      as [segs2 trace2] eqn:H2. cbn [segments].
    replace segs2 with
      (forEachSegment (onTranslated (split block)) (translatedMessage fileId) 0
         batch segs1
         (trace1 ++ [Invoked batch (join DELIMITER (List.map (originalAt segs1) batch))
                       lang segs1 result])).1
      by (rewrite H2; reflexivity).
    rewrite forEachSegment_fixed by reflexivity. exact Hfix1.
  - destruct (forEachSegment (λ _, onFailed) _ 0 batch segs1 _)
      as [segs2 trace2] eqn:H2. cbn [segments].
    replace segs2 with
      (forEachSegment (λ _, onFailed) (warningMessage fileId) 0
         batch segs1
         (trace1 ++ [Invoked batch (join DELIMITER (List.map (originalAt segs1) batch))
                       lang segs1 result])).1
      by (rewrite H2; reflexivity).
    rewrite forEachSegment_fixed by reflexivity. exact Hfix1.
Qed.

Lemma loop_fixed fileId lang total :
  ∀ rest i st p,
    fixedPart <$> segments (loop fileId lang total i rest st) !! p
    = fixedPart <$> segments st !! p.
Proof.
  induction rest as [|segment rest IH]; intros i st p; [reflexivity|].
  cbn [Backend.loop]. rewrite IH. unfold Backend.iteration.
  destruct (_ || _); [apply flush_fixed|reflexivity].
Qed.

Lemma checkBatchCompletion_store (b : Backend.t File) :
  jobs File (checkBatchCompletion File b) = jobs File b
  ∧ fileStorage File (checkBatchCompletion File b) = fileStorage File b
  ∧ batchId File (checkBatchCompletion File b) = batchId File b.
Proof.
  unfold checkBatchCompletion. destruct (_ && _); repeat split; reflexivity.
Qed.

(** The store after a run: the job of the run is replaced, nothing else. *)
Lemma processFile_store (b : Backend.t File) (fileId : jsstring) (job : FileJob.t) :
  jobs File b !! fileId = Some job →
  ∃ segs,
    jobs File (processFile fileId b)
    = <[fileId := FileJob.set_progress 100 (FileJob.set_status JobCompleted
                    (FileJob.set_segments segs job))]> (jobs File b)
    ∧ fileStorage File (processFile fileId b) = fileStorage File b
    ∧ batchId File (processFile fileId b) = batchId File b
    ∧ ∀ p, fixedPart <$> segs !! p = fixedPart <$> FileJob.segments job !! p.
Proof.
  intros Hjob. unfold Backend.processFile. rewrite Hjob. cbv zeta.
  destruct (_ =? _)%nat.
  - exists (FileJob.segments job). unfold complete.
    destruct (checkBatchCompletion_store
                (Backend.mk File (batchId File b)
                   (<[fileId := FileJob.set_progress 100
                        (FileJob.set_status JobCompleted
                           (FileJob.set_status JobProcessing job))]> (jobs File b))
                   (fileStorage File b)
                   (broadcast (WebSocketMessage.mk FILE_COMPLETE None (Some fileId)
                      None None (Some (PayloadJob (FileJob.set_progress 100
                        (FileJob.set_status JobCompleted
                           (FileJob.set_status JobProcessing job))))))
                      (broadcast (progressMessage fileId 0 (Some JobProcessing))
                         (trace File b))))) as (H1 & H2 & H3).
    rewrite H1, H2, H3. repeat split; reflexivity.
  - match goal with |- context [FileJob.set_segments (segments ?st) _] =>
      exists (segments st) end.
    unfold complete.
    match goal with |- context [checkBatchCompletion File ?x] =>
      destruct (checkBatchCompletion_store x) as (H1 & H2 & H3) end.
    rewrite H1, H2, H3. cbn [Backend.jobs Backend.fileStorage Backend.batchId].
    split; [reflexivity|]. split; [reflexivity|]. split; [reflexivity|].
    intros p. rewrite loop_fixed. reflexivity.
Qed.

(** X1: a run of [processFile] leaves every other job, the stored files
    and the batch id as they are; of its own job it writes only status,
    progress and segments; it keeps the number of segments, leaves every
    segment outside the scope exactly as it is, and never changes the id,
    index, original text or page number of any segment. *)
Theorem processFile_writes_only_its_scope (b : Backend.t File)
    (fileId : jsstring) (job : FileJob.t) :
  jobs File b !! fileId = Some job →
  let b' := processFile fileId b in
  (∀ other, other ≠ fileId → jobs File b' !! other = jobs File b !! other)
  ∧ fileStorage File b' = fileStorage File b
  ∧ batchId File b' = batchId File b
  ∧ ∃ job',
      jobs File b' !! fileId = Some job'
      ∧ jobFrame job' = jobFrame job
      ∧ length (FileJob.segments job') = length (FileJob.segments job)
      ∧ (∀ p, p ∉ segmentsToProcess job →
              FileJob.segments job' !! p = FileJob.segments job !! p)
      ∧ (∀ p, fixedPart <$> FileJob.segments job' !! p
              = fixedPart <$> FileJob.segments job !! p).
Proof.
  intros Hjob b'.
  destruct (processFile_store b fileId job Hjob) as (segs & Hjobs & Hfiles & Hid & Hfix).
  destruct (processFile_outcome File generateContent random b fileId job Hjob)
    as (job' & steps & Hjob' & _ & _ & _ & Hlen & Hframe & _).
  fold b' in Hjobs, Hfiles, Hid, Hjob'.
  split; [|split; [exact Hfiles|split; [exact Hid|]]].
  - intros other Hne. rewrite Hjobs. apply lookup_insert_ne. congruence.
  - exists job'. split; [exact Hjob'|].
    rewrite Hjobs, lookup_insert_eq in Hjob'. injection Hjob' as <-.
    split; [reflexivity|]. split; [exact Hlen|]. split; [exact Hframe|exact Hfix].
Qed.
End run_frame.

Lemma processFile_writes_only_its_scope_witness :
  ∃ job',
    jobs unit (Backend.processFile unit echoRemote halfJitters (lit "f")
                 (backendWith pagedJob)) !! lit "f" = Some job'
    ∧ jobFrame job' = jobFrame pagedJob
    ∧ length (FileJob.segments job') = length (FileJob.segments pagedJob)
    ∧ (∀ p, p ∉ segmentsToProcess pagedJob →
            FileJob.segments job' !! p = FileJob.segments pagedJob !! p)
    ∧ (∀ p, fixedPart <$> FileJob.segments job' !! p
            = fixedPart <$> FileJob.segments pagedJob !! p).
Proof.
  apply (processFile_writes_only_its_scope unit echoRemote halfJitters
           (backendWith pagedJob) (lit "f") pagedJob).
  vm_compute. reflexivity.
Defined.


(** ** The steps of a flush *)

Section run_blocks.
Variable File : Type.
Variable generateContent : nat → nat → jsstring → jsstring → ApiOutcome.
Variable random : nat → nat → Q.

Local Abbreviation flush := (Backend.flush generateContent random).
Local Abbreviation iteration := (Backend.iteration generateContent random).
Local Abbreviation loop := (Backend.loop generateContent random).
Local Abbreviation processFile := (Backend.processFile File generateContent random).
Local Abbreviation runSteps := (Backend.runSteps File generateContent random).

Lemma forEachSegment_emits (update : nat → Segment.t → Segment.t)
    (message : Segment.t → WebSocketMessage.t) :
  (∀ s, match WebSocketMessage.payload (message s) with
        | Some (PayloadProgress _ _ _) => False
        | _ => True
        end) →
  ∀ batch index segs trace,
    NoDup batch →
    (∀ p, p ∈ batch → (p < length segs)%nat) →
    ∃ emitted,
      (forEachSegment update message index batch segs trace).2 = trace ++ emitted
      ∧ Forall2 (λ p step,
                   ∃ s, (forEachSegment update message index batch segs trace).1 !! p
                        = Some s
                        ∧ step = Emitted (message s))
                batch emitted.
Proof.
  intros Hmsg batch.
  induction batch as [|pos batch IH]; intros index segs trace Hnd Hvalid.
  - exists []. simpl. rewrite app_nil_r. split; [reflexivity|constructor].
  - apply NoDup_cons in Hnd as [Hnotin Hnd].
    destruct (lookup_lt_is_Some_2 segs pos) as [s Hs]; [apply Hvalid; left|].
    assert (Hvalid' : ∀ p, p ∈ batch
              → (p < length (<[pos := update index s]> segs))%nat).
    { intros p Hp. rewrite length_insert. apply Hvalid. right. exact Hp. }
    destruct (IH (S index) (<[pos := update index s]> segs)
                 (broadcast (message (update index s)) trace) Hnd Hvalid')
      as (emitted & Htrace & Hall).
    destruct (forEachSegment_spec update message Hmsg batch (S index)
                (<[pos := update index s]> segs)
                (broadcast (message (update index s)) trace) Hnd Hvalid')
      as (segs' & emitted' & Heq & _ & _ & Hframe & _).
    cbn [forEachSegment]. rewrite Hs.
    exists (Emitted (message (update index s)) :: emitted).
    split.
    + rewrite Htrace. unfold broadcast. rewrite <- app_assoc. reflexivity.
    + constructor; [|exact Hall].
      exists (update index s). split; [|reflexivity].
      rewrite Heq. cbn [fst]. rewrite Hframe by exact Hnotin.
      apply list_lookup_insert_eq. apply lookup_lt_Some in Hs. exact Hs.
Qed.

Lemma Forall2_reports_ext fileId result (final final' : list Segment.t) batch outs :
  (∀ p, p ∈ batch → final' !! p = final !! p) →
  Forall2 (reports fileId result final) batch outs →
  Forall2 (reports fileId result final') batch outs.
Proof.
  intros Hsame Hall. induction Hall as [|p step batch outs Hp _ IH]; constructor.
  - destruct Hp as (s & Hs & Hstep). exists s. split; [|exact Hstep].
    rewrite Hsame by left. exact Hs.
  - apply IH. intros q Hq. apply Hsame. right. exact Hq.
Qed.

Lemma flush_emits fileId lang total segment batch st :
  NoDup batch →
  (∀ p, p ∈ batch → (p < length (segments st))%nat) →
  let store := alter (Segment.set_status SegTranslating) segment (segments st) in
  let text := join DELIMITER (List.map (originalAt store) batch) in
  let result :=
    translateTextSegment (generateContent (calls st)) (random (calls st))
                         text lang in
  let attempted := completedWorkSegments st + Z.of_nat (length batch) in
  let st' := flush fileId lang total segment batch st in
  ∃ announced reported,
    sent st'
    = sent st ++ announced ++ [Invoked batch text lang store result] ++ reported
        ++ [Emitted (progressMessage fileId
              (Math_round (percent attempted total))
              None)]
    ∧ Forall2 (announces fileId store) batch announced
    ∧ Forall2 (reports fileId result (segments st')) batch reported.
Proof.
  intros Hnd Hvalid store text result attempted st'.
  assert (Hvalid0 : ∀ p, p ∈ batch → (p < length store)%nat).
  { intros p Hp. unfold store. rewrite length_alter. apply Hvalid, Hp. }
  destruct (forEachSegment_spec (λ _ s, s) (translatingMessage fileId)
              (translatingMessage_quiet fileId) batch 0%nat store (sent st)
              Hnd Hvalid0)
    as (segs1 & pre & Heq1 & _ & _ & Hframe1 & Hupd1).
  assert (segs1 = store) as ->.
  { apply list_eq. intros p.
    destruct (decide (p ∈ batch)) as [Hin|Hout]; [|apply Hframe1, Hout].
    apply list_elem_of_lookup_1 in Hin as [k Hk].
    rewrite (Hupd1 k p Hk). destruct (store !! p); reflexivity. }
  destruct (forEachSegment_emits (λ _ s, s) (translatingMessage fileId)
              (translatingMessage_quiet fileId) batch 0%nat store (sent st)
              Hnd Hvalid0) as (announced & Htr1 & Hann).
  rewrite Heq1 in Htr1, Hann. cbn [fst snd] in Htr1, Hann.
  apply app_inv_head in Htr1. subst pre.
  unfold st', Backend.flush. fold store. rewrite Heq1. fold text. fold result.
  set (trace2 := (sent st ++ announced) ++ [Invoked batch text lang store result]).
  unfold reports, outcomeMessage.
  destruct (completion result) as [block|reason].
  - destruct (forEachSegment_emits (onTranslated (split block))
                (translatedMessage fileId) (translatedMessage_quiet fileId)
                batch 0%nat store trace2 Hnd Hvalid0) as (reported & Htr2 & Hrep).
    destruct (forEachSegment (onTranslated (split block)) (translatedMessage fileId)
                0 batch store trace2) as [segs2 trace3].
    cbn [fst snd] in Htr2, Hrep. subst trace3. cbn [sent segments].
    exists announced, reported. split; [|split; [exact Hann|exact Hrep]].
    unfold broadcast, trace2. rewrite <- !app_assoc. reflexivity.
  - destruct (forEachSegment_emits (λ _, onFailed)
                (warningMessage fileId) (warningMessage_quiet fileId)
                batch 0%nat store trace2 Hnd Hvalid0) as (reported & Htr2 & Hrep).
    destruct (forEachSegment (λ _, onFailed) (warningMessage fileId)
                0 batch store trace2) as [segs2 trace3].
    cbn [fst snd] in Htr2, Hrep. subst trace3. cbn [sent segments].
    exists announced, reported. split; [|split; [exact Hann|exact Hrep]].
    unfold broadcast, trace2. rewrite <- !app_assoc. reflexivity.
Qed.

Lemma batchChars_app store x y :
  batchChars store (x ++ y) = batchChars store x + batchChars store y.
Proof.
  induction x as [|p x IH]; simpl; [reflexivity|].
  unfold batchChars in *. simpl. rewrite IH. lia.
Qed.

Lemma originalAt_alter_status (v : SegmentStatus) (segs : list Segment.t) i p :
  originalAt (alter (Segment.set_status v) i segs) p = originalAt segs p.
Proof.
  unfold originalAt. pose proof (alter_status_original v segs i p) as H.
  destruct (alter (Segment.set_status v) i segs !! p), (segs !! p);
    simpl in *; congruence.
Qed.

Lemma batchChars_alter_status (v : SegmentStatus) (segs : list Segment.t) i batch :
  batchChars (alter (Segment.set_status v) i segs) batch = batchChars segs batch.
Proof.
  induction batch as [|p batch IH]; [reflexivity|].
  unfold batchChars in *. simpl. rewrite IH, originalAt_alter_status. reflexivity.
Qed.

Lemma flushed_weaken fileId final scope scope' new before after step :
  (∀ x, last scope = Some x → last scope' = Some x) →
  flushed fileId final scope new step →
  (match step with Invoked _ _ _ _ _ => scope ≠ [] | _ => True end) →
  flushed fileId final scope' (before ++ new ++ after) step.
Proof.
  intros Hlast H Hne. destruct step as [m|batch text lang store result]; [exact I|].
  destruct H as ((bf & ann & rep & pr & af & Heq & Hann & Hrep) & Hnb & Hsz & Hfull).
  split; [|split; [exact Hnb|split; [exact Hsz|]]].
  - exists (before ++ bf), ann, rep, pr, (af ++ after).
    split; [|split; assumption]. rewrite Heq. rewrite <- !app_assoc. reflexivity.
  - destruct Hfull as [Hfull|Hfull]; [left; exact Hfull|right].
    destruct (last scope) as [x|] eqn:Hx.
    + rewrite Hfull. symmetry. apply Hlast. reflexivity.
    + apply last_None in Hx. contradiction.
Qed.

Lemma announces_emitted fileId store batch l :
  Forall2 (announces fileId store) batch l →
  Forall (λ step, ∃ m, step = Emitted m) l.
Proof.
  induction 1 as [|p step batch l (s & _ & ->) _ IH]; constructor; eauto.
Qed.

Lemma reports_emitted fileId result final batch l :
  Forall2 (reports fileId result final) batch l →
  Forall (λ step, ∃ m, step = Emitted m) l.
Proof.
  induction 1 as [|p step batch l (s & _ & ->) _ IH]; constructor; eauto.
Qed.

Lemma emitted_flushed fileId final scope new l :
  Forall (λ step, ∃ m, step = Emitted m) l →
  Forall (flushed fileId final scope new) l.
Proof.
  intros H. eapply Forall_impl; [exact H|]. intros step [m ->]. exact I.
Qed.

Lemma loop_blocks fileId lang total :
  ∀ rest i st,
    NoDup (currentBatch st ++ rest) →
    (∀ p, p ∈ currentBatch st ++ rest → (p < length (segments st))%nat) →
    (i + length rest = total)%nat →
    currentBatchCharCount st = batchChars (segments st) (currentBatch st) →
    currentBatchCharCount st < MAX_BATCH_CHARS →
    let st' := loop fileId lang total i rest st in
    ∃ new,
      sent st' = sent st ++ new
      ∧ Forall (flushed fileId (segments st') (currentBatch st ++ rest) new) new.
Proof.
  induction rest as [|segment rest IH]; intros i st Hnd Hvalid Htotal Hcount Hroom.
  - exists []. simpl. rewrite app_nil_r. split; [reflexivity|constructor].
  - cbn [Backend.loop]. cbv zeta.
    set (batch := currentBatch st ++ [segment]).
    assert (Heq : batch ++ rest = currentBatch st ++ segment :: rest)
      by (unfold batch; rewrite <- app_assoc; reflexivity).
    assert (Hnd' : NoDup (batch ++ rest)) by (rewrite Heq; exact Hnd).
    assert (Hvalid' : ∀ p, p ∈ batch ++ rest → (p < length (segments st))%nat)
      by (rewrite Heq; exact Hvalid).
    apply NoDup_app in Hnd' as (Hndb & Hdisj & Hndr).
    unfold Backend.iteration. fold batch.
    destruct ((MAX_BATCH_CHARS
               <=? currentBatchCharCount st
                   + strlen (originalAt (segments st) segment))
              || (i =? total - 1)%nat) eqn:Hcond.
    + assert (Hvb : ∀ p, p ∈ batch → (p < length (segments st))%nat).
      { intros p Hp. apply Hvalid'. apply elem_of_app. left. exact Hp. }
      destruct (flush_spec generateContent random fileId lang total segment batch st
                  Hndb Hvb)
        as (_ & _ & _ & _ & _ & Hcur & _ & Hlen & _ & _).
      destruct (flush_emits fileId lang total segment batch st Hndb Hvb)
        as (announced & reported & Hsent & Hann & Hrep).
      set (st1 := flush fileId lang total segment batch st) in *.
      set (store := alter (Segment.set_status SegTranslating) segment (segments st)) in *.
      set (text := join DELIMITER (List.map (originalAt store) batch)) in *.
      set (result := translateTextSegment (generateContent (calls st))
                       (random (calls st)) text lang) in *.
      assert (Hnd1 : NoDup (currentBatch st1 ++ rest)) by (rewrite Hcur; exact Hndr).
      assert (Hvalid1 : ∀ p, p ∈ currentBatch st1 ++ rest
                             → (p < length (segments st1))%nat).
      { rewrite Hcur, Hlen. intros p Hp. apply Hvalid'. apply elem_of_app.
        right. exact Hp. }
      assert (Htotal1 : (S i + length rest = total)%nat)
        by (simpl in Htotal; lia).
      destruct (IH (S i) st1 Hnd1 Hvalid1 Htotal1) as (new1 & Hsent1 & Hall1).
      { rewrite Hcur. unfold st1, Backend.flush.
        repeat match goal with |- context [let '(_, _) := ?x in _] =>
          destruct x end. reflexivity. }
      { unfold st1, Backend.flush.
        repeat match goal with |- context [let '(_, _) := ?x in _] =>
          destruct x end. reflexivity. }
      destruct (loop_spec generateContent random fileId lang total rest (S i) st1
                  Hnd1 Hvalid1 Htotal1) as (_ & Hframe & _).
      set (st' := loop fileId lang total (S i) rest st1) in *.
      set (progress := Emitted (progressMessage fileId
              (Math_round (percent (completedWorkSegments st + Z.of_nat (length batch)) total)) None)) in *.
      exists (announced ++ [Invoked batch text lang store result] ++ reported
              ++ [progress] ++ new1).
      split; [rewrite Hsent1, Hsent; rewrite <- !app_assoc; reflexivity|].
      apply Forall_app. split.
      { eapply emitted_flushed, announces_emitted, Hann. }
      apply Forall_cons. split.
      { split; [|split; [|split]].
        - exists [], announced, reported,
            (Math_round (percent (completedWorkSegments st + Z.of_nat (length batch)) total)), new1.
          split; [reflexivity|]. split; [exact Hann|].
          apply (Forall2_reports_ext fileId result (segments st1)); [|exact Hrep].
          intros p Hp. apply Hframe. rewrite Hcur. simpl.
          intros Hpr. exact (Hdisj p Hp Hpr).
        - unfold batch. destruct (currentBatch st); discriminate.
        - unfold batch. rewrite removelast_last.
          unfold store. rewrite batchChars_alter_status, <- Hcount. exact Hroom.
        - apply orb_true_iff in Hcond as [Hfull|Hlast].
          + left. apply Z.leb_le in Hfull. unfold batch, store.
            rewrite batchChars_alter_status, batchChars_app, <- Hcount.
            unfold batchChars at 1. simpl. lia.
          + right. apply Nat.eqb_eq in Hlast.
            assert (rest = []) as ->
              by (destruct rest; [reflexivity|simpl in Htotal; lia]).
            reflexivity. }
      apply Forall_app. split.
      { eapply emitted_flushed, reports_emitted, Hrep. }
      apply Forall_cons. split; [exact I|].
      rewrite Forall_forall in Hall1. apply Forall_forall. intros step Hstep.
      specialize (Hall1 step Hstep). rewrite Hcur in Hall1. simpl in Hall1.
      assert (Hne : match step with
                    | Invoked _ _ _ _ _ => rest ≠ []
                    | Emitted _ => True
                    end).
      { destruct step; [exact I|]. intros ->. unfold st' in Hsent1.
        simpl in Hsent1.
        assert (new1 = []) as ->
          by (apply (app_inv_head (sent st1)); rewrite app_nil_r;
              symmetry; exact Hsent1).
        inversion Hstep. }
      pose proof (flushed_weaken fileId (segments st') rest
                    (currentBatch st ++ segment :: rest) new1
                    (announced ++ [Invoked batch text lang store result]
                     ++ reported ++ [progress]) [] step) as Hw.
      rewrite app_nil_r, <- !app_assoc in Hw. apply Hw; [|exact Hall1|exact Hne].
      intros x Hx. rewrite last_app, last_cons, Hx. reflexivity.
    + apply orb_false_iff in Hcond as [Hfull Hlast].
      apply Nat.eqb_neq in Hlast. apply Z.leb_gt in Hfull.
      set (st1 := mkLoop (segments st) (sent st) batch
                    (currentBatchCharCount st
                     + strlen (originalAt (segments st) segment))
                    (completedWorkSegments st) (calls st)).
      destruct (IH (S i) st1) as (new1 & Hsent1 & Hall1).
      { simpl. apply NoDup_app. auto. }
      { simpl. exact Hvalid'. }
      { simpl in Htotal. lia. }
      { unfold st1. cbn [currentBatchCharCount currentBatch segments].
        unfold batch. rewrite batchChars_app, <- Hcount. unfold batchChars. simpl. lia. }
      { unfold st1. cbn [currentBatchCharCount]. exact Hfull. }
      exists new1. simpl in *. rewrite <- Heq. split; [exact Hsent1|exact Hall1].
Qed.
End run_blocks.


(** ** Runs of [processFile], continued *)

Section run_more.
Variable File : Type.
Variable generateContent : nat → nat → jsstring → jsstring → ApiOutcome.
Variable random : nat → nat → Q.

Local Abbreviation loop := (Backend.loop generateContent random).
Local Abbreviation processFile := (Backend.processFile File generateContent random).
Local Abbreviation runSteps := (Backend.runSteps File generateContent random).

Lemma processFile_unfold (b : Backend.t File) (fileId : jsstring) (job : FileJob.t) :
  jobs File b !! fileId = Some job →
  let scope := segmentsToProcess job in
  let announced := Emitted (progressMessage fileId 0 (Some JobProcessing)) in
  let st' :=
    loop fileId (FileJob.targetLang job) (length scope) 0 scope
         (mkLoop (FileJob.segments job) (trace File b ++ [announced]) [] 0 0 0) in
  let job' := FileJob.set_progress 100 (FileJob.set_status JobCompleted
                (FileJob.set_segments (segments st') job)) in
  processFile fileId b
  = checkBatchCompletion File
      (Backend.mk File (batchId File b) (<[fileId := job']> (jobs File b))
         (fileStorage File b)
         (sent st' ++ [Emitted (WebSocketMessage.mk FILE_COMPLETE None
                                  (Some fileId) None None (Some (PayloadJob job')))])).
Proof.
  intros Hjob scope announced st' job'.
  unfold Backend.processFile. rewrite Hjob. cbv zeta.
  change (segmentsToProcess (FileJob.set_status JobProcessing job)) with scope.
  destruct (Nat.eqb_spec (length scope) 0) as [Hzero|Hpos].
  - apply length_zero_iff_nil in Hzero. subst st' job'. unfold scope in *.
    rewrite Hzero. reflexivity.
  - reflexivity.
Qed.

Lemma forEachSegment_messages (update : nat → Segment.t → Segment.t)
    (message : Segment.t → WebSocketMessage.t) :
  ∀ batch index segs trace,
    ∃ emitted,
      (forEachSegment update message index batch segs trace).2 = trace ++ emitted
      ∧ Forall (λ step, ∃ s, step = Emitted (message s)) emitted.
Proof.
  induction batch as [|p batch IH]; intros index segs trace; simpl.
  - exists []. split; [symmetry; apply app_nil_r|constructor].
  - destruct (segs !! p) as [s|].
    + destruct (IH (S index) (<[p := update index s]> segs)
                   (broadcast (message (update index s)) trace))
        as (emitted & Heq & Hall).
      exists (Emitted (message (update index s)) :: emitted).
      split; [rewrite Heq; unfold broadcast; rewrite <- app_assoc; reflexivity|].
      constructor; [eauto|exact Hall].
    + apply IH.
Qed.

Lemma flush_steps fileId lang total segment batch st :
  ∃ new,
    sent (flush generateContent random fileId lang total segment batch st)
    = sent st ++ new
    ∧ Forall (batchStep fileId) new.
Proof.
  unfold flush.
  destruct (forEachSegment_messages (λ _ s, s) (translatingMessage fileId) batch 0
              (alter (Segment.set_status SegTranslating) segment (segments st))
              (sent st)) as (ann & Hann & Hall1).
  destruct (forEachSegment _ (translatingMessage fileId) _ _ _ _)
    as [segs1 trace1] eqn:H1. simpl in Hann. subst trace1.
  set (text := join DELIMITER (List.map (originalAt segs1) batch)).
  set (result := translateTextSegment _ _ text lang).
  assert (Hout : ∀ segs2 trace2,
    (segs2, trace2)
    = match completion result with
      | Resolved translatedBlock =>
          forEachSegment (onTranslated (split translatedBlock))
            (translatedMessage fileId) 0 batch segs1
            ((sent st ++ ann) ++ [Invoked batch text lang segs1 result])
      | Rejected _ =>
          forEachSegment (λ _, onFailed) (warningMessage fileId) 0 batch segs1
            ((sent st ++ ann) ++ [Invoked batch text lang segs1 result])
      end →
    ∃ rep, trace2 = ((sent st ++ ann) ++ [Invoked batch text lang segs1 result])
                    ++ rep
           ∧ Forall (batchStep fileId) rep).
  { intros segs2 trace2 Heq. destruct (completion result) as [block|e].
    - destruct (forEachSegment_messages (onTranslated (split block))
                  (translatedMessage fileId) batch 0 segs1
                  ((sent st ++ ann) ++ [Invoked batch text lang segs1 result]))
        as (rep & Hrep & Hall2).
      rewrite <- Heq in Hrep. simpl in Hrep. exists rep. split; [exact Hrep|].
      eapply Forall_impl; [exact Hall2|]. intros step [s ->]. left. eauto.
    - destruct (forEachSegment_messages (λ _, onFailed)
                  (warningMessage fileId) batch 0 segs1
                  ((sent st ++ ann) ++ [Invoked batch text lang segs1 result]))
        as (rep & Hrep & Hall2).
      rewrite <- Heq in Hrep. simpl in Hrep. exists rep. split; [exact Hrep|].
      eapply Forall_impl; [exact Hall2|]. intros step [s ->]. left. eauto. }
  destruct (match completion result with Resolved _ => _ | Rejected _ => _ end)
    as [segs2 trace2] eqn:H2.
  destruct (Hout segs2 trace2 eq_refl) as (rep & -> & Hall2).
  cbn [sent]. unfold broadcast.
  exists (ann ++ [Invoked batch text lang segs1 result] ++ rep
          ++ [Emitted (progressMessage fileId
                (Math_round (percent (completedWorkSegments st + Z.of_nat (length batch)) total)) None)]).
  split; [rewrite <- !app_assoc; reflexivity|].
  apply Forall_app. split.
  - eapply Forall_impl; [exact Hall1|]. intros step [s ->]. left. eauto.
  - constructor; [exact I|]. apply Forall_app. split; [exact Hall2|].
    constructor; [right; eauto|constructor].
Qed.

Lemma loop_steps fileId lang total :
  ∀ rest i st,
    ∃ new,
      sent (loop fileId lang total i rest st) = sent st ++ new
      ∧ Forall (batchStep fileId) new.
Proof.
  induction rest as [|segment rest IH]; intros i st.
  - exists []. split; [symmetry; apply app_nil_r|constructor].
  - simpl.
    destruct (IH (S i) (iteration generateContent random fileId lang total i
                          segment st)) as (new2 & Heq2 & Hall2).
    assert (∃ new1, sent (iteration generateContent random fileId lang total i
                            segment st) = sent st ++ new1
                    ∧ Forall (batchStep fileId) new1) as (new1 & Heq1 & Hall1).
    { unfold iteration. destruct (_ || _).
      - apply flush_steps.
      - exists []. split; [symmetry; apply app_nil_r|constructor]. }
    exists (new1 ++ new2). split.
    + rewrite Heq2, Heq1, <- app_assoc. reflexivity.
    + apply Forall_app. split; assumption.
Qed.

(** The steps of a run: the announcement, the steps of the loop, the
    completion message and what [checkBatchCompletion] adds. *)
Lemma runSteps_shape (b : Backend.t File) (fileId : jsstring) (job : FileJob.t) :
  jobs File b !! fileId = Some job →
  let scope := segmentsToProcess job in
  ∃ job' new tail,
    jobs File (processFile fileId b) !! fileId = Some job'
    ∧ runSteps fileId b
      = [Emitted (progressMessage fileId 0 (Some JobProcessing))] ++ new
          ++ [Emitted (WebSocketMessage.mk FILE_COMPLETE None (Some fileId)
                         None None (Some (PayloadJob job')))] ++ tail
    ∧ Forall (flushed fileId (FileJob.segments job') scope new) new
    ∧ Forall (batchStep fileId) new
    ∧ Forall (λ step, ∃ m, step = Emitted m) tail
    ∧ ((∀ other j, other ≠ fileId → jobs File b !! other = Some j →
                   settled j = true) →
       tail = [Emitted (WebSocketMessage.mk BATCH_COMPLETE
                          (Some (batchId File b)) None None None None)])
    ∧ ((∃ other j, other ≠ fileId ∧ jobs File b !! other = Some j
                   ∧ settled j = false) →
       tail = []).
Proof.
  intros Hjob scope.
  pose proof (processFile_unfold b fileId job Hjob) as Hrun. cbv zeta in Hrun.
  fold scope in Hrun.
  set (announced := Emitted (progressMessage fileId 0 (Some JobProcessing))) in *.
  set (st0 := mkLoop (FileJob.segments job) (trace File b ++ [announced]) [] 0 0 0) in *.
  destruct (loop_blocks generateContent random fileId (FileJob.targetLang job)
              (length scope) scope 0%nat st0) as (new & Hsent & Hall).
  { exact (sorted_lt_NoDup _ (segmentsToProcess_sorted job)). }
  { simpl. intros p Hp. apply segmentsToProcess_valid. exact Hp. }
  { reflexivity. }
  { reflexivity. }
  { reflexivity. }
  assert (Hsteps : Forall (batchStep fileId) new).
  { destruct (loop_steps fileId (FileJob.targetLang job) (length scope) scope
                0%nat st0) as (new' & Hsent' & Hall').
    rewrite Hsent in Hsent'. apply app_inv_head in Hsent'. subst new'.
    exact Hall'. }
  set (st' := loop fileId (FileJob.targetLang job) (length scope) 0 scope st0) in *.
  set (job' := FileJob.set_progress 100 (FileJob.set_status JobCompleted
                 (FileJob.set_segments (segments st') job))) in *.
  set (completed := Emitted (WebSocketMessage.mk FILE_COMPLETE None (Some fileId)
                               None None (Some (PayloadJob job')))) in *.
  set (jobs' := <[fileId := job']> (jobs File b)) in *.
  assert (Hall_iff : forallb (λ kv, settled kv.2) (map_to_list jobs') = true
                     ↔ ∀ other j, other ≠ fileId → jobs File b !! other = Some j →
                                  settled j = true).
  { rewrite forallb_forall. split.
    - intros H other j Hne Hj.
      apply (H (other, j)). apply list_elem_of_In, elem_of_map_to_list.
      unfold jobs'. rewrite lookup_insert_ne by congruence. exact Hj.
    - intros H [k j] Hin. apply list_elem_of_In, elem_of_map_to_list in Hin.
      simpl. destruct (decide (k = fileId)) as [->|Hne].
      + unfold jobs' in Hin. rewrite lookup_insert_eq in Hin.
        injection Hin as <-. reflexivity.
      + unfold jobs' in Hin. rewrite lookup_insert_ne in Hin by congruence.
        exact (H k j Hne Hin). }
  assert (Hsize : (0 <? size jobs')%nat = true).
  { apply Nat.ltb_lt. destruct (size jobs') eqn:Hs; [|lia].
    apply map_size_empty_iff in Hs.
    assert (jobs' !! fileId = Some job') as Hl by apply lookup_insert_eq.
    rewrite Hs, lookup_empty in Hl. discriminate. }
  simpl in Hsent. fold st' in Hsent.
  exists job', new.
  unfold Backend.runSteps. rewrite Hrun. unfold checkBatchCompletion.
  cbn [Backend.jobs Backend.trace Backend.batchId Backend.fileStorage].
  fold jobs'. rewrite Hsize, andb_true_r.
  destruct (forallb (λ kv, settled kv.2) (map_to_list jobs')) eqn:Hsettled.
  - eexists. cbn [Backend.jobs Backend.trace].
    split; [apply lookup_insert_eq|].
    split; [|split; [exact Hall|split; [exact Hsteps|split; [|split]]]].
    + unfold broadcast. rewrite Hsent, <- !app_assoc. rewrite drop_app_length.
      reflexivity.
    + constructor; [eauto|constructor].
    + intros _. reflexivity.
    + intros (other & j & Hne & Hj & Hno).
      rewrite (proj1 Hall_iff eq_refl other j Hne Hj) in Hno. discriminate.
  - exists []. cbn [Backend.jobs Backend.trace].
    split; [apply lookup_insert_eq|].
    split; [|split; [exact Hall|split; [exact Hsteps|split; [|split]]]].
    + rewrite Hsent, <- !app_assoc. rewrite drop_app_length. reflexivity.
    + constructor.
    + intros Hothers. apply Hall_iff in Hothers. congruence.
    + intros _. reflexivity.
Qed.

Lemma elem_of_concat_batches (steps : list Step) (p : nat) :
  p ∈ concat (batches steps) →
  ∃ batch text lang store result,
    Invoked batch text lang store result ∈ steps ∧ p ∈ batch.
Proof.
  induction steps as [|[m|batch text lang store result] steps IH]; simpl.
  - intros H. inversion H.
  - intros (b' & t' & l' & s' & r' & Hin & Hp)%IH.
    exists b', t', l', s', r'. split; [right; exact Hin|exact Hp].
  - intros [Hp|Hp]%elem_of_app.
    + exists batch, text, lang, store, result. split; [left|exact Hp].
    + apply IH in Hp as (b' & t' & l' & s' & r' & Hin & Hp).
      exists b', t', l', s', r'. split; [right; exact Hin|exact Hp].
Qed.

Lemma flushed_extend fileId final scope new before after step :
  flushed fileId final scope new step →
  flushed fileId final scope (before ++ new ++ after) step.
Proof.
  destruct step as [m|batch text lang store result]; [intros _; exact I|].
  intros ((bf & ann & rep & pr & af & Heq & Hann & Hrep) & Hrest).
  split; [|exact Hrest].
  exists (before ++ bf), ann, rep, pr, (af ++ after).
  split; [|split; assumption]. rewrite Heq. rewrite <- !app_assoc. reflexivity.
Qed.

Lemma invoked_flushed (b : Backend.t File) fileId job
    batch text lang store result :
  jobs File b !! fileId = Some job →
  Invoked batch text lang store result ∈ runSteps fileId b →
  ∃ job',
    jobs File (processFile fileId b) !! fileId = Some job'
    ∧ flushed fileId (FileJob.segments job') (segmentsToProcess job)
              (runSteps fileId b) (Invoked batch text lang store result).
Proof.
  intros Hjob Hin.
  destruct (runSteps_shape b fileId job Hjob)
    as (job' & new & tail & Hjob' & Hsteps & Hall & _ & Htail & _).
  exists job'. split; [exact Hjob'|].
  assert (Hnew : Invoked batch text lang store result ∈ new).
  { rewrite Hsteps in Hin.
    apply elem_of_app in Hin as [Hin|Hin];
      [apply list_elem_of_singleton in Hin; discriminate|].
    apply elem_of_app in Hin as [Hin|Hin]; [exact Hin|].
    apply elem_of_app in Hin as [Hin|Hin];
      [apply list_elem_of_singleton in Hin; discriminate|].
    rewrite Forall_forall in Htail. destruct (Htail _ Hin) as [m Hm].
    discriminate. }
  rewrite Forall_forall in Hall. specialize (Hall _ Hnew).
  rewrite Hsteps. apply flushed_extend. exact Hall.
Qed.

(** X2: A client call of a run sits between the announcements and the outcome
    messages of its batch: the steps right before it are the translating
    messages of the batch's segments, in batch order and with the content
    the segments have at the call; the steps right after it are one
    translation message (call resolved) or one warning message (call
    rejected) per segment, in batch order and with the content the
    segment has in the stored job at the end of the run; then comes a
    progress message. *)
Theorem batch_is_announced_and_reported (b : Backend.t File) fileId job
    batch text lang store result :
  jobs File b !! fileId = Some job →
  Invoked batch text lang store result ∈ runSteps fileId b →
  ∃ job' before announced reported progress after,
    jobs File (processFile fileId b) !! fileId = Some job'
    ∧ runSteps fileId b
      = before ++ announced ++ [Invoked batch text lang store result]
          ++ reported ++ [Emitted (progressMessage fileId progress None)]
          ++ after
    ∧ Forall2 (announces fileId store) batch announced
    ∧ Forall2 (reports fileId result (FileJob.segments job')) batch reported.
Proof.
  intros Hjob Hin.
  destruct (invoked_flushed b fileId job batch text lang store result Hjob Hin)
    as (job' & Hjob' & (bf & ann & rep & pr & af & Heq & Hann & Hrep) & _).
  exists job', bf, ann, rep, pr, af. auto.
Qed.

(** X3: The batches handed to the client are never empty; a batch without its
    last segment stays below [MAX_BATCH_CHARS] code units of original
    text; and a batch is sent either because it has reached
    [MAX_BATCH_CHARS] or because its last segment is the last one of the
    scope. *)
Theorem batches_fill_the_character_budget (b : Backend.t File) fileId job
    batch text lang store result :
  jobs File b !! fileId = Some job →
  Invoked batch text lang store result ∈ runSteps fileId b →
  batch ≠ []
  ∧ batchChars (FileJob.segments job) (removelast batch) < MAX_BATCH_CHARS
  ∧ (MAX_BATCH_CHARS ≤ batchChars (FileJob.segments job) batch
     ∨ last batch = last (segmentsToProcess job)).
Proof.
  intros Hjob Hin.
  destruct (invoked_flushed b fileId job batch text lang store result Hjob Hin)
    as (job' & Hjob' & _ & Hne & Hroom & Hfull).
  destruct (processFile_outcome File generateContent random b fileId job Hjob)
    as (job'' & steps & Hjob'' & Htrace & _ & _ & _ & _ & Horig & _ & _ & _
        & Hacc & _).
  rewrite Hjob' in Hjob''. injection Hjob'' as <-.
  assert (Hsteps : runSteps fileId b = steps).
  { unfold Backend.runSteps. rewrite Htrace. apply drop_app_length. }
  rewrite Hsteps in Hin. rewrite Forall_forall in Hacc.
  destruct (Hacc _ Hin) as (_ & _ & _ & Hsettle).
  assert (Hsame : ∀ sub, sub ⊆ batch →
            batchChars store sub = batchChars (FileJob.segments job) sub).
  { induction sub as [|p sub IH]; intros Hsub; [reflexivity|].
    unfold batchChars in IH |- *. simpl.
    rewrite IH by (intros q Hq; apply Hsub; right; exact Hq). f_equal.
    assert (p ∈ batch) as Hp by (apply Hsub; left).
    apply list_elem_of_lookup in Hp as [k Hk].
    destruct (Hsettle k p Hk) as (s & Hs & Hfinal).
    pose proof (Horig p) as Ho. rewrite Hfinal in Ho. simpl in Ho.
    rewrite settle_original in Ho.
    unfold originalAt. rewrite Hs. simpl.
    destruct (FileJob.segments job !! p); simpl in *; congruence. }
  rewrite <- (Hsame batch) by (intros q Hq; exact Hq).
  rewrite <- (Hsame (removelast batch)).
  - auto.
  - intros p Hp. apply list_elem_of_In. apply list_elem_of_In in Hp.
    clear -Hp. induction batch as [|x [|y batch] IH]; simpl in *; [tauto|tauto|].
    destruct Hp as [->|Hp]; [left; reflexivity|right; apply IH; exact Hp].
Qed.

Lemma scope_in_batch (b : Backend.t File) fileId job p :
  jobs File b !! fileId = Some job →
  p ∈ segmentsToProcess job →
  ∃ job' batch text lang store result k s,
    jobs File (processFile fileId b) !! fileId = Some job'
    ∧ Invoked batch text lang store result ∈ runSteps fileId b
    ∧ batch !! k = Some p
    ∧ store !! p = Some s
    ∧ FileJob.segments job' !! p = Some (settle result k s).
Proof.
  intros Hjob Hp.
  destruct (processFile_run File generateContent random b fileId job Hjob)
    as (job' & Hjob' & _ & _ & _ & Hcat & _ & _ & Hacc & _).
  rewrite <- Hcat in Hp.
  apply elem_of_concat_batches in Hp
    as (batch & text & lang & store & result & Hin & Hp).
  rewrite Forall_forall in Hacc. destruct (Hacc _ Hin) as (_ & _ & _ & Hsettle).
  apply list_elem_of_lookup in Hp as [k Hk].
  destruct (Hsettle k p Hk) as (s & Hs & Hfinal).
  exists job', batch, text, lang, store, result, k, s. auto.
Qed.

Lemma settle_outcome (result : Gemini.Run) (k : nat) (s : Segment.t) :
  match completion result with
  | Resolved _ =>
      Segment.status (settle result k s) = SegCompleted
      ∧ (Segment.translated (settle result k s) = [] →
         Segment.original (settle result k s) = [])
  | Rejected _ =>
      Segment.status (settle result k s) = SegWarning
      ∧ Segment.warningMessage (settle result k s)
        = Some (lit "Translation failed")
  end.
Proof.
  unfold settle. destruct (completion result) as [block|e].
  - split; [reflexivity|]. unfold onTranslated. simpl.
    unfold orElse.
    destruct (truthy _) eqn:Htruthy; [|auto].
    intros Hnil. rewrite Hnil in Htruthy. discriminate.
  - split; reflexivity.
Qed.

(** X4: No segment of the scope is left pending or translating: each one was
    sent to the client in some batch and ends completed when that call
    resolved, with a translation that is empty only if the original is,
    and with the warning "Translation failed" when that call was
    rejected. *)
Theorem scope_segments_end_completed_or_warning (b : Backend.t File) fileId job p :
  jobs File b !! fileId = Some job →
  p ∈ segmentsToProcess job →
  ∃ job' s batch text lang store result,
    jobs File (processFile fileId b) !! fileId = Some job'
    ∧ FileJob.segments job' !! p = Some s
    ∧ Invoked batch text lang store result ∈ runSteps fileId b
    ∧ p ∈ batch
    ∧ match completion result with
      | Resolved _ =>
          Segment.status s = SegCompleted
          ∧ (Segment.translated s = [] → Segment.original s = [])
      | Rejected _ =>
          Segment.status s = SegWarning
          ∧ Segment.warningMessage s = Some (lit "Translation failed")
      end.
Proof.
  intros Hjob Hp.
  destruct (scope_in_batch b fileId job p Hjob Hp)
    as (job' & batch & text & lang & store & result & k & s & Hjob' & Hin & Hk
        & _ & Hfinal).
  exists job', (settle result k s), batch, text, lang, store, result.
  split; [exact Hjob'|]. split; [exact Hfinal|]. split; [exact Hin|].
  split; [exact (list_elem_of_lookup_2 _ _ _ Hk)|].
  apply settle_outcome.
Qed.

(** X5: The protocol of a run: it opens with the progress message that
    announces the status processing; then come client calls, messages
    about single segments and progress messages without status; then the
    one completion message, which carries the job as it is stored, with
    status completed and progress 100; the batch completion message
    follows when every job that is stored when the run ends is idle,
    completed or failed, and nothing follows when one of them is queued
    or processing. *)
Theorem run_protocol (b : Backend.t File) (fileId : jsstring) (job : FileJob.t) :
  jobs File b !! fileId = Some job →
  ∃ job' inner tail,
    jobs File (processFile fileId b) !! fileId = Some job'
    ∧ FileJob.status job' = JobCompleted
    ∧ FileJob.progress job' = 100
    ∧ runSteps fileId b
      = [Emitted (progressMessage fileId 0 (Some JobProcessing))] ++ inner
          ++ [Emitted (WebSocketMessage.mk FILE_COMPLETE None (Some fileId)
                         None None (Some (PayloadJob job')))] ++ tail
    ∧ Forall (batchStep fileId) inner
    ∧ ((∀ id j, jobs File (processFile fileId b) !! id = Some j →
                settled j = true) →
       tail = [Emitted (WebSocketMessage.mk BATCH_COMPLETE
                          (Some (batchId File b)) None None None None)])
    ∧ ((∃ id j, jobs File (processFile fileId b) !! id = Some j
                ∧ settled j = false) →
       tail = []).
Proof.
  intros Hjob.
  destruct (runSteps_shape b fileId job Hjob)
    as (job' & new & tail & Hjob' & Hsteps & _ & Hinner & _ & Hyes & Hno).
  destruct (processFile_run File generateContent random b fileId job Hjob)
    as (job'' & Hjob'' & _ & Hst & Hpr & _).
  rewrite Hjob' in Hjob''. injection Hjob'' as <-.
  destruct (processFile_store File generateContent random b fileId job Hjob)
    as (segs & Hstore & _).
  exists job', new, tail.
  split; [exact Hjob'|]. split; [exact Hst|]. split; [exact Hpr|].
  split; [exact Hsteps|]. split; [exact Hinner|]. split.
  - intros Hall. apply Hyes. intros other j Hne Hj.
    apply (Hall other). rewrite Hstore, lookup_insert_ne by congruence. exact Hj.
  - intros (id & j & Hj & Hopen). apply Hno.
    destruct (decide (id = fileId)) as [->|Hne].
    + rewrite Hjob' in Hj. injection Hj as <-.
      unfold settled in Hopen. rewrite Hst in Hopen. discriminate.
    + exists id, j. split; [exact Hne|]. split; [|exact Hopen].
      rewrite Hstore, lookup_insert_ne in Hj by congruence. exact Hj.
Qed.
End run_more.


(** ** A download after a run *)

Section download_facts.
Variables File Blob : Type.
Variable reassembleFile : File → list Segment.t → option Blob.
Variable generateContent : nat → nat → jsstring → jsstring → ApiOutcome.
Variable random : nat → nat → Q.

Local Abbreviation processFile := (Backend.processFile File generateContent random).
Local Abbreviation generateDownload :=
  (Backend.generateDownload File Blob reassembleFile).

Lemma segmentsToProcess_window (job : FileJob.t) (range : PageRange.t)
    (pageCount : Z) (i : nat) :
  FileJob.selectedRange job = Some range →
  FileJob.pageCount job = Some pageCount →
  pageCount ≠ 0 →
  i ∈ segmentsToProcess job
  ↔ ∃ s n, FileJob.segments job !! i = Some s
           ∧ Segment.pageNumber s = Some n
           ∧ Z.max 1 (PageRange.start range - 1) ≤ n
           ∧ n ≤ Z.min pageCount (PageRange.end_ range + 1).
Proof.
  intros Hrange Hcount Hnz. unfold segmentsToProcess.
  rewrite Hrange, Hcount. simpl.
  destruct (Z.eqb_spec pageCount 0) as [|_]; [contradiction|]. simpl.
  rewrite elem_of_positionsWhere. rewrite Nat.sub_0_r.
  unfold inBufferedWindow. split.
  - intros (s & _ & Hs & Hin). exists s.
    destruct (Segment.pageNumber s) as [n|]; [|discriminate].
    exists n. apply andb_true_iff in Hin as [H1 H2].
    apply Z.leb_le in H1, H2. auto.
  - intros (s & n & Hs & Hn & H1 & H2). exists s.
    split; [lia|]. split; [exact Hs|]. rewrite Hn.
    apply andb_true_iff. split; apply Z.leb_le; assumption.
Qed.

(** X6: A download that follows a run in range mode (range selected, page
    count known): what [reassembleFile] is given is the file kept at the
    upload and the stored segments on the pages of the selected range
    plus those without page; every such segment on a page of the document
    was in the scope of the run and is completed or has a warning; every
    such segment without page is as it was before the run. *)
Theorem download_after_run (b : Backend.t File) fileId job file range pageCount :
  jobs File b !! fileId = Some job →
  fileStorage File b !! fileId = Some file →
  FileJob.selectedRange job = Some range →
  FileJob.pageCount job = Some pageCount →
  pageCount ≠ 0 →
  ∃ kept,
    generateDownload fileId (processFile fileId b) = reassembleFile file kept
    ∧ ∀ s, s ∈ kept →
           match Segment.pageNumber s with
           | Some n =>
               PageRange.start range ≤ n ≤ PageRange.end_ range
               ∧ (1 ≤ n ≤ pageCount →
                  Segment.status s = SegCompleted
                  ∨ Segment.status s = SegWarning)
           | None => s ∈ FileJob.segments job
           end.
Proof.
  intros Hjob Hfile Hrange Hcount Hnz.
  destruct (processFile_store File generateContent random b fileId job Hjob)
    as (segs & Hjobs & Hfiles & _ & Hfixed).
  set (job' := FileJob.set_progress 100 (FileJob.set_status JobCompleted
                 (FileJob.set_segments segs job))) in *.
  assert (Hjob' : jobs File (processFile fileId b) !! fileId = Some job').
  { rewrite Hjobs. apply lookup_insert_eq. }
  exists (segmentsToDownload job'). split.
  { unfold Backend.generateDownload. rewrite Hjob', Hfiles, Hfile. reflexivity. }
  intros s Hs. unfold segmentsToDownload in Hs.
  change (FileJob.selectedRange job') with (FileJob.selectedRange job) in Hs.
  rewrite Hrange in Hs. apply list_elem_of_In, filter_In in Hs as [Hs Hkeep].
  apply list_elem_of_In, list_elem_of_lookup in Hs as [i Hi].
  change (FileJob.segments job') with segs in Hi.
  pose proof (Hfixed i) as Hfix. rewrite Hi in Hfix. simpl in Hfix.
  destruct (FileJob.segments job !! i) as [s0|] eqn:Hs0; [|discriminate].
  simpl in Hfix. injection Hfix as _ _ _ Hpage.
  unfold inSelectedRange in Hkeep.
  destruct (Segment.pageNumber s) as [n|] eqn:Hn.
  - apply andb_true_iff in Hkeep as [H1 H2]. apply Z.leb_le in H1, H2.
    split; [lia|]. intros Hdoc.
    assert (Hscope : i ∈ segmentsToProcess job).
    { apply (segmentsToProcess_window job range pageCount i Hrange Hcount Hnz).
      exists s0, n. split; [exact Hs0|]. split; [symmetry; exact Hpage|]. lia. }
    destruct (scope_in_batch File generateContent random b fileId job i Hjob Hscope)
      as (job'' & batch & text & lang & store & result & k & s1 & Hjob'' & _ & _
          & _ & Hfinal).
    rewrite Hjob' in Hjob''. injection Hjob'' as <-.
    change (FileJob.segments job') with segs in Hfinal.
    rewrite Hi in Hfinal. injection Hfinal as ->.
    pose proof (settle_outcome result k s1) as Hout.
    destruct (completion result); [left|right]; apply Hout.
  - assert (Hscope : i ∉ segmentsToProcess job).
    { rewrite (segmentsToProcess_window job range pageCount i Hrange Hcount Hnz).
      intros (s' & n & Hs' & Hn' & _). rewrite Hs0 in Hs'. injection Hs' as <-. congruence. }
    destruct (processFile_outcome File generateContent random b fileId job Hjob)
      as (job'' & steps & Hjob'' & _ & _ & _ & _ & Hframe & _).
    rewrite Hjob' in Hjob''. injection Hjob'' as <-.
    specialize (Hframe i Hscope).
    change (FileJob.segments job') with segs in Hframe.
    rewrite Hi, Hs0 in Hframe. injection Hframe as ->.
    apply (list_elem_of_lookup_2 _ i). exact Hs0.
Qed.
End download_facts.


Import Samples.

Lemma batch_is_announced_and_reported_witness :
  ∃ job' before announced reported progress after,
    jobs unit (Backend.processFile unit tersely halfJitters (lit "f")
                 (backendWith pairJob)) !! lit "f" = Some job'
    ∧ Backend.runSteps unit tersely halfJitters (lit "f") (backendWith pairJob)
      = before ++ announced
          ++ [Invoked [0; 1]%nat (lit "Hello  ||| world") (lit "fr") pairStore
                      (mkRun (Resolved (lit "uno")) 1 [])]
          ++ reported ++ [Emitted (progressMessage (lit "f") progress None)]
          ++ after
    ∧ Forall2 (announces (lit "f") pairStore) [0; 1]%nat announced
    ∧ Forall2 (reports (lit "f") (mkRun (Resolved (lit "uno")) 1 [])
                       (FileJob.segments job')) [0; 1]%nat reported.
Proof.
  apply (batch_is_announced_and_reported unit tersely halfJitters
           (backendWith pairJob) (lit "f") pairJob).
  - vm_compute. reflexivity.
  - apply (list_elem_of_lookup_2 _ 3%nat). vm_compute. reflexivity.
Defined.

Lemma batches_fill_the_character_budget_witness :
  [0%nat] ≠ []
  ∧ batchChars (FileJob.segments longJob) (removelast [0%nat]) < MAX_BATCH_CHARS
  ∧ (MAX_BATCH_CHARS ≤ batchChars (FileJob.segments longJob) [0%nat]
     ∨ last [0%nat] = last (segmentsToProcess longJob)).
Proof.
  apply (batches_fill_the_character_budget unit failFirstCall halfJitters
           (backendWith longJob) (lit "f") longJob [0%nat] longText (lit "fr")
           longStore (mkRun (Rejected (Thrown_error badRequest)) 1 [])).
  - vm_compute. reflexivity.
  - apply (list_elem_of_lookup_2 _ 2%nat). vm_compute. reflexivity.
Defined.

Lemma scope_segments_end_completed_or_warning_witness :
  ∃ job' s batch text lang store result,
    jobs unit (Backend.processFile unit failFirstCall halfJitters (lit "f")
                 (backendWith longJob)) !! lit "f" = Some job'
    ∧ FileJob.segments job' !! 1%nat = Some s
    ∧ Invoked batch text lang store result
      ∈ Backend.runSteps unit failFirstCall halfJitters (lit "f")
          (backendWith longJob)
    ∧ 1%nat ∈ batch
    ∧ match completion result with
      | Resolved _ =>
          Segment.status s = SegCompleted
          ∧ (Segment.translated s = [] → Segment.original s = [])
      | Rejected _ =>
          Segment.status s = SegWarning
          ∧ Segment.warningMessage s = Some (lit "Translation failed")
      end.
Proof.
  apply (scope_segments_end_completed_or_warning unit failFirstCall halfJitters
           (backendWith longJob) (lit "f") longJob 1%nat).
  - vm_compute. reflexivity.
  - apply (list_elem_of_lookup_2 _ 1%nat). vm_compute. reflexivity.
Defined.

Lemma run_protocol_witness :
  ∃ job' inner tail,
    jobs unit (Backend.processFile unit tersely halfJitters (lit "f")
                 (backendWith pairJob)) !! lit "f" = Some job'
    ∧ FileJob.status job' = JobCompleted
    ∧ FileJob.progress job' = 100
    ∧ Backend.runSteps unit tersely halfJitters (lit "f") (backendWith pairJob)
      = [Emitted (progressMessage (lit "f") 0 (Some JobProcessing))] ++ inner
          ++ [Emitted (WebSocketMessage.mk FILE_COMPLETE None (Some (lit "f"))
                         None None (Some (PayloadJob job')))] ++ tail
    ∧ Forall (batchStep (lit "f")) inner
    ∧ ((∀ id j, jobs unit (Backend.processFile unit tersely halfJitters (lit "f")
                             (backendWith pairJob)) !! id = Some j →
                settled j = true) →
       tail = [Emitted (WebSocketMessage.mk BATCH_COMPLETE
                          (Some (batchId unit (backendWith pairJob)))
                          None None None None)])
    ∧ ((∃ id j, jobs unit (Backend.processFile unit tersely halfJitters (lit "f")
                             (backendWith pairJob)) !! id = Some j
                ∧ settled j = false) →
       tail = []).
Proof.
  apply (run_protocol unit tersely halfJitters (backendWith pairJob) (lit "f")
           pairJob).
  vm_compute. reflexivity.
Defined.

Lemma download_after_run_witness :
  ∃ kept,
    Backend.generateDownload unit (list Segment.t) keepSegments (lit "f")
      (Backend.processFile unit echoRemote halfJitters (lit "f")
         (backendWith rangedJob))
    = keepSegments tt kept
    ∧ ∀ s, s ∈ kept →
           match Segment.pageNumber s with
           | Some n =>
               2 ≤ n ≤ 2
               ∧ (1 ≤ n ≤ 3 →
                  Segment.status s = SegCompleted
                  ∨ Segment.status s = SegWarning)
           | None => s ∈ FileJob.segments rangedJob
           end.
Proof.
  apply (download_after_run unit (list Segment.t) keepSegments echoRemote
           halfJitters (backendWith rangedJob) (lit "f") rangedJob tt
           (PageRange.mk 2 2) 3).
  - vm_compute. reflexivity.
  - vm_compute. reflexivity.
  - reflexivity.
  - reflexivity.
  - lia.
Defined.


(** ** The translation client, continued *)

Import Retry.

Section client_more.
Variable generateContent : nat → jsstring → jsstring → ApiOutcome.
Variable random : nat → Q.
Variables text targetLang : jsstring.

Local Abbreviation call := (translateTextSegment generateContent random text targetLang).

Lemma translateTextSegment_blank :
  trim text = [] → call = mkRun (Resolved text) 0 [].
Proof.
  intros Hblank. unfold translateTextSegment. rewrite Hblank.
  rewrite orb_true_r. reflexivity.
Qed.

(** X7: how the promise of the client settles.  It resolves with the text
    it was given (a blank text is handed back without any request; so is
    the text when the response has no text or only white space) or with
    the trimmed, non-empty text of the last response; it rejects with the
    value thrown by the last request, or, when that value yields no
    message text, with the [TypeError] of the [catch] block.  The error
    "Max retries exceeded" behind the loop is never thrown. *)
Theorem client_settles_with_text_or_last_error :
  match completion call with
  | Resolved v =>
      (trim text = [] ∧ attempts call = 0%nat ∧ v = text)
      ∨ (trim text ≠ []
         ∧ ∃ t, generateContent (attempts call - 1) text targetLang = Responded t
                ∧ ((from_option trim [] t = [] ∧ v = text)
                   ∨ (v ≠ [] ∧ Some v = trim <$> t)))
  | Rejected reason =>
      trim text ≠ []
      ∧ match generateContent (attempts call - 1) text targetLang with
        | Responded _ => False
        | Failed e => reason = Thrown_error e
        | Failed_without_text => reason = Type_error
        end
  end.
Proof.
  destruct (decide (trim text = [])) as [Hblank|Hblank].
  - rewrite (translateTextSegment_blank Hblank). simpl. left. auto.
  - destruct (translateTextSegment_spec generateContent random text targetLang
                Hblank) as (_ & _ & _ & Hlast).
    destruct (generateContent (attempts call - 1) text targetLang) as [t|e|] eqn:Hgen.
    + rewrite Hlast. right. split; [exact Hblank|]. exists t.
      split; [reflexivity|]. unfold orElse.
      destruct t as [t|]; simpl.
      * destruct (trim t) eqn:Ht; simpl; [left; auto|right].
        split; [discriminate|reflexivity].
      * left. auto.
    + destruct Hlast as [-> _]. split; [exact Hblank | reflexivity].
    + rewrite Hlast. split; [exact Hblank | reflexivity].
Qed.

Lemma delays_backoff :
  ∃ n, (n ≤ 4)%nat ∧ (n = attempts call - 1)%nat
       ∧ delays call = List.map (backoffTime random) (seq 0 n).
Proof.
  destruct (decide (trim text = [])) as [Hblank|Hblank].
  - rewrite (translateTextSegment_blank Hblank). exists 0%nat. simpl.
    split; [lia|]. split; reflexivity.
  - destruct (translateTextSegment_spec generateContent random text targetLang
                Hblank) as (Hatt & Hlen & Hmid & _).
    exists (attempts call - 1)%nat. unfold MAX_RETRIES in Hatt.
    split; [lia|]. split; [reflexivity|].
    apply list_eq. intros k. rewrite lookup_map.
    destruct (decide (k < attempts call - 1)%nat) as [Hk|Hk].
    + rewrite (proj2 (Hmid k Hk)). rewrite lookup_seq_lt by exact Hk. reflexivity.
    + rewrite lookup_ge_None_2 by lia. rewrite lookup_seq_ge by lia. reflexivity.
Qed.

(** X8: with [Math.random] in [0,1), a call that sent [n+1] requests has
    slept between [10000 (2^n - 1)] and [10000 (2^n - 1) + 2000 n]
    milliseconds in all, both included, and no call sleeps more than 158
    seconds. *)
Theorem client_sleeps_at_most_158_seconds :
  (∀ k, (0 <= random k)%Q ∧ (random k < 1)%Q) →
  let n := Z.of_nat (attempts call - 1) in
  (inject_Z (10000 * (2 ^ n - 1)) <= totalSleep call)%Q
  ∧ (totalSleep call <= inject_Z (10000 * (2 ^ n - 1) + 2000 * n))%Q
  ∧ (totalSleep call <= 158000)%Q.
Proof.
  intros Hrandom n.
  destruct delays_backoff as (m & Hm & Hn & Hdelays).
  unfold totalSleep, n. rewrite Hdelays, <- Hn. clear n Hn Hdelays.
  assert (Hb : ∀ k, (k ≤ 4)%nat →
    (inject_Z (10000 * 2 ^ Z.of_nat k) <= backoffTime random k)%Q
    ∧ (backoffTime random k <= inject_Z (10000 * 2 ^ Z.of_nat k + 2000))%Q).
  { intros k Hk. destruct (Hrandom k) as [H0 H1].
    apply (backoff_bounds random k Hk H0 H1). }
  pose proof (Hb 0%nat ltac:(lia)) as [? ?]. pose proof (Hb 1%nat ltac:(lia)) as [? ?].
  pose proof (Hb 2%nat ltac:(lia)) as [? ?]. pose proof (Hb 3%nat ltac:(lia)) as [? ?].
  clear Hb.
  destruct m as [|[|[|[|[|m]]]]]; [| | | | |lia];
    cbn [seq List.map fold_right]; unfold inject_Z in *;
    repeat match goal with
           | |- context [Qmake ?z 1] =>
               let v := eval compute in z in progress change z with v
           | H : context [Qmake ?z 1] |- _ =>
               let v := eval compute in z in progress change z with v in H
           end;
    repeat split; lra.
Qed.
End client_more.

Lemma client_sleeps_at_most_158_seconds_witness :
  (inject_Z (10000 * (2 ^ Z.of_nat
     (attempts (translateTextSegment alwaysOverloaded lastJitter (lit "Hello")
                  (lit "fr")) - 1) - 1))
   <= totalSleep (translateTextSegment alwaysOverloaded lastJitter (lit "Hello")
                    (lit "fr")))%Q
  ∧ (totalSleep (translateTextSegment alwaysOverloaded lastJitter (lit "Hello")
                   (lit "fr"))
     <= inject_Z (10000 * (2 ^ Z.of_nat
          (attempts (translateTextSegment alwaysOverloaded lastJitter
                       (lit "Hello") (lit "fr")) - 1) - 1)
        + 2000 * Z.of_nat
            (attempts (translateTextSegment alwaysOverloaded lastJitter
                         (lit "Hello") (lit "fr")) - 1)))%Q
  ∧ (totalSleep (translateTextSegment alwaysOverloaded lastJitter (lit "Hello")
                   (lit "fr")) <= 158000)%Q.
Proof.
  apply (client_sleeps_at_most_158_seconds alwaysOverloaded lastJitter
           (lit "Hello") (lit "fr")).
  intros k. unfold lastJitter. split; [discriminate|reflexivity].
Defined.

(** The bounds are reached: when [Math.random] returns the largest double
    below 1, the jitter is 2^-42 below 2000, the first delay is 12000 ms
    and a call whose five attempts fail sleeps 158 seconds. *)
Example sleep_of_158_seconds :
  let call := translateTextSegment alwaysOverloaded lastJitter (lit "Hello") (lit "fr") in
  (Double.mul (lastJitter 0%nat) 2000 == 2000 - (1 # 2 ^ 42))%Q
  ∧ (List.map Qred (delays call) = [12000; 22000; 42000; 82000]%Q)
  ∧ (totalSleep call == 158000)%Q.
Proof. vm_compute. auto. Qed.


(** ** The translation map and the two passes over a document part *)

Import Passes.

Lemma translationMap_fold (segments : list Segment.t) (k : jsstring) :
  ∀ m : gmap jsstring jsstring,
    fold_left
      (λ m seg,
         if truthy (Segment.translated seg) && truthy (Segment.original seg)
         then <[trim (Segment.original seg) := Segment.translated seg]> m
         else m)
      segments m !! k
    = match last (List.map Segment.translated (List.filter (keyed k) segments)) with
      | Some t => Some t
      | None => m !! k
      end.
Proof.
  induction segments as [|seg segments IH]; intros m; [reflexivity|].
  cbn [fold_left List.filter]. rewrite IH.
  change (keyed k seg)
    with (truthy (Segment.translated seg) && truthy (Segment.original seg)
          && bool_decide (trim (Segment.original seg) = k)).
  destruct (truthy (Segment.translated seg) && truthy (Segment.original seg));
    cbn [andb]; [|reflexivity].
  destruct (bool_decide_reflect (trim (Segment.original seg) = k)) as [Hk|Hk].
  - cbn [List.map]. rewrite last_cons.
    destruct (last (List.map Segment.translated (List.filter (keyed k) segments)));
      [reflexivity|].
    rewrite Hk. apply lookup_insert_eq.
  - destruct (last _); [reflexivity|]. apply lookup_insert_ne. exact Hk.
Qed.

(** X9: the translation map holds, under a key, the translation of the
    last segment that has a non-empty translation and a non-empty
    original whose trimmed text is the key, and nothing under a key that
    no such segment has; a translation in the map is never empty. *)
Theorem translationMap_last_wins (segments : list Segment.t) (k : jsstring) :
  translationMap segments !! k
  = last (List.map Segment.translated (List.filter (keyed k) segments))
  ∧ ∀ t, translationMap segments !! k = Some t → truthy t = true.
Proof.
  assert (Hlookup : translationMap segments !! k
    = last (List.map Segment.translated (List.filter (keyed k) segments))).
  { unfold translationMap. rewrite translationMap_fold.
    destruct (last _); [reflexivity|apply lookup_empty]. }
  split; [exact Hlookup|]. intros t Ht. rewrite Hlookup in Ht.
  apply last_Some_elem_of, list_elem_of_In, in_map_iff in Ht as (seg & <- & Hin).
  apply filter_In in Hin as [_ Hkeyed]. unfold keyed in Hkeyed.
  apply andb_true_iff in Hkeyed as [Hkeyed _].
  apply andb_true_iff in Hkeyed as [Htr _]. exact Htr.
Qed.

(** *** Pass 2 on a paragraph *)

Lemma clearOthers_lookup (g : TextNode → TextNode) (d : nat) (l : list nat) :
  ∀ (q : list TextNode) (i : nat),
    NoDup l →
    fold_left (λ p node, if (node =? d)%nat then p else alter g node p) l q !! i
    = if bool_decide (i ∈ l ∧ i ≠ d) then g <$> q !! i else q !! i.
Proof.
  induction l as [|x l IH]; intros q i Hnd.
  - cbn [fold_left]. rewrite bool_decide_eq_false_2; [reflexivity|].
    intros [H _]. inversion H.
  - apply NoDup_cons in Hnd as [Hx Hnd]. cbn [fold_left]. rewrite IH by exact Hnd.
    destruct (Nat.eqb_spec x d) as [->|Hxd].
    + rewrite (bool_decide_ext (i ∈ d :: l ∧ i ≠ d) (i ∈ l ∧ i ≠ d));
        [reflexivity|].
      rewrite elem_of_cons. tauto.
    + destruct (decide (i = x)) as [->|Hix].
      * rewrite (bool_decide_eq_false_2 (x ∈ l ∧ x ≠ d)) by tauto.
        rewrite (bool_decide_eq_true_2 (x ∈ x :: l ∧ x ≠ d))
          by (split; [left|exact Hxd]).
        apply list_lookup_alter_eq.
      * rewrite list_lookup_alter_ne by congruence.
        rewrite (bool_decide_ext (i ∈ x :: l ∧ i ≠ d) (i ∈ l ∧ i ≠ d));
          [reflexivity|].
        rewrite elem_of_cons. tauto.
Qed.

Lemma concat_single (t : jsstring) (d : nat) (f : nat → jsstring) (l : list nat) :
  NoDup l → d ∈ l → f d = t → (∀ i, i ∈ l → i ≠ d → f i = []) →
  concat (List.map f l) = t.
Proof.
  assert (Hnone : ∀ l', d ∉ l' → (∀ i, i ∈ l' → i ≠ d → f i = []) →
                        concat (List.map f l') = []).
  { induction l' as [|y l' IH]; intros Hd Hother; [reflexivity|].
    cbn [List.map concat]. apply not_elem_of_cons in Hd as [Hyd Hd].
    rewrite Hother by (try left; congruence).
    apply IH; [exact Hd|]. intros i Hi. apply Hother. right. exact Hi. }
  induction l as [|x l IH]; intros Hnd Hd Hfd Hother; [inversion Hd|].
  apply NoDup_cons in Hnd as [Hx Hnd]. cbn [List.map concat].
  destruct (decide (x = d)) as [->|Hxd].
  - rewrite Hfd, Hnone; [apply app_nil_r|exact Hx|].
    intros i Hi. apply Hother. right. exact Hi.
  - rewrite (Hother x) by (try left; exact Hxd).
    apply IH; [exact Hnd| |exact Hfd|].
    + apply elem_of_cons in Hd as [->|Hd]; [congruence|exact Hd].
    + intros i Hi. apply Hother. right. exact Hi.
Qed.

Lemma candidateNodes_subset (p : list TextNode) (runNodes : list nat) :
  runNodes ≠ [] →
  candidateNodes p runNodes ≠ []
  ∧ ∀ c, c ∈ candidateNodes p runNodes → c ∈ runNodes.
Proof.
  intros Hne. unfold candidateNodes.
  destruct (List.filter _ runNodes) as [|c cs] eqn:Hf; simpl.
  - split; [exact Hne|auto].
  - split; [discriminate|]. intros x Hx. rewrite <- Hf in Hx.
    apply list_elem_of_In, filter_In in Hx as [Hx _].
    apply list_elem_of_In. exact Hx.
Qed.

(** What pass 2 does to a paragraph, position by position. *)
Lemma aggregateParagraph_lookup (preserve : bool) (tm : gmap jsstring jsstring)
    (p : list TextNode) (t : jsstring) :
  let runNodes := positionsWhere unhandled 0 p in
  (2 ≤ length runNodes)%nat →
  tm !! trim (concat (List.map (textAt p) runNodes)) = Some t →
  let d := dominantNode p (candidateNodes p runNodes) in
  d ∈ runNodes
  ∧ ∀ i, aggregateParagraph preserve tm p !! i
         = if bool_decide (i = d) then markTranslated preserve t <$> p !! i
           else if bool_decide (i ∈ runNodes) then clearNode <$> p !! i
           else p !! i.
Proof.
  intros runNodes Hlen Hkey d.
  assert (Hne : runNodes ≠ []) by (destruct runNodes; [simpl in Hlen; lia|discriminate]).
  destruct (candidateNodes_subset p runNodes Hne) as [Hcne Hsub].
  destruct (dominantNode_first_longest p _ Hcne) as (k & Hk & _).
  fold d in Hk.
  assert (Hd : d ∈ runNodes) by (apply Hsub; eapply list_elem_of_lookup_2; exact Hk).
  split; [exact Hd|]. intros i.
  unfold aggregateParagraph. fold runNodes.
  destruct (Nat.leb_spec (length runNodes) 1) as [|_]; [lia|].
  rewrite Hkey. fold d.
  rewrite clearOthers_lookup
    by (apply sorted_lt_NoDup, positionsWhere_sorted).
  destruct (decide (i = d)) as [->|Hid].
  - rewrite bool_decide_eq_false_2 by tauto.
    rewrite bool_decide_eq_true_2 by reflexivity.
    apply list_lookup_alter_eq.
  - rewrite (bool_decide_eq_false_2 (i = d)) by exact Hid.
    rewrite list_lookup_alter_ne by congruence.
    rewrite (bool_decide_ext (i ∈ runNodes ∧ i ≠ d) (i ∈ runNodes)) by tauto.
    reflexivity.
Qed.

Lemma aggregateParagraph_handled (preserve : bool) (tm : gmap jsstring jsstring)
    (p : list TextNode) (i : nat) :
  i ∉ positionsWhere unhandled 0 p →
  aggregateParagraph preserve tm p !! i = p !! i.
Proof.
  intros Hi. set (runNodes := positionsWhere unhandled 0 p) in *.
  destruct (Nat.leb_spec (length runNodes) 1) as [Hle|Hgt].
  - unfold aggregateParagraph. fold runNodes.
    destruct (Nat.leb_spec (length runNodes) 1); [reflexivity|lia].
  - destruct (tm !! trim (concat (List.map (textAt p) runNodes))) as [t|] eqn:Hkey.
    + destruct (aggregateParagraph_lookup preserve tm p t) as [Hd Hlook];
        [exact Hgt|exact Hkey|].
      fold runNodes in Hd, Hlook. rewrite Hlook.
      rewrite bool_decide_eq_false_2 by (intros ->; contradiction).
      rewrite bool_decide_eq_false_2 by exact Hi. reflexivity.
    + unfold aggregateParagraph. fold runNodes. rewrite Hkey.
      destruct (_ <=? _)%nat; reflexivity.
Qed.

Lemma aggregateParagraph_length (preserve : bool) (tm : gmap jsstring jsstring)
    (p : list TextNode) :
  length (aggregateParagraph preserve tm p) = length p.
Proof.
  unfold aggregateParagraph.
  destruct (_ <=? _)%nat; [reflexivity|].
  destruct (tm !! _) as [t|]; [|reflexivity].
  set (d := dominantNode _ _).
  generalize (positionsWhere unhandled 0 p) as l.
  assert (Hlen : length (alter (markTranslated preserve t) d p) = length p)
    by apply length_alter.
  revert Hlen. generalize (alter (markTranslated preserve t) d p) as q.
  intros q Hq l. revert q Hq.
  induction l as [|x l IH]; intros q Hq; [exact Hq|].
  cbn [fold_left]. apply IH. destruct (x =? d)%nat; [exact Hq|].
  rewrite length_alter. exact Hq.
Qed.

Lemma aggregateParagraph_text (preserve : bool) (tm : gmap jsstring jsstring)
    (p : list TextNode) (t : jsstring) :
  let runNodes := positionsWhere unhandled 0 p in
  (2 ≤ length runNodes)%nat →
  tm !! trim (concat (List.map (textAt p) runNodes)) = Some t →
  concat (List.map (textAt (aggregateParagraph preserve tm p)) runNodes) = t.
Proof.
  intros runNodes Hlen Hkey.
  destruct (aggregateParagraph_lookup preserve tm p t Hlen Hkey) as [Hd Hlook].
  fold runNodes in Hd, Hlook.
  set (d := dominantNode p (candidateNodes p runNodes)) in *.
  pose proof Hd as Hd'.
  apply elem_of_positionsWhere in Hd' as (n & _ & Hn & _).
  rewrite Nat.sub_0_r in Hn.
  apply (concat_single t d).
  - apply sorted_lt_NoDup, positionsWhere_sorted.
  - exact Hd.
  - unfold textAt. rewrite Hlook, bool_decide_eq_true_2 by reflexivity.
    rewrite Hn. reflexivity.
  - intros i Hi Hid. pose proof Hi as Hi'.
    apply elem_of_positionsWhere in Hi' as (m & _ & Hm & _).
    rewrite Nat.sub_0_r in Hm. unfold textAt.
    rewrite Hlook, bool_decide_eq_false_2 by exact Hid.
    rewrite bool_decide_eq_true_2 by exact Hi. rewrite Hm. reflexivity.
Qed.


(** *** Both passes and the cleanup *)

Lemma aggregateParagraph_cases (preserve : bool) (tm : gmap jsstring jsstring)
    (p : list TextNode) (i : nat) :
  aggregateParagraph preserve tm p !! i = p !! i
  ∨ aggregateParagraph preserve tm p !! i = clearNode <$> p !! i
  ∨ ∃ k t, tm !! k = Some t
           ∧ aggregateParagraph preserve tm p !! i
             = markTranslated preserve t <$> p !! i.
Proof.
  set (runNodes := positionsWhere unhandled 0 p).
  destruct (Nat.leb_spec (length runNodes) 1) as [Hle|Hgt].
  { left. unfold aggregateParagraph. fold runNodes.
    destruct (Nat.leb_spec (length runNodes) 1); [reflexivity|lia]. }
  destruct (tm !! trim (concat (List.map (textAt p) runNodes))) as [t|] eqn:Hkey.
  - destruct (aggregateParagraph_lookup preserve tm p t Hgt Hkey) as [_ Hlook].
    rewrite Hlook. destruct (bool_decide _); [right; right; eauto|].
    destruct (bool_decide _); auto.
  - left. unfold aggregateParagraph. fold runNodes. rewrite Hkey.
    destruct (_ <=? _)%nat; reflexivity.
Qed.

Lemma substituteNode_cases (preserve : bool) (tm : gmap jsstring jsstring)
    (n : TextNode) :
  substituteNode preserve tm n = n
  ∨ ∃ t, tm !! trim (textContent n) = Some t
         ∧ substituteNode preserve tm n = markTranslated preserve t n.
Proof.
  unfold substituteNode. destruct (tm !! trim (textContent n)) as [t|]; [|auto].
  destruct (truthy _); eauto.
Qed.

Lemma runAt_map (f : list TextNode → list TextNode) (doc : list (list TextNode))
    (i j : nat) :
  runAt (List.map f doc) i j = doc !! i ≫= λ p, f p !! j.
Proof.
  unfold runAt. rewrite lookup_map. destruct (doc !! i); reflexivity.
Qed.

Lemma reassembleXml_runAt (preserve : bool) (tm : gmap jsstring jsstring)
    (doc : list (list TextNode)) (i j : nat) :
  runAt (reassembleXml preserve tm doc) i j
  = doc !! i ≫= λ p,
      removeMarker
        <$> aggregateParagraph preserve tm
              (List.map (substituteNode preserve tm) p) !! j.
Proof.
  unfold reassembleXml, runAt. rewrite !lookup_map.
  destruct (doc !! i) as [p|]; [|reflexivity]. cbn [fmap option_fmap option_map mbind option_bind].
  apply lookup_map.
Qed.

(** X11: both passes and the cleanup on a document part keep its
    paragraphs and the number of runs of each; no run of the result
    carries the marker; the text of a run of the result is the text the
    run had, or empty, or a translation of the map; its [xml:space] is
    the one it had or, in the DOCX variant, "preserve"; and with an empty
    translation map nothing but the markers changes. *)
Theorem reassembleXml_keeps_shape_and_drops_markers (preserve : bool)
    (tm : gmap jsstring jsstring) (doc : list (list TextNode)) :
  let out := reassembleXml preserve tm doc in
  List.map (@length TextNode) out = List.map (@length TextNode) doc
  ∧ Forall (Forall (λ n, data_translated n = None)) out
  ∧ (∀ i j n', runAt out i j = Some n' →
       ∃ n, runAt doc i j = Some n
            ∧ (textContent n' = textContent n ∨ textContent n' = []
               ∨ ∃ k, tm !! k = Some (textContent n'))
            ∧ (xml_space n' = xml_space n
               ∨ (preserve = true ∧ xml_space n' = Some (lit "preserve"))))
  ∧ reassembleXml preserve ∅ doc = List.map (List.map removeMarker) doc.
Proof.
  intros out. split; [|split; [|split]].
  - unfold out, reassembleXml. rewrite !List.map_map. apply map_ext.
    intros p. rewrite !length_map, aggregateParagraph_length, length_map.
    reflexivity.
  - unfold out, reassembleXml.
    apply Forall_forall. intros p Hp.
    apply list_elem_of_In, in_map_iff in Hp as (q & <- & _).
    apply Forall_forall. intros n Hn.
    apply list_elem_of_In, in_map_iff in Hn as (m & <- & _). reflexivity.
  - intros i j n' Hn'. unfold out in Hn'. rewrite reassembleXml_runAt in Hn'.
    unfold runAt. destruct (doc !! i) as [p|]; [|discriminate].
    cbn [mbind option_bind] in Hn' |- *.
    destruct (aggregateParagraph_cases preserve tm
                (List.map (substituteNode preserve tm) p) j) as [H|[H|(k & t & Hk & H)]];
      rewrite H, lookup_map in Hn'; clear H;
      destruct (p !! j) as [n|]; try discriminate;
      cbn [fmap option_fmap option_map] in Hn'; injection Hn' as <-;
      exists n; (split; [reflexivity|]);
      destruct (substituteNode_cases preserve tm n) as [->|(t' & Hk' & ->)];
      cbn [removeMarker clearNode markTranslated textContent xml_space];
      try (split; [eauto|destruct preserve; auto]; fail).
  - unfold reassembleXml. rewrite !List.map_map. apply map_ext. intros p.
    assert (List.map (substituteNode preserve ∅) p = p) as ->.
    { rewrite <- (map_id p) at 2. apply map_ext. intros n.
      unfold substituteNode. rewrite lookup_empty. reflexivity. }
    f_equal. unfold aggregateParagraph. rewrite lookup_empty.
    destruct (_ <=? _)%nat; reflexivity.
Qed.

(** X12: a run whose trimmed text is a non-empty key of the translation
    map holds the translation after both passes and the cleanup, whatever
    else its paragraph contains; the DOCX variant also sets [xml:space]
    to "preserve". *)
Theorem exact_match_run_gets_translation (preserve : bool)
    (tm : gmap jsstring jsstring) (doc : list (list TextNode))
    (i j : nat) (n : TextNode) (t : jsstring) :
  runAt doc i j = Some n →
  trim (textContent n) ≠ [] →
  tm !! trim (textContent n) = Some t →
  runAt (reassembleXml preserve tm doc) i j
  = Some (mkNode t (if preserve then Some (lit "preserve") else xml_space n) None).
Proof.
  intros Hn Hkey Ht. rewrite reassembleXml_runAt. unfold runAt in Hn.
  destruct (doc !! i) as [p|]; [|discriminate]. cbn [mbind option_bind] in Hn |- *.
  rewrite aggregateParagraph_handled.
  - rewrite lookup_map, Hn. cbn [fmap option_fmap option_map].
    unfold substituteNode. rewrite Ht.
    destruct (trim (textContent n)); [congruence|]. reflexivity.
  - intros Hin. apply elem_of_positionsWhere in Hin as (m & _ & Hm & Hun).
    rewrite Nat.sub_0_r, lookup_map, Hn in Hm.
    cbn [fmap option_fmap option_map] in Hm. injection Hm as <-.
    unfold substituteNode in Hun. rewrite Ht in Hun.
    destruct (trim (textContent n)); [congruence|]. discriminate.
Qed.

Lemma positionsWhere_all {A} (f : A → bool) (l : list A) :
  ∀ k, Forall (λ x, f x = true) l → positionsWhere f k l = seq k (length l).
Proof.
  induction l as [|x l IH]; intros k Hall; [reflexivity|].
  inversion Hall as [|? ? Hx Hl]; subst. simpl. rewrite Hx, IH by exact Hl.
  reflexivity.
Qed.

Lemma map_textAt_seq (p : list TextNode) :
  List.map (textAt p) (seq 0 (length p)) = List.map textContent p.
Proof.
  apply list_eq. intros i. rewrite !lookup_map.
  destruct (decide (i < length p)%nat) as [Hi|Hi].
  - rewrite lookup_seq_lt by exact Hi. simpl. unfold textAt.
    destruct (lookup_lt_is_Some_2 p i Hi) as [n Hn]. rewrite Hn. reflexivity.
  - rewrite lookup_seq_ge by lia. rewrite lookup_ge_None_2 by lia. reflexivity.
Qed.

Import Part.

Lemma writeBack_length p new runs : length (writeBack p new runs) = length runs.
Proof.
  unfold writeBack. revert runs. generalize (zip p new) as l.
  induction l as [|[i n] l IH]; intros runs; [reflexivity|].
  cbn [fold_left]. rewrite IH. apply length_insert.
Qed.

Lemma writeBack_other p new runs k :
  k ∉ p → writeBack p new runs !! k = runs !! k.
Proof.
  unfold writeBack. revert new runs.
  induction p as [|i p IH]; intros new runs Hk; [reflexivity|].
  destruct new as [|n new]; [reflexivity|].
  cbn [zip zip_with fold_left].
  rewrite IH by (intros H; apply Hk; right; exact H).
  apply list_lookup_insert_ne. intros ->. apply Hk. left.
Qed.

Lemma writeBack_at p new runs j k :
  NoDup p → length new = length p → (k < length runs)%nat →
  p !! j = Some k → writeBack p new runs !! k = new !! j.
Proof.
  unfold writeBack. revert new runs j.
  induction p as [|i p IH]; intros new runs j Hnd Hlen Hk Hj; [discriminate|].
  destruct new as [|n new]; [discriminate|].
  inversion Hnd as [|? ? Hi Hnd']; subst.
  cbn [zip zip_with fold_left].
  destruct j as [|j].
  - injection Hj as ->.
    change (fold_left _ (zip p new) (<[k:=n]> runs)) with (writeBack p new (<[k:=n]> runs)).
    rewrite writeBack_other by exact Hi.
    rewrite list_lookup_insert_eq by exact Hk. reflexivity.
  - change ((n :: new) !! S j) with (new !! j).
    apply IH; [exact Hnd' | simpl in Hlen; lia | rewrite length_insert; exact Hk | exact Hj].
Qed.

Lemma runsOf_length runs p :
  Forall (λ k, (k < length runs)%nat) p → length (runsOf runs p) = length p.
Proof.
  unfold runsOf. induction 1 as [|k p Hk _ IH]; [reflexivity|].
  cbn [omap list_omap]. destruct (lookup_lt_is_Some_2 runs k Hk) as [n ->].
  simpl. f_equal. exact IH.
Qed.

Lemma runsOf_lookup runs p j k :
  Forall (λ k, (k < length runs)%nat) p →
  p !! j = Some k → runsOf runs p !! j = runs !! k.
Proof.
  unfold runsOf. intros Hall. revert j.
  induction Hall as [|i p Hi _ IH]; intros j Hj; [discriminate|].
  cbn [omap list_omap]. destruct (lookup_lt_is_Some_2 runs i Hi) as [n Hn].
  rewrite Hn. destruct j as [|j].
  - injection Hj as <-. simpl. symmetry. exact Hn.
  - simpl. apply IH. exact Hj.
Qed.

Lemma runsOf_ext runs runs' p :
  (∀ k, k ∈ p → runs' !! k = runs !! k) → runsOf runs' p = runsOf runs p.
Proof.
  unfold runsOf. induction p as [|i p IH]; intros H; [reflexivity|].
  cbn [omap list_omap]. rewrite (H i) by left.
  rewrite IH by (intros k Hk; apply H; right; exact Hk). reflexivity.
Qed.

Lemma runsOf_map (f : TextNode → TextNode) runs p :
  runsOf (List.map f runs) p = List.map f (runsOf runs p).
Proof.
  unfold runsOf. induction p as [|i p IH]; [reflexivity|].
  cbn [omap list_omap]. rewrite lookup_map, IH.
  destruct (runs !! i); reflexivity.
Qed.

Lemma runsOf_writeBack runs p new :
  wellFormed runs p → length new = length p →
  runsOf (writeBack p new runs) p = new.
Proof.
  intros [Hnd Hall] Hlen. apply list_eq. intros j.
  destruct (p !! j) as [k|] eqn:Hj.
  - rewrite (runsOf_lookup _ p j k); [|rewrite writeBack_length; exact Hall|exact Hj].
    apply writeBack_at; [exact Hnd|exact Hlen| |exact Hj].
    rewrite Forall_forall in Hall. apply Hall.
    apply (list_elem_of_lookup_2 _ _ _ Hj).
  - apply lookup_ge_None in Hj.
    rewrite !lookup_ge_None_2; [reflexivity | lia |].
    rewrite runsOf_length; [exact Hj|]. rewrite writeBack_length. exact Hall.
Qed.

Lemma aggregateIn_length preserve tm runs p :
  length (aggregateIn preserve tm runs p) = length runs.
Proof. apply writeBack_length. Qed.

Lemma aggregateIn_other preserve tm runs p k :
  k ∉ p → aggregateIn preserve tm runs p !! k = runs !! k.
Proof. apply writeBack_other. Qed.

(** A paragraph leaves the runs alone that are marked when its turn
    comes. *)
Lemma aggregateIn_handled preserve tm runs p k n :
  wellFormed runs p →
  runs !! k = Some n → unhandled n = false →
  aggregateIn preserve tm runs p !! k = Some n.
Proof.
  intros [Hnd Hall] Hk Hn.
  destruct (decide (k ∈ p)) as [Hin|Hout];
    [|rewrite aggregateIn_other by exact Hout; exact Hk].
  apply list_elem_of_lookup_1 in Hin as [j Hj].
  unfold aggregateIn.
  rewrite (writeBack_at p _ runs j k Hnd);
    [| rewrite aggregateParagraph_length; apply runsOf_length, Hall
     | apply lookup_lt_Some in Hk; exact Hk | exact Hj].
  rewrite aggregateParagraph_handled.
  - rewrite (runsOf_lookup runs p j k Hall Hj). exact Hk.
  - intros Hpos. apply elem_of_positionsWhere in Hpos as (x & _ & Hx & Hf).
    rewrite Nat.sub_0_r, (runsOf_lookup runs p j k Hall Hj), Hk in Hx.
    injection Hx as <-. congruence.
Qed.

Lemma fold_aggregateIn_length preserve tm paragraphs :
  ∀ runs, length (fold_left (aggregateIn preserve tm) paragraphs runs) = length runs.
Proof.
  induction paragraphs as [|q qs IH]; intros runs; [reflexivity|].
  cbn [fold_left]. rewrite IH. apply aggregateIn_length.
Qed.

Lemma fold_aggregateIn_other preserve tm paragraphs k :
  Forall (λ q, k ∉ q) paragraphs →
  ∀ runs, fold_left (aggregateIn preserve tm) paragraphs runs !! k = runs !! k.
Proof.
  induction 1 as [|q qs Hq _ IH]; intros runs; [reflexivity|].
  cbn [fold_left]. rewrite IH. apply aggregateIn_other, Hq.
Qed.

Lemma fold_aggregateIn_handled preserve tm paragraphs k n :
  unhandled n = false →
  ∀ runs, Forall (wellFormed runs) paragraphs → runs !! k = Some n →
          fold_left (aggregateIn preserve tm) paragraphs runs !! k = Some n.
Proof.
  intros Hn. induction paragraphs as [|q qs IH]; intros runs Hwf Hk; [exact Hk|].
  inversion Hwf as [|? ? Hq Hqs]; subst. cbn [fold_left]. apply IH.
  - eapply Forall_impl; [exact Hqs|]. intros q' [Hnd Hall]. split; [exact Hnd|].
    rewrite aggregateIn_length. exact Hall.
  - apply aggregateIn_handled; assumption.
Qed.

Lemma aggregateParagraph_marks (preserve : bool) (tm : gmap jsstring jsstring)
    (p : list TextNode) (t : jsstring) (j : nat) (n : TextNode) :
  (2 ≤ length p)%nat →
  Forall (λ n, unhandled n = true) p →
  tm !! trim (concat (List.map textContent p)) = Some t →
  aggregateParagraph preserve tm p !! j = Some n → unhandled n = false.
Proof.
  intros Hlen Hall Hkey Hj.
  pose proof (positionsWhere_all unhandled p 0 Hall) as Hruns.
  destruct (aggregateParagraph_lookup preserve tm p t) as [_ Hlook].
  - rewrite Hruns, length_seq. exact Hlen.
  - rewrite Hruns, map_textAt_seq. exact Hkey.
  - rewrite Hlook in Hj. rewrite Hruns in Hj.
    assert (Hlt : (j < length p)%nat).
    { destruct (decide (j < length p)%nat) as [|Hge]; [assumption|].
      rewrite lookup_ge_None_2 in Hj by lia.
      destruct (bool_decide _); [discriminate|].
      destruct (bool_decide _); discriminate. }
    destruct (lookup_lt_is_Some_2 p j Hlt) as [m Hm]. rewrite Hm in Hj.
    destruct (bool_decide _); [injection Hj as <-; reflexivity|].
    rewrite bool_decide_eq_true_2 in Hj by (apply elem_of_seq; lia).
    injection Hj as <-. reflexivity.
Qed.

Lemma runsOf_block (pre p tail : list TextNode) :
  runsOf (pre ++ p ++ tail) (seq (length pre) (length p)) = p.
Proof.
  apply list_eq. intros j.
  destruct (decide (j < length p)%nat) as [Hj|Hj].
  - rewrite (runsOf_lookup _ _ j (length pre + j)%nat).
    + rewrite lookup_app_r by lia.
      replace (length pre + j - length pre)%nat with j by lia.
      apply lookup_app_l. exact Hj.
    + apply Forall_forall. intros k Hk. apply elem_of_seq in Hk.
      rewrite !length_app. lia.
    + apply lookup_seq_lt. exact Hj.
  - rewrite !lookup_ge_None_2; [reflexivity|lia|].
    rewrite runsOf_length.
    + rewrite length_seq. lia.
    + apply Forall_forall. intros k Hk. apply elem_of_seq in Hk.
      rewrite !length_app. lia.
Qed.

Lemma writeBack_block (pre p p' tail : list TextNode) :
  length p' = length p →
  writeBack (seq (length pre) (length p)) p' (pre ++ p ++ tail) = pre ++ p' ++ tail.
Proof.
  intros Hlen. apply list_eq. intros k.
  destruct (decide (length pre ≤ k < length pre + length p)%nat) as [Hk|Hk].
  - rewrite (writeBack_at _ _ _ (k - length pre)%nat).
    + rewrite lookup_app_r by lia. rewrite lookup_app_l by lia. reflexivity.
    + apply NoDup_seq.
    + rewrite length_seq. exact Hlen.
    + rewrite !length_app. lia.
    + rewrite lookup_seq_lt by lia. f_equal. lia.
  - rewrite writeBack_other by (rewrite elem_of_seq; lia).
    destruct (decide (k < length pre)%nat) as [Hlt|Hge].
    + rewrite !lookup_app_l by lia. reflexivity.
    + rewrite !(lookup_app_r pre) by lia.
      rewrite !lookup_app_r by lia. rewrite Hlen. reflexivity.
Qed.

Lemma aggregate_blocks (preserve : bool) (tm : gmap jsstring jsstring)
    (doc : list (list TextNode)) :
  ∀ pre,
    fold_left (aggregateIn preserve tm) (blocks (length pre) doc) (pre ++ concat doc)
    = pre ++ concat (List.map (aggregateParagraph preserve tm) doc).
Proof.
  induction doc as [|p doc IH]; intros pre; [reflexivity|].
  cbn [blocks fold_left concat List.map].
  unfold aggregateIn at 2. rewrite runsOf_block.
  rewrite writeBack_block by apply aggregateParagraph_length.
  rewrite !app_assoc.
  replace (length pre + length p)%nat
    with (length (pre ++ aggregateParagraph preserve tm p))
    by (rewrite length_app, aggregateParagraph_length; reflexivity).
  apply IH.
Qed.

(** On a part whose paragraphs do not nest and hold all its runs, the
    two descriptions of the passes agree. *)
Lemma reassemblePart_blocks (preserve : bool) (tm : gmap jsstring jsstring)
    (doc : list (list TextNode)) :
  reassemblePart preserve tm (concat doc) (blocks 0 doc)
  = concat (reassembleXml preserve tm doc).
Proof.
  unfold reassemblePart, reassembleXml.
  rewrite List.concat_map.
  pose proof (aggregate_blocks preserve tm
                (List.map (List.map (substituteNode preserve tm)) doc) []) as H.
  cbn [length app] in H.
  assert (Hblocks : ∀ (f : TextNode → TextNode) d from,
            blocks from (List.map (List.map f) d) = blocks from d).
  { intros f d. induction d as [|p d IHd]; intros from; [reflexivity|].
    cbn [blocks List.map]. rewrite length_map, IHd. reflexivity. }
  rewrite Hblocks in H. rewrite H. apply List.concat_map.
Qed.

(** X13: in a part given by its runs and, for each paragraph element, the
    positions of the runs below it: a paragraph of at least two runs,
    none of them marked, none with a text that is itself a key of the
    map and none below an earlier paragraph, whose concatenated, trimmed
    text is a key of the translation map, reads exactly the translation
    after both passes and the cleanup; the part keeps its number of
    runs.  The paragraphs that follow, those nested in it included, find
    its runs marked and leave them alone. *)
Theorem split_paragraph_reads_translation (preserve : bool)
    (tm : gmap jsstring jsstring) (runs : list TextNode)
    (paragraphs : list (list nat)) (i : nat) (p : list nat) (t : jsstring) :
  Forall (wellFormed runs) paragraphs →
  paragraphs !! i = Some p →
  (∀ j q k, (j < i)%nat → paragraphs !! j = Some q → k ∈ q → k ∉ p) →
  (2 ≤ length p)%nat →
  Forall (λ n, unhandled n = true ∧ tm !! trim (textContent n) = None)
         (runsOf runs p) →
  tm !! trim (concat (List.map textContent (runsOf runs p))) = Some t →
  let out := reassemblePart preserve tm runs paragraphs in
  length out = length runs
  ∧ length (runsOf out p) = length p
  ∧ concat (List.map textContent (runsOf out p)) = t.
Proof.
  intros Hwf Hp Hfirst Hlen Hall Hkey out.
  assert (Hwfp : wellFormed runs p).
  { rewrite Forall_forall in Hwf. apply Hwf, (list_elem_of_lookup_2 _ _ _ Hp). }
  pose proof (runsOf_length runs p (proj2 Hwfp)) as Hlen0.
  set (p0 := runsOf runs p) in *.
  set (pass1 := List.map (substituteNode preserve tm) runs).
  assert (Hpass1 : runsOf pass1 p = p0).
  { unfold pass1. rewrite runsOf_map. fold p0.
    rewrite <- (map_id p0) at 2. apply map_ext_Forall.
    eapply Forall_impl; [exact Hall|]. intros n [_ Hn].
    unfold substituteNode. rewrite Hn. reflexivity. }
  assert (Hwf1 : ∀ l, length l = length runs → Forall (wellFormed l) paragraphs).
  { intros l Hl. eapply Forall_impl; [exact Hwf|]. intros q [Hnd Hq].
    split; [exact Hnd|]. rewrite Hl. exact Hq. }
  pose proof (take_drop_middle paragraphs i p Hp) as Hsplit.
  unfold out, reassemblePart. fold pass1.
  rewrite <- Hsplit at 1 2 3. rewrite fold_left_app. cbn [fold_left].
  set (runsA := fold_left (aggregateIn preserve tm) (take i paragraphs) pass1).
  assert (HlenA : length runsA = length runs).
  { unfold runsA. rewrite fold_aggregateIn_length. apply length_map. }
  assert (HA : runsOf runsA p = p0).
  { rewrite <- Hpass1. apply runsOf_ext. intros k Hk.
    apply fold_aggregateIn_other. apply Forall_forall. intros q Hq Hkq.
    apply list_elem_of_lookup_1 in Hq as [j Hj].
    pose proof (lookup_lt_Some _ _ _ Hj) as Hlt. rewrite length_take in Hlt.
    rewrite lookup_take_lt in Hj by lia.
    apply (Hfirst j q k); [lia|exact Hj|exact Hkq|exact Hk]. }
  set (runsB := aggregateIn preserve tm runsA p).
  assert (HlenB : length runsB = length runs).
  { unfold runsB. rewrite aggregateIn_length. exact HlenA. }
  assert (HB : runsOf runsB p = aggregateParagraph preserve tm p0).
  { unfold runsB, aggregateIn. rewrite HA. apply runsOf_writeBack.
    - split; [apply Hwfp|]. rewrite HlenA. apply Hwfp.
    - rewrite aggregateParagraph_length. exact Hlen0. }
  set (runsC := fold_left (aggregateIn preserve tm) (drop (S i) paragraphs) runsB).
  assert (HC : runsOf runsC p = aggregateParagraph preserve tm p0).
  { rewrite <- HB. apply runsOf_ext. intros k Hk.
    apply list_elem_of_lookup_1 in Hk as [j Hj].
    assert (Hkn : runsB !! k = aggregateParagraph preserve tm p0 !! j).
    { rewrite <- HB. symmetry. apply runsOf_lookup; [|exact Hj].
      rewrite HlenB. apply Hwfp. }
    destruct (aggregateParagraph preserve tm p0 !! j) as [n|] eqn:Hn.
    - rewrite Hkn. apply fold_aggregateIn_handled; [| |exact Hkn].
      + apply (aggregateParagraph_marks preserve tm p0 t j n); [lia| |exact Hkey|exact Hn].
        eapply Forall_impl; [exact Hall|]. intros m [Hm _]. exact Hm.
      + specialize (Hwf1 runsB HlenB). rewrite <- Hsplit in Hwf1.
        apply Forall_app in Hwf1 as [_ Hwf1].
        inversion Hwf1; assumption.
    - apply lookup_ge_None in Hn. rewrite aggregateParagraph_length in Hn.
      apply lookup_lt_Some in Hj. lia. }
  split; [|split].
  - rewrite length_map. unfold runsC. rewrite fold_aggregateIn_length. exact HlenB.
  - rewrite runsOf_map, length_map, HC, aggregateParagraph_length. exact Hlen0.
  - rewrite runsOf_map, HC, List.map_map.
    pose proof (aggregateParagraph_text preserve tm p0 t) as Htext.
    cbv zeta in Htext.
    rewrite positionsWhere_all in Htext
      by (eapply Forall_impl; [exact Hall|]; intros m [Hm _]; exact Hm).
    rewrite length_seq, map_textAt_seq in Htext.
    specialize (Htext ltac:(lia) Hkey).
    rewrite <- (aggregateParagraph_length preserve tm p0), map_textAt_seq in Htext.
    exact Htext.
Qed.

Import Samples.


Lemma exact_match_run_gets_translation_witness :
  runAt (reassembleXml false greetingMap greetingPart) 1 0
  = Some (mkNode (lit "Merci") None None).
Proof.
  apply (exact_match_run_gets_translation false greetingMap greetingPart 1 0
           (run (lit " Thanks ")) (lit "Merci")).
  - reflexivity.
  - vm_compute. discriminate.
  - vm_compute. reflexivity.
Defined.

Lemma split_paragraph_reads_translation_witness :
  length (reassemblePart true greetingMap boxedRuns boxedParagraphs) = 3%nat
  ∧ length (runsOf (reassemblePart true greetingMap boxedRuns boxedParagraphs)
                   [1; 2]%nat) = 2%nat
  ∧ concat (List.map textContent
              (runsOf (reassemblePart true greetingMap boxedRuns boxedParagraphs)
                      [1; 2]%nat))
    = lit "Bonjour le monde".
Proof.
  apply (split_paragraph_reads_translation true greetingMap boxedRuns
           boxedParagraphs 1 [1; 2]%nat (lit "Bonjour le monde")).
  - repeat constructor; simpl; try lia;
      rewrite ?elem_of_cons, ?elem_of_nil; lia.
  - reflexivity.
  - intros [|[|j]] q k Hj Hq Hk; [|lia|lia].
    injection Hq as <-. apply list_elem_of_singleton in Hk as ->.
    rewrite !elem_of_cons, elem_of_nil. intuition discriminate.
  - simpl. lia.
  - repeat constructor; vm_compute; reflexivity.
  - vm_compute. reflexivity.
Defined.


(** ** [escapeHtml] and the paragraphs of a PDF page *)

Import Parser.

Lemma replaceUnit_app (c : N) (r a b : jsstring) :
  replaceUnit c r (a ++ b) = replaceUnit c r a ++ replaceUnit c r b.
Proof. apply flat_map_app. Qed.

Lemma replaceUnit_other (c x : N) (r : jsstring) :
  x ≠ c → replaceUnit c r [x] = [x].
Proof.
  intros Hne. unfold replaceUnit. simpl.
  destruct (N.eqb_spec x c); [contradiction|reflexivity].
Qed.

Lemma escapeHtml_cons (x : N) (text : jsstring) :
  escapeHtml (x :: text) = entity x ++ escapeHtml text.
Proof.
  unfold escapeHtml.
  change (replaceUnit 38 (lit "&amp;") (x :: text))
    with ((if (x =? 38)%N then lit "&amp;" else [x])
          ++ replaceUnit 38 (lit "&amp;") text).
  rewrite !replaceUnit_app. f_equal. unfold entity.
  destruct (N.eqb_spec x 38) as [->|H38]; [reflexivity|].
  destruct (N.eqb_spec x 60) as [->|H60]; [reflexivity|].
  destruct (N.eqb_spec x 62) as [->|H62]; [reflexivity|].
  destruct (N.eqb_spec x 34) as [->|H34]; [reflexivity|].
  destruct (N.eqb_spec x 39) as [->|H39]; [reflexivity|].
  rewrite !replaceUnit_other by assumption. reflexivity.
Qed.

Lemma escapeHtml_unitwise (text : jsstring) :
  escapeHtml text = flat_map entity text.
Proof.
  induction text as [|x text IH]; [reflexivity|].
  rewrite escapeHtml_cons, IH. reflexivity.
Qed.

Lemma entity_plain (c : N) :
  Forall (λ u, u ≠ 60%N ∧ u ≠ 62%N ∧ u ≠ 34%N ∧ u ≠ 39%N) (entity c).
Proof.
  unfold entity.
  destruct (N.eqb_spec c 38); [repeat constructor; discriminate|].
  destruct (N.eqb_spec c 60); [repeat constructor; discriminate|].
  destruct (N.eqb_spec c 62); [repeat constructor; discriminate|].
  destruct (N.eqb_spec c 34); [repeat constructor; discriminate|].
  destruct (N.eqb_spec c 39); [repeat constructor; discriminate|].
  repeat constructor; assumption.
Qed.

(** X14: the five replacements of [escapeHtml] act unit by unit, as if
    done at once: the ampersands that the first replacement writes are
    not escaped again and the entities written later contain nothing
    that a later replacement touches.  So the result of a concatenation
    is the concatenation of the results, and the result holds none of
    the units [<] and [>], no double quote and no apostrophe. *)
Theorem escapeHtml_leaves_no_markup (text more : jsstring) :
  escapeHtml text = flat_map entity text
  ∧ escapeHtml (text ++ more) = escapeHtml text ++ escapeHtml more
  ∧ Forall (λ u, u ≠ 60%N ∧ u ≠ 62%N ∧ u ≠ 34%N ∧ u ≠ 39%N) (escapeHtml text).
Proof.
  split; [apply escapeHtml_unitwise|]. split.
  - rewrite !escapeHtml_unitwise. apply flat_map_app.
  - rewrite escapeHtml_unitwise.
    induction text as [|x text IH]; [constructor|].
    cbn [flat_map]. apply Forall_app. split; [apply entity_plain|exact IH].
Qed.

Lemma entity_inj (x y : N) (u v : jsstring) :
  entity x ++ u = entity y ++ v → x = y ∧ u = v.
Proof.
  unfold entity.
  destruct (N.eqb_spec x 38) as [->|?]; [|
  destruct (N.eqb_spec x 60) as [->|?]; [|
  destruct (N.eqb_spec x 62) as [->|?]; [|
  destruct (N.eqb_spec x 34) as [->|?]; [|
  destruct (N.eqb_spec x 39) as [->|?]]]]];
  (destruct (N.eqb_spec y 38) as [->|?]; [|
   destruct (N.eqb_spec y 60) as [->|?]; [|
   destruct (N.eqb_spec y 62) as [->|?]; [|
   destruct (N.eqb_spec y 34) as [->|?]; [|
   destruct (N.eqb_spec y 39) as [->|?]]]]]);
  intros H; try discriminate H;
  try (injection H as <-; split; [reflexivity|assumption]);
  try (injection H as ->; contradiction);
  try (injection H as <-; contradiction);
  try (injection H; intros; subst; split; [reflexivity|reflexivity]);
  try (split; [reflexivity|]; injection H; auto).
Qed.

(** X15: [escapeHtml] loses nothing: two texts with the same escaped
    form are the same text. *)
Theorem escapeHtml_injective (a b : jsstring) :
  escapeHtml a = escapeHtml b → a = b.
Proof.
  rewrite !escapeHtml_unitwise. revert b.
  induction a as [|x a IH]; intros [|y b] H.
  - reflexivity.
  - exfalso. cbn [flat_map] in H. unfold entity in H.
    repeat destruct (_ =? _)%N in H; discriminate.
  - exfalso. cbn [flat_map] in H. unfold entity in H.
    repeat destruct (_ =? _)%N in H; discriminate.
  - cbn [flat_map] in H. apply entity_inj in H as [-> H]. f_equal. apply IH, H.
Qed.

Lemma escapeHtml_injective_witness :
  lit "a<b & c" = lit "a<b & c".
Proof.
  apply (escapeHtml_injective (lit "a<b & c") (lit "a<b & c")).
  reflexivity.
Defined.

(** *** The paragraphs of a PDF page *)

Lemma pageText_fold (items : list TextItem) :
  ∀ acc, fold_left (λ pageText item,
                      pageText ++ str item
                        ++ (if hasEOL item then [10%N] else [32%N]))
                   items acc
         = acc ++ flat_map (λ item, str item
                              ++ (if hasEOL item then [10%N] else [32%N])) items.
Proof.
  induction items as [|item items IH]; intros acc; simpl.
  - symmetry. apply app_nil_r.
  - rewrite IH, <- !app_assoc. reflexivity.
Qed.

Lemma visible_app (a b : jsstring) : visible (a ++ b) = visible a ++ visible b.
Proof. apply List.filter_app. Qed.

Lemma visible_blank (s : jsstring) : blank s → visible s = [].
Proof.
  induction 1 as [|c s Hc _ IH]; [reflexivity|].
  unfold visible in *. simpl. rewrite Hc. exact IH.
Qed.

Lemma visible_pageText (items : list TextItem) :
  visible (pageText items) = visible (concat (List.map str items)).
Proof.
  unfold pageText. rewrite pageText_fold. cbn [app].
  induction items as [|item items IH]; [reflexivity|].
  cbn [flat_map List.map concat]. rewrite !visible_app, IH. f_equal.
  destruct (hasEOL item); apply app_nil_r.
Qed.

Lemma visible_normalizeSpaces (s : jsstring) :
  visible (normalizeSpaces s) = visible s.
Proof.
  induction s as [|c r IH]; [reflexivity|].
  cbn [normalizeSpaces].
  destruct ((c =? 32)%N && match r with c' :: _ => (c' =? 32)%N | [] => false end)
    eqn:Hdrop.
  - apply andb_true_iff in Hdrop as [Hc _]. apply N.eqb_eq in Hc. subst c.
    rewrite IH. reflexivity.
  - unfold visible in *. cbn [List.filter]. rewrite IH. reflexivity.
Qed.

Lemma normalizeSpaces_head (s : jsstring) :
  hd_error (normalizeSpaces s) = hd_error s.
Proof.
  induction s as [|c r IH]; [reflexivity|].
  cbn [normalizeSpaces].
  destruct (N.eqb_spec c 32) as [->|Hc]; [|reflexivity].
  destruct r as [|c' r']; [reflexivity|].
  destruct (N.eqb_spec c' 32) as [->|Hc']; [|reflexivity].
  cbn [andb]. rewrite IH. reflexivity.
Qed.

Lemma normalizeSpaces_single (s : jsstring) :
  includes (normalizeSpaces s) twoSpaces = false.
Proof.
  induction s as [|c r IH]; [reflexivity|].
  cbn [normalizeSpaces].
  destruct ((c =? 32)%N && match r with c' :: _ => (c' =? 32)%N | [] => false end)
    eqn:Hdrop; [exact IH|].
  cbn [includes]. rewrite IH, orb_false_r.
  unfold twoSpaces. cbn [startsWith].
  pose proof (normalizeSpaces_head r) as Hhead.
  destruct (normalizeSpaces r) as [|c' r'].
  - destruct (32 =? c)%N; reflexivity.
  - destruct r as [|c'' r'']; [discriminate|]. injection Hhead as ->.
    rewrite andb_true_r. rewrite (N.eqb_sym 32 c), (N.eqb_sym 32 c'').
    exact Hdrop.
Qed.

Lemma splitLines_lines (s : jsstring) :
  ∀ cur line,
    (10%N ∉ cur) →
    line ∈ splitLines s cur →
    (10%N ∉ line) ∧ ∃ pre post, rev cur ++ s = pre ++ line ++ post.
Proof.
  induction s as [|c r IH]; intros cur line Hcur Hin.
  - apply list_elem_of_singleton in Hin as ->. split.
    + rewrite list_elem_of_In, <- in_rev, <- list_elem_of_In. exact Hcur.
    + exists [], []. rewrite !app_nil_r. reflexivity.
  - cbn [splitLines] in Hin. destruct (N.eqb_spec c 10) as [->|Hc].
    + apply elem_of_cons in Hin as [->|Hin].
      * split.
        -- rewrite list_elem_of_In, <- in_rev, <- list_elem_of_In. exact Hcur.
        -- exists [], (10%N :: r). reflexivity.
      * destruct (IH [] line) as (Hline & pre & post & Heq);
          [apply not_elem_of_nil|exact Hin|].
        split; [exact Hline|]. exists (rev cur ++ 10%N :: pre), post.
        simpl in Heq. rewrite Heq, <- app_assoc. reflexivity.
    + destruct (IH (c :: cur) line) as (Hline & pre & post & Heq);
        [|exact Hin|].
      * apply not_elem_of_cons. split; [congruence|exact Hcur].
      * split; [exact Hline|]. exists pre, post. rewrite <- Heq. simpl.
        rewrite <- app_assoc. reflexivity.
Qed.

Lemma visible_splitLines (s : jsstring) :
  ∀ cur, visible (concat (splitLines s cur)) = visible (rev cur ++ s).
Proof.
  induction s as [|c r IH]; intros cur.
  - simpl. rewrite !app_nil_r. reflexivity.
  - cbn [splitLines]. destruct (N.eqb_spec c 10) as [->|Hc].
    + cbn [concat]. rewrite !visible_app, IH. reflexivity.
    + rewrite IH. simpl. rewrite <- app_assoc. reflexivity.
Qed.

Lemma visible_nonblank_lines (lines : list jsstring) :
  visible (concat (List.filter (λ line, (0 <? length (trim line))%nat) lines))
  = visible (concat lines).
Proof.
  induction lines as [|line lines IH]; [reflexivity|].
  cbn [List.filter concat]. rewrite visible_app, <- IH.
  destruct (Nat.ltb_spec 0 (length (trim line))) as [Hpos|Hzero].
  - cbn [concat]. apply visible_app.
  - assert (Hblank : blank line).
    { destruct (blank_or_nonblank line) as [H|H]; [exact H|].
      apply nonblank_trim in H. destruct (trim line); [congruence|simpl in *; lia]. }
    rewrite (visible_blank line Hblank). reflexivity.
Qed.

(** X16: the paragraphs that the PDF branch of [parseFileToHtml] makes of
    the text items of a page: no paragraph is blank, none holds a line
    feed, none holds two spaces in a row; and the units that are not
    white space are those of the items, in the same order: no visible
    unit is lost, added or moved. *)
Theorem pdf_paragraphs_are_clean (items : list TextItem) :
  Forall (λ p, trim p ≠ [] ∧ (10%N ∉ p) ∧ includes p twoSpaces = false)
         (paragraphs items)
  ∧ visible (concat (paragraphs items)) = visible (concat (List.map str items)).
Proof.
  split.
  - apply Forall_forall. intros p Hp. unfold paragraphs in Hp.
    apply list_elem_of_In, filter_In in Hp as [Hp Hlen].
    apply Nat.ltb_lt in Hlen. split; [|].
    + intros Hnil. rewrite Hnil in Hlen. simpl in Hlen. lia.
    + destruct (splitLines_lines (normalizeSpaces (pageText items)) [] p)
        as (Hline & pre & post & Heq);
        [apply not_elem_of_nil|apply list_elem_of_In; exact Hp|].
      split; [exact Hline|].
      pose proof (normalizeSpaces_single (pageText items)) as Hone.
      simpl in Heq. rewrite Heq in Hone.
      apply includes_suffix, includes_prefix in Hone. exact Hone.
  - unfold paragraphs.
    rewrite visible_nonblank_lines, visible_splitLines. simpl.
    rewrite visible_normalizeSpaces. apply visible_pageText.
Qed.


(** ** The layout of [reassemblePdf] *)

Import Pdf.

(** *** Tokens *)

Lemma restOfWord_spec (s : jsstring) :
  (restOfWord s).1 ++ (restOfWord s).2 = s
  ∧ Forall (λ c, breaksWord c = false) (restOfWord s).1
  ∧ ((restOfWord s).2 = []
     ∨ ∃ c r, (restOfWord s).2 = c :: r ∧ breaksWord c = true).
Proof.
  induction s as [|c s (Hcat & Hword & Hrest)]; simpl.
  - split; [reflexivity|]. split; [constructor|left; reflexivity].
  - destruct (breaksWord c) eqn:Hc; simpl.
    + split; [reflexivity|]. split; [constructor|right; eauto].
    + destruct (restOfWord s) as [word rest]; simpl in *.
      split; [congruence|]. split; [constructor; assumption|exact Hrest].
Qed.

Lemma nextToken_spec (char : N) (after : jsstring) :
  (nextToken char after).1 ++ (nextToken char after).2 = char :: after
  ∧ (((nextToken char after).1 = [char] ∧ breaksWord char = true
      ∧ (nextToken char after).2 = after)
     ∨ (breaksWord char = false
        ∧ Forall (λ c, breaksWord c = false) (nextToken char after).1
        ∧ (nextToken char after).1 ≠ []
        ∧ ((nextToken char after).2 = []
           ∨ ∃ c r, (nextToken char after).2 = c :: r ∧ breaksWord c = true))).
Proof.
  unfold nextToken.
  assert (Hbreak : negb (isCJK char) && negb (char =? 32)%N = negb (breaksWord char)).
  { unfold breaksWord. destruct (isCJK char), (char =? 32)%N; reflexivity. }
  rewrite Hbreak. destruct (restOfWord_spec after) as (Hcat & Hword & Hrest).
  destruct (breaksWord char) eqn:Hc; simpl.
  - split; [reflexivity|]. left. auto.
  - destruct (restOfWord after) as [word rest]; simpl in *.
    split; [congruence|]. right. split; [reflexivity|].
    split; [constructor; assumption|]. split; [discriminate|exact Hrest].
Qed.

Lemma nextToken_shorter (char : N) (after : jsstring) :
  (length (nextToken char after).2 ≤ length after)%nat.
Proof.
  destruct (nextToken_spec char after) as [Hcat [(H1 & _ & _)|(_ & _ & Hne & _)]];
    apply (f_equal (@length N)) in Hcat; rewrite length_app in Hcat; simpl in Hcat.
  - rewrite H1 in Hcat. simpl in Hcat. lia.
  - destruct (nextToken char after).1; [congruence|]. simpl in Hcat. lia.
Qed.

Lemma forEachToken_cons {A} (body : jsstring → A → A) char after (st : A) :
  forEachToken body (char :: after) st
  = forEachToken body (nextToken char after).2 (body (nextToken char after).1 st).
Proof. simp forEachToken. reflexivity. Qed.

(** Induction over a paragraph the way the loop goes through it. *)
Lemma paragraph_ind (P : jsstring → Prop) :
  P [] →
  (∀ char after, P (nextToken char after).2 → P (char :: after)) →
  ∀ para, P para.
Proof.
  intros Hnil Hcons.
  assert (Hall : ∀ n s, (length s ≤ n)%nat → P s).
  { induction n as [|n IH]; intros s Hs.
    - destruct s; [exact Hnil|simpl in Hs; lia].
    - destruct s as [|c s]; [exact Hnil|].
      apply Hcons, IH. pose proof (nextToken_shorter c s). simpl in Hs. lia. }
  intros para. apply (Hall (length para)). lia.
Qed.

Lemma tokens_acc (para : jsstring) :
  ∀ acc, forEachToken (λ token acc, acc ++ [token]) para acc = acc ++ tokens para.
Proof.
  induction para as [|char after IH] using paragraph_ind; intros acc.
  - unfold tokens. simp forEachToken. symmetry. apply app_nil_r.
  - unfold tokens. rewrite !forEachToken_cons, IH, (IH ([] ++ _)).
    rewrite <- app_assoc. reflexivity.
Qed.

Lemma tokens_cons (char : N) (after : jsstring) :
  tokens (char :: after)
  = (nextToken char after).1 :: tokens (nextToken char after).2.
Proof.
  unfold tokens at 1. rewrite forEachToken_cons, tokens_acc. reflexivity.
Qed.

Lemma tokens_nil : tokens [] = [].
Proof. unfold tokens. simp forEachToken. reflexivity. Qed.

(** The loop is a fold of its body over the tokens. *)
Lemma forEachToken_fold {A} (body : jsstring → A → A) (para : jsstring) :
  ∀ st, forEachToken body para st
        = fold_left (λ st token, body token st) (tokens para) st.
Proof.
  induction para as [|char after IH] using paragraph_ind; intros st.
  - rewrite tokens_nil. simp forEachToken. reflexivity.
  - rewrite forEachToken_cons, tokens_cons, IH. reflexivity.
Qed.

Lemma concat_tokens (para : jsstring) : concat (tokens para) = para.
Proof.
  induction para as [|char after IH] using paragraph_ind.
  - rewrite tokens_nil. reflexivity.
  - rewrite tokens_cons. cbn [concat]. rewrite IH.
    apply (nextToken_spec char after).
Qed.

(** X17: the tokens that the wrapping loop takes off a paragraph, put
    together again, are the paragraph; a token is never empty; it is
    either a single CJK unit or space, or a word without CJK units and
    spaces; and words are maximal: a word is never followed by a word. *)
Theorem tokens_partition_the_paragraph (para : jsstring) :
  concat (tokens para) = para
  ∧ Forall (λ token,
              (∃ c, token = [c] ∧ breaksWord c = true)
              ∨ (token ≠ [] ∧ Forall (λ c, breaksWord c = false) token))
           (tokens para)
  ∧ ∀ i word next,
      tokens para !! i = Some word → tokens para !! S i = Some next →
      Forall (λ c, breaksWord c = false) word →
      ∃ c, next = [c] ∧ breaksWord c = true.
Proof.
  induction para as [|char after (Hcat & Hshape & Hmax)] using paragraph_ind.
  - rewrite tokens_nil. split; [reflexivity|]. split; [constructor|].
    intros i word next H. discriminate.
  - rewrite tokens_cons.
    destruct (nextToken_spec char after) as [Hsplit Hkind].
    split; [|split].
    + cbn [concat]. rewrite Hcat. exact Hsplit.
    + constructor; [|exact Hshape].
      destruct Hkind as [(H1 & Hc & _)|(_ & Hword & Hne & _)]; [left; eauto|right; auto].
    + intros [|i] word next Hword Hnext Hplain.
      * cbn in Hword, Hnext. injection Hword as <-.
        destruct Hkind as [(H1 & Hc & _)|(_ & _ & _ & Hrest)].
        { rewrite H1 in Hplain. inversion Hplain; congruence. }
        destruct Hrest as [Hrest|(c & r & Hrest & Hc)].
        { rewrite Hrest, tokens_nil in Hnext. discriminate. }
        rewrite Hrest, tokens_cons in Hnext. cbn in Hnext. injection Hnext as <-.
        destruct (nextToken_spec c r) as [_ [(H1 & _ & _)|(Hc' & _)]];
          [eauto|congruence].
      * cbn in Hword, Hnext. exact (Hmax i word next Hword Hnext Hplain).
Qed.

(** *** Wrapping *)

Section wrap_facts.
Variables width height : Q.
Variable widthOfTextAtSize : jsstring → Q.

Local Abbreviation place := (Pdf.place width height widthOfTextAtSize).
Local Abbreviation drawParagraph := (Pdf.drawParagraph width height widthOfTextAtSize).
Local Abbreviation widthOf := (widthOfTokens widthOfTextAtSize).

Local Abbreviation fits := (Pdf.fits width widthOfTextAtSize).
Local Abbreviation wrapped := (Pdf.wrapped width widthOfTextAtSize).

Lemma widthOf_snoc (line : list jsstring) (token : jsstring) :
  widthOf (line ++ [token]) = (widthOf line + widthOfTextAtSize token)%Q.
Proof. unfold widthOfTokens. rewrite fold_left_app. reflexivity. Qed.

Lemma blank_token (token : jsstring) :
  (length (trim token) =? 0)%nat = true → visible token = [].
Proof.
  intros H. apply Nat.eqb_eq in H. apply visible_blank.
  destruct (blank_or_nonblank token) as [Hb|Hn]; [exact Hb|].
  apply nonblank_trim in Hn. destruct (trim token); [congruence|discriminate].
Qed.

Lemma drawn_breakIfLow (l : Layout) : drawn (breakIfLow height l) = drawn l.
Proof. unfold breakIfLow. destruct (ltb _ _); reflexivity. Qed.

Lemma concat_snoc {A} (ls : list (list A)) (l : list A) :
  concat (ls ++ [l]) = concat ls ++ l.
Proof. rewrite concat_app. cbn [concat]. rewrite app_nil_r. reflexivity. Qed.

Lemma place_wrapped (l : Layout) (seen : list jsstring) (w : Wrap)
    (line : list jsstring) (lines : list (list jsstring)) (token : jsstring) :
  wrapped l seen w line lines →
  ∃ line' lines', wrapped l (seen ++ [token]) (place token w) line' lines'.
Proof.
  intros [Hline Hwidth Hfits (new & Hdrawn & Hwhat) Hlines Hvis Hord].
  unfold Pdf.place.
  destruct (gtb (currentLineWidth w + widthOfTextAtSize token) (maxWidth width))
    eqn:Hover.
  - assert (Hnew : ∃ new', drawn (breakIfLow height (lower lineHeight
                       (drawText (Line (currentLine w)) (layout w))))
                     = drawn l ++ new'
                     ∧ List.map what new'
                       = List.map (λ ts, Line (concat ts)) (lines ++ [line])).
    { exists (new ++ [mkDrawn (pages (layout w)) (y (layout w))
                              (Line (currentLine w))]).
      rewrite drawn_breakIfLow. cbn [drawn lower drawText].
      rewrite Hdrawn, <- app_assoc. split; [reflexivity|].
      rewrite !List.map_app, Hwhat, Hline. reflexivity. }
    assert (Hlines' : Forall fits (lines ++ [line])).
    { apply Forall_app. split; [exact Hlines|]. constructor; [exact Hfits|constructor]. }
    destruct (length (trim token) =? 0)%nat eqn:Hblank.
    + exists [], (lines ++ [line]). split; cbn [currentLine currentLineWidth layout].
      * reflexivity.
      * reflexivity.
      * right. simpl. lia.
      * exact Hnew.
      * exact Hlines'.
      * replace (concat (seen ++ [token])) with (concat seen ++ token)
          by (symmetry; apply concat_snoc).
        rewrite (concat_snoc lines line), concat_app.
        cbn [concat]. rewrite app_nil_r.
        rewrite (visible_app (concat seen)), (blank_token token Hblank), app_nil_r.
        exact Hvis.
      * rewrite concat_snoc, app_nil_r. apply sublist_inserts_r. exact Hord.
    + exists [token], (lines ++ [line]). split; cbn [currentLine currentLineWidth layout].
      * cbn [concat]. symmetry. apply app_nil_r.
      * unfold widthOfTokens. cbn [fold_left]. lra.
      * right. simpl. lia.
      * exact Hnew.
      * exact Hlines'.
      * replace (concat (seen ++ [token])) with (concat seen ++ token)
          by (symmetry; apply concat_snoc).
        rewrite (concat_snoc lines line), concat_app.
        cbn [concat]. rewrite app_nil_r.
        rewrite visible_app, Hvis, <- visible_app. reflexivity.
      * replace (concat (lines ++ [line])) with (concat lines ++ line)
          by (symmetry; apply concat_snoc).
        apply sublist_app; [exact Hord|reflexivity].
  - exists (line ++ [token]), lines. split; cbn [currentLine currentLineWidth layout].
    + rewrite Hline. symmetry. apply concat_snoc.
    + rewrite widthOf_snoc. rewrite Hwidth. reflexivity.
    + left. rewrite widthOf_snoc. unfold gtb in Hover.
      apply negb_false_iff, Qle_bool_iff in Hover. rewrite <- Hwidth. exact Hover.
    + exists new. auto.
    + exact Hlines.
    + replace (concat (seen ++ [token])) with (concat seen ++ token)
        by (symmetry; apply concat_snoc).
      replace (concat (line ++ [token])) with (concat line ++ token)
        by (symmetry; apply concat_snoc).
      rewrite app_assoc, visible_app, Hvis, <- visible_app. reflexivity.
    + rewrite app_assoc. apply sublist_app; [exact Hord|reflexivity].
Qed.

Lemma wrap_loop (l : Layout) :
  ∀ ts seen w line lines,
    wrapped l seen w line lines →
    ∃ line' lines',
      wrapped l (seen ++ ts) (fold_left (λ w token, place token w) ts w)
              line' lines'.
Proof.
  induction ts as [|token ts IH]; intros seen w line lines Hw.
  - rewrite app_nil_r. eauto.
  - destruct (place_wrapped l seen w line lines token Hw) as (line1 & lines1 & H1).
    destruct (IH _ _ _ _ H1) as (line2 & lines2 & H2).
    rewrite <- app_assoc in H2. eauto.
Qed.

Lemma drawParagraph_lines (l : Layout) (para : jsstring) :
  ∃ (new : list Drawn) (lines : list (list jsstring)),
    drawn (drawParagraph l para) = drawn l ++ new
    ∧ List.map what new = List.map (λ ts, Line (concat ts)) lines
    ∧ sublist (concat lines) (tokens para)
    ∧ visible (concat (concat lines)) = visible para
    ∧ Forall fits lines.
Proof.
  unfold Pdf.drawParagraph.
  destruct (truthy (trim para)) eqn:Hblank; cbn [negb].
  - rewrite forEachToken_fold.
    destruct (wrap_loop l (tokens para) [] (mkWrap [] 0 l) [] [])
      as (line & lines & [Hline Hwidth Hfits (new & Hdrawn & Hwhat) Hlines Hvis Hord]).
    { split; cbn [currentLine currentLineWidth layout concat app].
      - reflexivity.
      - reflexivity.
      - right. simpl. lia.
      - exists []. rewrite app_nil_r. auto.
      - constructor.
      - reflexivity.
      - constructor. }
    cbn [app] in Hvis, Hord. rewrite concat_tokens in Hvis.
    set (w := fold_left _ (tokens para) _) in *.
    rewrite drawn_breakIfLow. cbn [lower drawn].
    destruct (truthy (currentLine w)) eqn:Hlast; cbn [lower drawText drawn].
    + exists (new ++ [mkDrawn (pages (layout w)) (y (layout w))
                              (Line (currentLine w))]), (lines ++ [line]).
      split; [rewrite Hdrawn, <- app_assoc; reflexivity|].
      split; [rewrite !List.map_app, Hwhat, Hline; reflexivity|].
      split; [rewrite concat_app; cbn [concat]; rewrite app_nil_r; exact Hord|].
      split; [rewrite !concat_app; cbn [concat]; rewrite app_nil_r; exact Hvis|].
      apply Forall_app. split; [exact Hlines|].
      constructor; [exact Hfits|constructor].
    + exists new, lines. split; [exact Hdrawn|]. split; [exact Hwhat|].
      assert (Hempty : concat line = []).
      { rewrite <- Hline. destruct (currentLine w); [reflexivity|discriminate]. }
      split.
      { transitivity (concat lines ++ line); [|exact Hord].
        apply sublist_inserts_r. reflexivity. }
      split; [|exact Hlines].
      rewrite Hempty, app_nil_r in Hvis. exact Hvis.
  - rewrite drawn_breakIfLow. cbn [lower drawn].
    exists [], []. rewrite app_nil_r. split; [reflexivity|]. split; [reflexivity|].
    split; [apply sublist_nil_l|]. split; [|constructor].
    symmetry. apply visible_blank.
    destruct (blank_or_nonblank para) as [Hb|Hn]; [exact Hb|].
    apply nonblank_trim in Hn. destruct (trim para); [congruence|discriminate].
Qed.

Lemma concat_lines {A} (lines : list (list (list A))) :
  concat (List.map (λ line, concat line) lines) = concat (concat lines).
Proof.
  induction lines as [|line lines IH]; [reflexivity|].
  cbn [List.map concat]. rewrite concat_app, IH. reflexivity.
Qed.


End wrap_facts.

(** *** Where the text is drawn *)

Section place_facts.
Variables width height : Q.
Variable widthOfTextAtSize : jsstring → Q.
Hypothesis Hheight : (140 <= height)%Q.

Local Abbreviation tidy := (Pdf.tidy height).
Local Abbreviation breakIfLow := (Pdf.breakIfLow height).
Local Abbreviation addNewPage := (Pdf.addNewPage height).

Lemma tidy_weaken (floor floor' : Q) (l : Layout) :
  (floor' <= floor)%Q → tidy floor l → tidy floor' l.
Proof.
  intros Hle [Hfloor Htop Hpages Hplaced Hknown Hlast Hchain].
  split; try assumption. lra.
Qed.

Lemma tidy_lower (floor δ : Q) (l : Layout) :
  (0 <= δ)%Q → tidy floor l → tidy (floor - δ) (lower δ l).
Proof.
  intros Hδ [Hfloor Htop Hpages Hplaced Hknown Hlast Hchain].
  split; cbn [lower y pages drawn]; try assumption; try lra.
  intros d Hd. destruct (Hlast d Hd) as [H|[H1 H2]]; [left; exact H|right].
  split; [exact H1|lra].
Qed.

Lemma tidy_addNewPage (floor floor' : Q) (l : Layout) :
  (floor' <= height - margin)%Q → tidy floor l → tidy floor' (addNewPage l).
Proof.
  intros Hroom [Hfloor Htop Hpages Hplaced Hknown Hlast Hchain].
  split; cbn [Pdf.addNewPage y pages drawn]; try assumption; try lra; try lia.
  - eapply Forall_impl; [exact Hknown|]. simpl. intros d Hd. lia.
  - intros d Hd. left. rewrite Forall_forall in Hknown.
    specialize (Hknown d (last_Some_elem_of _ _ Hd)). simpl in Hknown. lia.
Qed.

Lemma ltb_spec (a b : Q) : if ltb a b then (a < b)%Q else (b <= a)%Q.
Proof.
  unfold ltb. destruct (Qle_bool b a) eqn:H; simpl.
  - apply Qle_bool_iff. exact H.
  - apply Qnot_le_lt. intros Hle. apply Qle_bool_iff in Hle. congruence.
Qed.

Lemma tidy_breakIfLow (floor : Q) (l : Layout) :
  tidy floor l → tidy margin (breakIfLow l).
Proof.
  intros Hl. unfold Pdf.breakIfLow. pose proof (ltb_spec (y l) margin) as Hy.
  destruct (ltb (y l) margin).
  - apply (tidy_addNewPage floor); [unfold margin; lra|exact Hl].
  - destruct Hl as [Hfloor Htop Hpages Hplaced Hknown Hlast Hchain].
    split; assumption.
Qed.

Lemma tidy_drawText (floor δ : Q) (content : Content) (l : Layout) :
  (margin <= floor)%Q → (lineHeight <= δ)%Q → tidy floor l →
  tidy (floor - δ) (lower δ (drawText content l)).
Proof.
  intros Hfl Hδ [Hfloor Htop Hpages Hplaced Hknown Hlast Hchain].
  assert (0 <= δ)%Q by (unfold lineHeight, fontSize in Hδ; lra).
  split; cbn [lower drawText y pages drawn]; try assumption; try lra.
  - apply Forall_app. split; [exact Hplaced|]. constructor; [|constructor].
    split; [|split]; cbn [atY onPage]; [lra|lra|lia].
  - apply Forall_app. split; [exact Hknown|]. constructor; [|constructor].
    cbn [onPage]. lia.
  - intros d Hd. rewrite last_snoc in Hd. injection Hd as <-. right.
    cbn [onPage atY]. split; [reflexivity|lra].
  - intros i d1 d2 H1 H2.
    destruct (decide (S i < length (drawn l))%nat) as [Hi|Hi].
    + rewrite lookup_app_l in H1 by lia. rewrite lookup_app_l in H2 by lia.
      exact (Hchain i d1 d2 H1 H2).
    + assert (S i = length (drawn l)) as Hlen.
      { apply lookup_lt_Some in H2. rewrite length_app in H2. simpl in H2. lia. }
      rewrite lookup_app_l in H1 by lia.
      rewrite lookup_app_r, Hlen, Nat.sub_diag in H2 by lia.
      injection H2 as <-.
      assert (Hd1 : last (drawn l) = Some d1).
      { rewrite last_lookup. rewrite <- Hlen. exact H1. }
      unfold below. cbn [onPage atY].
      destruct (Hlast d1 Hd1) as [Hp|[Hp Hy]]; [left; exact Hp|right].
      split; [exact Hp|exact Hy].
Qed.

Local Abbreviation place := (Pdf.place width height widthOfTextAtSize).
Local Abbreviation drawParagraph := (Pdf.drawParagraph width height widthOfTextAtSize).
Local Abbreviation drawSegment := (Pdf.drawSegment width height widthOfTextAtSize).
Local Abbreviation drawPage := (Pdf.drawPage width height widthOfTextAtSize).
Local Abbreviation reassemblePdf := (Pdf.reassemblePdf width height widthOfTextAtSize).

Lemma tidy_place (token : jsstring) (w : Wrap) :
  tidy margin (layout w) → tidy margin (layout (place token w)).
Proof.
  intros Hw. unfold Pdf.place. destruct (gtb _ _); [|exact Hw].
  assert (Hl : tidy margin (breakIfLow (lower lineHeight
                 (drawText (Line (currentLine w)) (layout w))))).
  { eapply tidy_breakIfLow, tidy_drawText; [apply Qle_refl|apply Qle_refl|exact Hw]. }
  destruct (_ =? _)%nat; exact Hl.
Qed.

Lemma tidy_fold {A} (f : Layout → A → Layout) (xs : list A) :
  (∀ l x, tidy margin l → tidy margin (f l x)) →
  ∀ l, tidy margin l → tidy margin (fold_left f xs l).
Proof.
  intros Hf. induction xs as [|x xs IH]; intros l Hl; [exact Hl|].
  apply IH, Hf, Hl.
Qed.

Lemma tidy_drawParagraph (l : Layout) (para : jsstring) :
  tidy margin l → tidy margin (drawParagraph l para).
Proof.
  intros Hl. unfold Pdf.drawParagraph. destruct (negb _).
  - eapply tidy_breakIfLow, tidy_lower; [|exact Hl].
    compute. discriminate.
  - rewrite forEachToken_fold.
    set (w := fold_left _ (tokens para) _).
    assert (Hw : tidy margin (layout w)).
    { unfold w. generalize (tokens para) as ts.
      assert (Hl0 : tidy margin (layout (mkWrap [] 0 l))) by exact Hl.
      revert Hl0. generalize (mkWrap [] 0 l) as w0.
      intros w0 Hw0 ts. revert w0 Hw0.
      induction ts as [|t ts IH]; intros w0 Hw0; [exact Hw0|].
      apply IH, tidy_place, Hw0. }
    destruct (truthy (currentLine w)); eapply tidy_breakIfLow.
    + eapply tidy_lower; [|eapply tidy_drawText; [apply Qle_refl|apply Qle_refl|exact Hw]].
      compute. discriminate.
    + eapply tidy_lower; [|exact Hw]. compute. discriminate.
Qed.

Lemma tidy_drawSegment (l : Layout) (seg : Segment.t) :
  tidy margin l → tidy margin (drawSegment l seg).
Proof.
  intros Hl. unfold Pdf.drawSegment. destruct (negb _); [exact Hl|].
  eapply tidy_breakIfLow, tidy_lower; [lra|].
  apply tidy_fold; [apply tidy_drawParagraph|exact Hl].
Qed.

Lemma tidy_drawPage (pagesMap : list (Z * list Segment.t)) (l : Layout)
    (pageNum : Z) :
  tidy margin l → tidy margin (drawPage pagesMap l pageNum).
Proof.
  intros Hl. unfold Pdf.drawPage.
  set (l1 := if ltb (y l) (height - margin) then lower 10 l else l).
  assert (H1 : tidy (margin - 10) l1).
  { unfold l1. destruct (ltb _ _).
    - apply tidy_lower; [lra|exact Hl].
    - eapply tidy_weaken; [|exact Hl]. lra. }
  set (l2 := if ltb (y l1) (margin + 40) then Pdf.addNewPage height l1 else l1).
  assert (H2 : tidy (margin + 40) l2).
  { unfold l2. pose proof (ltb_spec (y l1) (margin + 40)) as Hy.
    destruct (ltb (y l1) (margin + 40)).
    - eapply tidy_addNewPage; [|exact H1]. unfold margin. lra.
    - destruct H1 as [Hfloor Htop Hpages Hplaced Hknown Hlast Hchain].
      split; assumption. }
  eapply tidy_breakIfLow, tidy_lower; [lra|].
  apply tidy_fold; [apply tidy_drawSegment|].
  eapply tidy_weaken; [|eapply (tidy_drawText (margin + 40) 20); [| |exact H2]].
  - unfold margin. lra.
  - unfold margin. lra.
  - unfold lineHeight, fontSize. lra.
Qed.

Lemma tidy_reassemblePdf (segments : list Segment.t) :
  tidy margin (reassemblePdf segments).
Proof.
  unfold Pdf.reassemblePdf. apply tidy_fold; [apply tidy_drawPage|].
  split; cbn [y pages drawn].
  - unfold margin. lra.
  - apply Qle_refl.
  - lia.
  - constructor.
  - constructor.
  - intros d Hd. discriminate.
  - intros i d1 d2 Hd. discriminate.
Qed.

(** X19: on pages at least 140 units high, [reassemblePdf] draws every
    text between the bottom and the top margin of a page it has added,
    and the texts follow each other down the pages: a text is drawn on a
    later page than the one before it, or on the same page at least one
    line height (17 units) lower, so that no two texts are drawn over
    each other. *)
Theorem drawn_text_stays_on_the_page (segments : list Segment.t) :
  let result := reassemblePdf segments in
  Forall (λ d, (margin <= atY d)%Q ∧ (atY d <= height - margin)%Q
               ∧ (1 ≤ onPage d ≤ pages result)%nat) (drawn result)
  ∧ ∀ i d1 d2,
      drawn result !! i = Some d1 → drawn result !! S i = Some d2 →
      (onPage d1 < onPage d2)%nat
      ∨ (onPage d1 = onPage d2 ∧ (atY d2 <= atY d1 - 17)%Q).
Proof.
  intros result.
  destruct (tidy_reassemblePdf segments)
    as [Hfloor Htop Hpages Hplaced Hknown Hlast Hchain].
  fold result in Hplaced, Hknown, Hchain. split.
  - rewrite Forall_forall in Hplaced, Hknown. apply Forall_forall. intros d Hd.
    destruct (Hplaced d Hd) as (H1 & H2 & H3). specialize (Hknown d Hd).
    simpl in Hknown. auto.
  - intros i d1 d2 H1 H2. destruct (Hchain i d1 d2 H1 H2) as [H|[Hp Hy]]; [left; exact H|].
    right. split; [exact Hp|]. unfold lineHeight, fontSize in Hy. lra.
Qed.
End place_facts.

(** *** Pages and their segments *)

Lemma pushSegment_keys (pNum : Z) (seg : Segment.t)
    (pagesMap : list (Z * list Segment.t)) :
  List.map fst (pushSegment pNum seg pagesMap)
  = if bool_decide (pNum ∈ List.map fst pagesMap) then List.map fst pagesMap
    else List.map fst pagesMap ++ [pNum].
Proof.
  induction pagesMap as [|[k segs] rest IH]; [reflexivity|].
  cbn [pushSegment List.map fst].
  destruct (Z.eqb_spec k pNum) as [->|Hk].
  - rewrite bool_decide_eq_true_2 by left. reflexivity.
  - cbn [List.map fst]. rewrite IH.
    destruct (bool_decide_reflect (pNum ∈ List.map fst rest)) as [Hin|Hout].
    + rewrite bool_decide_eq_true_2 by (right; exact Hin). reflexivity.
    + rewrite bool_decide_eq_false_2; [reflexivity|].
      intros [?|?]%elem_of_cons; [congruence|contradiction].
Qed.

Lemma pushSegment_get (pNum : Z) (seg : Segment.t)
    (pagesMap : list (Z * list Segment.t)) (n : Z) :
  segmentsOfPage (pushSegment pNum seg pagesMap) n
  = segmentsOfPage pagesMap n ++ (if pNum =? n then [seg] else []).
Proof.
  unfold segmentsOfPage.
  induction pagesMap as [|[k segs] rest IH].
  - cbn [pushSegment List.find fst]. destruct (pNum =? n); reflexivity.
  - cbn [pushSegment]. destruct (Z.eqb_spec k pNum) as [->|Hk].
    + cbn [List.find fst]. destruct (Z.eqb_spec pNum n) as [->|Hn].
      * reflexivity.
      * symmetry. apply app_nil_r.
    + cbn [List.find fst]. destruct (Z.eqb_spec k n) as [->|Hkn].
      * destruct (Z.eqb_spec pNum n); [congruence|]. symmetry. apply app_nil_r.
      * exact IH.
Qed.

Lemma groupByPage_snoc (segments : list Segment.t) (seg : Segment.t) :
  groupByPage (segments ++ [seg])
  = pushSegment (pageOf seg) seg (groupByPage segments).
Proof. unfold groupByPage. rewrite fold_left_app. reflexivity. Qed.

Lemma groupByPage_keys (segments : list Segment.t) :
  NoDup (List.map fst (groupByPage segments))
  ∧ ∀ n, n ∈ List.map fst (groupByPage segments)
         ↔ ∃ seg, seg ∈ segments ∧ pageOf seg = n.
Proof.
  induction segments as [|seg segments [Hnd Hkeys]] using rev_ind.
  - split; [constructor|]. intros n. split.
    + intros H. inversion H.
    + intros (seg & H & _). inversion H.
  - rewrite groupByPage_snoc, pushSegment_keys.
    destruct (bool_decide_reflect
                (pageOf seg ∈ List.map fst (groupByPage segments))) as [Hin|Hout].
    + split; [exact Hnd|]. intros n. rewrite Hkeys. split.
      * intros (s & Hs & Hn). exists s. split; [|exact Hn].
        apply elem_of_app. left. exact Hs.
      * intros (s & [Hs|Hs]%elem_of_app & Hn); [eauto|].
        apply list_elem_of_singleton in Hs as ->. subst n.
        apply Hkeys. exact Hin.
    + split.
      * apply NoDup_app. split; [exact Hnd|]. split; [|apply NoDup_singleton].
        intros x Hx Hx'. apply list_elem_of_singleton in Hx' as ->. contradiction.
      * intros n. rewrite elem_of_app, Hkeys, list_elem_of_singleton. split.
        -- intros [(s & Hs & Hn)| ->].
           ++ exists s. split; [apply elem_of_app; left; exact Hs|exact Hn].
           ++ exists seg. split; [apply elem_of_app; right; left|reflexivity].
        -- intros (s & [Hs|Hs]%elem_of_app & Hn); [left; eauto|].
           apply list_elem_of_singleton in Hs as ->. right. congruence.
Qed.

Lemma groupByPage_get (segments : list Segment.t) (n : Z) :
  segmentsOfPage (groupByPage segments) n
  = List.filter (λ seg, pageOf seg =? n) segments.
Proof.
  induction segments as [|seg segments IH] using rev_ind; [reflexivity|].
  rewrite groupByPage_snoc, pushSegment_get, IH, List.filter_app.
  cbn [List.filter]. destruct (pageOf seg =? n); reflexivity.
Qed.

Lemma insertNum_spec (n : Z) (sorted : list Z) :
  (∀ x, x ∈ insertNum n sorted ↔ x = n ∨ x ∈ sorted)
  ∧ (n ∉ sorted → StronglySorted Z.lt sorted →
     StronglySorted Z.lt (insertNum n sorted)).
Proof.
  induction sorted as [|m rest [IHin IHsorted]].
  - split.
    + intros x. simpl. rewrite list_elem_of_singleton. split; [auto|].
      intros [H|H]; [exact H|inversion H].
    + intros _ _. repeat constructor.
  - cbn [insertNum]. destruct (Z.leb_spec n m) as [Hle|Hgt].
    + split; [intros x; apply elem_of_cons|].
      intros Hout Hs. constructor; [exact Hs|].
      apply not_elem_of_cons in Hout as [Hnm Hout].
      inversion Hs as [|? ? Hrest Hall]; subst.
      constructor; [lia|]. eapply Forall_impl; [exact Hall|]. simpl. lia.
    + split.
      * intros x. rewrite !elem_of_cons, IHin. tauto.
      * intros Hout Hs. apply not_elem_of_cons in Hout as [Hnm Hout].
        inversion Hs as [|? ? Hrest Hall]; subst.
        constructor; [apply IHsorted; assumption|].
        apply Forall_forall. intros x Hx. apply IHin in Hx as [->|Hx]; [lia|].
        rewrite Forall_forall in Hall. apply Hall. exact Hx.
Qed.

Lemma sortNums_spec (nums : list Z) :
  NoDup nums →
  StronglySorted Z.lt (sortNums nums) ∧ ∀ x, x ∈ sortNums nums ↔ x ∈ nums.
Proof.
  induction nums as [|n nums IH]; intros Hnd.
  - split; [constructor|reflexivity].
  - apply NoDup_cons in Hnd as [Hn Hnd]. destruct (IH Hnd) as [Hs Hin].
    cbn [sortNums fold_right]. fold (sortNums nums).
    destruct (insertNum_spec n (sortNums nums)) as [Hin' Hs'].
    split.
    + apply Hs'; [rewrite Hin; exact Hn|exact Hs].
    + intros x. rewrite Hin', Hin, elem_of_cons. reflexivity.
Qed.

Section page_facts.
Variables width height : Q.
Variable widthOfTextAtSize : jsstring → Q.

Local Abbreviation drawParagraph := (Pdf.drawParagraph width height widthOfTextAtSize).
Local Abbreviation drawSegment := (Pdf.drawSegment width height widthOfTextAtSize).
Local Abbreviation drawPage := (Pdf.drawPage width height widthOfTextAtSize).
Local Abbreviation reassemblePdf := (Pdf.reassemblePdf width height widthOfTextAtSize).

Lemma drawParagraphs_lines (paragraphs : list jsstring) :
  ∀ l, ∃ new texts,
    drawn (fold_left drawParagraph paragraphs l) = drawn l ++ new
    ∧ List.map what new = List.map Line texts
    ∧ visible (concat texts) = visible (concat paragraphs).
Proof.
  induction paragraphs as [|para paragraphs IH]; intros l.
  - exists [], []. rewrite app_nil_r. auto.
  - cbn [fold_left].
    destruct (drawParagraph_lines width height widthOfTextAtSize l para)
      as (new1 & lines & Hdrawn1 & Hwhat1 & _ & Hvis1 & _).
    destruct (IH (drawParagraph l para)) as (new2 & texts2 & Hdrawn2 & Hwhat2 & Hvis2).
    exists (new1 ++ new2), (List.map (λ line, concat line) lines ++ texts2).
    split; [rewrite Hdrawn2, Hdrawn1, <- app_assoc; reflexivity|].
    split; [rewrite !List.map_app, Hwhat1, Hwhat2, List.map_map; reflexivity|].
    cbn [concat]. rewrite concat_app, !visible_app. f_equal; [|exact Hvis2].
    etransitivity; [|exact Hvis1]. f_equal. apply concat_lines.
Qed.

Lemma drawSegment_lines (l : Layout) (seg : Segment.t) :
  ∃ new texts,
    drawn (drawSegment l seg) = drawn l ++ new
    ∧ List.map what new = List.map Line texts
    ∧ visible (concat texts) = visible (textOf seg).
Proof.
  unfold Pdf.drawSegment. fold (textOf seg).
  destruct (truthy (textOf seg)) eqn:Htext; cbn [negb].
  - destruct (drawParagraphs_lines (Parser.splitLines (textOf seg) []) l)
      as (new & texts & Hdrawn & Hwhat & Hvis).
    exists new, texts. rewrite drawn_breakIfLow. cbn [lower drawn].
    split; [exact Hdrawn|]. split; [exact Hwhat|].
    rewrite Hvis. apply visible_splitLines.
  - exists [], []. rewrite app_nil_r. split; [reflexivity|]. split; [reflexivity|].
    destruct (textOf seg); [reflexivity|discriminate].
Qed.

Lemma drawSegments_lines (segments : list Segment.t) :
  ∀ l, ∃ new texts,
    drawn (fold_left drawSegment segments l) = drawn l ++ new
    ∧ List.map what new = List.map Line texts
    ∧ visible (concat texts) = visible (concat (List.map textOf segments)).
Proof.
  induction segments as [|seg segments IH]; intros l.
  - exists [], []. rewrite app_nil_r. auto.
  - cbn [fold_left].
    destruct (drawSegment_lines l seg) as (new1 & texts1 & Hdrawn1 & Hwhat1 & Hvis1).
    destruct (IH (drawSegment l seg)) as (new2 & texts2 & Hdrawn2 & Hwhat2 & Hvis2).
    exists (new1 ++ new2), (texts1 ++ texts2).
    split; [rewrite Hdrawn2, Hdrawn1, <- app_assoc; reflexivity|].
    split; [rewrite !List.map_app, Hwhat1, Hwhat2; reflexivity|].
    cbn [List.map concat]. rewrite concat_app, !visible_app, Hvis1, Hvis2.
    reflexivity.
Qed.

Lemma sectionsOf_app (ds new : list Drawn) :
  sectionsOf (ds ++ new) = fold_left addToSections new (sectionsOf ds).
Proof. unfold sectionsOf. apply fold_left_app. Qed.

Lemma addLines (new : list Drawn) :
  ∀ texts sections n lines,
    List.map what new = List.map Line texts →
    fold_left addToSections new (sections ++ [(n, lines)])
    = sections ++ [(n, lines ++ texts)].
Proof.
  induction new as [|d new IH]; intros [|text texts] sections n lines H;
    try discriminate.
  - rewrite app_nil_r. reflexivity.
  - cbn [List.map] in H. injection H as Hd Hnew. cbn [fold_left].
    unfold addToSections at 2. rewrite Hd, last_snoc, removelast_last.
    rewrite (IH texts sections n (lines ++ [text]) Hnew), <- app_assoc.
    reflexivity.
Qed.

Lemma drawPage_section (pagesMap : list (Z * list Segment.t)) (l : Layout)
    (pageNum : Z) :
  ∃ lines,
    sectionsOf (drawn (drawPage pagesMap l pageNum))
    = sectionsOf (drawn l) ++ [(pageNum, lines)]
    ∧ visible (concat lines)
      = visible (concat (List.map textOf (segmentsOfPage pagesMap pageNum))).
Proof.
  unfold Pdf.drawPage.
  set (l1 := if ltb (y l) (height - margin) then lower 10 l else l).
  set (l2 := if ltb (y l1) (margin + 40) then Pdf.addNewPage height l1 else l1).
  assert (Hdrawn : drawn l2 = drawn l).
  { unfold l2, l1. destruct (ltb (y l) _); destruct (ltb _ (margin + 40));
      reflexivity. }
  destruct (drawSegments_lines (segmentsOfPage pagesMap pageNum)
              (lower 20 (drawText (Header pageNum) l2)))
    as (new & texts & Hnew & Hwhat & Hvis).
  exists texts. split; [|exact Hvis].
  rewrite drawn_breakIfLow. cbn [lower drawn]. rewrite Hnew.
  cbn [lower drawText drawn]. rewrite Hdrawn, <- app_assoc, !sectionsOf_app.
  cbn [fold_left app]. unfold addToSections at 2. cbn [what].
  apply (addLines new texts (sectionsOf (drawn l)) pageNum [] Hwhat).
Qed.

Lemma drawPages_sections (pagesMap : list (Z * list Segment.t)) (nums : list Z) :
  ∀ l, ∃ sections,
    sectionsOf (drawn (fold_left (drawPage pagesMap) nums l))
    = sectionsOf (drawn l) ++ sections
    ∧ List.map fst sections = nums
    ∧ Forall (λ section,
                visible (concat section.2)
                = visible (concat (List.map textOf
                                     (segmentsOfPage pagesMap section.1))))
             sections.
Proof.
  induction nums as [|n nums IH]; intros l.
  - exists []. rewrite app_nil_r. split; [reflexivity|]. split; [reflexivity|constructor].
  - cbn [fold_left].
    destruct (drawPage_section pagesMap l n) as (lines & Hsec & Hvis).
    destruct (IH (drawPage pagesMap l n)) as (sections & Hsecs & Hnums & Hall).
    exists ((n, lines) :: sections).
    split; [rewrite Hsecs, Hsec, <- app_assoc; reflexivity|].
    split; [cbn [List.map fst]; rewrite Hnums; reflexivity|].
    constructor; [exact Hvis|exact Hall].
Qed.

(** X20: the sections of the PDF that [reassemblePdf] builds (a header
    and the lines up to the next header).  There is one section for
    every page number that a segment has, a segment without page number
    counting for page 1, and the sections come in strictly ascending order
    of page number; the units that are not white space in the lines of a
    section are those of the texts of the segments of that page
    (translation, or original when there is none), taken in the order of
    the input: nothing visible is lost, repeated or moved to another
    page. *)
Theorem pdf_sections_follow_the_page_numbers (segments : list Segment.t) :
  let sections := sectionsOf (drawn (reassemblePdf segments)) in
  StronglySorted Z.lt (List.map fst sections)
  ∧ (∀ n, n ∈ List.map fst sections
          ↔ ∃ seg, seg ∈ segments ∧ pageOf seg = n)
  ∧ Forall (λ section,
              visible (concat section.2)
              = visible (concat (List.map textOf
                  (List.filter (λ seg, pageOf seg =? section.1) segments))))
           sections.
Proof.
  intros sections.
  destruct (groupByPage_keys segments) as [Hnd Hkeys].
  destruct (sortNums_spec _ Hnd) as [Hsorted Hin].
  destruct (drawPages_sections (groupByPage segments)
              (sortNums (List.map fst (groupByPage segments)))
              (mkLayout 1 (height - margin) []))
    as (secs & Hsecs & Hnums & Hall).
  assert (sections = secs) as -> by exact Hsecs.
  rewrite Hnums. split; [exact Hsorted|]. split.
  - intros n. rewrite Hin. apply Hkeys.
  - eapply Forall_impl; [exact Hall|]. intros [n lines] Hn. cbn [fst snd] in *.
    rewrite Hn, groupByPage_get. reflexivity.
Qed.
End page_facts.


(** ** Starting and deleting files *)

Section service_facts.
Variables File Blob : Type.
Variable reassembleFile : File → list Segment.t → option Blob.
Variable generateContent : nat → nat → jsstring → jsstring → ApiOutcome.
Variable random : nat → nat → Q.

Local Abbreviation processFile := (Backend.processFile File generateContent random).
Local Abbreviation generateDownload :=
  (Backend.generateDownload File Blob reassembleFile).
Local Abbreviation startProcessing := (Service.startProcessing File).
Local Abbreviation deleteFile := (Service.deleteFile File).
Local Abbreviation clearAll := (Service.clearAll File).

Lemma startProcessing_busy (fileId : jsstring) (range : option PageRange.t)
    (s : Service.t File) (job : FileJob.t) :
  jobs File (Service.backend File s) !! fileId = Some job →
  FileJob.status job ≠ JobIdle →
  startProcessing fileId range s = s.
Proof.
  intros Hjob Hbusy. unfold Service.startProcessing, Service.enqueue.
  rewrite Hjob. destruct (FileJob.status job); congruence.
Qed.

(** The part of a run before its first [await] writes the job of the
    file, which it leaves processing or completed, and nothing else of
    the store. *)
Lemma beginFile_store (b : Backend.t File) (fileId : jsstring) (job : FileJob.t) :
  jobs File b !! fileId = Some job →
  ∃ job',
    jobs File (beginFile File fileId b) = <[fileId := job']> (jobs File b)
    ∧ (FileJob.status job' = JobProcessing ∨ FileJob.status job' = JobCompleted)
    ∧ fileStorage File (beginFile File fileId b) = fileStorage File b.
Proof.
  intros Hjob. unfold beginFile. rewrite Hjob. cbv zeta.
  destruct (_ =? _)%nat.
  - unfold complete.
    destruct (checkBatchCompletion_store File
                (Backend.mk File (batchId File b)
                   (<[fileId := FileJob.set_progress 100
                        (FileJob.set_status JobCompleted
                           (FileJob.set_status JobProcessing job))]> (jobs File b))
                   (fileStorage File b)
                   (broadcast
                      (WebSocketMessage.mk FILE_COMPLETE None (Some fileId) None None
                         (Some (PayloadJob
                            (FileJob.set_progress 100
                               (FileJob.set_status JobCompleted
                                  (FileJob.set_status JobProcessing job))))))
                      (broadcast (progressMessage fileId 0 (Some JobProcessing))
                                 (trace File b)))))
      as (Hjobs & Hfiles & _).
    eexists. split; [exact Hjobs|]. split; [right; reflexivity|exact Hfiles].
  - destruct (announceFirst _ _ _ _ _ _ _ _) as [segs trace'].
    eexists. split; [reflexivity|]. split; [left; reflexivity|reflexivity].
Qed.

Lemma beginFile_missing (b : Backend.t File) (fileId : jsstring) :
  jobs File b !! fileId = None → beginFile File fileId b = b.
Proof. intros Hjob. unfold beginFile. rewrite Hjob. reflexivity. Qed.

(** After a call of [processQueue], up to its return, a job that was not
    idle is not idle, and the stored files are the same. *)
Lemma takeNext_store (fileId : jsstring) (queue : list jsstring) :
  ∀ (b : Backend.t File) (job : FileJob.t),
    jobs File b !! fileId = Some job →
    FileJob.status job ≠ JobIdle →
    (∃ job', jobs File (Service.backend File (Service.takeNext File queue b)) !! fileId
             = Some job'
             ∧ FileJob.status job' ≠ JobIdle)
    ∧ fileStorage File (Service.backend File (Service.takeNext File queue b))
      = fileStorage File b.
Proof.
  induction queue as [|head rest IH]; intros b job Hjob Hbusy;
    cbn [Service.takeNext]; [split; [eauto|reflexivity]|].
  destruct (truthy head); [|apply (IH b job Hjob Hbusy)].
  cbn [Service.backend].
  destruct (jobs File b !! head) as [other|] eqn:Hhead.
  - destruct (beginFile_store b head other Hhead) as (job' & -> & Hstatus & ->).
    split; [|reflexivity].
    destruct (decide (head = fileId)) as [->|Hne].
    + exists job'. split; [apply lookup_insert_eq|].
      destruct Hstatus as [-> | ->]; discriminate.
    + exists job. split; [|exact Hbusy].
      rewrite lookup_insert_ne by congruence. exact Hjob.
  - rewrite (beginFile_missing _ _ Hhead). split; [eauto|reflexivity].
Qed.

Lemma processQueue_store (s : Service.t File) (fileId : jsstring) (job : FileJob.t) :
  jobs File (Service.backend File s) !! fileId = Some job →
  FileJob.status job ≠ JobIdle →
  (∃ job', jobs File (Service.backend File (Service.processQueue File s)) !! fileId
           = Some job'
           ∧ FileJob.status job' ≠ JobIdle)
  ∧ fileStorage File (Service.backend File (Service.processQueue File s))
    = fileStorage File (Service.backend File s).
Proof.
  intros Hjob Hbusy. unfold Service.processQueue.
  destruct (_ || _); [split; [eauto|reflexivity]|].
  apply (takeNext_store fileId _ _ job Hjob Hbusy).
Qed.

Local Abbreviation loop := (Backend.loop generateContent random).
Local Abbreviation flush := (Backend.flush generateContent random).

Lemma flush_extends fileId lang total segment batch st :
  ∃ more,
    sent (flush fileId lang total segment batch st)
    = (forEachSegment (λ _ s, s) (translatingMessage fileId) 0 batch
         (alter (Segment.set_status SegTranslating) segment (segments st))
         (sent st)).2 ++ more.
Proof.
  unfold Backend.flush.
  destruct (forEachSegment (λ _ s, s) (translatingMessage fileId) 0 batch _ (sent st))
    as [segs trace] eqn:Hfirst.
  cbn [snd].
  set (result := translateTextSegment _ _ _ _).
  set (invoked := Invoked batch _ lang segs result).
  destruct (completion result) as [block|reason].
  - destruct (forEachSegment_messages (onTranslated (split block))
                (translatedMessage fileId) batch 0 segs (trace ++ [invoked]))
      as (emitted & Hsecond & _).
    destruct (forEachSegment _ _ 0 batch segs (trace ++ [invoked])) as [segs' trace'].
    cbn [snd] in Hsecond. subst trace'. cbn [sent]. unfold broadcast.
    rewrite <- !app_assoc. eexists. reflexivity.
  - destruct (forEachSegment_messages (λ _, onFailed)
                (warningMessage fileId) batch 0 segs (trace ++ [invoked]))
      as (emitted & Hsecond & _).
    destruct (forEachSegment _ _ 0 batch segs (trace ++ [invoked])) as [segs' trace'].
    cbn [snd] in Hsecond. subst trace'. cbn [sent]. unfold broadcast.
    rewrite <- !app_assoc. eexists. reflexivity.
Qed.

Lemma loop_extends fileId lang total :
  ∀ rest i st, ∃ more, sent (loop fileId lang total i rest st) = sent st ++ more.
Proof.
  induction rest as [|segment rest IH]; intros i st.
  - exists []. rewrite app_nil_r. reflexivity.
  - cbn [Backend.loop].
    destruct (IH (S i) (iteration generateContent random fileId lang total i segment st))
      as (more & ->).
    unfold iteration. destruct (_ || _).
    + destruct (flush_extends fileId lang total segment
                  (currentBatch st ++ [segment]) st) as (more1 & ->).
      destruct (forEachSegment_messages (λ _ s, s) (translatingMessage fileId)
                  (currentBatch st ++ [segment]) 0
                  (alter (Segment.set_status SegTranslating) segment (segments st))
                  (sent st)) as (emitted & -> & _).
      rewrite <- !app_assoc. eexists. reflexivity.
    + cbn [sent]. eexists. reflexivity.
Qed.

(** What a run has sent before its first [await] is the beginning of
    what it sends in all. *)
Lemma announceFirst_prefix fileId lang total :
  ∀ rest i batch charCount segs trace completed calls,
    ∃ more,
      sent (loop fileId lang total i rest
              (mkLoop segs trace batch charCount completed calls))
      = (announceFirst fileId total i rest batch charCount segs trace).2 ++ more.
Proof.
  induction rest as [|segment rest IH];
    intros i batch charCount segs trace completed calls.
  - exists []. rewrite app_nil_r. reflexivity.
  - cbn [Backend.loop announceFirst]. unfold iteration.
    cbn [currentBatch currentBatchCharCount segments sent Backend.completedWorkSegments
         Backend.calls].
    destruct (_ || _).
    + destruct (loop_extends fileId lang total rest (S i)
                  (flush fileId lang total segment (batch ++ [segment])
                     (mkLoop segs trace batch charCount completed calls)))
        as (more & ->).
      destruct (flush_extends fileId lang total segment (batch ++ [segment])
                  (mkLoop segs trace batch charCount completed calls))
        as (more1 & ->).
      cbn [segments sent]. rewrite <- app_assoc. eexists. reflexivity.
    + apply IH.
Qed.

Lemma beginFile_prefix (b : Backend.t File) (fileId : jsstring) :
  ∃ more,
    trace File (processFile fileId b) = trace File (beginFile File fileId b) ++ more.
Proof.
  unfold Backend.processFile, beginFile.
  destruct (jobs File b !! fileId) as [job|]; [|exists []; rewrite app_nil_r; reflexivity].
  cbv zeta. destruct (_ =? _)%nat; [exists []; rewrite app_nil_r; reflexivity|].
  destruct (announceFirst_prefix fileId
              (FileJob.targetLang (FileJob.set_status JobProcessing job))
              (length (segmentsToProcess (FileJob.set_status JobProcessing job)))
              (segmentsToProcess (FileJob.set_status JobProcessing job)) 0 [] 0
              (FileJob.segments (FileJob.set_status JobProcessing job))
              (broadcast (progressMessage fileId 0 (Some JobProcessing)) (trace File b))
              0 0%nat) as (more & Hmore).
  destruct (announceFirst _ _ _ _ _ _ _ _) as [segs trace'].
  cbn [snd] in Hmore. cbn [trace].
  set (st := Backend.loop _ _ _ _ _ _ _ _) in *.
  unfold complete, checkBatchCompletion.
  destruct (_ && _); cbn [trace]; unfold broadcast; rewrite Hmore, <- !app_assoc;
    eexists; reflexivity.
Qed.
(** X21: a call of [startProcessing] on an idle file, up to its return.
    The job gets the status queued (and the range, when one is given),
    the message of that is sent and the id goes to the end of the queue.
    With the processor busy that is all.  With the processor idle and
    the queue empty the id is taken off the queue again and the run of
    the file begins: the flag is raised, the job is processing, or
    completed when nothing is in its scope, and what has been sent is
    the beginning of what the run of the file sends.  In every case the
    stored files are the same, and the file cannot be started again: a
    second start changes nothing, neither when the first returns nor
    after the run of the file, whatever range it is given. *)
Theorem started_file_cannot_be_started_again (fileId : jsstring)
    (range range' : option PageRange.t) (s : Service.t File) (job : FileJob.t)
    (queue : list jsstring) (busy : bool) :
  jobs File (Service.backend File s) !! fileId = Some job →
  FileJob.status job = JobIdle →
  let s1 := startProcessing fileId range s in
  ∃ queued job0,
    Service.enqueue File fileId range s = Some queued
    ∧ jobs File (Service.backend File queued) !! fileId = Some job0
    ∧ FileJob.status job0 = JobQueued
    ∧ FileJob.selectedRange job0
      = match range with Some r => Some r | None => FileJob.selectedRange job end
    ∧ trace File (Service.backend File queued)
      = trace File (Service.backend File s)
          ++ [Emitted (WebSocketMessage.mk FILE_PROGRESS None (Some fileId) None
                         None (Some (PayloadProgress 0 (Some JobQueued) range)))]
    ∧ Service.fileQueue File queued = Service.fileQueue File s ++ [fileId]
    ∧ (Service.isProcessingFile File s = true → s1 = queued)
    ∧ (Service.isProcessingFile File s = false → Service.fileQueue File s = [] →
       truthy fileId = true →
       Service.fileQueue File s1 = []
       ∧ Service.isProcessingFile File s1 = true
       ∧ Service.backend File s1
         = beginFile File fileId (Service.backend File queued)
       ∧ (∃ job1, jobs File (Service.backend File s1) !! fileId = Some job1
                  ∧ (FileJob.status job1 = JobProcessing
                     ∨ FileJob.status job1 = JobCompleted))
       ∧ ∃ more, trace File (processFile fileId (Service.backend File queued))
                 = trace File (Service.backend File s1) ++ more)
    ∧ fileStorage File (Service.backend File s1)
      = fileStorage File (Service.backend File s)
    ∧ startProcessing fileId range' s1 = s1
    ∧ (let ran := Service.mk File (processFile fileId (Service.backend File queued))
                             queue busy in
       startProcessing fileId range' ran = ran).
Proof.
  intros Hjob Hidle s1.
  set (job0 := match range with
               | Some r => Service.set_selectedRange r (FileJob.set_status JobQueued job)
               | None => FileJob.set_status JobQueued job
               end).
  set (queued := Service.mk File
         (Backend.mk File (batchId File (Service.backend File s))
            (<[fileId := job0]> (jobs File (Service.backend File s)))
            (fileStorage File (Service.backend File s))
            (broadcast
               (WebSocketMessage.mk FILE_PROGRESS None (Some fileId) None None
                  (Some (PayloadProgress 0 (Some JobQueued) range)))
               (trace File (Service.backend File s))))
         (Service.fileQueue File s ++ [fileId])
         (Service.isProcessingFile File s)).
  assert (Henq : Service.enqueue File fileId range s = Some queued).
  { unfold Service.enqueue. rewrite Hjob, Hidle. reflexivity. }
  assert (Hs1 : s1 = Service.processQueue File queued).
  { unfold s1, Service.startProcessing. rewrite Henq. reflexivity. }
  assert (Hjob0 : jobs File (Service.backend File queued) !! fileId = Some job0)
    by apply lookup_insert_eq.
  assert (Hst0 : FileJob.status job0 = JobQueued) by (unfold job0; destruct range; reflexivity).
  destruct (processQueue_store queued fileId job0 Hjob0 ltac:(congruence))
    as ((job1 & Hjob1 & Hbusy1) & Hfiles1).
  rewrite <- Hs1 in Hjob1, Hfiles1.
  exists queued, job0.
  split; [exact Henq|]. split; [exact Hjob0|]. split; [exact Hst0|].
  split; [unfold job0; destruct range; reflexivity|].
  split; [reflexivity|]. split; [reflexivity|].
  split; [|split; [|split; [|split]]].
  - intros Hflag. rewrite Hs1. unfold Service.processQueue.
    cbn [queued Service.isProcessingFile]. rewrite Hflag. reflexivity.
  - intros Hflag Hempty Hid.
    assert (Hs1' : s1 = Service.mk File
                          (beginFile File fileId (Service.backend File queued)) [] true).
    { rewrite Hs1. unfold Service.processQueue.
      cbn [queued Service.isProcessingFile Service.fileQueue].
      rewrite Hflag, Hempty. cbn [app length Nat.eqb orb Service.takeNext].
      rewrite Hid. reflexivity. }
    rewrite Hs1'. cbn [Service.fileQueue Service.isProcessingFile Service.backend].
    split; [reflexivity|]. split; [reflexivity|]. split; [reflexivity|].
    split; [|apply beginFile_prefix].
    destruct (beginFile_store (Service.backend File queued) fileId job0 Hjob0)
      as (job' & -> & Hstatus & _).
    exists job'. split; [apply lookup_insert_eq | exact Hstatus].
  - exact Hfiles1.
  - apply (startProcessing_busy fileId range' s1 job1 Hjob1 Hbusy1).
  - cbv zeta.
    destruct (processFile_run File generateContent random
                (Service.backend File queued) fileId job0 Hjob0)
      as (job2 & Hjob2 & _ & Hdone & _).
    apply (startProcessing_busy fileId range'
             (Service.mk File (processFile fileId (Service.backend File queued))
                         queue busy) job2 Hjob2).
    congruence.
Qed.

(** X22: a deleted file is gone: it cannot be downloaded, a run or a start
    for it does nothing, deleting it again changes nothing; the queue is
    the queue of before without the occurrences of its id, the other ids
    in their order; the jobs, stored files and downloads of the other
    files are as before, and so is the flag of the processor; no message
    is sent.  After [clearAll] no file can be downloaded and the queue is
    empty. *)
Theorem deleted_file_is_gone (fileId : jsstring) (range : option PageRange.t)
    (s : Service.t File) :
  let s' := deleteFile fileId s in
  generateDownload fileId (Service.backend File s') = None
  ∧ processFile fileId (Service.backend File s') = Service.backend File s'
  ∧ startProcessing fileId range s' = s'
  ∧ deleteFile fileId s' = s'
  ∧ (fileId ∉ Service.fileQueue File s')
  ∧ Service.fileQueue File s'
    = List.filter (λ id, negb (bool_decide (id = fileId))) (Service.fileQueue File s)
  ∧ sublist (Service.fileQueue File s') (Service.fileQueue File s)
  ∧ (∀ other, other ≠ fileId →
       jobs File (Service.backend File s') !! other
       = jobs File (Service.backend File s) !! other
       ∧ fileStorage File (Service.backend File s') !! other
         = fileStorage File (Service.backend File s) !! other
       ∧ generateDownload other (Service.backend File s')
         = generateDownload other (Service.backend File s)
       ∧ (other ∈ Service.fileQueue File s' ↔ other ∈ Service.fileQueue File s)
       ∧ List.filter (λ id, bool_decide (id = other)) (Service.fileQueue File s')
         = List.filter (λ id, bool_decide (id = other)) (Service.fileQueue File s))
  ∧ Service.isProcessingFile File s' = Service.isProcessingFile File s
  ∧ trace File (Service.backend File s') = trace File (Service.backend File s)
  ∧ (∀ other, generateDownload other (Service.backend File (clearAll s)) = None)
  ∧ Service.fileQueue File (clearAll s) = [].
Proof.
  intros s'.
  assert (Hjob : jobs File (Service.backend File s') !! fileId = None)
    by apply lookup_delete_eq.
  split; [|split; [|split; [|split; [|split; [|split; [|split; [|split;
    [|split; [|split; [|split]]]]]]]]]].
  - unfold Backend.generateDownload. rewrite Hjob. reflexivity.
  - unfold Backend.processFile. rewrite Hjob. reflexivity.
  - unfold Service.startProcessing, Service.enqueue. rewrite Hjob. reflexivity.
  - unfold s', Service.deleteFile.
    cbn [Service.backend Service.fileQueue Service.isProcessingFile
         Backend.jobs Backend.fileStorage Backend.batchId Backend.trace].
    rewrite !delete_delete_eq. f_equal.
    induction (Service.fileQueue File s) as [|id q IH]; [reflexivity|].
    cbn [List.filter]. destruct (bool_decide (id = fileId)) eqn:Hid; cbn [negb].
    + exact IH.
    + cbn [List.filter]. rewrite Hid. cbn [negb]. f_equal. exact IH.
  - intros Hin. apply list_elem_of_In, filter_In in Hin as [_ Hne].
    rewrite bool_decide_eq_true_2 in Hne by reflexivity. discriminate.
  - reflexivity.
  - unfold s', Service.deleteFile. cbn [Service.fileQueue].
    induction (Service.fileQueue File s) as [|id q IH]; [constructor|].
    cbn [List.filter]. destruct (negb _); [apply sublist_skip|apply sublist_cons];
      exact IH.
  - intros other Hne.
    split; [|split; [|split; [|split]]].
    + apply lookup_delete_ne. congruence.
    + apply lookup_delete_ne. congruence.
    + unfold Backend.generateDownload, s', Service.deleteFile.
      cbn [Service.backend Backend.jobs Backend.fileStorage].
      rewrite !lookup_delete_ne by congruence. reflexivity.
    + unfold s', Service.deleteFile. cbn [Service.fileQueue].
      rewrite !list_elem_of_In, filter_In, negb_true_iff, bool_decide_eq_false.
      tauto.
    + unfold s', Service.deleteFile. cbn [Service.fileQueue].
      induction (Service.fileQueue File s) as [|id q IH]; [reflexivity|].
      cbn [List.filter].
      destruct (bool_decide_reflect (id = fileId)) as [->|Hid]; cbn [negb].
      * rewrite IH. rewrite bool_decide_eq_false_2 by congruence. reflexivity.
      * cbn [List.filter]. rewrite IH. reflexivity.
  - reflexivity.
  - reflexivity.
  - intros other. unfold Backend.generateDownload, Service.clearAll.
    cbn [Service.backend Backend.jobs]. rewrite lookup_empty. reflexivity.
  - reflexivity.
Qed.
End service_facts.


(** ** [tokenizeHtml] *)

Import Tokenizer.

Lemma Node_nested_ind (P : Node → Prop) :
  (∀ text, P (Text text)) →
  (∀ tagName dataPage childNodes,
     Forall P childNodes → P (Element tagName dataPage childNodes)) →
  P Other →
  ∀ node, P node.
Proof.
  intros HT HE HO. fix IH 1. intros [text|tagName dataPage childNodes|].
  - apply HT.
  - apply HE. induction childNodes as [|c cs IHcs]; constructor;
      [apply IH|exact IHcs].
  - exact HO.
Qed.

Section tokenizer_facts.
Variable fileId : jsstring.

(** What [traverse] adds to the state when the walk up the parents finds
    [found]. *)
Lemma traverse_spec (node : Node) :
  ∀ found st,
    ∃ new,
      (traverse fileId found node st).1 = st.1 ++ new
      ∧ (traverse fileId found node st).2 = (st.2 + length new)%nat
      ∧ (∀ j s, new !! j = Some s → numbered fileId (st.2 + j) s)
      ∧ (unpaged node = true →
         Forall (λ s, pageNumber s = pageFrom found) new)
      ∧ List.map original new = textsUnder node.
Proof.
  assert (Hnone : ∀ (st : list Pushed * nat) (P : Pushed → Prop),
    ∃ new : list Pushed,
      st.1 = st.1 ++ new ∧ st.2 = (st.2 + length new)%nat
      ∧ (∀ j s, new !! j = Some s → numbered fileId (st.2 + j) s)
      ∧ Forall P new ∧ List.map original new = []).
  { intros st P. exists []. rewrite app_nil_r. split; [reflexivity|].
    split; [simpl; lia|]. split; [intros j s H; discriminate|].
    split; [constructor|reflexivity]. }
  induction node as [text|tagName dataPage childNodes IH|] using Node_nested_ind;
    intros found st.
  - cbn [traverse textsUnder].
    destruct (truthy text && (0 <? length (trim text))%nat) eqn:Htext.
    + eexists. split; [reflexivity|]. cbn [snd length]. split; [lia|]. split.
      * intros [|j] s Hs; [|discriminate]. injection Hs as <-.
        rewrite Nat.add_0_r. unfold numbered.
        cbn [index id translated status original fst snd].
        split; [reflexivity|]. split; [reflexivity|]. split; [reflexivity|].
        split; [reflexivity|].
        apply andb_true_iff in Htext as [_ Hlen]. apply Nat.ltb_lt in Hlen.
        intros Hnil. rewrite Hnil in Hlen. simpl in Hlen. lia.
      * split; [|reflexivity]. intros _. constructor; [reflexivity|constructor].
    + destruct (Hnone st (λ s, pageNumber s = pageFrom found))
        as (new & H1 & H2 & H3 & H4 & H5).
      exists new. auto.
  - cbn [traverse textsUnder]. destruct (isSkipped tagName); cbn [negb].
    + destruct (Hnone st (λ s, pageNumber s = pageFrom found))
        as (new & H1 & H2 & H3 & H4 & H5).
      exists new. auto.
    + set (found' := match dataPage with Some val => Some val | None => found end).
      assert (Hfold : ∀ st,
        ∃ new,
          (fold_left (λ st child, traverse fileId found' child st) childNodes st).1
          = st.1 ++ new
          ∧ (fold_left (λ st child, traverse fileId found' child st) childNodes st).2
            = (st.2 + length new)%nat
          ∧ (∀ j s, new !! j = Some s → numbered fileId (st.2 + j) s)
          ∧ (forallb unpaged childNodes = true →
             Forall (λ s, pageNumber s = pageFrom found') new)
          ∧ List.map original new = flat_map textsUnder childNodes).
      { clear st. induction IH as [|child childNodes Hchild _ IHrest]; intros st.
        - destruct (Hnone st (λ s, pageNumber s = pageFrom found'))
            as (new & H1 & H2 & H3 & H4 & H5).
          exists new. auto.
        - cbn [fold_left forallb flat_map].
          destruct (Hchild found' st) as (new1 & H1 & Hn1 & Hnum1 & Hpage1 & Htext1).
          destruct (IHrest (traverse fileId found' child st))
            as (new2 & H2 & Hn2 & Hnum2 & Hpage2 & Htext2).
          exists (new1 ++ new2).
          split; [rewrite H2, H1, <- app_assoc; reflexivity|].
          split; [rewrite Hn2, Hn1, length_app; lia|]. split; [|split].
          + intros j s Hs. destruct (decide (j < length new1)%nat) as [Hj|Hj].
            * rewrite lookup_app_l in Hs by exact Hj. exact (Hnum1 j s Hs).
            * rewrite lookup_app_r in Hs by lia.
              specialize (Hnum2 _ _ Hs). rewrite Hn1 in Hnum2.
              replace (st.2 + j)%nat
                with (st.2 + length new1 + (j - length new1))%nat by lia.
              exact Hnum2.
          + intros [Hc Hcs]%andb_true_iff. apply Forall_app. auto.
          + rewrite List.map_app, Htext1, Htext2. reflexivity. }
      destruct (Hfold st) as (new & H1 & H2 & H3 & H4 & H5).
      exists new. split; [exact H1|]. split; [exact H2|]. split; [exact H3|].
      split; [|exact H5].
      cbn [unpaged]. intros [Hd Hcs]%andb_true_iff.
      destruct dataPage; [discriminate|]. exact (H4 Hcs).
  - destruct (Hnone st (λ s, pageNumber s = pageFrom found))
      as (new & H1 & H2 & H3 & H4 & H5).
    exists new. auto.
Qed.

Lemma lit_inj (a b : String.string) : lit a = lit b → a = b.
Proof.
  unfold lit. revert b. induction a as [|x a IH]; intros [|y b] H;
    try discriminate; [reflexivity|].
  cbn in H. injection H as Hxy Hab.
  apply (f_equal ascii_of_N) in Hxy. rewrite !ascii_N_embedding in Hxy.
  subst y. f_equal. apply IH. exact Hab.
Qed.

Lemma segmentId_inj (i j : nat) :
  segmentId fileId i = segmentId fileId j → i = j.
Proof.
  unfold segmentId, decimal. intros H.
  do 3 apply app_inv_head in H. apply lit_inj in H.
  apply DecimalNat.Unsigned.to_uint_inj.
  assert (Hnil : ∀ n, Nat.to_uint n ≠ Decimal.Nil).
  { intros n Hn. pose proof (DecimalNat.Unsigned.of_to n) as Hof.
    destruct n; [discriminate|]. rewrite Hn in Hof. discriminate. }
  pose proof (DecimalString.NilZero.usu _ (Hnil i)) as Hi.
  pose proof (DecimalString.NilZero.usu _ (Hnil j)) as Hj.
  rewrite H in Hi. congruence.
Qed.

(** X23: the segments that [tokenizeHtml] makes of a document are
    numbered: the segment at position [i] has the index [i] and the id
    [seg-<fileId>-<i>], an empty translation and the status pending, and
    its original text is not blank; no two segments have the same id. *)
Theorem tokenizeHtml_numbers_its_segments (above : option jsstring)
    (body : Node) :
  let segments := tokenizeHtml fileId above body in
  (∀ i s, segments !! i = Some s → numbered fileId i s)
  ∧ NoDup (List.map id segments).
Proof.
  intros segments.
  destruct (traverse_spec body above ([], 0%nat)) as (new & Hnew & _ & Hnum & _).
  cbn [fst snd app Nat.add] in Hnew, Hnum. fold (tokenizeHtml fileId above body) in Hnew.
  fold segments in Hnew. rewrite Hnew. split; [exact Hnum|].
  apply NoDup_alt. intros i j x Hi Hj.
  rewrite lookup_map in Hi, Hj.
  destruct (new !! i) as [s|] eqn:Hs; [|discriminate].
  destruct (new !! j) as [s'|] eqn:Hs'; [|discriminate].
  cbn in Hi, Hj. injection Hi as Hi. injection Hj as Hj.
  destruct (Hnum i s Hs) as (_ & Hid & _). destruct (Hnum j s' Hs') as (_ & Hid' & _).
  apply segmentId_inj. congruence.
Qed.

(** One step of [parseDigits] on the first digit of a printed numeral. *)
Ltac read_digit :=
  match goal with
  | |- context [lit (String ?c ?r)] =>
      change (lit (String c r)) with (N_of_ascii c :: lit r);
      let v := eval compute in (N_of_ascii c) in
      change (N_of_ascii c) with v;
      cbn [parseDigits]; unfold digitValue;
      change ((48 <=? v)%N && (v <=? 57)%N) with true; cbv iota;
      let k := eval compute in (Z.of_N v - 48) in
      change (Z.of_N v - 48) with k
  end.

Lemma parseDigits_uint (d : Decimal.uint) :
  ∀ acc, 0 ≤ acc →
    parseDigits (lit (DecimalString.NilEmpty.string_of_uint d)) (Some acc)
    = Some (Z.of_nat (Nat.of_uint_acc d (Z.to_nat acc))).
Proof.
  induction d as [|d IH|d IH|d IH|d IH|d IH|d IH|d IH|d IH|d IH|d IH];
    intros acc Hacc;
    [cbn; rewrite Z2Nat.id by exact Hacc; reflexivity|..];
    cbn [DecimalString.NilEmpty.string_of_uint Nat.of_uint_acc]; read_digit;
    change (default 0 (Some acc)) with acc; rewrite IH by lia; do 3 f_equal;
    rewrite Nat.tail_mul_spec; lia.
Qed.

Lemma parseInt_decimal (n : nat) :
  Z.of_nat n ≤ 2 ^ 53 →
  truthy (decimal n) = true ∧ parseInt (decimal n) = Page (Z.of_nat n).
Proof.
  intros Hn.
  assert (Hdouble : Qfloor (Double.round (inject_Z (Z.of_nat n))) = Z.of_nat n).
  { rewrite (Qfloor_comp _ _ (round_Z (Z.of_nat n) ltac:(lia))). apply Qfloor_Z. }
  assert (Hfinite : (2 ^ 1024 <=? Z.of_nat n) = false).
  { apply Z.leb_gt. apply Z.le_lt_trans with (2 ^ 53); [exact Hn|].
    apply Z.pow_lt_mono_r; lia. }
  unfold decimal. pose proof (DecimalNat.Unsigned.of_to n) as Hof.
  unfold Nat.of_uint in Hof.
  destruct (Nat.to_uint n) as [|d|d|d|d|d|d|d|d|d|d] eqn:Hd.
  { destruct n; [discriminate|]. cbn in Hof. discriminate. }
  all: cbn [DecimalString.NilZero.string_of_uint DecimalString.NilEmpty.string_of_uint];
    split; [reflexivity|]; unfold parseInt;
    match goal with
    | |- context [lit (String ?c ?r)] =>
        let v := eval compute in (N_of_ascii c) in
        change (lit (String c r)) with (v :: lit r);
        change (trimStart (v :: lit r)) with (v :: lit r);
        cbv beta iota zeta;
        cbn [parseDigits]; unfold digitValue;
        change ((48 <=? v)%N && (v <=? 57)%N) with true; cbv iota;
        let k := eval compute in (Z.of_N v - 48) in
        change (Z.of_N v - 48) with k
    end;
    change (default 0 None) with 0;
    rewrite parseDigits_uint by lia;
    match goal with
    | |- context [Nat.of_uint_acc ?d ?a] =>
        replace (Nat.of_uint_acc d a) with n
          by (rewrite <- Hof; cbn [Nat.of_uint_acc]; f_equal)
    end;
    rewrite Hdouble, Hfinite, Z.mul_1_l; reflexivity.
Qed.

(** X24: under an element with a [data-page] attribute that is the
    decimal numeral of [n], for [n] up to 2^53, with no element with such
    an attribute below it: the segments pushed are, in document order,
    the texts below it that are not blank and not inside a [script] or
    [style] element, one segment for each, and every one of them is
    pushed with the page number [n]; the segments that the rest of the
    program sees for them carry that page number. *)
Theorem text_under_a_page_gets_its_number (tagName : jsstring) (n : nat)
    (childNodes : list Node) (found : option jsstring)
    (st : list Pushed * nat) :
  isSkipped tagName = false →
  forallb unpaged childNodes = true →
  Z.of_nat n ≤ 2 ^ 53 →
  ∃ new,
    (traverse fileId found (Element tagName (Some (decimal n)) childNodes) st).1
    = st.1 ++ new
    ∧ List.map original new = flat_map textsUnder childNodes
    ∧ Forall (λ s, pageNumber s = Page (Z.of_nat n)
                   ∧ ∃ segment, toSegment s = Some segment
                                ∧ Segment.pageNumber segment = Some (Z.of_nat n)
                                ∧ Segment.original segment = original s)
             new.
Proof.
  intros Htag Hplain Hn.
  destruct (traverse_spec (Element tagName None childNodes)
              (Some (decimal n)) st) as (new & Hnew & _ & _ & Hpage & Htexts).
  exists new. split; [|split].
  - cbn [traverse] in Hnew |- *. rewrite Htag in Hnew |- *. exact Hnew.
  - cbn [textsUnder] in Htexts. rewrite Htag in Htexts. exact Htexts.
  - cbn [unpaged andb] in Hpage. specialize (Hpage Hplain).
    eapply Forall_impl; [exact Hpage|]. intros s Hs.
    unfold pageFrom in Hs. destruct (parseInt_decimal n Hn) as [Htruthy Hparse].
    rewrite Htruthy, Hparse in Hs. split; [exact Hs|].
    unfold toSegment. rewrite Hs. eexists. split; [reflexivity|]. split; reflexivity.
Qed.
End tokenizer_facts.


(** ** From the range fields to the download *)

Section range_facts.
Variables File Blob : Type.
Variable reassembleFile : File → list Segment.t → option Blob.
Variable generateContent : nat → nat → jsstring → jsstring → ApiOutcome.
Variable random : nat → nat → Q.

Local Abbreviation processFile := (Backend.processFile File generateContent random).
Local Abbreviation generateDownload :=
  (Backend.generateDownload File Blob reassembleFile).

(** X25: start, run and download with a range that the workbench accepts.
    For an idle job with a page count, a range with
    [0 < start <= end <= pageCount] is handed to [startProcessing], which
    stores it in the job; after the run of the file the download hands
    [reassembleFile] the stored file and the stored segments that are on
    a page of the range or have no page, in their order.  Every segment
    of the job keeps its position, id, index, original and page; those
    on a page of the range are in the download, completed or with a
    warning, none pending; those without page are in the download as
    they were at the start. *)
Theorem accepted_range_is_fully_processed (id : jsstring) (start end_ : Z)
    (pageCount : Z) (s : Service.t File) (job : FileJob.t) (file : File) :
  jobs File (Service.backend File s) !! id = Some job →
  fileStorage File (Service.backend File s) !! id = Some file →
  FileJob.status job = JobIdle →
  FileJob.pageCount job = Some pageCount →
  Workbench.rangeIsValid start end_ pageCount = true →
  let range := PageRange.mk start end_ in
  ∃ queued job',
    Workbench.handleStartOne id start end_ pageCount s
    = Service.startProcessing File id (Some range) s
    ∧ Service.enqueue File id (Some range) s = Some queued
    ∧ jobs File (processFile id (Service.backend File queued)) !! id = Some job'
    ∧ generateDownload id (processFile id (Service.backend File queued))
      = reassembleFile file
          (List.filter (inSelectedRange range) (FileJob.segments job'))
    ∧ length (FileJob.segments job') = length (FileJob.segments job)
    ∧ (∀ i seg, FileJob.segments job !! i = Some seg →
         ∃ seg', FileJob.segments job' !! i = Some seg'
                 ∧ fixedPart seg' = fixedPart seg
                 ∧ match Segment.pageNumber seg with
                   | Some n =>
                       start ≤ n ≤ end_ →
                       seg' ∈ List.filter (inSelectedRange range)
                                          (FileJob.segments job')
                       ∧ (Segment.status seg' = SegCompleted
                          ∨ Segment.status seg' = SegWarning)
                   | None =>
                       seg' = seg
                       ∧ seg' ∈ List.filter (inSelectedRange range)
                                            (FileJob.segments job')
                   end)
    ∧ (∀ seg', seg' ∈ List.filter (inSelectedRange range) (FileJob.segments job') →
               match Segment.pageNumber seg' with
               | Some n => start ≤ n ≤ end_
               | None => True
               end).
Proof.
  intros Hjob Hfile Hidle Hcount Hvalid range.
  pose proof Hvalid as Hvalid'.
  unfold Workbench.rangeIsValid in Hvalid.
  apply andb_true_iff in Hvalid as [Hvalid Hend].
  apply andb_true_iff in Hvalid as [Hpos Horder].
  apply Z.ltb_lt in Hpos. apply Z.leb_le in Horder, Hend.
  set (job1 := Service.set_selectedRange range (FileJob.set_status JobQueued job)).
  set (queued := Service.mk File
         (Backend.mk File (batchId File (Service.backend File s))
            (<[id := job1]> (jobs File (Service.backend File s)))
            (fileStorage File (Service.backend File s))
            (broadcast
               (WebSocketMessage.mk FILE_PROGRESS None (Some id) None None
                  (Some (PayloadProgress 0 (Some JobQueued) (Some range))))
               (trace File (Service.backend File s))))
         (Service.fileQueue File s ++ [id])
         (Service.isProcessingFile File s)).
  assert (Henq : Service.enqueue File id (Some range) s = Some queued).
  { unfold Service.enqueue. rewrite Hjob, Hidle. reflexivity. }
  assert (Hjob1 : jobs File (Service.backend File queued) !! id = Some job1)
    by apply lookup_insert_eq.
  assert (Hfile1 : fileStorage File (Service.backend File queued) !! id = Some file)
    by exact Hfile.
  assert (Hrange1 : FileJob.selectedRange job1 = Some range) by reflexivity.
  assert (Hcount1 : FileJob.pageCount job1 = Some pageCount) by exact Hcount.
  assert (Hnz : pageCount ≠ 0) by lia.
  set (ran := processFile id (Service.backend File queued)).
  destruct (processFile_store File generateContent random
              (Service.backend File queued) id job1 Hjob1)
    as (segs & Hjobs & Hfiles & _ & Hfixed).
  fold ran in Hjobs, Hfiles.
  set (job2 := FileJob.set_progress 100 (FileJob.set_status JobCompleted
                 (FileJob.set_segments segs job1))) in *.
  assert (Hjob2 : jobs File ran !! id = Some job2).
  { rewrite Hjobs. apply lookup_insert_eq. }
  destruct (processFile_outcome File generateContent random
              (Service.backend File queued) id job1 Hjob1)
    as (job' & steps & Hjob' & _ & _ & _ & Hlen & Hframe & _).
  fold ran in Hjob'. rewrite Hjob2 in Hjob'. injection Hjob' as <-.
  change (FileJob.segments job2) with segs in *.
  change (FileJob.segments job1) with (FileJob.segments job) in *.
  assert (Hkeep : ∀ i seg', segs !! i = Some seg' →
                            inSelectedRange range seg' = true →
                            seg' ∈ List.filter (inSelectedRange range) segs).
  { intros i seg' Hi Hin. apply list_elem_of_In, filter_In. split; [|exact Hin].
    apply list_elem_of_In, (list_elem_of_lookup_2 _ i). exact Hi. }
  exists queued, job2. fold ran. change (FileJob.segments job2) with segs.
  split.
  { unfold Workbench.handleStartOne. rewrite Hvalid'. reflexivity. }
  split; [exact Henq|]. split; [exact Hjob2|]. split.
  { unfold Backend.generateDownload. rewrite Hjob2, Hfiles, Hfile1. reflexivity. }
  split; [exact Hlen|]. split.
  - intros i seg Hseg.
    pose proof (Hfixed i) as Hfix. rewrite Hseg in Hfix.
    destruct (segs !! i) as [seg'|] eqn:Hi; [|discriminate].
    assert (Hfix' : fixedPart seg' = fixedPart seg)
      by (cbn [fmap option_fmap option_map] in Hfix; congruence).
    clear Hfix. rename Hfix' into Hfix.
    exists seg'. split; [first [exact Hi | reflexivity]|]. split; [exact Hfix|].
    assert (Hpage : Segment.pageNumber seg' = Segment.pageNumber seg).
    { unfold fixedPart in Hfix. congruence. }
    destruct (Segment.pageNumber seg) as [n|] eqn:Hn.
    + intros Hin. split.
      * apply (Hkeep i seg' Hi). unfold inSelectedRange. rewrite Hpage.
        apply andb_true_iff. split; apply Z.leb_le; cbn; lia.
      * assert (Hscope : i ∈ segmentsToProcess job1).
        { apply (segmentsToProcess_window job1 range pageCount i Hrange1 Hcount1 Hnz).
          exists seg, n. split; [exact Hseg|]. split; [exact Hn|].
          cbn [range PageRange.start PageRange.end_]. lia. }
        destruct (scope_in_batch File generateContent random
                    (Service.backend File queued) id job1 i Hjob1 Hscope)
          as (job' & batch & text & lang & store & result & k & s1 & Hjob' & _ & _
              & _ & Hfinal).
        fold ran in Hjob'. rewrite Hjob2 in Hjob'. injection Hjob' as <-.
        change (FileJob.segments job2) with segs in Hfinal.
        rewrite Hi in Hfinal. injection Hfinal as ->.
        pose proof (settle_outcome result k s1) as Hout.
        destruct (completion result); [left|right]; apply Hout.
    + assert (Hscope : i ∉ segmentsToProcess job1).
      { rewrite (segmentsToProcess_window job1 range pageCount i Hrange1 Hcount1 Hnz).
        intros (s' & n & Hs' & Hn' & _).
        change (FileJob.segments job1) with (FileJob.segments job) in Hs'.
        rewrite Hseg in Hs'. injection Hs' as <-. congruence. }
      specialize (Hframe i Hscope). rewrite Hi, Hseg in Hframe.
      injection Hframe as ->. split; [reflexivity|].
      apply (Hkeep i seg Hi). unfold inSelectedRange. rewrite Hn. reflexivity.
  - intros seg' Hin. apply list_elem_of_In, filter_In in Hin as [_ Hin].
    unfold inSelectedRange in Hin.
    destruct (Segment.pageNumber seg') as [n|]; [|exact I].
    apply andb_true_iff in Hin as [H1 H2]. apply Z.leb_le in H1, H2.
    cbn [range PageRange.start PageRange.end_] in H1, H2. lia.
Qed.
End range_facts.


Lemma drawn_text_stays_on_the_page_witness :
  Forall (λ d, (margin <= atY d)%Q ∧ (atY d <= 842 - margin)%Q
               ∧ (1 ≤ onPage d
                  ≤ pages (Pdf.reassemblePdf 595 842 monoWidth pagedSegments))%nat)
         (drawn (Pdf.reassemblePdf 595 842 monoWidth pagedSegments))
  ∧ ∀ i d1 d2,
      drawn (Pdf.reassemblePdf 595 842 monoWidth pagedSegments) !! i = Some d1 →
      drawn (Pdf.reassemblePdf 595 842 monoWidth pagedSegments) !! S i = Some d2 →
      (onPage d1 < onPage d2)%nat
      ∨ (onPage d1 = onPage d2 ∧ (atY d2 <= atY d1 - 17)%Q).
Proof.
  apply (drawn_text_stays_on_the_page 595 842 monoWidth).
  unfold Qle. simpl. lia.
Defined.

Lemma started_file_cannot_be_started_again_witness :
  Service.fileQueue unit (Service.startProcessing unit (lit "f") None idleService)
  = []
  ∧ Service.isProcessingFile unit
      (Service.startProcessing unit (lit "f") None idleService) = true
  ∧ Service.startProcessing unit (lit "f") (Some (PageRange.mk 1 1))
      (Service.startProcessing unit (lit "f") None idleService)
    = Service.startProcessing unit (lit "f") None idleService.
Proof.
  destruct (started_file_cannot_be_started_again unit echoRemote halfJitters
              (lit "f") None (Some (PageRange.mk 1 1)) idleService
              (FileJob.set_status JobIdle pairJob) [] false)
    as (queued & job0 & _ & _ & _ & _ & _ & _ & _ & Hidle & _ & Hagain & _).
  - vm_compute. reflexivity.
  - reflexivity.
  - destruct Hidle as (Hqueue & Hflag & _); [reflexivity..|].
    split; [exact Hqueue|]. split; [exact Hflag|exact Hagain].
Defined.

Lemma text_under_a_page_gets_its_number_witness :
  ∃ new,
    (Tokenizer.traverse (lit "f") None
       (Tokenizer.Element (lit "div") (Some (Tokenizer.decimal 3)) pageChildren)
       ([], 0%nat)).1
    = ([], 0%nat).1 ++ new
    ∧ List.map Tokenizer.original new = [lit "Hello"]
    ∧ Forall (λ s, Tokenizer.pageNumber s = Tokenizer.Page (Z.of_nat 3)
                   ∧ ∃ segment, Tokenizer.toSegment s = Some segment
                                ∧ Segment.pageNumber segment = Some (Z.of_nat 3)
                                ∧ Segment.original segment = Tokenizer.original s)
             new.
Proof.
  apply (text_under_a_page_gets_its_number (lit "f") (lit "div") 3 pageChildren
           None ([], 0%nat)).
  - vm_compute. reflexivity.
  - reflexivity.
  - vm_compute. discriminate.
Defined.

Lemma accepted_range_is_fully_processed_witness :
  ∃ queued job',
    Workbench.handleStartOne (lit "f") 2 3 3 idlePagedService
    = Service.startProcessing unit (lit "f") (Some (PageRange.mk 2 3))
                              idlePagedService
    ∧ Service.enqueue unit (lit "f") (Some (PageRange.mk 2 3)) idlePagedService
      = Some queued
    ∧ jobs unit (Backend.processFile unit echoRemote halfJitters (lit "f")
                   (Service.backend unit queued)) !! lit "f" = Some job'
    ∧ Backend.generateDownload unit (list Segment.t) keepSegments (lit "f")
        (Backend.processFile unit echoRemote halfJitters (lit "f")
           (Service.backend unit queued))
      = keepSegments tt
          (List.filter (inSelectedRange (PageRange.mk 2 3))
                       (FileJob.segments job')).
Proof.
  destruct (accepted_range_is_fully_processed unit (list Segment.t) keepSegments
              echoRemote halfJitters (lit "f") 2 3 3 idlePagedService
              (FileJob.set_status JobIdle
                 (jobOf [segmentOn 0 "one" (Some 1); segmentOn 1 "two" (Some 2);
                         segmentOn 2 "three" (Some 3); segmentOn 3 "nowhere" None]
                        (Some 3) None)) tt)
    as (queued & job' & Hcall & Henq & Hjob & Hdown & _).
  - vm_compute. reflexivity.
  - vm_compute. reflexivity.
  - reflexivity.
  - reflexivity.
  - reflexivity.
  - exists queued, job'. auto.
Defined.
